(** * Singly-linked-list exercises of [experiments/codesignal/linked_list]

    The Python programs work on [Node] objects ([utils.py]) that they relink
    in place.  The development models the object store as an arena of node
    records addressed by their index, a reference as an optional address
    ([None] is Python's [None]), and every function as a computation in a
    state-and-exception monad over the store.  Each [while] loop is a
    fixpoint on a step budget. *)

From Stdlib Require Import ZArith Lia Sorted.
From stdpp Require Import base list gmap.

Local Open Scope Z_scope.
Local Open Scope nat_scope.

(** ** The object store *)

Abbreviation loc := nat.
Abbreviation ptr := (option nat).

(** [class Node]: [self.value = x; self.next = None]. *)
Record Node := mkNode { value : Z; next : ptr }.

Abbreviation heap := (list Node).

Inductive result (A : Type) : Type :=
| Ok (a : A)
| Raise
| Diverge.
Arguments Ok {A} a.
Arguments Raise {A}.
Arguments Diverge {A}.

Definition M (A : Type) : Type := heap -> result A * heap.

Definition ret {A} (a : A) : M A := fun h => (Ok a, h).
Definition raise {A} : M A := fun h => (Raise, h).
Definition diverge {A} : M A := fun h => (Diverge, h).

Definition bind {A B} (m : M A) (k : A -> M B) : M B :=
  fun h =>
    match m h with
    | (Ok a, h') => k a h'
    | (Raise, h') => (Raise, h')
    | (Diverge, h') => (Diverge, h')
    end.

(** [try: m except: return v] *)
Definition try_except {A} (m : M A) (v : A) : M A :=
  fun h =>
    match m h with
    | (Raise, h') => (Ok v, h')
    | r => r
    end.

Notation "x <- c1 ;; c2" := (bind c1 (fun x => c2))
  (at level 100, c1 at next level, right associativity).
Notation "c1 ;; c2" := (bind c1 (fun _ => c2))
  (at level 100, right associativity).

(** Attribute reads and writes; an attribute of [None] raises. *)
Definition get_next (p : ptr) : M ptr := fun h =>
  match p with
  | None => (Raise, h)
  | Some l => match h !! l with
              | Some n => (Ok (next n), h)
              | None => (Raise, h)
              end
  end.

Definition get_value (p : ptr) : M Z := fun h =>
  match p with
  | None => (Raise, h)
  | Some l => match h !! l with
              | Some n => (Ok (value n), h)
              | None => (Raise, h)
              end
  end.

Definition set_next (p q : ptr) : M unit := fun h =>
  match p with
  | None => (Raise, h)
  | Some l => match h !! l with
              | Some n => (Ok tt, <[l := mkNode (value n) q]> h)
              | None => (Raise, h)
              end
  end.

(** [Node(x)] *)
Definition new_node (x : Z) : M ptr := fun h =>
  (Ok (Some (length h)), h ++ [mkNode x None]).

(** Truth value of a reference ([if p:], [while p:]) and identity
    comparison ([p == q] on objects without [__eq__]). *)
Definition truthy (p : ptr) : bool :=
  match p with Some _ => true | None => false end.

Definition ptr_eqb (p q : ptr) : bool := bool_decide (p = q).

(** ** utils.py *)

Fixpoint convertArrayToList_loop (array : list Z) (head tail : ptr) : M ptr :=
  match array with
  | [] => ret head
  | each :: array' =>
      newNode <- new_node each ;;
      if ptr_eqb head None then
        convertArrayToList_loop array' newNode newNode
      else
        set_next tail newNode ;;
        convertArrayToList_loop array' head newNode
  end.

Definition convertArrayToList (array : list Z) : M ptr :=
  convertArrayToList_loop array None None.

Fixpoint printList_loop (fuel : nat) (node : ptr) : M unit :=
  match fuel with
  | 0 => diverge
  | S fuel' =>
      if negb (ptr_eqb node None) then
        _ <- get_value node ;;
        node' <- get_next node ;;
        printList_loop fuel' node'
      else ret tt
  end.

Definition printList (fuel : nat) (head : ptr) : M unit :=
  printList_loop fuel head.

Fixpoint countNodes_loop (fuel : nat) (node : ptr) (i : Z) : M Z :=
  match fuel with
  | 0 => diverge
  | S fuel' =>
      if negb (ptr_eqb node None) then
        node' <- get_next node ;;
        countNodes_loop fuel' node' (i + 1)%Z
      else ret i
  end.

Definition countNodes (fuel : nat) (head : ptr) : M Z :=
  countNodes_loop fuel head 0%Z.

(** ** middle_list.py *)

Fixpoint middleNode2_loop (fuel : nat) (head tmp : ptr) : M ptr :=
  match fuel with
  | 0 => diverge
  | S fuel' =>
      c <- (if truthy tmp then tn <- get_next tmp ;; ret (truthy tn)
            else ret false) ;;
      if c : bool then
        head' <- get_next head ;;
        tn <- get_next tmp ;;
        tmp' <- get_next tn ;;
        middleNode2_loop fuel' head' tmp'
      else ret head
  end.

Definition middleNode2 (fuel : nat) (head : ptr) : M ptr :=
  middleNode2_loop fuel head head.

(** ** detect_cycle.py *)

Fixpoint detectCycle2_loop (fuel : nat) (slow fast : ptr) : M (ptr * bool) :=
  match fuel with
  | 0 => diverge
  | S fuel' =>
      if truthy fast && truthy slow then
        fn <- get_next fast ;;
        fast' <- get_next fn ;;
        slow' <- get_next slow ;;
        if ptr_eqb fast' slow' then ret (slow', true)
        else detectCycle2_loop fuel' slow' fast'
      else ret (slow, false)
  end.

Fixpoint detectCycle2_entry (fuel : nat) (node slow : ptr) : M ptr :=
  match fuel with
  | 0 => diverge
  | S fuel' =>
      if negb (ptr_eqb node slow) then
        node' <- get_next node ;;
        slow' <- get_next slow ;;
        detectCycle2_entry fuel' node' slow'
      else ret node
  end.

Definition detectCycle2 (fuel : nat) (head : ptr) : M ptr :=
  r <- try_except
         (r <- detectCycle2_loop fuel head head ;; ret (Some r))
         None ;;
  match r with
  | None => ret None
  | Some (slow, isCycle) =>
      if isCycle : bool then detectCycle2_entry fuel head slow
      else ret None
  end.

(** ** intersect.py *)

Fixpoint intersect_loop (fuel : nat) (headA headB a b : ptr) : M ptr :=
  match fuel with
  | 0 => diverge
  | S fuel' =>
      if negb (ptr_eqb a b) then
        a' <- (if ptr_eqb a None then ret headB else get_next a) ;;
        b' <- (if ptr_eqb b None then ret headA else get_next b) ;;
        intersect_loop fuel' headA headB a' b'
      else ret a
  end.

Definition intersect (fuel : nat) (headA headB : ptr) : M ptr :=
  intersect_loop fuel headA headB headA headB.

(** ** insertion_sort.py *)

Fixpoint insertNode_loop (fuel : nat) (node prev n : ptr) : M (ptr * ptr) :=
  match fuel with
  | 0 => diverge
  | S fuel' =>
      c <- (if truthy n then
              nv <- get_value n ;; v <- get_value node ;; ret (nv <? v)%Z
            else ret false) ;;
      if c : bool then
        n' <- get_next n ;;
        insertNode_loop fuel' node n n'
      else ret (prev, n)
  end.

Definition insertNode (fuel : nat) (head node : ptr) : M ptr :=
  if negb (truthy head) then
    set_next node None ;;
    ret node
  else
    r <- insertNode_loop fuel node None head ;;
    let (prev, n) := r : ptr * ptr in
    if negb (truthy prev) then
      set_next node head ;;
      ret node
    else
      set_next node n ;;
      set_next prev node ;;
      ret head.

Fixpoint insertionSort_loop (fuel0 fuel : nat) (newList head : ptr) : M ptr :=
  match fuel with
  | 0 => diverge
  | S fuel' =>
      if truthy head then
        n <- get_next head ;;
        newList' <- insertNode fuel0 newList head ;;
        insertionSort_loop fuel0 fuel' newList' n
      else ret newList
  end.

Definition insertionSort (fuel : nat) (head : ptr) : M ptr :=
  insertionSort_loop fuel fuel None head.

(** ** remove_nth_node.py *)

Fixpoint removeNthFromEnd2_loop (fuel : nat) (n : Z) (node prev nth : ptr)
    (i : Z) : M (ptr * ptr) :=
  match fuel with
  | 0 => diverge
  | S fuel' =>
      if negb (ptr_eqb node None) then
        r <- (if (i >? n)%Z then nth' <- get_next nth ;; ret (nth, nth')
              else ret (prev, nth)) ;;
        node' <- get_next node ;;
        removeNthFromEnd2_loop fuel' n node' (fst r) (snd r) (i + 1)%Z
      else ret (prev, nth)
  end.

Definition removeNthFromEnd2 (fuel : nat) (head : ptr) (n : Z) : M ptr :=
  r <- removeNthFromEnd2_loop fuel n head None head 1%Z ;;
  let (prev, nth) := r : ptr * ptr in
  if negb (truthy prev) then
    get_next nth
  else if negb (truthy nth) then
    set_next prev None ;;
    ret head
  else
    nn <- get_next nth ;;
    set_next prev nn ;;
    ret head.

Fixpoint removeNthFromBegining_loop (fuel : nat) (n : Z) (node prev : ptr)
    (i : Z) : M (ptr * ptr) :=
  match fuel with
  | 0 => diverge
  | S fuel' =>
      if negb (i =? n)%Z then
        node' <- get_next node ;;
        removeNthFromBegining_loop fuel' n node' node (i + 1)%Z
      else ret (prev, node)
  end.

Definition removeNthFromBegining (fuel : nat) (head : ptr) (n : Z) : M ptr :=
  r <- removeNthFromBegining_loop fuel n head None 1%Z ;;
  let (prev, node) := r : ptr * ptr in
  if negb (truthy prev) then
    get_next node
  else if negb (truthy node) then
    set_next prev None ;;
    ret head
  else
    nn <- get_next node ;;
    set_next prev nn ;;
    ret head.

Definition removeNthFronEnd (fuel : nat) (head : ptr) (n : Z) : M ptr :=
  N <- countNodes fuel head ;;
  removeNthFromBegining fuel head (N - n + 1)%Z.

(** ** remove_duplicates.py *)

Fixpoint removeDuplicates2_run (fuel : nat) (cur n : ptr) : M ptr :=
  match fuel with
  | 0 => diverge
  | S fuel' =>
      nn <- get_next n ;;
      c <- (if truthy nn then
              nv <- get_value nn ;; cv <- get_value cur ;; ret (nv =? cv)%Z
            else ret false) ;;
      if c : bool then
        n' <- get_next n ;;
        removeDuplicates2_run fuel' cur n'
      else ret n
  end.

Fixpoint removeDuplicates2_loop (fuel0 fuel : nat) (cur : ptr) : M unit :=
  match fuel with
  | 0 => diverge
  | S fuel' =>
      if negb (ptr_eqb cur None) then
        n <- removeDuplicates2_run fuel0 cur cur ;;
        if ptr_eqb cur n then
          cur' <- get_next cur ;;
          removeDuplicates2_loop fuel0 fuel' cur'
        else
          nn <- get_next n ;;
          set_next cur nn ;;
          removeDuplicates2_loop fuel0 fuel' cur
      else ret tt
  end.

Definition removeDuplicates2 (fuel : nat) (head : ptr) : M ptr :=
  if negb (truthy head) then ret head
  else
    removeDuplicates2_loop fuel fuel head ;;
    ret head.

(** ** partition_list.py *)

Fixpoint partition2_loop (fuel : nat) (value : Z) (head l r : ptr)
    : M (ptr * ptr) :=
  match fuel with
  | 0 => diverge
  | S fuel' =>
      if negb (ptr_eqb head None) then
        hv <- get_value head ;;
        lr <- (if (hv <? value)%Z then
                 set_next l head ;;
                 l' <- get_next l ;;
                 ret (l', r)
               else
                 set_next r head ;;
                 r' <- get_next r ;;
                 ret (l, r')) ;;
        head' <- get_next head ;;
        partition2_loop fuel' value head' (fst lr) (snd lr)
      else ret (l, r)
  end.

Definition partition2 (fuel : nat) (head : ptr) (value : Z) : M ptr :=
  left <- new_node 0 ;;
  right <- new_node 0 ;;
  lr <- partition2_loop fuel value head left right ;;
  let (l, r) := lr : ptr * ptr in
  rn <- get_next right ;;
  set_next l rn ;;
  set_next r None ;;
  get_next left.

(** ** build_linked_list.py *)

Module build_linked_list.

Fixpoint reverseList_loop (fuel : nat) (newList oldList : ptr) : M ptr :=
  match fuel with
  | 0 => diverge
  | S fuel' =>
      if negb (ptr_eqb oldList None) then
        let element := oldList in
        oldList' <- get_next oldList ;;
        set_next element newList ;;
        reverseList_loop fuel' element oldList'
      else ret newList
  end.

Definition reverseList (fuel : nat) (oldList : ptr) : M ptr :=
  reverseList_loop fuel None oldList.

Fixpoint reverseHeadToTail_loop (fuel : nat) (tailNext newList head : ptr)
    : M ptr :=
  match fuel with
  | 0 => diverge
  | S fuel' =>
      if negb (ptr_eqb head None) && negb (ptr_eqb head tailNext) then
        let element := head in
        head' <- get_next head ;;
        (if ptr_eqb newList None then set_next element tailNext
         else set_next element newList) ;;
        reverseHeadToTail_loop fuel' tailNext element head'
      else ret newList
  end.

Definition reverseHeadToTail (fuel : nat) (head tail : ptr) : M (ptr * ptr) :=
  _ <- get_value head ;;
  _ <- get_value tail ;;
  tailNext <- get_next tail ;;
  let oldHead := head in
  newList <- reverseHeadToTail_loop fuel tailNext None head ;;
  printList fuel newList ;;
  ret (newList, oldHead).

Fixpoint findTail_loop (fuel : nat) (head : ptr) (k : Z) (node : ptr) (i : Z)
    : M (ptr * bool) :=
  match fuel with
  | 0 => diverge
  | S fuel' =>
      if (i <? k)%Z then
        nn <- get_next node ;;
        if ptr_eqb nn None then ret (head, false)
        else
          node' <- get_next node ;;
          findTail_loop fuel' head k node' (i + 1)%Z
      else ret (node, true)
  end.

Definition findTail (fuel : nat) (head : ptr) (k : Z) : M (ptr * bool) :=
  if ptr_eqb head None then ret (None, false)
  else findTail_loop fuel head k head 1%Z.

Fixpoint reverseListKAtATime_loop (fuel0 fuel : nat) (k : Z)
    (firstTime : bool) (newHead firstHead prevTail : ptr) : M ptr :=
  match fuel with
  | 0 => diverge
  | S fuel' =>
      r <- findTail fuel0 newHead k ;;
      let (tail, tf) := r : ptr * bool in
      if negb (Bool.eqb tf false) then
        nextHead <- get_next tail ;;
        r2 <- reverseHeadToTail fuel0 newHead tail ;;
        let (newHead1, newTail) := r2 : ptr * ptr in
        _ <- get_value prevTail ;;
        if firstTime then
          reverseListKAtATime_loop fuel0 fuel' k false nextHead newHead1
            prevTail
        else
          set_next prevTail newHead1 ;;
          reverseListKAtATime_loop fuel0 fuel' k firstTime nextHead firstHead
            newTail
      else ret firstHead
  end.

Definition reverseListKAtATime (fuel : nat) (head : ptr) (k : Z) : M ptr :=
  reverseListKAtATime_loop fuel fuel k true head head head.

End build_linked_list.

(** ** palindrome.py *)

Module palindrome.

Fixpoint listLength_loop (fuel : nat) (head : ptr) (count : Z) : M Z :=
  match fuel with
  | 0 => diverge
  | S fuel' =>
      if truthy head then
        head' <- get_next head ;;
        listLength_loop fuel' head' (count + 1)%Z
      else ret count
  end.

Definition listLength (fuel : nat) (head : ptr) : M Z :=
  listLength_loop fuel head 0%Z.

Fixpoint getMid_loop (fuel : nat) (n1 n2 : ptr) : M ptr :=
  match fuel with
  | 0 => diverge
  | S fuel' =>
      c <- (if truthy n2 then nn <- get_next n2 ;; ret (truthy nn)
            else ret false) ;;
      if c : bool then
        n1' <- get_next n1 ;;
        nn <- get_next n2 ;;
        n2' <- get_next nn ;;
        getMid_loop fuel' n1' n2'
      else ret n1
  end.

Definition getMid (fuel : nat) (head : ptr) : M ptr :=
  getMid_loop fuel head head.

Fixpoint reverseList_loop (fuel : nat) (newList n : ptr) : M ptr :=
  match fuel with
  | 0 => diverge
  | S fuel' =>
      if truthy n then
        nxt <- get_next n ;;
        set_next n newList ;;
        reverseList_loop fuel' n nxt
      else ret newList
  end.

Definition reverseList (fuel : nat) (head : ptr) : M ptr :=
  reverseList_loop fuel None head.

Fixpoint isPalidrome_loop (fuel : nat) (head newList : ptr) : M bool :=
  match fuel with
  | 0 => diverge
  | S fuel' =>
      if truthy head && truthy newList then
        hv <- get_value head ;;
        nv <- get_value newList ;;
        if negb (hv =? nv)%Z then ret false
        else
          head' <- get_next head ;;
          newList' <- get_next newList ;;
          isPalidrome_loop fuel' head' newList'
      else ret true
  end.

Definition isPalidrome (fuel : nat) (head : ptr) : M bool :=
  midElement <- getMid fuel head ;;
  len <- listLength fuel head ;;
  midElement' <- (if (len mod 2 =? 1)%Z then get_next midElement
                  else ret midElement) ;;
  newList <- reverseList fuel midElement' ;;
  isPalidrome_loop fuel head newList.

End palindrome.

(** Values of the nodes reachable from a reference, as far as the budget
    goes; used to read results back. *)
Fixpoint to_values (fuel : nat) (h : heap) (p : ptr) : list Z :=
  match fuel, p with
  | S fuel', Some l =>
      match h !! l with
      | Some n => value n :: to_values fuel' h (next n)
      | None => []
      end
  | _, _ => []
  end.

Definition run_on {A} (array : list Z) (f : ptr -> M A) : result A * heap :=
  (head <- convertArrayToList array ;; f head) [].

Definition values_of (r : result ptr * heap) : option (list Z) :=
  match r with
  | (Ok p, h) => Some (to_values (length h) h p)
  | _ => None
  end.

(** ** Observations of the store *)

Definition val_of (h : heap) (l : loc) : Z :=
  match h !! l with Some n => value n | None => 0%Z end.

Definition next_of (h : heap) (l : loc) : ptr :=
  match h !! l with Some n => next n | None => None end.

(** The store after [l.next = q]. *)
Definition upd (h : heap) (l : loc) (q : ptr) : heap :=
  <[l := mkNode (val_of h l) q]> h.

(** [lseg h p ls q]: following [next] from [p] visits exactly the nodes
    [ls], in this order, and then arrives at [q]. *)
Fixpoint lseg (h : heap) (p : ptr) (ls : list loc) (q : ptr) : Prop :=
  match ls with
  | [] => p = q
  | l :: ls' => p = Some l /\ l < length h /\ lseg h (next_of h l) ls' q
  end.

(** An acyclic chain: the segment that ends in [None]. *)
Definition chain (h : heap) (p : ptr) (ls : list loc) : Prop :=
  lseg h p ls None.

(** A chain of the nodes [ls] whose tail's [next] refers back to the node
    at position [i]. *)
Definition cyclic_chain (h : heap) (p : ptr) (ls : list loc) (i : nat)
    : Prop :=
  NoDup ls /\ i < length ls /\ lseg h p ls (ls !! i).

(** Position in [ls] reached after [t] steps from the head of such a chain
    of [n] nodes. *)
Definition cpos (n i t : nat) : nat :=
  if t <? i then t else i + (t - i) mod (n - i).

Definition vals (h : heap) (ls : list loc) : list Z := map (val_of h) ls.

(** [frame ls h h']: the store [h'] has the nodes of [h] with their values,
    and only nodes of [ls] may have another [next]. *)
Record frame (ls : list loc) (h h' : heap) : Prop := mkFrame {
  frame_length : length h' = length h;
  frame_value : forall l, val_of h' l = val_of h l;
  frame_next : forall l, l ∉ ls -> next_of h' l = next_of h l
}.

(** ** Reference behaviour on node sequences *)

(** The nodes below the pivot, then the others, each group in the order of
    the input. *)
Definition stable_partition (v : loc -> Z) (pivot : Z) (ls : list loc)
    : list loc :=
  List.filter (fun l => (v l <? pivot)%Z) ls
  ++ List.filter (fun l => (pivot <=? v l)%Z) ls.

(** Insertion of node [x] in front of the first node whose value is not
    below its own, and the sort that inserts the input nodes one by one. *)
Fixpoint insert_before_ge (v : loc -> Z) (x : loc) (out : list loc)
    : list loc :=
  match out with
  | [] => [x]
  | y :: t =>
      if (v y <? v x)%Z then y :: insert_before_ge v x t else x :: y :: t
  end.

Definition insertion_sorted (v : loc -> Z) (done todo : list loc) : list loc :=
  fold_left (fun out x => insert_before_ge v x out) todo done.

(** One node per run of equal values: [dedup_from v c ls] drops the nodes
    of [ls] that continue a run of value [c]. *)
Fixpoint dedup_from (v : loc -> Z) (c : Z) (ls : list loc) : list loc :=
  match ls with
  | [] => []
  | y :: t =>
      if (v y =? c)%Z then dedup_from v c t else y :: dedup_from v (v y) t
  end.

Definition dedup_runs (v : loc -> Z) (ls : list loc) : list loc :=
  match ls with
  | [] => []
  | x :: t => x :: dedup_from v (v x) t
  end.

(** The reference before position [j] of a chain ([None] before the head). *)
Definition before (ls : list loc) (j : nat) : ptr :=
  match j with
  | 0 => None
  | S j' => ls !! j'
  end.

(** A small store with the chain 0 -> 1 -> 2 holding 1, 2, 3. *)
Definition heap123 : heap :=
  [mkNode 1 (Some 1); mkNode 2 (Some 2); mkNode 3 None].

(** The nodes 0 -> 1 -> 2 -> 3 with the tail referring back to node 1. *)
Definition heap_cycle : heap :=
  [mkNode 1 (Some 1); mkNode 2 (Some 2); mkNode 3 (Some 3); mkNode 4 (Some 1)].

(** [reverseListKAtATime] with k = 5 on the chain built from 1..10: the
    nodes have addresses 0..9 in input order. *)
Definition kgroups_1_10_by_5 : result ptr * heap :=
  run_on [1; 2; 3; 4; 5; 6; 7; 8; 9; 10]%Z
    (fun head => build_linked_list.reverseListKAtATime 11 head 5).

(** The chain 0 -> 1 holding 1, 1. *)
Definition heap11 : heap := [mkNode 1 (Some 1); mkNode 1 None].

(** The chain 0 -> 1 -> 2 holding 1, 1, 2. *)
Definition heap112 : heap :=
  [mkNode 1 (Some 1); mkNode 1 (Some 2); mkNode 2 None].

(** A computation that leaves every store as it finds it. *)
Definition readonly {A} (m : M A) : Prop := forall h, snd (m h) = h.

Create HintDb readonly.


(** ** Further functions of the same files *)

(** [buildList] of build_linked_list.py: every element is put in front. *)
Fixpoint buildList (array : list Z) (head : ptr) : M ptr :=
  match array with
  | [] => ret head
  | element :: array' =>
      newNode <- new_node element ;;
      if negb (ptr_eqb head None) then
        set_next newNode head ;;
        buildList array' newNode
      else buildList array' newNode
  end.

(** [getTail] of build_linked_list.py. *)
Fixpoint getTail_loop (fuel : nat) (node : ptr) : M ptr :=
  match fuel with
  | 0 => diverge
  | S fuel' =>
      nn <- get_next node ;;
      nnn <- get_next nn ;;
      if negb (ptr_eqb nnn None) then
        node' <- get_next node ;;
        getTail_loop fuel' node'
      else ret node
  end.

Definition getTail (fuel : nat) (head : ptr) : M ptr :=
  node <- getTail_loop fuel head ;;
  _ <- get_value node ;;
  ret node.

(** The chain 0 -> 1 -> 2 -> 3 holding 1, 2, 2, 1. *)
Definition heap1221 : heap :=
  [mkNode 1 (Some 1); mkNode 2 (Some 2); mkNode 2 (Some 3); mkNode 1 None].

(** ** cp_algos: gcd.py and binary_exponentiation.py

    Python integers are unbounded, [%] is the floor remainder ([Z.modulo])
    and [//] the floor quotient ([Z.div]); [raise] and a division by zero
    give [Raise]. *)

Module cp_algos.





Fixpoint big_number_mod_loop (fuel : nat) (a b c res : Z) : result Z :=
  match fuel with
  | 0 => Diverge
  | S fuel' =>
      if (b >? 0)%Z then
        let res' :=
          if negb (Z.land b 1 =? 0)%Z then (res * a mod c)%Z else res in
        big_number_mod_loop fuel' (a * a mod c)%Z (Z.shiftr b 1) c res'
      else Ok res
  end.

Definition big_number_mod (fuel : nat) (a b c : Z) : result Z :=
  if (b <? 0)%Z then Raise
  else if (c =? 1)%Z then Ok 0%Z
  else if (c =? 0)%Z then Raise
  else big_number_mod_loop fuel (a mod c)%Z b c 1%Z.

End cp_algos.

(** [detectCycle] of detect_cycle.py: [seen] is a set of node objects,
    compared by identity. *)
Fixpoint detectCycle_loop (fuel : nat) (seen : gset nat) (head : ptr) : M ptr :=
  match fuel with
  | 0 => diverge
  | S fuel' =>
      match head with
      | Some l =>
          if bool_decide (l ∈ seen) then ret head
          else
            head' <- get_next head ;;
            detectCycle_loop fuel' ({[l]} ∪ seen) head'
      | None => ret None
      end
  end.

Definition detectCycle (fuel : nat) (head : ptr) : M ptr :=
  detectCycle_loop fuel ∅ head.

(** ** rotate_list.py *)

Fixpoint removeAndReturnLastNode_loop (fuel : nat) (node prev : ptr)
    : M (ptr * ptr) :=
  match fuel with
  | 0 => diverge
  | S fuel' =>
      nn <- get_next node ;;
      if negb (ptr_eqb nn None) then
        node' <- get_next node ;;
        removeAndReturnLastNode_loop fuel' node' node
      else ret (node, prev)
  end.

Definition removeAndReturnLastNode (fuel : nat) (head : ptr) : M ptr :=
  r <- removeAndReturnLastNode_loop fuel head None ;;
  let (node, prev) := r : ptr * ptr in
  if negb (truthy prev) then ret node
  else
    set_next prev None ;;
    ret node.

Definition rotateOnce (fuel : nat) (head : ptr) : M ptr :=
  node <- removeAndReturnLastNode fuel head ;;
  set_next node head ;;
  ret node.

(** [for i in range(count): head = rotateOnce(head)] *)
Fixpoint rotate_for (fuel : nat) (count : nat) (head : ptr) : M ptr :=
  match count with
  | 0 => ret head
  | S count' =>
      head' <- rotateOnce fuel head ;;
      rotate_for fuel count' head'
  end.

Definition rotate (fuel : nat) (head : ptr) (k : Z) : M ptr :=
  n <- countNodes fuel head ;;
  if (n =? 0)%Z || (n =? 1)%Z then ret head
  else rotate_for fuel (Z.to_nat (k mod n)) head.

(** ** rearrange_last_n.py *)

Fixpoint rearrangeLastN_loop (fuel : nat) (n : Z) (node nth prev prev2 : ptr)
    (i : Z) : M (ptr * ptr * ptr) :=
  match fuel with
  | 0 => diverge
  | S fuel' =>
      if negb (ptr_eqb node None) then
        r <- (if (i >? n)%Z then nth' <- get_next nth ;; ret (nth, nth')
              else ret (prev, nth)) ;;
        node' <- get_next node ;;
        rearrangeLastN_loop fuel' n node' (snd r) (fst r) node (i + 1)%Z
      else ret (nth, prev, prev2)
  end.

Definition rearrangeLastN (fuel : nat) (l : ptr) (n : Z) : M ptr :=
  if (n =? 0)%Z then ret l
  else
    r <- rearrangeLastN_loop fuel n l l None None 1%Z ;;
    let '(nth, prev, prev2) := r in
    if negb (truthy prev) then ret l
    else
      set_next prev None ;;
      set_next prev2 l ;;
      ret nth.

(** ** remove_duplicates.py: [removeDuplicates] *)

Fixpoint removeDuplicates_run (fuel : nat) (cur : ptr) : M ptr :=
  match fuel with
  | 0 => diverge
  | S fuel' =>
      cn <- get_next cur ;;
      c <- (if truthy cn then
              cv <- get_value cur ;;
              cn' <- get_next cur ;;
              nv <- get_value cn' ;;
              ret (cv =? nv)%Z
            else ret false) ;;
      if c : bool then
        cur' <- get_next cur ;;
        removeDuplicates_run fuel' cur'
      else ret cur
  end.

Fixpoint removeDuplicates_loop (fuel0 fuel : nat) (pre cur : ptr) : M unit :=
  match fuel with
  | 0 => diverge
  | S fuel' =>
      if negb (ptr_eqb cur None) then
        cur1 <- removeDuplicates_run fuel0 cur ;;
        pn <- get_next pre ;;
        pre' <- (if ptr_eqb pn cur1 then get_next pre
                 else
                   cn <- get_next cur1 ;;
                   set_next pre cn ;;
                   ret pre) ;;
        cur' <- get_next cur1 ;;
        removeDuplicates_loop fuel0 fuel' pre' cur'
      else ret tt
  end.

Definition removeDuplicates (fuel : nat) (head : ptr) : M ptr :=
  if negb (truthy head) then ret head
  else
    fakeHead <- new_node 0 ;;
    set_next fakeHead head ;;
    removeDuplicates_loop fuel fuel fakeHead head ;;
    get_next fakeHead.

(** The nodes whose value differs from the value of the node before them
    (value [prev], when there is one) and of the node after them. *)
Fixpoint singles (v : loc -> Z) (prev : option Z) (ls : list loc) : list loc :=
  match ls with
  | [] => []
  | x :: t =>
      let dup_prev :=
        match prev with Some c => (c =? v x)%Z | None => false end in
      let dup_next :=
        match t with y :: _ => (v y =? v x)%Z | [] => false end in
      if dup_prev || dup_next then singles v (Some (v x)) t
      else x :: singles v (Some (v x)) t
  end.

(** ** partition_list.py: [partition] *)

Fixpoint partition_loop (fuel : nat) (value : Z) (head cur prev n : ptr)
    : M (ptr * ptr) :=
  match fuel with
  | 0 => diverge
  | S fuel' =>
      if negb (ptr_eqb cur None) then
        cv <- get_value cur ;;
        if (cv >=? value)%Z then
          let node := cur in
          hc <- (if truthy prev then
                   nn <- get_next node ;;
                   set_next prev nn ;;
                   cur' <- get_next node ;;
                   ret (head, cur')
                 else
                   head' <- get_next head ;;
                   ret (head', head')) ;;
          set_next node None ;;
          set_next n node ;;
          partition_loop fuel' value (fst hc) (snd hc) prev node
        else
          cur' <- get_next cur ;;
          partition_loop fuel' value head cur' cur n
      else ret (head, prev)
  end.

Definition partition (fuel : nat) (head : ptr) (value : Z) : M ptr :=
  if negb (truthy head) then ret head
  else
    newHead <- new_node 0 ;;
    hp <- partition_loop fuel value head head None newHead ;;
    let (head', prev) := hp : ptr * ptr in
    if truthy prev then
      nh <- get_next newHead ;;
      set_next prev nh ;;
      ret head'
    else get_next newHead.

(** ** middle_list.py: [middleNode] *)

Fixpoint middleNode_count (fuel : nat) (n : ptr) (count : Z) : M Z :=
  match fuel with
  | 0 => diverge
  | S fuel' =>
      if truthy n then
        n' <- get_next n ;;
        middleNode_count fuel' n' (count + 1)%Z
      else ret count
  end.

Fixpoint middleNode_find (fuel : nat) (mid i : Z) (head : ptr) : M ptr :=
  match fuel with
  | 0 => diverge
  | S fuel' =>
      if truthy head then
        if (i =? mid)%Z then ret head
        else
          head' <- get_next head ;;
          middleNode_find fuel' mid (i + 1)%Z head'
      else ret None
  end.

(** [int((count / 2) + 1)] divides in double precision; for a count below
    2^53 the quotient and the sum are exact and [int] drops the half, which
    is the value computed here.  The property below is stated for such
    counts. *)
Definition middleNode (fuel : nat) (head : ptr) : M ptr :=
  count <- middleNode_count fuel head 0%Z ;;
  let mid := (count / 2 + 1)%Z in
  middleNode_find fuel mid 1%Z head.

(** ** reverse_linked_list2.py *)

Module reverse_linked_list2.

Fixpoint reverseList_loop (fuel : nat) (head tail newList : ptr) : M ptr :=
  match fuel with
  | 0 => diverge
  | S fuel' =>
      if negb (ptr_eqb head tail) then
        let element := head in
        head' <- get_next head ;;
        set_next element newList ;;
        reverseList_loop fuel' head' tail element
      else ret newList
  end.

Definition reverseList (fuel : nat) (head tail : ptr) : M (ptr * ptr) :=
  let lastElement := head in
  newList <- reverseList_loop fuel head tail None ;;
  set_next tail newList ;;
  ret (tail, lastElement).

(** The loop of [reverseBetween]; the result is [(node1, (node2, prev2))]. *)
Fixpoint reverseBetween_loop (fuel : nat) (m n : Z) (node1 node2 prev2 : ptr)
    (i : Z) : M (ptr * (ptr * ptr)) :=
  match fuel with
  | 0 => diverge
  | S fuel' =>
      if truthy node1 then
        let i := (i + 1)%Z in
        np <- (if (i >? n - m + 1)%Z then
                 node2' <- get_next node2 ;;
                 ret (node2', node2)
               else ret (node2, prev2)) ;;
        node1' <- get_next node1 ;;
        if (i =? n)%Z then ret (node1', np)
        else reverseBetween_loop fuel' m n node1' (fst np) (snd np) i
      else ret (node1, (node2, prev2))
  end.

Definition reverseBetween (fuel : nat) (head : ptr) (m n : Z) : M ptr :=
  if (m =? n)%Z then ret head
  else
    r <- reverseBetween_loop fuel m n head head None 1%Z ;;
    let node1 := fst r in
    let node2 := fst (snd r) in
    let prev2 := snd (snd r) in
    nn <- get_next node1 ;;
    node1next <- (if truthy nn then get_next node1 else ret None) ;;
    ht <- reverseList fuel node2 node1 ;;
    head' <- (if truthy prev2 then
                set_next prev2 (fst ht) ;;
                ret head
              else ret (fst ht)) ;;
    set_next (snd ht) node1next ;;
    ret head'.

End reverse_linked_list2.

(** ** linked_list.py *)

Module linked_list.

(** A [MyLinkedList] object: its fields [head] and [length].  A [ListNode]
    has the fields [val] and [next]; it is stored as a [Node]. *)
Record MyLinkedList := mkMyLinkedList {
  self_head : ptr;
  self_length : Z
}.

Fixpoint get_loop (fuel : nat) (index : Z) (n : ptr) (count : Z) : M ptr :=
  match fuel with
  | 0 => diverge
  | S fuel' =>
      if negb (index =? count)%Z then
        n' <- get_next n ;;
        get_loop fuel' index n' (count + 1)%Z
      else ret n
  end.

Definition get (fuel : nat) (self : MyLinkedList) (index : Z) : M Z :=
  if (index + 1 >? self_length self)%Z || (self_length self =? 0)%Z
  then ret (-1)%Z
  else
    n <- get_loop fuel index (self_head self) 0%Z ;;
    get_value n.

Definition addAtHead (self : MyLinkedList) (val : Z) : M MyLinkedList :=
  node <- new_node val ;;
  if (self_length self =? 0)%Z then
    ret (mkMyLinkedList node (self_length self + 1))
  else
    set_next node (self_head self) ;;
    ret (mkMyLinkedList node (self_length self + 1)).

Fixpoint addAtTail_loop (fuel : nat) (n prev : ptr) : M ptr :=
  match fuel with
  | 0 => diverge
  | S fuel' =>
      if truthy n then
        n' <- get_next n ;;
        addAtTail_loop fuel' n' n
      else ret prev
  end.

Definition addAtTail (fuel : nat) (self : MyLinkedList) (val : Z)
    : M MyLinkedList :=
  node <- new_node val ;;
  if (self_length self =? 0)%Z then
    ret (mkMyLinkedList node (self_length self + 1))
  else
    prev <- addAtTail_loop fuel (self_head self) None ;;
    set_next prev node ;;
    ret (mkMyLinkedList (self_head self) (self_length self + 1)).

(** The loop of [addAtIndex] and [deleteAtIndex]; the result is
    [(prev, n)]. *)
Fixpoint walk_loop (fuel : nat) (index : Z) (prev n : ptr) (count : Z)
    : M (ptr * ptr) :=
  match fuel with
  | 0 => diverge
  | S fuel' =>
      if negb (count =? index)%Z then
        n' <- get_next n ;;
        walk_loop fuel' index n n' (count + 1)%Z
      else ret (prev, n)
  end.

Definition addAtIndex (fuel : nat) (self : MyLinkedList) (index val : Z)
    : M MyLinkedList :=
  if (index =? self_length self)%Z then addAtTail fuel self val
  else if (index =? 0)%Z then addAtHead self val
  else if (index <? self_length self)%Z then
    node <- new_node val ;;
    pn <- walk_loop fuel index None (self_head self) 0%Z ;;
    set_next (fst pn) node ;;
    set_next node (snd pn) ;;
    ret (mkMyLinkedList (self_head self) (self_length self + 1))
  else ret self.

Definition deleteAtIndex (fuel : nat) (self : MyLinkedList) (index : Z)
    : M MyLinkedList :=
  if (index + 1 <=? self_length self)%Z then
    pn <- walk_loop fuel index None (self_head self) 0%Z ;;
    if negb (truthy (fst pn)) then
      hn <- get_next (self_head self) ;;
      ret (mkMyLinkedList hn (self_length self - 1))
    else
      nn <- get_next (snd pn) ;;
      set_next (fst pn) nn ;;
      ret (mkMyLinkedList (self_head self) (self_length self - 1))
  else ret self.

(** The object [self] represents the node sequence [ls] in store [h]. *)
Definition rep (h : heap) (self : MyLinkedList) (ls : list loc) : Prop :=
  chain h (self_head self) ls /\ self_length self = Z.of_nat (length ls).

End linked_list.

(** ** reorder_list.py *)

Fixpoint reorderList_middle (fuel : nat) (p1 p2 : ptr) : M ptr :=
  match fuel with
  | 0 => diverge
  | S fuel' =>
      p2n <- get_next p2 ;;
      c <- (if truthy p2n then
              p2n' <- get_next p2 ;;
              p2nn <- get_next p2n' ;;
              ret (truthy p2nn)
            else ret false) ;;
      if c : bool then
        p1' <- get_next p1 ;;
        p2n' <- get_next p2 ;;
        p2' <- get_next p2n' ;;
        reorderList_middle fuel' p1' p2'
      else ret p1
  end.

Fixpoint reorderList_reverse (fuel : nat) (preMiddle preCurrent : ptr)
    : M unit :=
  match fuel with
  | 0 => diverge
  | S fuel' =>
      pcn <- get_next preCurrent ;;
      if truthy pcn then
        current <- get_next preCurrent ;;
        cn <- get_next current ;;
        set_next preCurrent cn ;;
        pmn <- get_next preMiddle ;;
        set_next current pmn ;;
        set_next preMiddle current ;;
        reorderList_reverse fuel' preMiddle preCurrent
      else ret tt
  end.

Fixpoint reorderList_merge (fuel : nat) (preMiddle p1 p2 : ptr) : M unit :=
  match fuel with
  | 0 => diverge
  | S fuel' =>
      if negb (ptr_eqb p1 preMiddle) then
        p2n <- get_next p2 ;;
        set_next preMiddle p2n ;;
        p1n <- get_next p1 ;;
        set_next p2 p1n ;;
        set_next p1 p2 ;;
        p1' <- get_next p2 ;;
        p2' <- get_next preMiddle ;;
        reorderList_merge fuel' preMiddle p1' p2'
      else ret tt
  end.

Definition reorderList (fuel : nat) (head : ptr) : M ptr :=
  c <- (if negb (truthy head) then ret true
        else hn <- get_next head ;; ret (negb (truthy hn))) ;;
  if c : bool then ret head
  else
    preMiddle <- reorderList_middle fuel head head ;;
    preCurrent <- get_next preMiddle ;;
    reorderList_reverse fuel preMiddle preCurrent ;;
    printList fuel head ;;
    p2 <- get_next preMiddle ;;
    reorderList_merge fuel preMiddle head p2 ;;
    ret head.

(** The nodes of [a] and [b] taken in turn, starting with [a]. *)
Fixpoint interleave (a b : list loc) : list loc :=
  match a, b with
  | x :: a', y :: b' => x :: y :: interleave a' b'
  | _, [] => a
  | [], _ => b
  end.
Section store_lemmas.

Implicit Types (h : heap) (l : loc) (p q : ptr) (ls : list loc).

Lemma get_next_ok h l :
  l < length h -> get_next (Some l) h = (Ok (next_of h l), h).
Proof.
  intros Hl. unfold get_next, next_of.
  destruct (lookup_lt_is_Some_2 h l Hl) as [n ->]. reflexivity.
Qed.

Lemma get_value_ok h l :
  l < length h -> get_value (Some l) h = (Ok (val_of h l), h).
Proof.
  intros Hl. unfold get_value, val_of.
  destruct (lookup_lt_is_Some_2 h l Hl) as [n ->]. reflexivity.
Qed.

Lemma set_next_ok h l q :
  l < length h -> set_next (Some l) q h = (Ok tt, upd h l q).
Proof.
  intros Hl. unfold set_next, upd, val_of.
  destruct (lookup_lt_is_Some_2 h l Hl) as [n ->]. reflexivity.
Qed.

Lemma length_upd h l q : length (upd h l q) = length h.
Proof. unfold upd. apply length_insert. Qed.

Lemma val_of_upd h l q l' : val_of (upd h l q) l' = val_of h l'.
Proof.
  unfold upd. destruct (decide (l = l')) as [<-|Hne].
  - destruct (decide (l < length h)) as [Hl|Hl].
    + unfold val_of at 1. rewrite list_lookup_insert_eq by exact Hl. reflexivity.
    + rewrite list_insert_ge by lia. reflexivity.
  - unfold val_of at 1 3. rewrite list_lookup_insert_ne by exact Hne. reflexivity.
Qed.

Lemma next_of_upd_eq h l q : l < length h -> next_of (upd h l q) l = q.
Proof.
  intros Hl. unfold upd, next_of.
  rewrite list_lookup_insert_eq by exact Hl. reflexivity.
Qed.

Lemma next_of_upd_ne h l q l' : l <> l' -> next_of (upd h l q) l' = next_of h l'.
Proof.
  intros Hne. unfold upd, next_of.
  rewrite list_lookup_insert_ne by exact Hne. reflexivity.
Qed.

Lemma bind_ret {A B} (a : A) (k : A -> M B) h : (x <- ret a ;; k x) h = k a h.
Proof. reflexivity. Qed.

Lemma bind_get_next {B} l (k : ptr -> M B) h :
  l < length h -> (x <- get_next (Some l) ;; k x) h = k (next_of h l) h.
Proof. intros Hl. unfold bind. rewrite get_next_ok by exact Hl. reflexivity. Qed.

Lemma bind_get_value {B} l (k : Z -> M B) h :
  l < length h -> (x <- get_value (Some l) ;; k x) h = k (val_of h l) h.
Proof. intros Hl. unfold bind. rewrite get_value_ok by exact Hl. reflexivity. Qed.

Lemma bind_set_next {B} l q (k : unit -> M B) h :
  l < length h -> (x <- set_next (Some l) q ;; k x) h = k tt (upd h l q).
Proof. intros Hl. unfold bind. rewrite set_next_ok by exact Hl. reflexivity. Qed.

Lemma bind_assoc {A B C} (m : M A) (f : A -> M B) (g : B -> M C) h :
  (y <- (x <- m ;; f x) ;; g y) h = (x <- m ;; y <- f x ;; g y) h.
Proof. unfold bind. destruct (m h) as [[a| |] h1]; reflexivity. Qed.

Lemma bind_eq {A B} (m : M A) (k : A -> M B) h a h' :
  m h = (Ok a, h') -> (x <- m ;; k x) h = k a h'.
Proof. intros E. unfold bind. rewrite E. reflexivity. Qed.

Lemma ptr_eqb_refl p : ptr_eqb p p = true.
Proof. unfold ptr_eqb. apply bool_decide_eq_true. reflexivity. Qed.

Lemma ptr_eqb_Some_None l : ptr_eqb (Some l) None = false.
Proof. reflexivity. Qed.

Lemma ptr_eqb_ne p q : p <> q -> ptr_eqb p q = false.
Proof. intros H. unfold ptr_eqb. apply bool_decide_eq_false. exact H. Qed.

Lemma ptr_eqb_None p : ptr_eqb p None = negb (truthy p).
Proof. destruct p; reflexivity. Qed.

(** *** Segments *)

Lemma lseg_app h p q a b :
  lseg h p (a ++ b) q <-> exists r, lseg h p a r /\ lseg h r b q.
Proof.
  revert p. induction a as [|x a IH]; intros p; simpl.
  - split.
    + intros H. exists p. split; [reflexivity | exact H].
    + intros (r & -> & H). exact H.
  - split.
    + intros (-> & Hx & H). apply IH in H as (r & Ha & Hb).
      exists r. repeat split; assumption.
    + intros (r & (-> & Hx & Ha) & Hb). repeat split; try assumption.
      apply IH. exists r. split; assumption.
Qed.

Lemma lseg_snoc h p q a x :
  lseg h p (a ++ [x]) q <->
  lseg h p a (Some x) /\ x < length h /\ next_of h x = q.
Proof.
  rewrite lseg_app. simpl. split.
  - intros (r & Ha & -> & Hx & Hq). repeat split; assumption.
  - intros (Ha & Hx & Hq). exists (Some x). repeat split; assumption.
Qed.

Lemma lseg_alloc h p q ls l : lseg h p ls q -> l ∈ ls -> l < length h.
Proof.
  revert p. induction ls as [|x ls IH]; intros p H Hin.
  - inversion Hin.
  - destruct H as (-> & Hx & H). apply elem_of_cons in Hin as [->|Hin].
    + exact Hx.
    + eapply IH; eassumption.
Qed.

(** Between two stores that agree on the nodes of [ls], segments over [ls]
    are the same. *)
Lemma lseg_agree h h' p q ls :
  length h <= length h' ->
  (forall l, l ∈ ls -> next_of h' l = next_of h l) ->
  lseg h p ls q -> lseg h' p ls q.
Proof.
  intros Hlen. revert p. induction ls as [|x ls IH]; intros p Hag H; simpl in *.
  - exact H.
  - destruct H as (-> & Hx & H). repeat split; [lia|].
    rewrite Hag by (apply elem_of_cons; left; reflexivity).
    apply IH; [|exact H]. intros l Hl. apply Hag. apply elem_of_cons. right. exact Hl.
Qed.

Lemma lseg_upd h p q ls l r :
  l ∉ ls -> lseg h p ls q -> lseg (upd h l r) p ls q.
Proof.
  intros Hni. apply lseg_agree.
  - rewrite length_upd. reflexivity.
  - intros l' Hl'. apply next_of_upd_ne. intros ->. contradiction.
Qed.

Lemma lseg_frame fr h h' p q ls :
  frame fr h h' -> (forall l, l ∈ ls -> l ∉ fr) ->
  lseg h p ls q -> lseg h' p ls q.
Proof.
  intros [Hlen _ Hn] Hd. apply lseg_agree; [rewrite Hlen; reflexivity|].
  intros l Hl. apply Hn. apply Hd. exact Hl.
Qed.

(** A chain from a given reference is unique, hence without repetition. *)
Lemma chain_unique h p ls1 ls2 : chain h p ls1 -> chain h p ls2 -> ls1 = ls2.
Proof.
  unfold chain. revert p ls2. induction ls1 as [|x ls1 IH]; intros p [|y ls2] H1 H2;
    simpl in *.
  - reflexivity.
  - destruct H2 as (-> & _). discriminate.
  - destruct H1 as (-> & _). discriminate.
  - destruct H1 as (-> & _ & H1), H2 as (E & _ & H2). injection E as <-.
    f_equal. eapply IH; eassumption.
Qed.

Lemma chain_NoDup h p ls : chain h p ls -> NoDup ls.
Proof.
  unfold chain. revert p. induction ls as [|x ls IH]; intros p H.
  - constructor.
  - destruct H as (-> & Hx & H). constructor; [|eapply IH; exact H].
    intros Hin. apply list_elem_of_split in Hin as (a & b & E).
    pose proof H as H'. rewrite E in H'. apply lseg_app in H' as (r & _ & Hb).
    destruct Hb as (-> & _ & Hb).
    assert (ls = b) as Eb by (eapply chain_unique; eassumption).
    apply (f_equal length) in E. rewrite length_app in E. simpl in E.
    rewrite Eb in E. lia.
Qed.

(** The reference at position [i] of a chain is [ls !! i], also past the
    end, where it is [None]. *)
Lemma chain_head h p ls : chain h p ls -> p = ls !! 0.
Proof. destruct ls; simpl; [intros ->|intros (-> & _)]; reflexivity. Qed.

Lemma chain_lookup h p ls i l :
  chain h p ls -> ls !! i = Some l ->
  l < length h /\ next_of h l = ls !! S i /\ val_of h l = vals h ls !!! i.
Proof.
  unfold chain. revert p i. induction ls as [|x ls IH]; intros p i H E.
  - discriminate.
  - destruct H as (-> & Hx & H). destruct i as [|i]; simpl in *.
    + injection E as <-. repeat split; [exact Hx|].
      exact (chain_head _ _ _ H).
    + eapply IH; eassumption.
Qed.

Lemma chain_drop h p ls i : chain h p ls -> chain h (ls !! i) (drop i ls).
Proof.
  unfold chain. revert p i. induction ls as [|x ls IH]; intros p i H.
  - destruct i; simpl; reflexivity.
  - destruct i as [|i]; simpl.
    + destruct H as (-> & H). split; [reflexivity|exact H].
    + destruct H as (-> & _ & H). eapply IH. exact H.
Qed.

Lemma lseg_take h p ls q i :
  i <= length ls -> lseg h p ls q ->
  lseg h p (take i ls) (match ls !! i with Some l => Some l | None => q end).
Proof.
  revert p i. induction ls as [|x ls IH]; intros p i Hi H.
  - destruct i; simpl in *; [exact H|lia].
  - destruct i as [|i]; simpl in *.
    + destruct H as (-> & _). reflexivity.
    + destruct H as (-> & Hx & H). repeat split; [exact Hx|].
      apply IH; [lia|exact H].
Qed.

Lemma frame_refl ls h : frame ls h h.
Proof. constructor; reflexivity. Qed.

Lemma frame_trans ls h1 h2 h3 : frame ls h1 h2 -> frame ls h2 h3 -> frame ls h1 h3.
Proof.
  intros [L1 V1 N1] [L2 V2 N2]. constructor.
  - congruence.
  - intros l. rewrite V2. apply V1.
  - intros l Hl. rewrite N2 by exact Hl. apply N1. exact Hl.
Qed.

Lemma frame_weaken ls ls' h h' :
  (forall l, l ∈ ls -> l ∈ ls') -> frame ls h h' -> frame ls' h h'.
Proof.
  intros Hsub [L V N]. constructor; [exact L|exact V|].
  intros l Hl. apply N. intros Hin. apply Hl, Hsub, Hin.
Qed.

Lemma frame_upd h l q : frame [l] h (upd h l q).
Proof.
  constructor.
  - apply length_upd.
  - intros l'. apply val_of_upd.
  - intros l' Hl'. apply next_of_upd_ne. intros ->. apply Hl'.
    apply elem_of_cons. left. reflexivity.
Qed.

Lemma vals_frame fr h h' ls : frame fr h h' -> vals h' ls = vals h ls.
Proof.
  intros [_ V _]. unfold vals. apply map_ext. intros l. apply V.
Qed.

End store_lemmas.

(** One step of symbolic execution of a monadic program on a store. *)
Ltac alloc_tac := first [assumption | lia | (rewrite length_upd; alloc_tac)].

Ltac mstep :=
  first
    [ rewrite bind_ret
    | rewrite bind_assoc
    | rewrite bind_get_next by alloc_tac
    | rewrite bind_get_value by alloc_tac
    | rewrite bind_set_next by alloc_tac
    | rewrite get_next_ok by alloc_tac
    | rewrite get_value_ok by alloc_tac
    | rewrite set_next_ok by alloc_tac ].

Ltac msteps := repeat mstep.

(** ** findMiddle ([middleNode2]) *)

Section middle.

Lemma middleNode2_loop_spec h p ls :
  chain h p ls ->
  forall fuel i,
    2 * i <= length ls -> length ls - 2 * i < 2 * fuel ->
    middleNode2_loop fuel (ls !! i) (ls !! (2 * i)) h
    = (Ok (ls !! (length ls / 2)), h).
Proof.
  intros Hc. induction fuel as [|fuel IH]; intros i Hi Hf; [lia|].
  cbn [middleNode2_loop].
  destruct (ls !! (2 * i)) as [t|] eqn:Et.
  - destruct (chain_lookup _ _ _ _ _ Hc Et) as (Ht & Hnt & _).
    pose proof (lookup_lt_Some _ _ _ Et) as Hlt.
    cbn [truthy]. msteps. rewrite Hnt.
    destruct (ls !! S (2 * i)) as [t'|] eqn:Et'.
    + destruct (chain_lookup _ _ _ _ _ Hc Et') as (Ht' & Hnt' & _).
      pose proof (lookup_lt_Some _ _ _ Et') as Hlt'.
      destruct (lookup_lt_is_Some_2 ls i ltac:(lia)) as [x Ex].
      destruct (chain_lookup _ _ _ _ _ Hc Ex) as (Hx & Hnx & _).
      rewrite Ex. cbn [truthy]. msteps. rewrite Hnt. msteps.
      rewrite Hnx, Hnt'.
      replace (S (S (2 * i))) with (2 * S i) by lia.
      apply IH; lia.
    + apply lookup_ge_None in Et'. cbn [truthy]. msteps.
      unfold ret. do 2 f_equal. f_equal. 
      assert (length ls = 2 * i + 1) as -> by lia.
      replace (2 * i + 1) with (1 + i * 2) by lia.
      rewrite Nat.div_add by lia. reflexivity.
  - apply lookup_ge_None in Et. cbn [truthy]. msteps.
    unfold ret. do 2 f_equal. f_equal.
    assert (length ls = i * 2) as -> by lia.
    rewrite Nat.div_mul by lia. reflexivity.
Qed.

End middle.

(** C4: for every non-empty acyclic chain, [middleNode2] returns the node
    at 0-based position [n / 2], the [(n/2+1)]-th node: the exact midpoint
    (as many nodes before as after) when the length is odd, the first node
    of the second half when it is even; the store is left as it was.  On
    [1,2,3,4,5] the node holds 3, on [1,2,3,4,5,6] it holds 4, on [1] it
    holds 1. *)
Theorem findMiddle_midpoint :
  (forall h head ls fuel,
      chain h head ls -> ls <> [] -> length ls < fuel ->
      exists pre mid post,
        ls = pre ++ mid :: post /\
        middleNode2 fuel head h = (Ok (Some mid), h) /\
        length pre = length ls / 2 /\
        (Nat.Odd (length ls) -> length pre = length post) /\
        (Nat.Even (length ls) -> length pre = length (mid :: post))) /\
  fst (run_on [1; 2; 3; 4; 5]%Z
         (fun head => m <- middleNode2 6 head ;; get_value m)) = Ok 3%Z /\
  fst (run_on [1; 2; 3; 4; 5; 6]%Z
         (fun head => m <- middleNode2 7 head ;; get_value m)) = Ok 4%Z /\
  fst (run_on [1]%Z
         (fun head => m <- middleNode2 2 head ;; get_value m)) = Ok 1%Z.
Proof.
  split; [|repeat split; reflexivity].
  intros h head ls fuel Hc Hne Hf.
  pose proof (middleNode2_loop_spec h head ls Hc fuel 0 ltac:(lia) ltac:(lia)) as Hm.
  change (2 * 0) with 0 in Hm. rewrite <- (chain_head _ _ _ Hc) in Hm.
  assert (length ls / 2 < length ls) as Hlt.
  { destruct ls; [congruence|]. apply Nat.div_lt; simpl; lia. }
  destruct (lookup_lt_is_Some_2 ls _ Hlt) as [mid Emid].
  exists (take (length ls / 2) ls), mid, (drop (S (length ls / 2)) ls).
  assert (length (take (length ls / 2) ls) = length ls / 2) as Hpre
      by (rewrite length_take; lia).
  assert (length (drop (S (length ls / 2)) ls) = length ls - S (length ls / 2))
    as Hpost by apply length_drop.
  split; [|split; [|split; [|split]]].
  - rewrite <- (take_drop_middle _ _ _ Emid) at 1. reflexivity.
  - unfold middleNode2. rewrite Hm, Emid. reflexivity.
  - exact Hpre.
  - intros [m Hm']. rewrite Hpre, Hpost. rewrite Hm'.
    replace (2 * m + 1) with (1 + m * 2) by lia.
    rewrite Nat.div_add by lia. simpl. lia.
  - intros [m Hm']. cbn [length]. rewrite Hpre, Hpost. rewrite Hm'.
    replace (2 * m) with (m * 2) by lia.
    rewrite Nat.div_mul by lia. destruct m; [|lia].
    destruct ls; [congruence|simpl in Hm'; lia].
Qed.

Lemma findMiddle_midpoint_witness :
  chain heap123 (Some 0) [0; 1; 2] /\ [0; 1; 2] <> [] /\
  length [0; 1; 2] < 4 /\
  exists pre mid post,
    [0; 1; 2] = pre ++ mid :: post /\
    middleNode2 4 (Some 0) heap123 = (Ok (Some mid), heap123) /\
    length pre = length [0; 1; 2] / 2 /\
    (Nat.Odd (length [0; 1; 2]) -> length pre = length post) /\
    (Nat.Even (length [0; 1; 2]) -> length pre = length (mid :: post)).
Proof.
  assert (chain heap123 (Some 0) [0; 1; 2]) as Hc.
  { unfold chain, heap123; simpl. repeat split; lia. }
  assert ([0; 1; 2] <> []) as Hne by discriminate.
  assert (length [0; 1; 2] < 4) as Hf by (simpl; lia).
  split; [exact Hc|]. split; [exact Hne|]. split; [exact Hf|].
  exact (proj1 findMiddle_midpoint heap123 (Some 0) [0; 1; 2] 4 Hc Hne Hf).
Defined.

(** ** Read-only computations *)

Section readonly.

Lemma readonly_ret {A} (a : A) : readonly (ret a).
Proof. intros h. reflexivity. Qed.

Lemma readonly_diverge {A} : readonly (@diverge A).
Proof. intros h. reflexivity. Qed.

Lemma readonly_get_next p : readonly (get_next p).
Proof.
  intros h. unfold get_next. destruct p as [l|]; [|reflexivity].
  destruct (h !! l); reflexivity.
Qed.

Lemma readonly_get_value p : readonly (get_value p).
Proof.
  intros h. unfold get_value. destruct p as [l|]; [|reflexivity].
  destruct (h !! l); reflexivity.
Qed.

Lemma readonly_bind {A B} (m : M A) (k : A -> M B) :
  readonly m -> (forall a, readonly (k a)) -> readonly (x <- m ;; k x).
Proof.
  intros Hm Hk h. unfold bind. specialize (Hm h).
  destruct (m h) as [[a| |] h1]; simpl in Hm; subst h1;
    [apply Hk|reflexivity|reflexivity].
Qed.

Lemma readonly_try_except {A} (m : M A) (v : A) :
  readonly m -> readonly (try_except m v).
Proof.
  intros Hm h. unfold try_except. specialize (Hm h).
  destruct (m h) as [[a| |] h1]; simpl in *; exact Hm.
Qed.

Lemma readonly_if {A} (b : bool) (m1 m2 : M A) :
  readonly m1 -> readonly m2 -> readonly (if b then m1 else m2).
Proof. destruct b; intros; assumption. Qed.

#[local] Hint Resolve readonly_ret readonly_diverge readonly_get_next readonly_get_value
  : readonly.

Lemma readonly_detectCycle2_loop fuel :
  forall slow fast, readonly (detectCycle2_loop fuel slow fast).
Proof.
  induction fuel as [|fuel IH]; intros slow fast; cbn [detectCycle2_loop];
    [auto with readonly|].
  apply readonly_if; [|auto with readonly].
  repeat (apply readonly_bind; [auto with readonly|intros ?]).
  apply readonly_if; [auto with readonly|apply IH].
Qed.

Lemma readonly_detectCycle2_entry fuel :
  forall node slow, readonly (detectCycle2_entry fuel node slow).
Proof.
  induction fuel as [|fuel IH]; intros node slow; cbn [detectCycle2_entry];
    [auto with readonly|].
  apply readonly_if; [|auto with readonly].
  repeat (apply readonly_bind; [auto with readonly|intros ?]).
  apply IH.
Qed.

Lemma readonly_detectCycle2 fuel head : readonly (detectCycle2 fuel head).
Proof.
  unfold detectCycle2. apply readonly_bind.
  - apply readonly_try_except, readonly_bind;
      [apply readonly_detectCycle2_loop|auto with readonly].
  - intros [[slow [|]]|]; auto using readonly_detectCycle2_entry with readonly.
Qed.

Lemma readonly_intersect_loop fuel headA headB :
  forall a b, readonly (intersect_loop fuel headA headB a b).
Proof.
  induction fuel as [|fuel IH]; intros a b; cbn [intersect_loop];
    [auto with readonly|].
  apply readonly_if; [|auto with readonly].
  apply readonly_bind; [apply readonly_if; auto with readonly|intros ?].
  apply readonly_bind; [apply readonly_if; auto with readonly|intros ?].
  apply IH.
Qed.

End readonly.

(** C10: [detectCycle2] and [intersect] never write to the store: on every
    store (acyclic, cyclic or ill-formed), for every argument and every step
    budget, whatever the outcome (a result, an exception caught or not, or
    the budget running out), the store after the call is the store before
    it, so every node has the value and the next reference it had. *)
Theorem cycle_algorithms_do_not_mutate :
  (forall fuel head h, snd (detectCycle2 fuel head h) = h) /\
  (forall fuel headA headB h, snd (intersect fuel headA headB h) = h).
Proof.
  split.
  - intros fuel head. apply readonly_detectCycle2.
  - intros fuel headA headB. apply readonly_intersect_loop.
Qed.

(** ** reverse ([reverseList], both versions) *)

Section reverse.

Lemma frame_step x t h h1 h' :
  frame [x] h h1 -> frame t h1 h' -> frame (x :: t) h h'.
Proof.
  intros F1 F2. eapply frame_trans.
  - eapply frame_weaken; [|exact F1]. intros l Hl.
    apply elem_of_cons. left. apply elem_of_cons in Hl as [->|Hl]; [reflexivity|inversion Hl].
  - eapply frame_weaken; [|exact F2]. intros l Hl. apply elem_of_cons. right. exact Hl.
Qed.

Lemma palindrome_reverseList_loop_spec todo :
  forall fuel h newList n done,
    chain h newList done -> chain h n todo ->
    (forall l, l ∈ todo -> l ∉ done) -> length todo < fuel ->
    exists r h',
      palindrome.reverseList_loop fuel newList n h = (Ok r, h') /\
      chain h' r (rev todo ++ done) /\ frame todo h h'.
Proof.
  induction todo as [|x t IH]; intros fuel h newList n done Hd Ht Hdisj Hf;
    (destruct fuel as [|fuel]; [simpl in Hf; lia|]);
    cbn [palindrome.reverseList_loop].
  - red in Ht; simpl in Ht; subst n. exists newList, h. cbn [truthy].
    split; [reflexivity|]. split; [exact Hd|apply frame_refl].
  - pose proof (chain_NoDup _ _ _ Ht) as Hnd. apply NoDup_cons in Hnd as [Hxt _].
    destruct Ht as (-> & Hx & Ht). cbn [truthy]. msteps.
    assert (x ∉ done) as Hxd by (apply Hdisj, elem_of_cons; left; reflexivity).
    destruct (IH fuel (upd h x newList) (Some x) (next_of h x) (x :: done))
      as (r & h' & Hr & Hc & Hfr).
    + repeat split; [rewrite length_upd; exact Hx|].
      rewrite next_of_upd_eq by exact Hx. apply lseg_upd; assumption.
    + apply lseg_upd; assumption.
    + intros l Hl Hin. apply elem_of_cons in Hin as [->|Hin]; [contradiction|].
      apply (Hdisj l); [apply elem_of_cons; right; exact Hl|exact Hin].
    + simpl in Hf. lia.
    + exists r, h'. split; [exact Hr|]. split.
      * simpl. rewrite <- app_assoc. exact Hc.
      * eapply frame_step; [apply frame_upd|exact Hfr].
Qed.

Lemma build_reverseList_loop_eq fuel :
  forall newList oldList h,
    build_linked_list.reverseList_loop fuel newList oldList h
    = palindrome.reverseList_loop fuel newList oldList h.
Proof.
  induction fuel as [|fuel IH]; intros newList oldList h; [reflexivity|].
  cbn [build_linked_list.reverseList_loop palindrome.reverseList_loop].
  rewrite ptr_eqb_None, Bool.negb_involutive.
  destruct (truthy oldList); [|reflexivity].
  unfold bind. destruct (get_next oldList h) as [[a| |] h1]; try reflexivity.
  destruct (set_next oldList newList h1) as [[[]| |] h2]; try reflexivity.
  apply IH.
Qed.

Lemma palindrome_reverseList_spec h head ls fuel :
  chain h head ls -> length ls < fuel ->
  exists r h',
    palindrome.reverseList fuel head h = (Ok r, h') /\
    chain h' r (rev ls) /\ frame ls h h'.
Proof.
  intros Hc Hf.
  assert (chain h None []) as Hnil by reflexivity.
  assert (forall l : loc, l ∈ ls -> l ∉ []) as Hdisj
      by (intros l _ Hin; inversion Hin).
  destruct (palindrome_reverseList_loop_spec ls fuel h None head []
              Hnil Hc Hdisj Hf) as (r & h' & Hr & Hc' & Hfr).
  exists r, h'. rewrite app_nil_r in Hc'. split; [|split]; assumption.
Qed.

Lemma build_reverseList_spec h head ls fuel :
  chain h head ls -> length ls < fuel ->
  exists r h',
    build_linked_list.reverseList fuel head h = (Ok r, h') /\
    chain h' r (rev ls) /\ frame ls h h'.
Proof.
  unfold build_linked_list.reverseList. rewrite build_reverseList_loop_eq.
  apply palindrome_reverseList_spec.
Qed.

End reverse.

(** C9: reversing twice gives back the value sequence.  For every acyclic
    chain and each of the two [reverseList] functions, the first call
    returns the chain of the same nodes in reverse order and the second
    call the chain of the same nodes in the original order; values are
    never written, so the value sequence after the two calls is the one
    before. *)
Theorem reverse_involution :
  forall h head ls fuel,
    chain h head ls -> length ls < fuel ->
    (exists r1 h1 r2 h2,
        palindrome.reverseList fuel head h = (Ok r1, h1) /\
        palindrome.reverseList fuel r1 h1 = (Ok r2, h2) /\
        chain h1 r1 (rev ls) /\ vals h1 (rev ls) = rev (vals h ls) /\
        chain h2 r2 ls /\ vals h2 ls = vals h ls) /\
    (exists r1 h1 r2 h2,
        build_linked_list.reverseList fuel head h = (Ok r1, h1) /\
        build_linked_list.reverseList fuel r1 h1 = (Ok r2, h2) /\
        chain h1 r1 (rev ls) /\ vals h1 (rev ls) = rev (vals h ls) /\
        chain h2 r2 ls /\ vals h2 ls = vals h ls).
Proof.
  intros h head ls fuel Hc Hf. split.
  - destruct (palindrome_reverseList_spec h head ls fuel Hc Hf)
      as (r1 & h1 & E1 & C1 & F1).
    destruct (palindrome_reverseList_spec h1 r1 (rev ls) fuel C1
                ltac:(rewrite length_rev; exact Hf))
      as (r2 & h2 & E2 & C2 & F2).
    rewrite rev_involutive in C2.
    exists r1, h1, r2, h2. repeat split; try assumption.
    + rewrite (vals_frame _ _ _ _ F1). unfold vals. apply map_rev.
    + rewrite (vals_frame _ _ _ _ F2). apply (vals_frame _ _ _ _ F1).
  - destruct (build_reverseList_spec h head ls fuel Hc Hf)
      as (r1 & h1 & E1 & C1 & F1).
    destruct (build_reverseList_spec h1 r1 (rev ls) fuel C1
                ltac:(rewrite length_rev; exact Hf))
      as (r2 & h2 & E2 & C2 & F2).
    rewrite rev_involutive in C2.
    exists r1, h1, r2, h2. repeat split; try assumption.
    + rewrite (vals_frame _ _ _ _ F1). unfold vals. apply map_rev.
    + rewrite (vals_frame _ _ _ _ F2). apply (vals_frame _ _ _ _ F1).
Qed.

Lemma reverse_involution_witness :
  chain heap123 (Some 0) [0; 1; 2] /\ length [0; 1; 2] < 4 /\
  (exists r1 h1 r2 h2,
      palindrome.reverseList 4 (Some 0) heap123 = (Ok r1, h1) /\
      palindrome.reverseList 4 r1 h1 = (Ok r2, h2) /\
      chain h1 r1 (rev [0; 1; 2]) /\
      vals h1 (rev [0; 1; 2]) = rev (vals heap123 [0; 1; 2]) /\
      chain h2 r2 [0; 1; 2] /\ vals h2 [0; 1; 2] = vals heap123 [0; 1; 2]) /\
  (exists r1 h1 r2 h2,
      build_linked_list.reverseList 4 (Some 0) heap123 = (Ok r1, h1) /\
      build_linked_list.reverseList 4 r1 h1 = (Ok r2, h2) /\
      chain h1 r1 (rev [0; 1; 2]) /\
      vals h1 (rev [0; 1; 2]) = rev (vals heap123 [0; 1; 2]) /\
      chain h2 r2 [0; 1; 2] /\ vals h2 [0; 1; 2] = vals heap123 [0; 1; 2]).
Proof.
  assert (chain heap123 (Some 0) [0; 1; 2]) as Hc.
  { unfold chain, heap123; simpl. repeat split; lia. }
  assert (length [0; 1; 2] < 4) as Hf by (simpl; lia).
  split; [exact Hc|]. split; [exact Hf|].
  exact (reverse_involution heap123 (Some 0) [0; 1; 2] 4 Hc Hf).
Defined.

(** ** isPalindrome ([isPalidrome]) *)

Section palindrome_proofs.

Lemma bind_ext {A B} (m : M A) (k1 k2 : A -> M B) h :
  (forall a h', k1 a h' = k2 a h') -> (x <- m ;; k1 x) h = (x <- m ;; k2 x) h.
Proof.
  intros Hk. unfold bind. destruct (m h) as [[a| |] h1]; [apply Hk|reflexivity..].
Qed.

Lemma getMid_loop_eq fuel :
  forall n1 n2 h,
    palindrome.getMid_loop fuel n1 n2 h = middleNode2_loop fuel n1 n2 h.
Proof.
  induction fuel as [|fuel IH]; intros n1 n2 h; [reflexivity|].
  cbn [palindrome.getMid_loop middleNode2_loop].
  apply bind_ext. intros [|] h1; [|reflexivity].
  repeat (apply bind_ext; intros ? ?). apply IH.
Qed.

Lemma getMid_spec h head ls fuel :
  chain h head ls -> length ls < fuel ->
  palindrome.getMid fuel head h = (Ok (ls !! (length ls / 2)), h).
Proof.
  intros Hc Hf. unfold palindrome.getMid. rewrite getMid_loop_eq.
  pose proof (middleNode2_loop_spec h head ls Hc fuel 0 ltac:(lia) ltac:(lia)) as Hm.
  change (2 * 0) with 0 in Hm. rewrite <- (chain_head _ _ _ Hc) in Hm. exact Hm.
Qed.

Lemma listLength_loop_spec h p ls :
  chain h p ls ->
  forall fuel i count,
    i <= length ls -> length ls - i < fuel ->
    palindrome.listLength_loop fuel (ls !! i) count h
    = (Ok (count + Z.of_nat (length ls - i))%Z, h).
Proof.
  intros Hc. induction fuel as [|fuel IH]; intros i count Hi Hf; [lia|].
  cbn [palindrome.listLength_loop].
  destruct (ls !! i) as [x|] eqn:Ex.
  - destruct (chain_lookup _ _ _ _ _ Hc Ex) as (Hx & Hnx & _).
    pose proof (lookup_lt_Some _ _ _ Ex) as Hlt.
    cbn [truthy]. msteps. rewrite Hnx, IH by lia.
    unfold ret. do 2 f_equal. lia.
  - apply lookup_ge_None in Ex. cbn [truthy]. unfold ret. do 2 f_equal. lia.
Qed.

Lemma listLength_spec h head ls fuel :
  chain h head ls -> length ls < fuel ->
  palindrome.listLength fuel head h = (Ok (Z.of_nat (length ls)), h).
Proof.
  intros Hc Hf. unfold palindrome.listLength.
  rewrite (chain_head _ _ _ Hc).
  rewrite (listLength_loop_spec h head ls Hc fuel 0 0%Z) by lia.
  do 2 f_equal. lia.
Qed.

Lemma isPalidrome_loop_spec B :
  forall A fuel h p q e,
    lseg h p A e -> chain h q B -> length B <= length A -> length B < fuel ->
    palindrome.isPalidrome_loop fuel p q h
    = (Ok (bool_decide (take (length B) (vals h A) = vals h B)), h).
Proof.
  induction B as [|y B IH]; intros A fuel h p q e HA HB Hlen Hf;
    (destruct fuel as [|fuel]; [simpl in Hf; lia|]);
    cbn [palindrome.isPalidrome_loop].
  - red in HB; simpl in HB; subst q. cbn [truthy].
    rewrite Bool.andb_false_r. reflexivity.
  - destruct A as [|x A]; [simpl in Hlen; lia|].
    destruct HA as (-> & Hx & HA), HB as (-> & Hy & HB).
    cbn [truthy andb]. msteps.
    cbn [length take vals map].
    destruct (Z.eqb_spec (val_of h x) (val_of h y)) as [E|E]; cbn [negb].
    + msteps. rewrite (IH A fuel h _ _ e HA HB) by (simpl in *; lia).
      do 2 f_equal. rewrite E. apply bool_decide_ext. split.
      * intros H. f_equal. exact H.
      * intros H. injection H as H. exact H.
    + unfold ret. do 2 f_equal. symmetry. apply bool_decide_eq_false.
      intros H. injection H as H _. contradiction.
Qed.

(** A sequence reads the same both ways exactly when its first half is
    the reverse of its last half. *)
Lemma palindrome_halves (v : list Z) :
  take (length v / 2) v = rev (drop (length v - length v / 2) v) <-> v = rev v.
Proof.
  set (n := length v). set (m := n / 2). set (c := n - m).
  assert (m <= c /\ c <= n /\ c - m <= 1) as (Hmc & Hcn & Hmid).
  { unfold c, m. pose proof (Nat.div_mod_eq n 2) as Hdm.
    pose proof (Nat.mod_upper_bound n 2 ltac:(lia)). lia. }
  set (mid := drop m (take c v)).
  assert (v = take m v ++ mid ++ drop c v) as Hv.
  { unfold mid. rewrite app_assoc. rewrite <- (take_drop c v) at 1. f_equal.
    rewrite <- (take_drop m (take c v)) at 1. f_equal.
    rewrite take_take. rewrite Nat.min_l by exact Hmc. reflexivity. }
  assert (length mid <= 1) as Hlm.
  { unfold mid. rewrite length_drop, length_take. lia. }
  assert (rev mid = mid) as Hrm.
  { destruct mid as [|a [|b mid']]; [reflexivity|reflexivity|simpl in Hlm; lia]. }
  assert (rev v = rev (drop c v) ++ mid ++ rev (take m v)) as Hrv.
  { rewrite Hv at 1. rewrite !rev_app_distr, Hrm, <- app_assoc. reflexivity. }
  split.
  - intros H. rewrite Hrv, <- H. rewrite H at 2.
    rewrite rev_involutive. exact Hv.
  - intros H. rewrite Hrv in H. rewrite Hv in H at 1.
    apply app_inj_1 in H as [H _]; [exact H|].
    rewrite length_rev, length_take, length_drop. fold n. lia.
Qed.

End palindrome_proofs.

Lemma take_drop_disjoint (ls : list loc) m c l :
  NoDup ls -> m <= c -> l ∈ take m ls -> l ∉ drop c ls.
Proof.
  intros Hnd Hmc Ht Hd.
  apply list_elem_of_lookup in Ht as [j Hj], Hd as [i Hi].
  rewrite lookup_drop in Hi.
  apply lookup_take_Some in Hj as [Hj Hjm].
  pose proof (NoDup_lookup _ _ _ _ Hnd Hj Hi). lia.
Qed.

Lemma isPalidrome_spec h head ls fuel :
  chain h head ls -> length ls < fuel ->
  exists h',
    palindrome.isPalidrome fuel head h
    = (Ok (bool_decide (vals h ls = rev (vals h ls))), h').
Proof.
  intros Hc Hf. unfold palindrome.isPalidrome.
  set (n := length ls). set (m := n / 2). set (c := n - m).
  assert (m <= c /\ c <= n /\ (n mod 2 = 1 -> c = S m /\ m < n)
          /\ (n mod 2 <> 1 -> c = m)) as (Hmc & Hcn & Hodd & Heven).
  { unfold c, m. pose proof (Nat.div_mod_eq n 2) as Hdm.
    pose proof (Nat.mod_upper_bound n 2 ltac:(lia)). lia. }
  rewrite (bind_eq _ _ _ _ _ (getMid_spec h head ls fuel Hc Hf)).
  rewrite (bind_eq _ _ _ _ _ (listLength_spec h head ls fuel Hc Hf)).
  fold n m.
  assert ((x <- (if (Z.of_nat n mod 2 =? 1)%Z then get_next (ls !! m)
                 else ret (ls !! m)) ;;
           newList <- palindrome.reverseList fuel x ;;
           palindrome.isPalidrome_loop fuel head newList) h
          = (newList <- palindrome.reverseList fuel (ls !! c) ;;
             palindrome.isPalidrome_loop fuel head newList) h) as ->.
  { change 2%Z with (Z.of_nat 2). rewrite <- Nat2Z.inj_mod.
    destruct (Z.eqb_spec (Z.of_nat (n mod 2)) 1) as [E|E].
    - destruct (Hodd ltac:(lia)) as [-> Hmn].
      destruct (lookup_lt_is_Some_2 ls m Hmn) as [x Ex].
      destruct (chain_lookup _ _ _ _ _ Hc Ex) as (Hx & Hnx & _).
      rewrite Ex. msteps. rewrite Hnx. reflexivity.
    - rewrite (Heven ltac:(lia)). msteps. reflexivity. }
  destruct (palindrome_reverseList_spec h (ls !! c) (drop c ls) fuel
              (chain_drop _ _ _ c Hc) ltac:(rewrite length_drop; lia))
    as (r & h' & Er & Cr & Fr).
  rewrite (bind_eq _ _ _ _ _ Er).
  pose proof (lseg_take h head ls None m ltac:(lia) Hc) as HA.
  eapply lseg_frame in HA; [|exact Fr|].
  2:{ intros l Hl. eapply take_drop_disjoint; [eapply chain_NoDup; exact Hc|exact Hmc|exact Hl]. }
  rewrite (isPalidrome_loop_spec _ _ fuel h' head r _ HA Cr).
  2:{ rewrite length_rev, length_drop, length_take. lia. }
  2:{ rewrite length_rev, length_drop. lia. }
  exists h'. do 2 f_equal. apply bool_decide_ext.
  rewrite !(vals_frame _ _ _ _ Fr). unfold vals.
  rewrite length_rev, length_drop. fold n.
  replace (n - c) with m by lia.
  rewrite map_rev, <- firstn_map, <- skipn_map, take_take, Nat.min_id.
  pose proof (palindrome_halves (map (val_of h) ls)) as P.
  rewrite length_map in P. exact P.
Qed.

(** C5: for every acyclic chain, [isPalidrome] returns true exactly when
    the value sequence of the chain equals its reverse; chains of length 0
    or 1 always give true; [1,2,3,4,4,3,2,1], [1], [1,1] and [1,2,3,2,1]
    give true, [1,2,3] and [1,2] give false. *)
Theorem isPalindrome_iff_reverse :
  (forall h head ls fuel,
      chain h head ls -> length ls < fuel ->
      exists b h',
        palindrome.isPalidrome fuel head h = (Ok b, h') /\
        (b = true <-> vals h ls = rev (vals h ls)) /\
        (length ls <= 1 -> b = true)) /\
  fst (run_on [1; 2; 3; 4; 4; 3; 2; 1]%Z (palindrome.isPalidrome 9)) = Ok true /\
  fst (run_on [1; 2; 3; 2; 1]%Z (palindrome.isPalidrome 6)) = Ok true /\
  fst (run_on [1; 2; 3]%Z (palindrome.isPalidrome 4)) = Ok false /\
  fst (run_on [1; 2]%Z (palindrome.isPalidrome 3)) = Ok false /\
  fst (run_on [1; 1]%Z (palindrome.isPalidrome 3)) = Ok true /\
  fst (run_on [1]%Z (palindrome.isPalidrome 2)) = Ok true /\
  fst (run_on [] (palindrome.isPalidrome 1)) = Ok true.
Proof.
  split; [|repeat split; reflexivity].
  intros h head ls fuel Hc Hf.
  destruct (isPalidrome_spec h head ls fuel Hc Hf) as (h' & E).
  eexists _, h'. split; [exact E|]. split.
  - apply bool_decide_eq_true.
  - intros Hl. apply bool_decide_eq_true.
    destruct ls as [|x [|y ls]]; [reflexivity|reflexivity|simpl in Hl; lia].
Qed.

Lemma isPalindrome_iff_reverse_witness :
  chain heap123 (Some 0) [0; 1; 2] /\ length [0; 1; 2] < 4 /\
  exists b h',
    palindrome.isPalidrome 4 (Some 0) heap123 = (Ok b, h') /\
    (b = true <-> vals heap123 [0; 1; 2] = rev (vals heap123 [0; 1; 2])) /\
    (length [0; 1; 2] <= 1 -> b = true).
Proof.
  assert (chain heap123 (Some 0) [0; 1; 2]) as Hc.
  { unfold chain, heap123; simpl. repeat split; lia. }
  assert (length [0; 1; 2] < 4) as Hf by (simpl; lia).
  split; [exact Hc|]. split; [exact Hf|].
  exact (proj1 isPalindrome_iff_reverse heap123 (Some 0) [0; 1; 2] 4 Hc Hf).
Defined.

(** ** partition ([partition2]) *)

Section partition.

Variable pivot : Z.
Variable v : loc -> Z.

Let lt_pivot (l : loc) : bool := (v l <? pivot)%Z.
Let ge_pivot (l : loc) : bool := (pivot <=? v l)%Z.

Lemma lseg_relink h p xs q y q' :
  lseg h p xs q -> last xs = Some y -> NoDup xs ->
  lseg (upd h y q') p xs q'.
Proof.
  intros Hs Hl Hnd. apply last_Some in Hl as [pre ->].
  apply NoDup_app in Hnd as (_ & Hd & _).
  apply lseg_snoc in Hs as (Hpre & Hy & _). apply lseg_snoc.
  split; [|split].
  - apply lseg_upd; [|exact Hpre]. intros Hin. apply (Hd y Hin).
    apply elem_of_cons. left. reflexivity.
  - rewrite length_upd. exact Hy.
  - apply next_of_upd_eq. exact Hy.
Qed.

Lemma partition2_loop_spec todo :
  forall fuel h A B pA pB yA yB head,
    (forall l, val_of h l = v l) ->
    last A = Some yA -> last B = Some yB ->
    (exists q, lseg h pA A q) -> (exists q, lseg h pB B q) ->
    chain h head todo ->
    NoDup (A ++ B ++ todo) ->
    length todo < fuel ->
    exists h' yA' yB',
      partition2_loop fuel pivot head (Some yA) (Some yB) h
      = (Ok (Some yA', Some yB'), h') /\
      last (A ++ List.filter lt_pivot todo) = Some yA' /\
      last (B ++ List.filter ge_pivot todo) = Some yB' /\
      (exists q, lseg h' pA (A ++ List.filter lt_pivot todo) q) /\
      (exists q, lseg h' pB (B ++ List.filter ge_pivot todo) q) /\
      (List.filter ge_pivot todo = [] -> next_of h' yB = next_of h yB) /\
      frame (A ++ B ++ todo) h h'.
Proof.
  induction todo as [|x t IH];
    intros fuel h A B pA pB yA yB head Hv HlA HlB [qA HA] [qB HB] Ht Hnd Hf;
    (destruct fuel as [|fuel]; [simpl in Hf; lia|]);
    cbn [partition2_loop].
  - red in Ht; simpl in Ht; subst head. cbn [ptr_eqb negb].
    change (ptr_eqb None None) with true. cbn [negb].
    exists h, yA, yB. cbn [List.filter]. rewrite !app_nil_r.
    split; [reflexivity|]. split; [exact HlA|]. split; [exact HlB|].
    split; [exists qA; exact HA|]. split; [exists qB; exact HB|].
    split; [reflexivity|apply frame_refl].
  - destruct Ht as (-> & Hx & Ht).
    pose proof (last_Some_elem_of _ _ HlA) as HyA.
    pose proof (last_Some_elem_of _ _ HlB) as HyB.
    pose proof (lseg_alloc _ _ _ _ _ HA HyA) as HaA.
    pose proof (lseg_alloc _ _ _ _ _ HB HyB) as HaB.
    apply NoDup_app in Hnd as (HndA & HdA & Hnd).
    apply NoDup_app in Hnd as (HndB & HdB & Hndt).
    apply NoDup_cons in Hndt as (Hxt & Hndt).
    assert (x ∉ A) as HxA.
    { intros Hin. apply (HdA x Hin). apply elem_of_app. right.
      apply elem_of_cons. left. reflexivity. }
    assert (x ∉ B) as HxB.
    { intros Hin. apply (HdB x Hin). apply elem_of_cons. left. reflexivity. }
    assert (forall y, y ∈ A -> (y ∉ B) /\ y <> x /\ (y ∉ t)) as HA'.
    { intros y Hy. split; [|split].
      - intros Hin. apply (HdA y Hy). apply elem_of_app. left. exact Hin.
      - intros ->. contradiction.
      - intros Hin. apply (HdA y Hy). apply elem_of_app. right.
        apply elem_of_cons. right. exact Hin. }
    assert (forall y, y ∈ B -> y <> x /\ (y ∉ t)) as HB'.
    { intros y Hy. split.
      - intros ->. contradiction.
      - intros Hin. apply (HdB y Hy). apply elem_of_cons. right. exact Hin. }
    rewrite ptr_eqb_Some_None. cbn [negb]. msteps. rewrite Hv.
    assert (ge_pivot x = negb (lt_pivot x)) as Hge
        by apply (Z.leb_antisym (v x) pivot).
    change (v x <? pivot)%Z with (lt_pivot x).
    cbn [List.filter]. rewrite Hge.
    destruct (lt_pivot x) eqn:Elt; cbn [negb].
    + destruct (HA' yA HyA) as (HyAB & HyAx & HyAt).
      msteps. rewrite next_of_upd_eq by exact HaA. msteps.
      rewrite next_of_upd_ne by exact HyAx. cbn [fst snd].
      destruct (IH fuel (upd h yA (Some x)) (A ++ [x]) B pA pB x yB (next_of h x))
        as (h' & yA' & yB' & E & LA & LB & SA & SB & NB & F).
      * intros l. rewrite val_of_upd. apply Hv.
      * apply last_snoc.
      * exact HlB.
      * exists (next_of (upd h yA (Some x)) x). apply lseg_snoc.
        split; [|split; [rewrite length_upd; exact Hx|reflexivity]].
        eapply lseg_relink; eassumption.
      * exists qB. apply lseg_upd; assumption.
      * apply lseg_upd; assumption.
      * rewrite <- app_assoc. apply NoDup_app. split; [exact HndA|]. split.
        -- intros y Hy Hin. apply elem_of_cons in Hin as [->|Hin];
             [contradiction|].
           apply elem_of_app in Hin as [Hin|Hin];
             destruct (HA' y Hy) as (? & ? & ?); contradiction.
        -- apply NoDup_cons. split.
           ++ intros Hin. apply elem_of_app in Hin as [Hin|Hin]; contradiction.
           ++ apply NoDup_app. split; [exact HndB|]. split; [|exact Hndt].
              intros y Hy. apply (HB' y Hy).
      * simpl in Hf. lia.
      * exists h', yA', yB'. rewrite <- app_assoc in LA, SA. simpl in LA, SA.
        split; [exact E|]. split; [exact LA|]. split; [exact LB|].
        split; [exact SA|]. split; [exact SB|]. split.
        -- intros Hnil. rewrite (NB Hnil). apply next_of_upd_ne.
           intros ->. contradiction.
        -- eapply frame_trans.
           ++ eapply frame_weaken; [|apply (frame_upd h yA (Some x))].
              intros l Hl. apply elem_of_cons in Hl as [->|Hl]; [|inversion Hl].
              apply elem_of_app. left. exact HyA.
           ++ eapply frame_weaken; [|exact F]. intros l Hl.
              rewrite !elem_of_app in *. rewrite !elem_of_cons in *.
              rewrite elem_of_nil in Hl. tauto.
    + destruct (HB' yB HyB) as (HyBx & HyBt).
      assert (yB ∉ A) as HyBA
          by (intros Hin; destruct (HA' yB Hin) as (? & _); contradiction).
      msteps. rewrite next_of_upd_eq by exact HaB. msteps.
      rewrite next_of_upd_ne by exact HyBx. cbn [fst snd].
      destruct (IH fuel (upd h yB (Some x)) A (B ++ [x]) pA pB yA x (next_of h x))
        as (h' & yA' & yB' & E & LA & LB & SA & SB & NB & F).
      * intros l. rewrite val_of_upd. apply Hv.
      * exact HlA.
      * apply last_snoc.
      * exists qA. apply lseg_upd; assumption.
      * exists (next_of (upd h yB (Some x)) x). apply lseg_snoc.
        split; [|split; [rewrite length_upd; exact Hx|reflexivity]].
        eapply lseg_relink; eassumption.
      * apply lseg_upd; assumption.
      * apply NoDup_app. split; [exact HndA|]. split.
        -- intros y Hy Hin. rewrite <- app_assoc in Hin.
           apply elem_of_app in Hin as [Hin|Hin];
             [destruct (HA' y Hy) as (? & ? & ?); contradiction|].
           apply elem_of_cons in Hin as [->|Hin];
             [contradiction|destruct (HA' y Hy) as (? & ? & ?); contradiction].
        -- rewrite <- app_assoc. apply NoDup_app. split; [exact HndB|].
           split; [|apply NoDup_cons; split; assumption].
           intros y Hy Hin. apply elem_of_cons in Hin as [->|Hin];
             [contradiction|]. apply (HB' y Hy). exact Hin.
      * simpl in Hf. lia.
      * exists h', yA', yB'. rewrite <- app_assoc in LB, SB. simpl in LB, SB.
        split; [exact E|]. split; [exact LA|]. split; [exact LB|].
        split; [exact SA|]. split; [exact SB|]. split.
        -- intros Hnil. discriminate.
        -- eapply frame_trans.
           ++ eapply frame_weaken; [|apply (frame_upd h yB (Some x))].
              intros l Hl. apply elem_of_cons in Hl as [->|Hl]; [|inversion Hl].
              apply elem_of_app. right. apply elem_of_app. left. exact HyB.
           ++ eapply frame_weaken; [|exact F]. intros l Hl.
              rewrite !elem_of_app in *. rewrite !elem_of_cons in *.
              rewrite elem_of_nil in Hl. tauto.
Qed.

End partition.

Section allocation.

Implicit Types (h : heap) (l : loc) (n : Node).

Lemma bind_new_node {B} x (k : ptr -> M B) h :
  (p <- new_node x ;; k p) h = k (Some (length h)) (h ++ [mkNode x None]).
Proof. reflexivity. Qed.

Lemma val_of_snoc_lt h n l : l < length h -> val_of (h ++ [n]) l = val_of h l.
Proof. intros Hl. unfold val_of. rewrite lookup_app_l by exact Hl. reflexivity. Qed.

Lemma next_of_snoc_lt h n l : l < length h -> next_of (h ++ [n]) l = next_of h l.
Proof. intros Hl. unfold next_of. rewrite lookup_app_l by exact Hl. reflexivity. Qed.

Lemma next_of_snoc_eq h n : next_of (h ++ [n]) (length h) = next n.
Proof. unfold next_of. rewrite list_lookup_middle by reflexivity. reflexivity. Qed.

Lemma lseg_snoc_heap h n p q ls : lseg h p ls q -> lseg (h ++ [n]) p ls q.
Proof.
  intros H. eapply lseg_agree; [| |exact H].
  - rewrite length_app. lia.
  - intros l Hl. apply next_of_snoc_lt. eapply lseg_alloc; eassumption.
Qed.

End allocation.

Section partition_main.

Lemma NoDup_filter_list (f : loc -> bool) (ls : list loc) :
  NoDup ls -> NoDup (List.filter f ls).
Proof. rewrite !NoDup_ListNoDup. apply List.NoDup_filter. Qed.

Lemma elem_of_filter_list (f : loc -> bool) (ls : list loc) l :
  l ∈ List.filter f ls <-> l ∈ ls /\ f l = true.
Proof. rewrite !list_elem_of_In. apply filter_In. Qed.

Lemma partition2_spec h head ls pivot fuel :
  chain h head ls -> length ls < fuel ->
  exists r h',
    partition2 fuel head pivot h = (Ok r, h') /\
    chain h' r (stable_partition (val_of h) pivot ls) /\
    (forall l, l < length h -> val_of h' l = val_of h l).
Proof.
  intros Hc Hf. unfold partition2. rewrite !bind_new_node.
  set (a := length h).
  set (h0 := h ++ [mkNode 0 None]).
  set (b := length h0).
  set (h1 := h0 ++ [mkNode 0 None]).
  assert (b = S a) as Hb by (unfold b, h0, a; rewrite length_app; simpl; lia).
  assert (length h1 = S b) as Hlen1 by (unfold h1, b; rewrite length_app; simpl; lia).
  assert (forall l, l ∈ ls -> l < a) as Hls
      by (intros l Hl; eapply lseg_alloc; eassumption).
  assert (forall l, l < a -> val_of h1 l = val_of h l) as Hval1.
  { intros l Hl. unfold h1, h0.
    rewrite val_of_snoc_lt by (rewrite length_app; simpl; fold a; lia).
    apply val_of_snoc_lt. exact Hl. }
  assert (chain h1 head ls) as Hc1 by (apply lseg_snoc_heap, lseg_snoc_heap, Hc).
  pose proof (chain_NoDup _ _ _ Hc) as Hnd.
  set (lo := List.filter (fun l => (val_of h1 l <? pivot)%Z) ls).
  set (hi := List.filter (fun l => (pivot <=? val_of h1 l)%Z) ls).
  assert (stable_partition (val_of h) pivot ls = lo ++ hi) as ->.
  { unfold stable_partition, lo, hi. f_equal; apply filter_ext_in;
      intros l Hl; rewrite Hval1; [reflexivity| |reflexivity|];
      apply Hls, list_elem_of_In, Hl. }
  destruct (partition2_loop_spec pivot (val_of h1) ls fuel h1 [a] [b]
              (Some a) (Some b) a b head)
    as (h2 & yA & yB & E & LA & LB & [qa SA] & [qb SB] & NB & F);
    try assumption; try reflexivity.
  { exists (next_of h1 a). simpl. repeat split. lia. }
  { exists (next_of h1 b). simpl. repeat split. lia. }
  { apply NoDup_cons. split.
    - intros Hin. apply elem_of_cons in Hin as [Hin|Hin]; [lia|].
      apply Hls in Hin. lia.
    - apply NoDup_cons. split; [|exact Hnd]. intros Hin. apply Hls in Hin. lia. }
  fold lo in LA, SA. fold hi in LB, SB, NB.
  rewrite (bind_eq _ _ _ _ _ E).
  assert (forall l, l ∈ lo -> l ∈ ls /\ (val_of h1 l <? pivot)%Z = true) as Hlo
      by (intros l Hl; apply elem_of_filter_list in Hl; exact Hl).
  assert (forall l, l ∈ hi -> l ∈ ls /\ (pivot <=? val_of h1 l)%Z = true) as Hhi
      by (intros l Hl; apply elem_of_filter_list in Hl; exact Hl).
  assert (NoDup (a :: lo)) as HndA.
  { apply NoDup_cons. split.
    - intros Hin. apply Hlo in Hin as [Hin _]. apply Hls in Hin. lia.
    - unfold lo. apply NoDup_filter_list. exact Hnd. }
  assert (forall l, l ∈ a :: lo -> l ∉ b :: hi) as Hdisj.
  { intros l Hl Hin. apply elem_of_cons in Hl as [->|Hl];
      apply elem_of_cons in Hin as [Hin|Hin].
    - lia.
    - apply Hhi in Hin as [Hin _]. apply Hls in Hin. lia.
    - subst l. apply Hlo in Hl as [Hl _]. apply Hls in Hl. lia.
    - apply Hlo in Hl as [_ Hl]. apply Hhi in Hin as [_ Hin].
      rewrite Z.leb_antisym, Hl in Hin. discriminate. }
  pose proof (last_Some_elem_of _ _ LA) as HyA.
  pose proof (last_Some_elem_of _ _ LB) as HyB.
  pose proof (lseg_alloc _ _ _ _ _ SA HyA) as HaA.
  pose proof (lseg_alloc _ _ _ _ _ SB HyB) as HaB.
  assert (b < length h2) as Hb2.
  { eapply lseg_alloc; [exact SB|]. apply elem_of_cons. left. reflexivity. }
  cbn [app] in *.
  msteps.
  set (rn := next_of h2 b).
  exists (next_of (upd (upd h2 yA rn) yB None) a), (upd (upd h2 yA rn) yB None).
  assert (chain (upd (upd h2 yA rn) yB None) (Some a) (a :: lo ++ hi)) as Hfin.
  { pose proof (lseg_relink h2 (Some a) (a :: lo) qa yA rn SA LA HndA) as SA3.
    destruct hi as [|r0 hi'] eqn:Ehi.
    - rewrite app_nil_r.
      assert (rn = None) as Hrn.
      { unfold rn. rewrite NB by reflexivity. unfold h1, b.
        apply next_of_snoc_eq. }
      rewrite Hrn in *.
      apply lseg_upd; [|exact SA3]. intros Hin. apply (Hdisj _ Hin). exact HyB.
    - destruct SB as (_ & _ & SB). fold rn in SB.
      assert (rn = Some r0) as Hrn by (destruct SB as (-> & _); reflexivity).
      rewrite Hrn in *.
      change (a :: lo ++ r0 :: hi') with ((a :: lo) ++ r0 :: hi').
      apply lseg_app. exists (Some r0). split.
      + apply lseg_upd; [|exact SA3]. intros Hin. apply (Hdisj _ Hin). exact HyB.
      + eapply lseg_relink.
        * apply lseg_upd; [|exact SB]. intros Hin.
          apply (Hdisj _ HyA). apply elem_of_cons. right. exact Hin.
        * rewrite last_cons_cons in LB. exact LB.
        * assert (NoDup hi) as Hndhi by (unfold hi; apply NoDup_filter_list, Hnd).
          rewrite Ehi in Hndhi. exact Hndhi. }
  split; [|split].
  - reflexivity.
  - destruct Hfin as (_ & _ & Hfin). exact Hfin.
  - intros l Hl. rewrite !val_of_upd. rewrite (frame_value _ _ _ F).
    apply Hval1. exact Hl.
Qed.

End partition_main.

(** C6: for every acyclic chain and pivot, [partition2] returns the chain
    of the input nodes with value below the pivot, in their input order,
    followed by the input nodes with value at least the pivot, in their
    input order; node values are not changed.  When every value is at least
    the pivot the order is the input order, as on [1,2,3,4] with pivot 0. *)
Theorem partition_stable :
  (forall h head ls pivot fuel,
      chain h head ls -> length ls < fuel ->
      exists r h' lo hi,
        partition2 fuel head pivot h = (Ok r, h') /\
        chain h' r (lo ++ hi) /\
        lo = List.filter (fun l => (val_of h l <? pivot)%Z) ls /\
        hi = List.filter (fun l => (pivot <=? val_of h l)%Z) ls /\
        vals h' (lo ++ hi) = vals h (lo ++ hi) /\
        Forall (fun l => (val_of h' l < pivot)%Z) lo /\
        Forall (fun l => (pivot <= val_of h' l)%Z) hi /\
        ((forall l, l ∈ ls -> (pivot <= val_of h l)%Z) -> lo ++ hi = ls)) /\
  values_of (run_on [1; 2; 3; 4]%Z (fun head => partition2 5 head 0))
  = Some [1; 2; 3; 4]%Z.
Proof.
  split; [|reflexivity].
  intros h head ls pivot fuel Hc Hf.
  destruct (partition2_spec h head ls pivot fuel Hc Hf) as (r & h' & E & C & V).
  exists r, h', (List.filter (fun l => (val_of h l <? pivot)%Z) ls),
    (List.filter (fun l => (pivot <=? val_of h l)%Z) ls).
  assert (forall l, l ∈ ls -> val_of h' l = val_of h l) as V'.
  { intros l Hl. apply V. eapply lseg_alloc; eassumption. }
  split; [exact E|]. split; [exact C|]. split; [reflexivity|].
  split; [reflexivity|]. split; [|split; [|split]].
  - unfold vals. apply map_ext_in. intros l Hl. apply V'.
    apply list_elem_of_In in Hl. apply elem_of_app in Hl as [Hl|Hl];
      apply elem_of_filter_list in Hl as [Hl _]; exact Hl.
  - apply Forall_forall. intros l Hl. apply elem_of_filter_list in Hl as [Hl Hlt].
    rewrite V' by exact Hl. apply Z.ltb_lt. exact Hlt.
  - apply Forall_forall. intros l Hl. apply elem_of_filter_list in Hl as [Hl Hle].
    rewrite V' by exact Hl. apply Z.leb_le. exact Hle.
  - intros Hall.
    assert (forall f g : loc -> bool,
               (forall l, l ∈ ls -> f l = false /\ g l = true) ->
               List.filter f ls ++ List.filter g ls = ls) as Hfilter.
    { clear. induction ls as [|x ls IH]; intros f g Hfg; [reflexivity|].
      destruct (Hfg x ltac:(apply elem_of_cons; left; reflexivity)) as [Hf Hg].
      cbn [List.filter]. rewrite Hf, Hg.
      assert (List.filter f ls = []) as Hnil.
      { clear IH Hf Hg. induction ls as [|y ls IH]; [reflexivity|].
        cbn [List.filter].
        destruct (Hfg y ltac:(apply elem_of_cons; right; apply elem_of_cons;
                               left; reflexivity)) as [-> _].
        apply IH. intros l Hl. apply Hfg.
        apply elem_of_cons in Hl as [->|Hl].
        - apply elem_of_cons. left. reflexivity.
        - do 2 (apply elem_of_cons; right). exact Hl. }
      rewrite Hnil. cbn [app]. f_equal.
      rewrite <- (IH f g) at 2.
      - rewrite Hnil. reflexivity.
      - intros l Hl. apply Hfg. apply elem_of_cons. right. exact Hl. }
    apply Hfilter. intros l Hl. specialize (Hall l Hl). split.
    + apply Z.ltb_ge. exact Hall.
    + apply Z.leb_le. exact Hall.
Qed.

Lemma partition_stable_witness :
  chain heap123 (Some 0) [0; 1; 2] /\ length [0; 1; 2] < 4 /\
  exists r h' lo hi,
    partition2 4 (Some 0) 2 heap123 = (Ok r, h') /\
    chain h' r (lo ++ hi) /\
    lo = List.filter (fun l => (val_of heap123 l <? 2)%Z) [0; 1; 2] /\
    hi = List.filter (fun l => (2 <=? val_of heap123 l)%Z) [0; 1; 2] /\
    vals h' (lo ++ hi) = vals heap123 (lo ++ hi) /\
    Forall (fun l => (val_of h' l < 2)%Z) lo /\
    Forall (fun l => (2 <= val_of h' l)%Z) hi /\
    ((forall l, l ∈ [0; 1; 2] -> (2 <= val_of heap123 l)%Z) ->
     lo ++ hi = [0; 1; 2]).
Proof.
  assert (chain heap123 (Some 0) [0; 1; 2]) as Hc.
  { unfold chain, heap123; simpl. repeat split; lia. }
  assert (length [0; 1; 2] < 4) as Hf by (simpl; lia).
  split; [exact Hc|]. split; [exact Hf|].
  exact (proj1 partition_stable heap123 (Some 0) [0; 1; 2] 2%Z 4 Hc Hf).
Defined.

(** ** removeDuplicatesSorted ([removeDuplicates2]) *)

Section remove_duplicates.

Variable v : loc -> Z.

Lemma lseg_last_next h p xs q y :
  lseg h p xs q -> last xs = Some y -> next_of h y = q.
Proof.
  intros Hs Hl. apply last_Some in Hl as [pre ->].
  apply lseg_snoc in Hs as (_ & _ & Hq). exact Hq.
Qed.

Lemma dedup_from_subset c ls l : l ∈ dedup_from v c ls -> l ∈ ls.
Proof.
  revert c. induction ls as [|y t IH]; intros c Hl; simpl in Hl.
  - exact Hl.
  - destruct (v y =? c)%Z.
    + apply elem_of_cons. right. eapply IH. exact Hl.
    + apply elem_of_cons in Hl as [->|Hl]; apply elem_of_cons;
        [left; reflexivity|right; eapply IH; exact Hl].
Qed.

Lemma dedup_from_run c run rest :
  Forall (fun l => v l = c) run ->
  dedup_from v c (run ++ rest) = dedup_from v c rest.
Proof.
  induction 1 as [|y run Hy _ IH]; [reflexivity|].
  simpl. rewrite Hy, Z.eqb_refl. exact IH.
Qed.

Lemma removeDuplicates2_run_spec x rest :
  forall fuel h y,
    (forall l, val_of h l = v l) -> x < length h ->
    chain h (Some y) (y :: rest) -> length rest < fuel ->
    exists run rest',
      rest = run ++ rest' /\
      Forall (fun l => v l = v x) run /\
      match rest' with [] => True | z :: _ => v z <> v x end /\
      removeDuplicates2_run fuel (Some x) (Some y) h
      = (Ok (last (y :: run)), h).
Proof.
  induction rest as [|z t IH]; intros fuel h y Hv Hx (_ & Hy & Hc) Hf;
    (destruct fuel as [|fuel]; [simpl in Hf; lia|]);
    cbn [removeDuplicates2_run].
  - red in Hc. simpl in Hc. exists [], []. msteps. rewrite Hc. cbn [truthy].
    msteps. repeat split. constructor.
  - pose proof Hc as (Hnz & Hz & Hc'). msteps. rewrite Hnz. cbn [truthy].
    msteps. rewrite !Hv.
    destruct (Z.eqb_spec (v z) (v x)) as [E|E].
    + msteps. rewrite Hnz.
      rewrite Hnz in Hc.
      destruct (IH fuel h z Hv Hx Hc ltac:(simpl in Hf; lia))
        as (run & rest' & -> & Hrun & Hrest & Er).
      exists (z :: run), rest'. split; [reflexivity|].
      split; [constructor; assumption|]. split; [exact Hrest|].
      rewrite Er. rewrite last_cons_cons. reflexivity.
    + exists [], (z :: t). msteps. repeat split; [constructor|exact E].
Qed.

Lemma removeDuplicates2_loop_spec fuel0 :
  forall fuel ls h x,
    (forall l, val_of h l = v l) ->
    chain h (Some x) (x :: ls) ->
    length ls < fuel0 -> 2 * length ls + 2 <= fuel ->
    exists h',
      removeDuplicates2_loop fuel0 fuel (Some x) h = (Ok tt, h') /\
      chain h' (Some x) (x :: dedup_from v (v x) ls) /\
      frame (x :: dedup_from v (v x) ls) h h'.
Proof.
  induction fuel as [|fuel IH]; intros ls h x Hv Hc Hf0 Hf; [lia|].
  cbn [removeDuplicates2_loop]. rewrite ptr_eqb_Some_None. cbn [negb].
  pose proof (chain_NoDup _ _ _ Hc) as Hnd.
  apply NoDup_cons in Hnd as (Hxls & Hndls).
  pose proof Hc as (_ & Hx & Hc').
  destruct (removeDuplicates2_run_spec x ls fuel0 h x Hv Hx Hc Hf0)
    as (run & rest & -> & Hrun & Hrest & Er).
  rewrite (bind_eq _ _ _ _ _ Er).
  rewrite (dedup_from_run _ _ _ Hrun).
  destruct run as [|r0 run].
  - cbn [last app] in *. rewrite ptr_eqb_refl. msteps.
    destruct rest as [|z t].
    + red in Hc'. simpl in Hc'. rewrite Hc'.
      destruct fuel as [|fuel]; [simpl in Hf; lia|].
      cbn [removeDuplicates2_loop]. change (ptr_eqb None None) with true.
      cbn [negb]. exists h. split; [reflexivity|]. split; [exact Hc|apply frame_refl].
    + pose proof Hc' as (Hnx & Hz & _). rewrite Hnx. rewrite Hnx in Hc'.
      destruct (IH t h z Hv Hc' ltac:(simpl in Hf0; lia) ltac:(simpl in Hf; lia))
        as (h' & E & C & F).
      exists h'. split; [exact E|].
      cbn [dedup_from]. destruct (Z.eqb_spec (v z) (v x)) as [Ez|_];
        [contradiction|].
      assert (x ∉ z :: dedup_from v (v z) t) as Hxn.
      { intros Hin. apply Hxls. apply elem_of_cons in Hin as [->|Hin];
          apply elem_of_cons; [left; reflexivity|right].
        eapply dedup_from_subset. exact Hin. }
      split.
      * split; [reflexivity|]. split; [rewrite (frame_length _ _ _ F); exact Hx|].
        rewrite (frame_next _ _ _ F) by exact Hxn. rewrite Hnx. exact C.
      * eapply frame_weaken; [|exact F]. intros l Hl.
        apply elem_of_cons. right. exact Hl.
  - assert (exists n1, last (x :: r0 :: run) = Some n1) as [n1 Hn1].
    { apply last_is_Some. discriminate. }
    rewrite Hn1. rewrite last_cons_cons in Hn1.
    pose proof (last_Some_elem_of _ _ Hn1) as Hn1in.
    assert (n1 ∈ (r0 :: run) ++ rest) as Hn1ls
        by (apply elem_of_app; left; exact Hn1in).
    assert (x <> n1) as Hxn1 by (intros ->; contradiction).
    rewrite ptr_eqb_ne by congruence.
    apply lseg_app in Hc' as (q & Hrunseg & Hrestc).
    pose proof (lseg_last_next _ _ _ _ _ Hrunseg Hn1) as Hq.
    pose proof (lseg_alloc _ _ _ _ _ Hrunseg Hn1in) as Hn1a.
    msteps. rewrite Hq.
    assert (x ∉ rest) as Hxrest.
    { intros Hin. apply Hxls. apply elem_of_app. right. exact Hin. }
    destruct (IH rest (upd h x q) x) as (h' & E & C & F).
    + intros l. rewrite val_of_upd. apply Hv.
    + split; [reflexivity|]. split; [rewrite length_upd; exact Hx|].
      rewrite next_of_upd_eq by exact Hx. apply lseg_upd; assumption.
    + rewrite length_app in Hf0. lia.
    + rewrite length_app in Hf. simpl in Hf. lia.
    + exists h'. split; [exact E|]. split; [exact C|].
      eapply frame_trans; [|exact F].
      eapply frame_weaken; [|apply frame_upd]. intros l Hl.
      apply elem_of_cons in Hl as [->|Hl]; [|inversion Hl].
      apply elem_of_cons. left. reflexivity.
Qed.

End remove_duplicates.

Lemma dedup_from_ext v v' c ls :
  (forall l, l ∈ ls -> v l = v' l) -> dedup_from v c ls = dedup_from v' c ls.
Proof.
  revert c. induction ls as [|y t IH]; intros c Hv; [reflexivity|].
  simpl. rewrite <- (Hv y) by (apply elem_of_cons; left; reflexivity).
  assert (forall l, l ∈ t -> v l = v' l) as Hv'
      by (intros l Hl; apply Hv, elem_of_cons; right; exact Hl).
  destruct (v y =? c)%Z; [|f_equal]; apply IH; exact Hv'.
Qed.

Lemma removeDuplicates2_spec h head ls fuel :
  chain h head ls -> 2 * length ls < fuel ->
  exists h',
    removeDuplicates2 fuel head h = (Ok head, h') /\
    chain h' head (dedup_runs (val_of h) ls) /\
    frame (dedup_runs (val_of h) ls) h h'.
Proof.
  intros Hc Hf. unfold removeDuplicates2. destruct ls as [|x t].
  - red in Hc. simpl in Hc. subst head. cbn [truthy negb].
    exists h. split; [reflexivity|]. split; [reflexivity|apply frame_refl].
  - pose proof Hc as (-> & _). cbn [truthy negb dedup_runs].
    destruct (removeDuplicates2_loop_spec (val_of h) fuel fuel t h x
                (fun l => eq_refl) Hc ltac:(simpl in Hf; lia)
                ltac:(simpl in Hf; lia))
      as (h' & E & C & F).
    exists h'. rewrite (bind_eq _ _ _ _ _ E).
    split; [reflexivity|]. split; assumption.
Qed.

Section dedup_facts.

Variable v : loc -> Z.

Lemma dedup_from_idem c ls :
  dedup_from v c (dedup_from v c ls) = dedup_from v c ls.
Proof.
  revert c. induction ls as [|y t IH]; intros c; [reflexivity|].
  cbn [dedup_from]. destruct (v y =? c)%Z eqn:E; [apply IH|].
  cbn [dedup_from]. rewrite E. f_equal. apply IH.
Qed.

Lemma dedup_runs_idem ls : dedup_runs v (dedup_runs v ls) = dedup_runs v ls.
Proof.
  destruct ls as [|x t]; [reflexivity|].
  cbn [dedup_runs]. f_equal. apply dedup_from_idem.
Qed.

Lemma dedup_from_sublist c ls : sublist (dedup_from v c ls) ls.
Proof.
  revert c. induction ls as [|y t IH]; intros c; cbn [dedup_from].
  - constructor.
  - destruct (v y =? c)%Z; [apply sublist_cons|apply sublist_skip]; apply IH.
Qed.

Lemma dedup_runs_sublist ls : sublist (dedup_runs v ls) ls.
Proof.
  destruct ls as [|x t]; [constructor|].
  cbn [dedup_runs]. apply sublist_skip, dedup_from_sublist.
Qed.

Lemma dedup_from_covers c ls l :
  l ∈ ls -> v l = c \/ v l ∈ map v (dedup_from v c ls).
Proof.
  revert c. induction ls as [|y t IH]; intros c Hl; [inversion Hl|].
  cbn [dedup_from]. apply elem_of_cons in Hl as [->|Hl].
  - destruct (Z.eqb_spec (v y) c) as [E|E]; [left; exact E|right].
    cbn [map]. apply elem_of_cons. left. reflexivity.
  - destruct (Z.eqb_spec (v y) c) as [E|E]; [apply IH; exact Hl|].
    right. cbn [map]. apply elem_of_cons.
    destruct (IH (v y) Hl) as [E'|Hin]; [left; exact E'|right; exact Hin].
Qed.

Lemma dedup_runs_covers ls z :
  z ∈ map v ls <-> z ∈ map v (dedup_runs v ls).
Proof.
  split.
  - intros Hz. apply list_elem_of_In, in_map_iff in Hz as (l & <- & Hl).
    apply list_elem_of_In in Hl. destruct ls as [|x t]; [inversion Hl|].
    cbn [dedup_runs map]. apply elem_of_cons.
    apply elem_of_cons in Hl as [->|Hl]; [left; reflexivity|].
    destruct (dedup_from_covers (v x) t l Hl) as [E|Hin];
      [left; exact E|right; exact Hin].
  - intros Hz. apply list_elem_of_In, in_map_iff in Hz as (l & <- & Hl).
    apply list_elem_of_In. apply in_map. apply list_elem_of_In.
    eapply elem_of_sublist; [|apply dedup_runs_sublist].
    apply list_elem_of_In. exact Hl.
Qed.

Lemma dedup_from_increasing c ls :
  StronglySorted Z.le (map v ls) -> Forall (fun l => (c <= v l)%Z) ls ->
  StronglySorted Z.lt (map v (dedup_from v c ls)) /\
  Forall (fun l => (c < v l)%Z) (dedup_from v c ls).
Proof.
  revert c. induction ls as [|y t IH]; intros c Hs Hc; cbn [dedup_from map].
  - split; constructor.
  - cbn [map] in Hs. apply StronglySorted_inv in Hs as [Hs Hy].
    apply Forall_cons in Hc as [Hcy Hc].
    assert (Forall (fun l => (v y <= v l)%Z) t) as Hyt.
    { apply Forall_forall. intros l Hl. rewrite List.Forall_forall in Hy.
      apply Hy. apply in_map. apply list_elem_of_In. exact Hl. }
    destruct (Z.eqb_spec (v y) c) as [E|E].
    + apply IH; assumption.
    + destruct (IH (v y) Hs Hyt) as [Hs' Hlt]. split.
      * cbn [map]. constructor; [exact Hs'|].
        apply List.Forall_forall. intros z Hz.
        apply in_map_iff in Hz as (l & <- & Hl).
        rewrite Forall_forall in Hlt. apply Hlt. apply list_elem_of_In. exact Hl.
      * apply Forall_cons. split; [lia|].
        eapply Forall_impl; [exact Hlt|]. intros l Hl. simpl in Hl. lia.
Qed.

Lemma dedup_runs_increasing ls :
  Sorted Z.le (map v ls) -> StronglySorted Z.lt (map v (dedup_runs v ls)).
Proof.
  intros Hs. apply Sorted_StronglySorted in Hs; [|intros a b c; apply Z.le_trans].
  destruct ls as [|x t]; [constructor|].
  cbn [map] in Hs. apply StronglySorted_inv in Hs as [Hs Hx].
  assert (Forall (fun l => (v x <= v l)%Z) t) as Hxt.
  { apply Forall_forall. intros l Hl. rewrite List.Forall_forall in Hx.
    apply Hx. apply in_map. apply list_elem_of_In. exact Hl. }
  destruct (dedup_from_increasing (v x) t Hs Hxt) as [Hs' Hlt].
  cbn [dedup_runs map]. constructor; [exact Hs'|].
  apply List.Forall_forall. intros z Hz.
  apply in_map_iff in Hz as (l & <- & Hl).
  rewrite Forall_forall in Hlt. apply Hlt. apply list_elem_of_In. exact Hl.
Qed.

Lemma increasing_NoDup (zs : list Z) : StronglySorted Z.lt zs -> NoDup zs.
Proof.
  induction 1 as [|z zs Hs IH Hz]; constructor; [|exact IH].
  intros Hin. rewrite List.Forall_forall in Hz.
  apply list_elem_of_In in Hin. specialize (Hz z Hin). lia.
Qed.

End dedup_facts.

(** C8: [removeDuplicates2] is idempotent.  On a non-decreasing sorted
    chain the first call returns the chain of one node per distinct value
    (the values of the result are strictly increasing, every input value
    is present, the nodes are in their input order), and a second call on
    this result returns the same chain with the same values. *)
Theorem removeDuplicatesSorted_idempotent :
  forall h head ls fuel,
    chain h head ls -> Sorted Z.le (vals h ls) -> 2 * length ls < fuel ->
    exists h1 h2 D,
      removeDuplicates2 fuel head h = (Ok head, h1) /\
      chain h1 head D /\
      removeDuplicates2 fuel head h1 = (Ok head, h2) /\
      chain h2 head D /\
      vals h2 D = vals h1 D /\
      D = dedup_runs (val_of h) ls /\
      sublist D ls /\
      StronglySorted Z.lt (vals h1 D) /\
      NoDup (vals h1 D) /\
      (forall z, z ∈ vals h ls <-> z ∈ vals h1 D).
Proof.
  intros h head ls fuel Hc Hs Hf.
  destruct (removeDuplicates2_spec h head ls fuel Hc Hf) as (h1 & E1 & C1 & F1).
  set (D := dedup_runs (val_of h) ls) in *.
  pose proof (dedup_runs_sublist (val_of h) ls) as Hsub. fold D in Hsub.
  pose proof (sublist_length _ _ Hsub) as Hlen.
  destruct (removeDuplicates2_spec h1 head D fuel C1 ltac:(lia))
    as (h2 & E2 & C2 & F2).
  assert (dedup_runs (val_of h1) D = D) as HD.
  { destruct D as [|x t] eqn:ED; [reflexivity|].
    cbn [dedup_runs]. f_equal.
    rewrite (dedup_from_ext (val_of h1) (val_of h))
      by (intros l _; apply (frame_value _ _ _ F1)).
    rewrite (frame_value _ _ _ F1).
    pose proof (dedup_runs_idem (val_of h) ls) as Hid. fold D in Hid.
    rewrite ED in Hid. cbn [dedup_runs] in Hid. injection Hid as Hid.
    exact Hid. }
  rewrite HD in C2, F2.
  assert (vals h1 D = vals h D) as Hv1 by apply (vals_frame _ _ _ _ F1).
  assert (StronglySorted Z.lt (vals h1 D)) as Hinc.
  { rewrite Hv1. apply dedup_runs_increasing. exact Hs. }
  exists h1, h2, D. split; [exact E1|]. split; [exact C1|].
  split; [exact E2|]. split; [exact C2|].
  split; [apply (vals_frame _ _ _ _ F2)|]. split; [reflexivity|].
  split; [exact Hsub|]. split; [exact Hinc|].
  split; [apply increasing_NoDup; exact Hinc|].
  intros z. rewrite Hv1. apply dedup_runs_covers.
Qed.

Lemma removeDuplicatesSorted_idempotent_witness :
  chain heap112 (Some 0) [0; 1; 2] /\
  Sorted Z.le (vals heap112 [0; 1; 2]) /\
  2 * length [0; 1; 2] < 7 /\
  exists h1 h2 D,
    removeDuplicates2 7 (Some 0) heap112 = (Ok (Some 0), h1) /\
    chain h1 (Some 0) D /\
    removeDuplicates2 7 (Some 0) h1 = (Ok (Some 0), h2) /\
    chain h2 (Some 0) D /\
    vals h2 D = vals h1 D /\
    D = dedup_runs (val_of heap112) [0; 1; 2] /\
    sublist D [0; 1; 2] /\
    StronglySorted Z.lt (vals h1 D) /\
    NoDup (vals h1 D) /\
    (forall z, z ∈ vals heap112 [0; 1; 2] <-> z ∈ vals h1 D).
Proof.
  assert (chain heap112 (Some 0) [0; 1; 2]) as Hc.
  { unfold chain, heap112; simpl. repeat split; lia. }
  assert (Sorted Z.le (vals heap112 [0; 1; 2])) as Hs.
  { unfold vals, heap112, val_of; simpl.
    repeat (constructor; try lia). }
  assert (2 * length [0; 1; 2] < 7) as Hf by (simpl; lia).
  split; [exact Hc|]. split; [exact Hs|]. split; [exact Hf|].
  exact (removeDuplicatesSorted_idempotent heap112 (Some 0) [0; 1; 2] 7 Hc Hs Hf).
Defined.

(** ** removeNthFromEnd ([removeNthFromEnd2], [removeNthFronEnd]) *)

Section remove_nth.

(** The common end of the two removal functions: unlink the node at
    position [k], given the references to it and to the node before it. *)
Lemma unlink_spec h head ls k :
  chain h head ls -> k < length ls ->
  exists r h',
    (if negb (truthy (before ls k)) then get_next (ls !! k)
     else if negb (truthy (ls !! k)) then
            set_next (before ls k) None ;; ret head
          else
            nn <- get_next (ls !! k) ;;
            set_next (before ls k) nn ;; ret head) h = (Ok r, h') /\
    chain h' r (delete k ls) /\ frame (delete k ls) h h'.
Proof.
  intros Hc Hk. destruct k as [|k].
  - destruct ls as [|x t]; [simpl in Hk; lia|].
    destruct Hc as (-> & Hx & Hc). cbn [before truthy negb lookup list_lookup].
    exists (next_of h x), h. msteps.
    split; [reflexivity|]. split; [exact Hc|apply frame_refl].
  - destruct (lookup_lt_is_Some_2 ls k ltac:(lia)) as [p Ep].
    destruct (lookup_lt_is_Some_2 ls (S k) Hk) as [x Ex].
    destruct (chain_lookup _ _ _ _ _ Hc Ep) as (Hp & Hnp & _).
    destruct (chain_lookup _ _ _ _ _ Hc Ex) as (Hx & Hnx & _).
    pose proof (chain_NoDup _ _ _ Hc) as Hnd.
    cbn [before]. rewrite Ep, Ex. cbn [truthy negb]. msteps.
    exists head, (upd h p (next_of h x)).
    split; [reflexivity|].
    rewrite delete_take_drop, (take_S_r _ _ _ Ep).
    assert (p ∈ take (S k) ls) as Hpin.
    { rewrite (take_S_r _ _ _ Ep). apply elem_of_app. right.
      apply elem_of_cons. left. reflexivity. }
    split.
    + apply lseg_app. exists (next_of h x). split.
      * pose proof (lseg_take h head ls None (S k) ltac:(lia) Hc) as Ht.
        rewrite Ex, (take_S_r _ _ _ Ep) in Ht.
        eapply lseg_relink; [exact Ht|apply last_snoc|].
        rewrite <- (take_S_r _ _ _ Ep).
        rewrite <- (take_drop (S k) ls) in Hnd.
        apply NoDup_app in Hnd as (Hnd & _). exact Hnd.
      * rewrite Hnx. apply lseg_upd; [|exact (chain_drop h head ls (S (S k)) Hc)].
        eapply take_drop_disjoint; [exact Hnd| |exact Hpin]. lia.
    + eapply frame_weaken; [|apply frame_upd]. intros l Hl.
      apply elem_of_cons in Hl as [->|Hl]; [|inversion Hl].
      apply elem_of_app. left. apply elem_of_app. right.
      apply elem_of_cons. left. reflexivity.
Qed.

Lemma removeNthFromBegining_loop_spec h head ls k :
  chain h head ls -> k < length ls ->
  forall fuel j,
    j <= k -> k - j < fuel ->
    removeNthFromBegining_loop fuel (Z.of_nat k + 1) (ls !! j) (before ls j)
      (Z.of_nat j + 1) h
    = (Ok (before ls k, ls !! k), h).
Proof.
  intros Hc Hk. induction fuel as [|fuel IH]; intros j Hj Hf; [lia|].
  cbn [removeNthFromBegining_loop].
  destruct (Z.eqb_spec (Z.of_nat j + 1) (Z.of_nat k + 1)) as [E|E]; cbn [negb].
  - assert (j = k) as -> by lia. reflexivity.
  - destruct (lookup_lt_is_Some_2 ls j ltac:(lia)) as [x Ex].
    destruct (chain_lookup _ _ _ _ _ Hc Ex) as (Hx & Hnx & _).
    rewrite Ex. msteps. rewrite Hnx, <- Ex.
    change (ls !! j) with (before ls (S j)).
    replace (Z.of_nat j + 1 + 1)%Z with (Z.of_nat (S j) + 1)%Z by lia.
    apply IH; lia.
Qed.

Lemma countNodes_loop_spec h p ls :
  chain h p ls ->
  forall fuel i count,
    i <= length ls -> length ls - i < fuel ->
    countNodes_loop fuel (ls !! i) count h
    = (Ok (count + Z.of_nat (length ls - i))%Z, h).
Proof.
  intros Hc. induction fuel as [|fuel IH]; intros i count Hi Hf; [lia|].
  cbn [countNodes_loop].
  destruct (ls !! i) as [x|] eqn:Ex.
  - destruct (chain_lookup _ _ _ _ _ Hc Ex) as (Hx & Hnx & _).
    pose proof (lookup_lt_Some _ _ _ Ex) as Hlt.
    rewrite ptr_eqb_Some_None. cbn [negb]. msteps. rewrite Hnx, IH by lia.
    do 2 f_equal. lia.
  - apply lookup_ge_None in Ex. change (ptr_eqb None None) with true.
    cbn [negb]. unfold ret. do 2 f_equal. lia.
Qed.

Lemma removeNthFromEnd2_loop_spec h head ls n :
  chain h head ls -> 1 <= n <= length ls ->
  forall fuel t,
    t <= length ls -> length ls - t < fuel ->
    removeNthFromEnd2_loop fuel (Z.of_nat n) (ls !! t) (before ls (t - n))
      (ls !! (t - n)) (Z.of_nat t + 1) h
    = (Ok (before ls (length ls - n), ls !! (length ls - n)), h).
Proof.
  intros Hc Hn. induction fuel as [|fuel IH]; intros t Ht Hf; [lia|].
  cbn [removeNthFromEnd2_loop].
  destruct (ls !! t) as [x|] eqn:Ex.
  - destruct (chain_lookup _ _ _ _ _ Hc Ex) as (Hx & Hnx & _).
    pose proof (lookup_lt_Some _ _ _ Ex) as Hlt.
    rewrite ptr_eqb_Some_None. cbn [negb].
    replace (Z.of_nat t + 1 + 1)%Z with (Z.of_nat (S t) + 1)%Z by lia.
    destruct (Z.gtb_spec (Z.of_nat t + 1) (Z.of_nat n)) as [G|G].
    + destruct (lookup_lt_is_Some_2 ls (t - n) ltac:(lia)) as [y Ey].
      destruct (chain_lookup _ _ _ _ _ Hc Ey) as (Hy & Hny & _).
      rewrite Ey. msteps. cbn [fst snd]. rewrite Hnx, Hny, <- Ey.
      replace (S (t - n)) with (S t - n) by lia.
      replace (ls !! (t - n)) with (before ls (S t - n))
        by (replace (S t - n) with (S (t - n)) by lia; reflexivity).
      apply IH; lia.
    + msteps. cbn [fst snd]. rewrite Hnx.
      replace (t - n) with (S t - n) by lia.
      apply IH; lia.
  - apply lookup_ge_None in Ex. change (ptr_eqb None None) with true.
    cbn [negb]. assert (t = length ls) as -> by lia. reflexivity.
Qed.

Lemma removeNthFromEnd2_spec h head ls n fuel :
  chain h head ls -> 1 <= n <= length ls -> length ls < fuel ->
  exists r h',
    removeNthFromEnd2 fuel head (Z.of_nat n) h = (Ok r, h') /\
    chain h' r (delete (length ls - n) ls) /\
    frame (delete (length ls - n) ls) h h'.
Proof.
  intros Hc Hn Hf. unfold removeNthFromEnd2.
  pose proof (removeNthFromEnd2_loop_spec h head ls n Hc Hn fuel 0
                ltac:(lia) ltac:(lia)) as E.
  change (0 - n) with 0 in E. rewrite <- (chain_head _ _ _ Hc) in E.
  change (Z.of_nat 0 + 1)%Z with 1%Z in E. cbn [before] in E.
  rewrite (bind_eq _ _ _ _ _ E).
  apply unlink_spec; [exact Hc|lia].
Qed.

Lemma removeNthFronEnd_spec h head ls n fuel :
  chain h head ls -> 1 <= n <= length ls -> length ls < fuel ->
  exists r h',
    removeNthFronEnd fuel head (Z.of_nat n) h = (Ok r, h') /\
    chain h' r (delete (length ls - n) ls) /\
    frame (delete (length ls - n) ls) h h'.
Proof.
  intros Hc Hn Hf. unfold removeNthFronEnd, countNodes.
  pose proof (countNodes_loop_spec h head ls Hc fuel 0 0%Z
                ltac:(lia) ltac:(lia)) as EN.
  rewrite <- (chain_head _ _ _ Hc) in EN.
  rewrite (bind_eq _ _ _ _ _ EN). unfold removeNthFromBegining.
  replace (0 + Z.of_nat (length ls - 0) - Z.of_nat n + 1)%Z
    with (Z.of_nat (length ls - n) + 1)%Z by lia.
  pose proof (removeNthFromBegining_loop_spec h head ls (length ls - n) Hc
                ltac:(lia) fuel 0 ltac:(lia) ltac:(lia)) as E.
  rewrite <- (chain_head _ _ _ Hc) in E.
  change (Z.of_nat 0 + 1)%Z with 1%Z in E. cbn [before] in E.
  rewrite (bind_eq _ _ _ _ _ E).
  apply unlink_spec; [exact Hc|lia].
Qed.

End remove_nth.

Lemma NoDup_lookup_not_in_delete (ls : list loc) k x :
  NoDup ls -> ls !! k = Some x -> x ∉ delete k ls.
Proof.
  intros Hnd Ex. rewrite delete_take_drop.
  rewrite <- (take_drop_middle _ _ _ Ex) in Hnd.
  apply NoDup_app in Hnd as (_ & Hd & Hnd).
  apply NoDup_cons in Hnd as (Hx & _).
  intros Hin. apply elem_of_app in Hin as [Hin|Hin]; [|contradiction].
  apply (Hd x Hin). apply elem_of_cons. left. reflexivity.
Qed.

(** C2, as the code has it: the removal functions never write to a node
    they remove.  [removeNthFromEnd2] and [removeNthFronEnd] return the
    chain without the [n]-th node from the end, [removeDuplicates2] the
    chain with one node per run of equal values, and every removed node has
    after the call the [next] it had before: the reference to the node that
    followed it in the input, absent only for the tail. *)
Theorem removal_keeps_next_of_removed :
  (forall h head ls n fuel,
      chain h head ls -> 1 <= n <= length ls -> length ls < fuel ->
      exists x r1 h1 r2 h2,
        ls !! (length ls - n) = Some x /\
        removeNthFromEnd2 fuel head (Z.of_nat n) h = (Ok r1, h1) /\
        chain h1 r1 (delete (length ls - n) ls) /\
        removeNthFronEnd fuel head (Z.of_nat n) h = (Ok r2, h2) /\
        chain h2 r2 (delete (length ls - n) ls) /\
        next_of h x = ls !! S (length ls - n) /\
        next_of h1 x = next_of h x /\
        next_of h2 x = next_of h x) /\
  (forall h head ls fuel,
      chain h head ls -> 2 * length ls < fuel ->
      exists h',
        removeDuplicates2 fuel head h = (Ok head, h') /\
        chain h' head (dedup_runs (val_of h) ls) /\
        forall i x,
          ls !! i = Some x -> x ∉ dedup_runs (val_of h) ls ->
          next_of h x = ls !! S i /\ next_of h' x = next_of h x).
Proof.
  split.
  - intros h head ls n fuel Hc Hn Hf.
    destruct (lookup_lt_is_Some_2 ls (length ls - n) ltac:(lia)) as [x Ex].
    destruct (removeNthFromEnd2_spec h head ls n fuel Hc Hn Hf)
      as (r1 & h1 & E1 & C1 & F1).
    destruct (removeNthFronEnd_spec h head ls n fuel Hc Hn Hf)
      as (r2 & h2 & E2 & C2 & F2).
    pose proof (NoDup_lookup_not_in_delete _ _ _ (chain_NoDup _ _ _ Hc) Ex) as Hx.
    destruct (chain_lookup _ _ _ _ _ Hc Ex) as (_ & Hnx & _).
    exists x, r1, h1, r2, h2. repeat split; try assumption.
    + apply (frame_next _ _ _ F1). exact Hx.
    + apply (frame_next _ _ _ F2). exact Hx.
  - intros h head ls fuel Hc Hf.
    destruct (removeDuplicates2_spec h head ls fuel Hc Hf) as (h' & E & C & F).
    exists h'. split; [exact E|]. split; [exact C|].
    intros i x Ex Hx. destruct (chain_lookup _ _ _ _ _ Hc Ex) as (_ & Hnx & _).
    split; [exact Hnx|]. apply (frame_next _ _ _ F). exact Hx.
Qed.

Lemma removal_keeps_next_of_removed_witness :
  chain heap123 (Some 0) [0; 1; 2] /\ 1 <= 2 <= length [0; 1; 2] /\
  length [0; 1; 2] < 4 /\
  exists x r1 h1 r2 h2,
    [0; 1; 2] !! (length [0; 1; 2] - 2) = Some x /\
    removeNthFromEnd2 4 (Some 0) (Z.of_nat 2) heap123 = (Ok r1, h1) /\
    chain h1 r1 (delete (length [0; 1; 2] - 2) [0; 1; 2]) /\
    removeNthFronEnd 4 (Some 0) (Z.of_nat 2) heap123 = (Ok r2, h2) /\
    chain h2 r2 (delete (length [0; 1; 2] - 2) [0; 1; 2]) /\
    next_of heap123 x = [0; 1; 2] !! S (length [0; 1; 2] - 2) /\
    next_of h1 x = next_of heap123 x /\
    next_of h2 x = next_of heap123 x.
Proof.
  assert (chain heap123 (Some 0) [0; 1; 2]) as Hc.
  { unfold chain, heap123; simpl. repeat split; lia. }
  assert (1 <= 2 <= length [0; 1; 2]) as Hn by (simpl; lia).
  assert (length [0; 1; 2] < 4) as Hf by (simpl; lia).
  split; [exact Hc|]. split; [exact Hn|]. split; [exact Hf|].
  exact (proj1 removal_keeps_next_of_removed heap123 (Some 0) [0; 1; 2] 2 4
           Hc Hn Hf).
Defined.

(** Against C2 as stated: removing the second node from the end of
    [1,2,3], and removing the duplicate in [1,1,2], leaves the removed node
    (address 1) with its [next] still referring to the surviving node at
    address 2, not with an absent [next]. *)
Lemma removed_next_not_cleared :
  chain heap123 (Some 0) [0; 1; 2] /\
  removeNthFromEnd2 4 (Some 0) 2 heap123
  = (Ok (Some 0),
     [mkNode 1 (Some 2); mkNode 2 (Some 2); mkNode 3 None]) /\
  removeNthFronEnd 4 (Some 0) 2 heap123
  = (Ok (Some 0),
     [mkNode 1 (Some 2); mkNode 2 (Some 2); mkNode 3 None]) /\
  chain [mkNode 1 (Some 2); mkNode 2 (Some 2); mkNode 3 None] (Some 0) [0; 2] /\
  next_of (snd (removeNthFromEnd2 4 (Some 0) 2 heap123)) 1 <> None /\
  next_of (snd (removeNthFronEnd 4 (Some 0) 2 heap123)) 1 <> None /\
  chain heap112 (Some 0) [0; 1; 2] /\
  removeDuplicates2 7 (Some 0) heap112
  = (Ok (Some 0),
     [mkNode 1 (Some 2); mkNode 1 (Some 2); mkNode 2 None]) /\
  chain [mkNode 1 (Some 2); mkNode 1 (Some 2); mkNode 2 None] (Some 0) [0; 2] /\
  next_of (snd (removeDuplicates2 7 (Some 0) heap112)) 1 <> None.
Proof.
  repeat split; try reflexivity; try (simpl; lia); try discriminate.
Qed.

(** ** insertionSort *)

Section insertion_sort.

Variable v : loc -> Z.

Lemma insert_before_ge_split x out :
  exists lo hi,
    out = lo ++ hi /\
    insert_before_ge v x out = lo ++ x :: hi /\
    Forall (fun l => (v l < v x)%Z) lo /\
    match hi with [] => True | z :: _ => (v x <= v z)%Z end.
Proof.
  induction out as [|y t IH]; cbn [insert_before_ge].
  - exists [], []. repeat split. constructor.
  - destruct (Z.ltb_spec (v y) (v x)) as [Hlt|Hge].
    + destruct IH as (lo & hi & -> & -> & Hlo & Hhi).
      exists (y :: lo), hi. repeat split; [|exact Hhi].
      constructor; assumption.
    + exists [], (y :: t). repeat split; [constructor|exact Hge].
Qed.

Lemma insert_before_ge_perm x out : insert_before_ge v x out ≡ₚ x :: out.
Proof.
  induction out as [|y t IH]; cbn [insert_before_ge]; [reflexivity|].
  destruct (v y <? v x)%Z; [|reflexivity].
  rewrite IH. apply Permutation_swap.
Qed.

Lemma insert_before_ge_sorted x out :
  Sorted Z.le (map v out) -> Sorted Z.le (map v (insert_before_ge v x out)).
Proof.
  induction out as [|y t IH]; intros Hs; cbn [insert_before_ge map].
  - repeat constructor.
  - cbn [map] in Hs. apply Sorted_inv in Hs as [Hs Hhd].
    destruct (Z.ltb_spec (v y) (v x)) as [Hlt|Hge]; cbn [map].
    + constructor; [apply IH; exact Hs|].
      destruct t as [|z t']; cbn [insert_before_ge map].
      * constructor. lia.
      * destruct (v z <? v x)%Z; cbn [map]; constructor.
        -- cbn [map] in Hhd. apply HdRel_inv in Hhd. exact Hhd.
        -- lia.
    + constructor; [constructor; assumption|]. constructor. exact Hge.
Qed.

Lemma insertion_sorted_perm todo : forall done,
  insertion_sorted v done todo ≡ₚ done ++ todo.
Proof.
  induction todo as [|x t IH]; intros done; cbn [insertion_sorted fold_left].
  - rewrite app_nil_r. reflexivity.
  - unfold insertion_sorted in IH. rewrite IH, insert_before_ge_perm.
    apply (Permutation_middle done t x).
Qed.

Lemma insertion_sorted_sorted todo : forall done,
  Sorted Z.le (map v done) -> Sorted Z.le (map v (insertion_sorted v done todo)).
Proof.
  induction todo as [|x t IH]; intros done Hs; cbn [insertion_sorted fold_left].
  - exact Hs.
  - apply IH, insert_before_ge_sorted, Hs.
Qed.

Lemma insertNode_loop_spec h head out x lo hi :
  (forall l, val_of h l = v l) -> x < length h ->
  chain h head out -> out = lo ++ hi ->
  Forall (fun l => (v l < v x)%Z) lo ->
  match hi with [] => True | z :: _ => (v x <= v z)%Z end ->
  forall fuel j,
    j <= length lo -> length lo - j < fuel ->
    insertNode_loop fuel (Some x) (before out j) (out !! j) h
    = (Ok (before out (length lo), out !! length lo), h).
Proof.
  intros Hv Hx Hc -> Hlo Hhi. induction fuel as [|fuel IH]; intros j Hj Hf; [lia|].
  cbn [insertNode_loop].
  destruct (decide (j = length lo)) as [->|Hne].
  - rewrite (lookup_app_r lo hi) by lia. rewrite Nat.sub_diag.
    destruct hi as [|z hi']; cbn [lookup list_lookup truthy]; msteps;
      [reflexivity|].
    assert (z < length h) as Hz.
    { eapply lseg_alloc; [exact Hc|]. apply elem_of_app. right.
      apply elem_of_cons. left. reflexivity. }
    msteps. rewrite !Hv.
    destruct (Z.ltb_spec (v z) (v x)) as [Hlt|_]; [lia|]. reflexivity.
  - destruct (lookup_lt_is_Some_2 lo j ltac:(lia)) as [y Ey].
    assert ((lo ++ hi) !! j = Some y) as Ey'
        by (rewrite lookup_app_l by lia; exact Ey).
    destruct (chain_lookup _ _ _ _ _ Hc Ey') as (Hy & Hny & _).
    rewrite Ey'. cbn [truthy]. msteps. rewrite !Hv.
    rewrite Forall_forall in Hlo.
    pose proof (Hlo y ltac:(apply list_elem_of_lookup; eauto)) as Hlt.
    simpl in Hlt.
    destruct (Z.ltb_spec (v y) (v x)) as [_|Hge]; [|lia].
    msteps. rewrite Hny, <- Ey'.
    change ((lo ++ hi) !! j) with (before (lo ++ hi) (S j)).
    apply IH; lia.
Qed.

Lemma insertNode_spec h head out x fuel :
  (forall l, val_of h l = v l) -> x < length h ->
  chain h head out -> x ∉ out -> length out < fuel ->
  exists r h',
    insertNode fuel head (Some x) h = (Ok r, h') /\
    chain h' r (insert_before_ge v x out) /\
    frame (x :: out) h h'.
Proof.
  intros Hv Hx Hc Hxo Hf. unfold insertNode.
  destruct (insert_before_ge_split x out) as (lo & hi & Eo & -> & Hlo & Hhi).
  destruct out as [|o0 out'].
  - red in Hc. simpl in Hc. subst head.
    destruct lo; [|discriminate]. destruct hi; [|discriminate].
    cbn [truthy negb]. msteps. exists (Some x), (upd h x None).
    split; [reflexivity|]. split; [|apply frame_upd].
    split; [reflexivity|]. split; [rewrite length_upd; exact Hx|].
    rewrite next_of_upd_eq by exact Hx. reflexivity.
  - pose proof Hc as (-> & _). cbn [truthy negb].
    pose proof (insertNode_loop_spec h (Some o0) (o0 :: out') x lo hi Hv Hx Hc
                  Eo Hlo Hhi fuel 0 ltac:(lia)) as E.
    cbn [before] in E. change ((o0 :: out') !! 0) with (Some o0) in E.
    assert (length lo <= length (o0 :: out')) as Hlen
        by (rewrite Eo, length_app; lia).
    rewrite (bind_eq _ _ _ _ _ (E ltac:(simpl in *; lia))).
    pose proof (chain_NoDup _ _ _ Hc) as Hnd.
    pose proof (lseg_take h (Some o0) (o0 :: out') None (length lo) Hlen Hc) as Hlos.
    pose proof (chain_drop h (Some o0) (o0 :: out') (length lo) Hc) as His.
    assert ((match (o0 :: out') !! length lo with
             | Some l => Some l | None => None end) = (o0 :: out') !! length lo)
      as Hm by (destruct ((o0 :: out') !! length lo); reflexivity).
    rewrite Hm in Hlos. clear Hm.
    set (n := (o0 :: out') !! length lo) in *.
    rewrite Eo in Hlos, His, Hnd, Hxo.
    rewrite take_app_length in Hlos. rewrite drop_app_length in His.
    apply NoDup_app in Hnd as (Hndlo & Hdlo & Hndhi).
    assert (x ∉ lo) as Hxlo by (intros Hin; apply Hxo, elem_of_app; left; exact Hin).
    assert (x ∉ hi) as Hxhi by (intros Hin; apply Hxo, elem_of_app; right; exact Hin).
    destruct (length lo) as [|m] eqn:Elen.
    + destruct lo; [|discriminate]. cbn [before truthy negb app] in *.
      msteps. exists (Some x), (upd h x (Some o0)).
      split; [reflexivity|]. split.
      * split; [reflexivity|]. split; [rewrite length_upd; exact Hx|].
        rewrite next_of_upd_eq by exact Hx. rewrite <- Eo.
        apply lseg_upd; [rewrite Eo; exact Hxhi|exact Hc].
      * eapply frame_weaken; [|apply frame_upd]. intros l Hl.
        apply elem_of_cons in Hl as [->|Hl]; [|inversion Hl].
        apply elem_of_cons. left. reflexivity.
    + cbn [before].
      assert (exists p, last lo = Some p) as [p Hp].
      { apply last_is_Some. intros ->. discriminate. }
      assert ((o0 :: out') !! m = Some p) as Ep.
      { rewrite Eo, lookup_app_l by lia. rewrite last_lookup, Elen in Hp.
        exact Hp. }
      pose proof (last_Some_elem_of _ _ Hp) as Hpin.
      pose proof (lseg_alloc _ _ _ _ _ Hlos Hpin) as Hpa.
      rewrite Ep. cbn [truthy negb]. msteps.
      exists (Some o0), (upd (upd h x n) p (Some x)).
      split; [reflexivity|]. split.
      * apply lseg_app. exists (Some x). split.
        -- eapply lseg_relink; [|exact Hp|exact Hndlo].
           apply lseg_upd; [exact Hxlo|exact Hlos].
        -- assert (p <> x) as Hpx by (intros ->; contradiction).
           assert (p ∉ hi) as Hphi by (apply Hdlo; exact Hpin).
           split; [reflexivity|]. split; [rewrite !length_upd; exact Hx|].
           rewrite next_of_upd_ne by exact Hpx.
           rewrite next_of_upd_eq by exact Hx.
           apply lseg_upd; [exact Hphi|]. apply lseg_upd; [exact Hxhi|exact His].
      * eapply frame_trans.
        -- eapply frame_weaken; [|apply frame_upd]. intros l Hl.
           apply elem_of_cons in Hl as [->|Hl]; [|inversion Hl].
           apply elem_of_cons. left. reflexivity.
        -- eapply frame_weaken; [|apply frame_upd]. intros l Hl.
           apply elem_of_cons in Hl as [->|Hl]; [|inversion Hl].
           apply elem_of_cons. right. rewrite Eo. apply elem_of_app. left.
           exact Hpin.
Qed.

Lemma insertionSort_loop_spec fuel0 todo :
  forall fuel h newList head done,
    (forall l, val_of h l = v l) ->
    chain h newList done -> chain h head todo ->
    (forall l, l ∈ todo -> l ∉ done) ->
    length done + length todo < fuel0 -> length todo < fuel ->
    exists r h',
      insertionSort_loop fuel0 fuel newList head h = (Ok r, h') /\
      chain h' r (insertion_sorted v done todo) /\
      frame (done ++ todo) h h'.
Proof.
  induction todo as [|x t IH];
    intros fuel h newList head done Hv Hd Ht Hdisj Hf0 Hf;
    (destruct fuel as [|fuel]; [simpl in Hf; lia|]);
    cbn [insertionSort_loop].
  - red in Ht. simpl in Ht. subst head. cbn [truthy].
    exists newList, h. split; [reflexivity|]. split; [exact Hd|apply frame_refl].
  - pose proof (chain_NoDup _ _ _ Ht) as Hnd.
    apply NoDup_cons in Hnd as (Hxt & Hndt).
    destruct Ht as (-> & Hx & Ht). cbn [truthy]. msteps.
    assert (x ∉ done) as Hxd by (apply Hdisj, elem_of_cons; left; reflexivity).
    destruct (insertNode_spec h newList done x fuel0 Hv Hx Hd Hxd
                ltac:(simpl in Hf0; lia)) as (r1 & h1 & E1 & C1 & F1).
    rewrite (bind_eq _ _ _ _ _ E1).
    destruct (IH fuel h1 r1 (next_of h x) (insert_before_ge v x done))
      as (r & h' & E & C & F).
    + intros l. rewrite (frame_value _ _ _ F1). apply Hv.
    + exact C1.
    + eapply lseg_frame; [exact F1| |exact Ht].
      intros l Hl Hin. apply elem_of_cons in Hin as [->|Hin]; [contradiction|].
      apply (Hdisj l); [apply elem_of_cons; right; exact Hl|exact Hin].
    + intros l Hl Hin. rewrite insert_before_ge_perm in Hin.
      apply elem_of_cons in Hin as [->|Hin]; [contradiction|].
      apply (Hdisj l); [apply elem_of_cons; right; exact Hl|exact Hin].
    + rewrite (Permutation_length (insert_before_ge_perm x done)).
      simpl in *. lia.
    + simpl in Hf. lia.
    + exists r, h'. split; [exact E|]. split; [exact C|].
      eapply frame_trans.
      * eapply frame_weaken; [|exact F1]. intros l Hl.
        rewrite elem_of_app. rewrite !elem_of_cons in *. tauto.
      * eapply frame_weaken; [|exact F]. intros l Hl.
        rewrite elem_of_app in Hl. rewrite insert_before_ge_perm in Hl.
        rewrite elem_of_app. rewrite !elem_of_cons in *. tauto.
Qed.

End insertion_sort.

(** C1, as the code has it: [insertionSort] takes the input nodes from the
    front one by one and inserts each into the output chain in front of
    the first node whose value is greater than or equal to its own (after
    exactly the nodes with a strictly smaller value), so a node is placed
    before the nodes of equal value already there.  The result is a chain
    of the same nodes, with their values, in non-decreasing order. *)
Theorem insertionSort_sorted_ties_first :
  forall h head ls fuel,
    chain h head ls -> length ls < fuel ->
    exists r h' out,
      insertionSort fuel head h = (Ok r, h') /\
      chain h' r out /\
      out = insertion_sorted (val_of h) [] ls /\
      vals h' out = vals h out /\
      Sorted Z.le (vals h' out) /\
      out ≡ₚ ls /\
      (forall x done, exists lo hi,
          done = lo ++ hi /\
          insert_before_ge (val_of h) x done = lo ++ x :: hi /\
          Forall (fun l => (val_of h l < val_of h x)%Z) lo /\
          match hi with
          | [] => True
          | z :: _ => (val_of h x <= val_of h z)%Z
          end).
Proof.
  intros h head ls fuel Hc Hf.
  assert (chain h None []) as Hnil by reflexivity.
  assert (forall l : loc, l ∈ ls -> l ∉ []) as Hdisj
      by (intros l _ Hin; inversion Hin).
  destruct (insertionSort_loop_spec (val_of h) fuel ls fuel h None head []
              (fun l => eq_refl) Hnil Hc Hdisj ltac:(simpl; lia) Hf)
    as (r & h' & E & C & F).
  exists r, h', (insertion_sorted (val_of h) [] ls).
  split; [exact E|]. split; [exact C|]. split; [reflexivity|].
  split; [apply (vals_frame _ _ _ _ F)|]. split; [|split].
  - rewrite (vals_frame _ _ _ _ F). apply insertion_sorted_sorted. constructor.
  - apply (insertion_sorted_perm (val_of h) ls []).
  - intros x done. apply insert_before_ge_split.
Qed.

Lemma insertionSort_sorted_ties_first_witness :
  chain heap11 (Some 0) [0; 1] /\ length [0; 1] < 3 /\
  exists r h' out,
    insertionSort 3 (Some 0) heap11 = (Ok r, h') /\
    chain h' r out /\
    out = insertion_sorted (val_of heap11) [] [0; 1] /\
    vals h' out = vals heap11 out /\
    Sorted Z.le (vals h' out) /\
    out ≡ₚ [0; 1] /\
    (forall x done, exists lo hi,
        done = lo ++ hi /\
        insert_before_ge (val_of heap11) x done = lo ++ x :: hi /\
        Forall (fun l => (val_of heap11 l < val_of heap11 x)%Z) lo /\
        match hi with
        | [] => True
        | z :: _ => (val_of heap11 x <= val_of heap11 z)%Z
        end).
Proof.
  assert (chain heap11 (Some 0) [0; 1]) as Hc.
  { unfold chain, heap11; simpl. repeat split; lia. }
  assert (length [0; 1] < 3) as Hf by (simpl; lia).
  split; [exact Hc|]. split; [exact Hf|].
  exact (insertionSort_sorted_ties_first heap11 (Some 0) [0; 1] 3 Hc Hf).
Defined.

(** Against C1 as stated: sorting the chain of two nodes of value 1
    (addresses 0 then 1) returns the chain 1 -> 0: the node inserted second
    is placed before the equal-valued node already in the output, not after
    it. *)
Lemma insertionSort_tie_goes_first :
  chain heap11 (Some 0) [0; 1] /\
  insertionSort 3 (Some 0) heap11
  = (Ok (Some 1), [mkNode 1 None; mkNode 1 (Some 0)]) /\
  chain [mkNode 1 None; mkNode 1 (Some 0)] (Some 1) [1; 0] /\
  ~ chain (snd (insertionSort 3 (Some 0) heap11))
      (match fst (insertionSort 3 (Some 0) heap11) with
       | Ok r => r
       | _ => None
       end) [0; 1].
Proof.
  repeat split; try reflexivity; try (simpl; lia).
  intros (H & _). discriminate H.
Qed.

(** ** detectCycleEntry ([detectCycle2]) *)

Section detect_acyclic.

Lemma detectCycle2_loop_acyclic h head ls :
  chain h head ls ->
  forall fuel i,
    length ls - 2 * i < 2 * fuel ->
    detectCycle2_loop fuel (ls !! i) (ls !! (2 * i)) h = (Raise, h) \/
    exists s, detectCycle2_loop fuel (ls !! i) (ls !! (2 * i)) h
              = (Ok (s, false), h).
Proof.
  intros Hc. pose proof (chain_NoDup _ _ _ Hc) as Hnd.
  induction fuel as [|fuel IH]; intros i Hf; [lia|].
  cbn [detectCycle2_loop].
  destruct (ls !! (2 * i)) as [f|] eqn:Ef; cbn [truthy andb];
    [|right; eexists; reflexivity].
  pose proof (lookup_lt_Some _ _ _ Ef) as Hlt.
  destruct (lookup_lt_is_Some_2 ls i ltac:(lia)) as [s Es].
  destruct (chain_lookup _ _ _ _ _ Hc Ef) as (Hfa & Hnf & _).
  destruct (chain_lookup _ _ _ _ _ Hc Es) as (Hsa & Hns & _).
  rewrite Es. cbn [truthy]. msteps. rewrite Hnf.
  destruct (ls !! S (2 * i)) as [f1|] eqn:Ef1; [|left; reflexivity].
  pose proof (lookup_lt_Some _ _ _ Ef1) as Hlt1.
  destruct (chain_lookup _ _ _ _ _ Hc Ef1) as (Hf1a & Hnf1 & _).
  msteps. rewrite Hnf1, Hns.
  destruct (lookup_lt_is_Some_2 ls (S i) ltac:(lia)) as [s1 Es1].
  rewrite ptr_eqb_ne.
  - replace (S (S (2 * i))) with (2 * S i) by lia. apply IH. lia.
  - rewrite Es1. intros E.
    pose proof (NoDup_lookup _ _ _ _ Hnd E Es1). lia.
Qed.

Lemma detectCycle2_acyclic h head ls fuel :
  chain h head ls -> length ls < fuel ->
  detectCycle2 fuel head h = (Ok None, h).
Proof.
  intros Hc Hf. unfold detectCycle2.
  pose proof (detectCycle2_loop_acyclic h head ls Hc fuel 0 ltac:(lia)) as H.
  change (2 * 0) with 0 in H. rewrite <- (chain_head _ _ _ Hc) in H.
  unfold bind at 1. unfold try_except, bind.
  destruct H as [-> | [s ->]]; reflexivity.
Qed.

End detect_acyclic.

Section detect_cyclic.

Lemma mod_succ_cases a m :
  0 < m ->
  (a mod m + 1 < m /\ (a + 1) mod m = a mod m + 1) \/
  (a mod m + 1 = m /\ (a + 1) mod m = 0).
Proof.
  intros Hm. pose proof (Nat.mod_upper_bound a m ltac:(lia)) as Hr.
  pose proof (Nat.div_mod_eq a m) as Ha.
  destruct (decide (a mod m + 1 < m)) as [Hlt|Hge].
  - left. split; [exact Hlt|]. symmetry.
    apply (Nat.mod_unique _ m (a / m)); lia.
  - right. split; [lia|]. symmetry.
    apply (Nat.mod_unique _ m (S (a / m))); lia.
Qed.

Lemma mod_add_same a b m :
  0 < m -> (a + b) mod m = a mod m -> b mod m = 0.
Proof.
  intros Hm E.
  pose proof (Nat.div_mod_eq a m) as Ha.
  pose proof (Nat.div_mod_eq (a + b) m) as Hab. rewrite E in Hab.
  assert (a / m <= (a + b) / m) as Hle.
  { apply Nat.Div0.div_le_mono. lia. }
  assert (b = ((a + b) / m - a / m) * m) as -> by nia.
  apply Nat.Div0.mod_mul.
Qed.

Variables (n i : nat).
Hypothesis Hi : i < n.

Lemma cpos_lt t : cpos n i t < n.
Proof.
  unfold cpos. destruct (Nat.ltb_spec t i); [lia|].
  pose proof (Nat.mod_upper_bound (t - i) (n - i) ltac:(lia)). lia.
Qed.

Lemma cpos_succ t :
  cpos n i (S t) = if S (cpos n i t) <? n then S (cpos n i t) else i.
Proof.
  unfold cpos. destruct (Nat.ltb_spec t i) as [Hti|Hti].
  - destruct (Nat.ltb_spec (S t) i) as [Hsi|Hsi].
    + destruct (Nat.ltb_spec (S t) n); [reflexivity|lia].
    + assert (S t = i) as E by lia. rewrite E, Nat.sub_diag.
      rewrite Nat.Div0.mod_0_l. destruct (Nat.ltb_spec i n); lia.
  - destruct (Nat.ltb_spec (S t) i) as [Hsi|Hsi]; [lia|].
    replace (S t - i) with ((t - i) + 1) by lia.
    destruct (mod_succ_cases (t - i) (n - i) ltac:(lia)) as [[H1 ->]|[H1 ->]].
    + destruct (Nat.ltb_spec (S (i + (t - i) mod (n - i))) n); lia.
    + destruct (Nat.ltb_spec (S (i + (t - i) mod (n - i))) n); lia.
Qed.

Lemma cpos_meet_exists :
  exists t, 1 <= t <= n /\ cpos n i (2 * t) = cpos n i t.
Proof.
  set (m := n - i). set (q := n / m).
  pose proof (Nat.div_mod_eq n m) as Hn. fold q in Hn.
  pose proof (Nat.mod_upper_bound n m ltac:(unfold m; lia)) as Hr.
  exists (m * q).
  assert (i <= m * q) as Hge by (unfold m in *; lia).
  assert (1 <= m * q) as Hpos.
  { destruct q; [|unfold m; nia]. unfold m in *. lia. }
  split; [lia|]. unfold cpos.
  destruct (Nat.ltb_spec (2 * (m * q)) i); [lia|].
  destruct (Nat.ltb_spec (m * q) i); [lia|]. fold m. f_equal.
  replace (2 * (m * q) - i) with ((m * q - i) + q * m) by lia.
  apply Nat.Div0.mod_add.
Qed.

Lemma cpos_meet_inv t :
  1 <= t -> cpos n i (2 * t) = cpos n i t -> i <= t /\ t mod (n - i) = 0.
Proof.
  intros Ht. unfold cpos.
  destruct (Nat.ltb_spec (2 * t) i), (Nat.ltb_spec t i); intros E; try lia.
  split; [lia|]. apply (mod_add_same (t - i)); [lia|].
  replace (t - i + t) with (2 * t - i) by lia. lia.
Qed.

Lemma cpos_entry t :
  i <= t -> t mod (n - i) = 0 ->
  cpos n i (t + i) = i /\ forall j, j < i -> cpos n i (t + j) <> cpos n i j.
Proof.
  intros Hge Hmod. split.
  - unfold cpos. destruct (Nat.ltb_spec (t + i) i); [lia|].
    replace (t + i - i) with t by lia. rewrite Hmod. lia.
  - intros j Hj. unfold cpos.
    destruct (Nat.ltb_spec (t + j) i), (Nat.ltb_spec j i); lia.
Qed.

End detect_cyclic.

Section detect_cyclic_heap.

Lemma lseg_lookup h p ls q j l :
  lseg h p ls q -> ls !! j = Some l ->
  l < length h /\
  next_of h l = match ls !! S j with Some l' => Some l' | None => q end.
Proof.
  revert p j. induction ls as [|x ls IH]; intros p j H E; [discriminate|].
  destruct H as (-> & Hx & H). destruct j as [|j]; simpl in *.
  - injection E as <-. split; [exact Hx|].
    destruct ls as [|y ls']; simpl in *; [exact H|].
    destruct H as (-> & _). reflexivity.
  - eapply IH; eassumption.
Qed.

Lemma least_witness (P : nat -> Prop) (dec : forall k, {P k} + {~ P k}) m :
  P m -> exists k, k <= m /\ P k /\ forall s, s < k -> ~ P s.
Proof.
  intros Hm.
  assert (forall b, (exists k, k <= b /\ P k /\ forall s, s < k -> ~ P s) \/
                    (forall s, s <= b -> ~ P s)) as Hsearch.
  { induction b as [|b IH].
    - destruct (dec 0) as [H0|H0].
      + left. exists 0. split; [lia|]. split; [exact H0|]. intros s Hs. lia.
      + right. intros s Hs. assert (s = 0) as -> by lia. exact H0.
    - destruct IH as [(k & Hk & HP & Hleast)|Hnone].
      + left. exists k. split; [lia|]. split; assumption.
      + destruct (dec (S b)) as [Hb|Hb].
        * left. exists (S b). split; [lia|]. split; [exact Hb|].
          intros s Hs. apply Hnone. lia.
        * right. intros s Hs. destruct (decide (s = S b)) as [->|Hne];
            [exact Hb|apply Hnone; lia]. }
  destruct (Hsearch m) as [H|H]; [exact H|].
  exfalso. apply (H m); [lia|exact Hm].
Qed.

Variables (h : heap) (head : ptr) (ls : list loc) (i : nat).
Hypothesis Hcyc : cyclic_chain h head ls i.

Let n := length ls.

Lemma cyclic_node t :
  exists l, ls !! cpos n i t = Some l /\ l < length h /\
            next_of h l = ls !! cpos n i (S t).
Proof.
  destruct Hcyc as (Hnd & Hi & Hs).
  pose proof (cpos_lt n i Hi t) as Hlt.
  destruct (lookup_lt_is_Some_2 ls _ Hlt) as [l El].
  destruct (lseg_lookup _ _ _ _ _ _ Hs El) as (Hl & Hn).
  exists l. split; [exact El|]. split; [exact Hl|].
  rewrite Hn, (cpos_succ n i Hi t).
  destruct (Nat.ltb_spec (S (cpos n i t)) n) as [Hs1|Hs1].
  - destruct (lookup_lt_is_Some_2 ls _ Hs1) as [l' ->]. reflexivity.
  - rewrite (proj2 (lookup_ge_None ls (S (cpos n i t)))) by (fold n; lia).
    reflexivity.
Qed.

Lemma cyclic_node_eq s t :
  ls !! cpos n i s = ls !! cpos n i t <-> cpos n i s = cpos n i t.
Proof.
  destruct Hcyc as (Hnd & Hi & _). split; [|intros ->; reflexivity].
  intros E. destruct (cyclic_node s) as (l & El & _).
  rewrite El in E. symmetry in E. exact (NoDup_lookup _ _ _ _ Hnd El E).
Qed.

Lemma cyclic_head : head = ls !! cpos n i 0.
Proof.
  destruct Hcyc as (_ & Hi & Hs). unfold cpos.
  destruct (Nat.ltb_spec 0 i).
  - destruct ls; simpl in *; [lia|]. destruct Hs as (-> & _). reflexivity.
  - assert (i = 0) as -> by lia. simpl. rewrite Nat.Div0.mod_0_l.
    destruct ls; simpl in *; [lia|]. destruct Hs as (-> & _). reflexivity.
Qed.

Lemma detectCycle2_loop_cyclic T :
  cpos n i (2 * T) = cpos n i T ->
  (forall s, 1 <= s < T -> cpos n i (2 * s) <> cpos n i s) ->
  forall fuel t,
    t < T -> T - t <= fuel ->
    detectCycle2_loop fuel (ls !! cpos n i t) (ls !! cpos n i (2 * t)) h
    = (Ok (ls !! cpos n i T, true), h).
Proof.
  intros Hmeet Hbefore. induction fuel as [|fuel IH]; intros t Ht Hf; [lia|].
  cbn [detectCycle2_loop].
  destruct (cyclic_node t) as (s & Es & Hs & Hns).
  destruct (cyclic_node (2 * t)) as (f & Ef & Hfa & Hnf).
  destruct (cyclic_node (S (2 * t))) as (f1 & Ef1 & Hf1a & Hnf1).
  rewrite Es, Ef. cbn [truthy andb]. msteps.
  rewrite Hnf, Ef1. msteps. rewrite Hnf1, Hns.
  replace (S (S (2 * t))) with (2 * S t) by lia.
  destruct (decide (S t = T)) as [E|E].
  - rewrite E, (proj2 (cyclic_node_eq (2 * T) T) Hmeet), ptr_eqb_refl.
    reflexivity.
  - rewrite ptr_eqb_ne.
    + apply IH; lia.
    + intros Heq. apply cyclic_node_eq in Heq.
      apply (Hbefore (S t)); [lia|exact Heq].
Qed.

Lemma detectCycle2_entry_cyclic T :
  i <= T -> T mod (n - i) = 0 ->
  forall fuel j,
    j <= i -> i - j < fuel ->
    detectCycle2_entry fuel (ls !! cpos n i j) (ls !! cpos n i (T + j)) h
    = (Ok (ls !! i), h).
Proof.
  intros HT Hmod.
  pose proof (proj1 (proj2 Hcyc)) as Hi.
  destruct (cpos_entry n i Hi T HT Hmod) as (Hentry & Hearly).
  induction fuel as [|fuel IH]; intros j Hj Hf; [lia|].
  cbn [detectCycle2_entry].
  destruct (decide (j = i)) as [->|Hne].
  - rewrite Hentry.
    assert (cpos n i i = i) as ->.
    { unfold cpos. destruct (Nat.ltb_spec i i); [lia|].
      rewrite Nat.sub_diag, Nat.Div0.mod_0_l. lia. }
    rewrite ptr_eqb_refl. reflexivity.
  - rewrite ptr_eqb_ne.
    + cbn [negb].
      destruct (cyclic_node j) as (a & Ea & Ha & Hna).
      destruct (cyclic_node (T + j)) as (b & Eb & Hb & Hnb).
      rewrite Ea, Eb. msteps. rewrite Hna, Hnb.
      replace (S (T + j)) with (T + S j) by lia.
      apply IH; lia.
    + intros Heq. apply cyclic_node_eq in Heq.
      apply (Hearly j); [lia|]. symmetry. exact Heq.
Qed.

Lemma detectCycle2_cyclic fuel :
  length ls < fuel ->
  detectCycle2 fuel head h = (Ok (ls !! i), h).
Proof.
  intros Hf. pose proof Hcyc as (Hnd & Hi & Hs). fold n in Hi, Hf.
  destruct (cpos_meet_exists n i Hi) as (t0 & Ht0 & Hmeet0).
  destruct (least_witness
              (fun t => 1 <= t /\ cpos n i (2 * t) = cpos n i t)
              ltac:(intros k; apply and_dec; [apply le_dec|apply Nat.eq_dec])
              t0 (conj (proj1 Ht0) Hmeet0))
    as (T & HTle & (HT1 & Hmeet) & Hleast).
  destruct (cpos_meet_inv n i Hi T HT1 Hmeet) as (HTi & HTm).
  unfold detectCycle2.
  pose proof (detectCycle2_loop_cyclic T Hmeet
                ltac:(intros s Hs' E; apply (Hleast s); [lia|split; [lia|exact E]])
                fuel 0 ltac:(lia) ltac:(lia)) as E1.
  change (2 * 0) with 0 in E1. rewrite <- cyclic_head in E1.
  unfold bind at 1. unfold try_except. rewrite (bind_eq _ _ _ _ _ E1).
  unfold ret at 1. cbv beta iota.
  pose proof (detectCycle2_entry_cyclic T HTi HTm fuel 0 ltac:(lia) ltac:(lia))
    as E2.
  rewrite <- cyclic_head, Nat.add_0_r in E2. exact E2.
Qed.

End detect_cyclic_heap.

(** C7: on every acyclic chain [detectCycle2] returns [None] (the loop
    ends because [fast] runs off the chain, by the loop test or by the
    exception the [try] catches), and on every chain whose tail refers
    back to the node at position [i] it returns, within a step budget of
    the chain's length, the node at position [i]. *)
Theorem detectCycleEntry_correct :
  (forall h head ls fuel,
      chain h head ls -> length ls < fuel ->
      detectCycle2 fuel head h = (Ok None, h)) /\
  (forall h head ls i fuel,
      cyclic_chain h head ls i -> length ls < fuel ->
      exists e, ls !! i = Some e /\
                detectCycle2 fuel head h = (Ok (Some e), h)).
Proof.
  split.
  - intros h head ls fuel. apply detectCycle2_acyclic.
  - intros h head ls i fuel Hcyc Hf.
    destruct (lookup_lt_is_Some_2 ls i (proj1 (proj2 Hcyc))) as [e Ee].
    exists e. split; [exact Ee|]. rewrite <- Ee.
    apply detectCycle2_cyclic; assumption.
Qed.

Lemma detectCycleEntry_correct_witness :
  (chain heap123 (Some 0) [0; 1; 2] /\ length [0; 1; 2] < 4 /\
   detectCycle2 4 (Some 0) heap123 = (Ok None, heap123)) /\
  (cyclic_chain heap_cycle (Some 0) [0; 1; 2; 3] 1 /\
   length [0; 1; 2; 3] < 5 /\
   exists e, [0; 1; 2; 3] !! 1 = Some e /\
             detectCycle2 5 (Some 0) heap_cycle = (Ok (Some e), heap_cycle)).
Proof.
  assert (chain heap123 (Some 0) [0; 1; 2]) as Hc.
  { unfold chain, heap123; simpl. repeat split; lia. }
  assert (length [0; 1; 2] < 4) as Hf by (simpl; lia).
  assert (cyclic_chain heap_cycle (Some 0) [0; 1; 2; 3] 1) as Hcyc.
  { unfold cyclic_chain, heap_cycle; simpl. split; [|repeat split; lia].
    apply NoDup_ListNoDup. repeat constructor; simpl; intuition lia. }
  assert (length [0; 1; 2; 3] < 5) as Hf' by (simpl; lia).
  split.
  - split; [exact Hc|]. split; [exact Hf|].
    exact (proj1 detectCycleEntry_correct heap123 (Some 0) [0; 1; 2] 4 Hc Hf).
  - split; [exact Hcyc|]. split; [exact Hf'|].
    exact (proj2 detectCycleEntry_correct heap_cycle (Some 0) [0; 1; 2; 3] 1 5
             Hcyc Hf').
Defined.

(** ** reverseInKGroups ([reverseListKAtATime]) *)

Section k_groups.

Lemma printList_spec ls :
  forall fuel h p,
    chain h p ls -> length ls < fuel -> printList fuel p h = (Ok tt, h).
Proof.
  unfold printList.
  induction ls as [|x t IH]; intros fuel h p Hc Hf;
    (destruct fuel as [|fuel]; [simpl in Hf; lia|]); cbn [printList_loop].
  - red in Hc. simpl in Hc. subst p. reflexivity.
  - destruct Hc as (-> & Hx & Hc). rewrite ptr_eqb_Some_None. cbn [negb].
    msteps. apply IH; [exact Hc|simpl in Hf; lia].
Qed.

Lemma findTail_loop_spec h head ls k K :
  K = Z.to_nat (Z.max 1 k) ->
  chain h head ls ->
  forall fuel j,
    j < length ls -> j < K -> length ls - j < fuel ->
    build_linked_list.findTail_loop fuel head k (ls !! j)
      (Z.of_nat j + 1) h
    = (Ok (if K <=? length ls then (ls !! (K - 1), true) else (head, false)),
       h).
Proof.
  intros HKk Hc. induction fuel as [|fuel IH]; intros j Hj HjK Hf; [lia|].
  cbn [build_linked_list.findTail_loop].
  destruct (lookup_lt_is_Some_2 ls j Hj) as [x Ex].
  destruct (chain_lookup _ _ _ _ _ Hc Ex) as (Hx & Hnx & _).
  destruct (Z.ltb_spec (Z.of_nat j + 1) k) as [Hlt|Hge].
  - rewrite Ex. msteps. rewrite Hnx.
    destruct (ls !! S j) as [y|] eqn:Ey.
    + rewrite ptr_eqb_Some_None. msteps. rewrite Hnx, <- Ey.
      replace (Z.of_nat j + 1 + 1)%Z with (Z.of_nat (S j) + 1)%Z by lia.
      apply lookup_lt_Some in Ey. apply IH; lia.
    + apply lookup_ge_None in Ey. change (ptr_eqb None None) with true.
      destruct (Nat.leb_spec K (length ls)); [lia|reflexivity].
  - assert (K = S j) as -> by lia.
    destruct (Nat.leb_spec (S j) (length ls)); [|lia].
    replace (S j - 1) with j by lia. reflexivity.
Qed.

Lemma findTail_full h head G rest k K fuel :
  K = Z.to_nat (Z.max 1 k) ->
  chain h head (G ++ rest) -> length G = K ->
  length (G ++ rest) < fuel ->
  build_linked_list.findTail fuel head k h = (Ok (last G, true), h).
Proof.
  intros HKk Hc HG Hf. unfold build_linked_list.findTail.
  assert (1 <= K) as HK by lia.
  destruct G as [|g0 G']; [simpl in HG; lia|].
  pose proof Hc as (-> & _). rewrite ptr_eqb_Some_None.
  pose proof (findTail_loop_spec h (Some g0) ((g0 :: G') ++ rest) k K HKk Hc
                fuel 0 ltac:(simpl; lia) ltac:(lia) ltac:(lia)) as E.
  change (Z.of_nat 0 + 1)%Z with 1%Z in E.
  change (((g0 :: G') ++ rest) !! 0) with (Some g0) in E. rewrite E.
  rewrite length_app.
  destruct (Nat.leb_spec K (length (g0 :: G') + length rest)); [|lia].
  rewrite lookup_app_l by lia. rewrite last_lookup, HG.
  replace (Init.Nat.pred K) with (K - 1) by lia. reflexivity.
Qed.

Lemma findTail_short h head rem k K fuel :
  K = Z.to_nat (Z.max 1 k) ->
  chain h head rem -> length rem < K -> length rem < fuel ->
  exists p, build_linked_list.findTail fuel head k h = (Ok (p, false), h).
Proof.
  intros HKk Hc HK Hf. unfold build_linked_list.findTail.
  destruct rem as [|r0 rem'].
  - red in Hc. simpl in Hc. subst head. exists None. reflexivity.
  - pose proof Hc as (-> & _). rewrite ptr_eqb_Some_None.
    pose proof (findTail_loop_spec h (Some r0) (r0 :: rem') k K HKk Hc fuel 0
                  ltac:(simpl; lia) ltac:(lia) ltac:(lia)) as E.
    change (Z.of_nat 0 + 1)%Z with 1%Z in E.
    change ((r0 :: rem') !! 0) with (Some r0) in E. rewrite E.
    destruct (Nat.leb_spec K (length (r0 :: rem'))); [lia|].
    exists (Some r0). reflexivity.
Qed.

(** Target of the relinking in [reverseHeadToTail]: the node after the
    group for the first node, the previously moved node for the others. *)
Let target (tailNext newList : ptr) : ptr :=
  if ptr_eqb newList None then tailNext else newList.

Lemma reverseHeadToTail_loop_spec q todo :
  forall fuel h done newList hd,
    lseg h hd todo q -> lseg h (target q newList) done q ->
    NoDup todo ->
    (forall l, l ∈ todo -> (l ∉ done) /\ Some l <> q) ->
    length todo < fuel ->
    exists h',
      build_linked_list.reverseHeadToTail_loop fuel q newList hd h
      = (Ok (match last todo with Some y => Some y | None => newList end), h')
      /\ lseg h'
           (target q (match last todo with Some y => Some y | None => newList end))
           (rev todo ++ done) q
      /\ frame todo h h'.
Proof.
  induction todo as [|x t IH]; intros fuel h done newList hd Ht Hd Hnd Hdisj Hf;
    (destruct fuel as [|fuel]; [simpl in Hf; lia|]);
    cbn [build_linked_list.reverseHeadToTail_loop].
  - simpl in Ht. subst hd. rewrite ptr_eqb_refl, Bool.andb_false_r.
    exists h. split; [reflexivity|]. split; [exact Hd|apply frame_refl].
  - destruct Ht as (-> & Hx & Ht).
    destruct (Hdisj x ltac:(apply elem_of_cons; left; reflexivity)) as (Hxd & Hxq).
    apply NoDup_cons in Hnd as (Hxt & Hndt).
    rewrite ptr_eqb_Some_None, (ptr_eqb_ne (Some x) q) by exact Hxq.
    cbn [negb andb]. msteps.
    assert ((_ <- (if ptr_eqb newList None then set_next (Some x) q
                   else set_next (Some x) newList) ;;
             build_linked_list.reverseHeadToTail_loop fuel q (Some x)
               (next_of h x)) h
            = build_linked_list.reverseHeadToTail_loop fuel q (Some x)
                (next_of h x) (upd h x (target q newList))) as ->.
    { unfold target. destruct (ptr_eqb newList None); msteps; reflexivity. }
    destruct (IH fuel (upd h x (target q newList)) (x :: done) (Some x)
                (next_of h x)) as (h' & E & C & F).
    + apply lseg_upd; assumption.
    + change (target q (Some x)) with (Some x).
      split; [reflexivity|]. split; [rewrite length_upd; exact Hx|].
      rewrite next_of_upd_eq by exact Hx. apply lseg_upd; assumption.
    + exact Hndt.
    + intros l Hl.
      destruct (Hdisj l ltac:(apply elem_of_cons; right; exact Hl)) as (Hld & Hlq).
      split; [|exact Hlq]. intros Hin.
      apply elem_of_cons in Hin as [->|Hin]; contradiction.
    + simpl in Hf. lia.
    + exists h'. rewrite last_cons.
      assert (match
                 match last t with Some y => Some y | None => Some x end
               with Some y => Some y | None => newList end
              = match last t with Some y => Some y | None => Some x end) as ->
          by (destruct (last t); reflexivity).
      split; [exact E|]. split.
      * simpl. rewrite <- app_assoc. exact C.
      * eapply frame_step; [apply frame_upd|exact F].
Qed.

Lemma reverseHeadToTail_spec h head G rest fuel :
  chain h head (G ++ rest) -> G <> [] -> length (G ++ rest) < fuel ->
  exists h',
    build_linked_list.reverseHeadToTail fuel head (last G) h
    = (Ok (last G, head), h') /\
    chain h' (last G) (rev G ++ rest) /\
    frame G h h'.
Proof.
  intros Hc HG Hf. unfold build_linked_list.reverseHeadToTail.
  pose proof (chain_NoDup _ _ _ Hc) as Hnd.
  apply NoDup_app in Hnd as (HndG & HdG & Hndr).
  pose proof Hc as Hc'. apply lseg_app in Hc' as (q & HGs & Hrest).
  destruct (proj2 (last_is_Some G) HG) as [y Hy].
  pose proof (last_Some_elem_of _ _ Hy) as Hyin.
  pose proof (lseg_alloc _ _ _ _ _ HGs Hyin) as Hya.
  pose proof (lseg_last_next _ _ _ _ _ HGs Hy) as Hyn.
  destruct G as [|g0 G']; [congruence|].
  pose proof HGs as (-> & Hg0 & _).
  rewrite Hy. msteps. rewrite Hyn.
  destruct (reverseHeadToTail_loop_spec q (g0 :: G') fuel h [] None (Some g0))
    as (h' & E & C & F).
  - exact HGs.
  - reflexivity.
  - exact HndG.
  - intros l Hl. split; [intros Hin; inversion Hin|].
    intros <-. destruct rest as [|r0 rest']; [discriminate Hrest|].
    destruct Hrest as (Er & _). injection Er as ->.
    apply (HdG r0 Hl). apply elem_of_cons. left. reflexivity.
  - rewrite length_app in Hf. lia.
  - rewrite Hy in E, C. rewrite (bind_eq _ _ _ _ _ E).
    unfold target in C. rewrite ptr_eqb_Some_None, app_nil_r in C.
    assert (chain h' (Some y) (rev (g0 :: G') ++ rest)) as Hfin.
    { apply lseg_app. exists q. split; [exact C|].
      eapply lseg_frame; [exact F| |exact Hrest].
      intros l Hl Hin. apply (HdG l Hin Hl). }
    rewrite (bind_eq _ _ _ _ _ (printList_spec _ fuel h' (Some y) Hfin
               ltac:(rewrite length_app, length_rev, <- length_app; exact Hf))).
    exists h'. split; [reflexivity|]. split; [exact Hfin|exact F].
Qed.

End k_groups.

Section k_groups_loop.

Variables (k : Z) (K : nat).
Hypothesis HKk : K = Z.to_nat (Z.max 1 k).

Lemma chain_start h p p' ls : chain h p ls -> chain h p' ls -> p = p'.
Proof.
  intros H1 H2. rewrite (chain_head _ _ _ H1), (chain_head _ _ _ H2).
  reflexivity.
Qed.

Lemma last_rev_cons (g0 : loc) G' : last (rev (g0 :: G')) = Some g0.
Proof. simpl. apply last_snoc. Qed.

Lemma elem_of_rev_list (l : loc) G : l ∈ rev G <-> l ∈ G.
Proof. rewrite !list_elem_of_In. symmetry. apply in_rev. Qed.

(** One pass of the loop body on a full group [G], after the first pass:
    the group is reversed in place and the previous tail [pt] is linked to
    its new head. *)
Lemma reverseListKAtATime_loop_spec fuel0 groups :
  forall fuel h P pt newHead firstHead rem,
    Forall (fun g => length g = K) groups -> length rem < K ->
    lseg h firstHead P newHead -> last P = Some pt ->
    chain h newHead (concat groups ++ rem) ->
    NoDup (P ++ concat groups ++ rem) ->
    length (P ++ concat groups ++ rem) < fuel0 -> length groups < fuel ->
    exists h',
      build_linked_list.reverseListKAtATime_loop fuel0 fuel k false
        newHead firstHead (Some pt) h = (Ok firstHead, h') /\
      chain h' firstHead (P ++ concat (map (@rev loc) groups) ++ rem) /\
      frame (P ++ concat groups) h h'.
Proof.
  induction groups as [|G gs IH];
    intros fuel h P pt newHead firstHead rem Hgs Hrem HP Hpt Hc Hnd Hf0 Hf;
    (destruct fuel as [|fuel]; [simpl in Hf; lia|]);
    cbn [build_linked_list.reverseListKAtATime_loop concat map app] in *.
  - destruct (findTail_short h newHead rem k K fuel0 HKk Hc Hrem
                ltac:(rewrite length_app in Hf0; lia)) as (p & E).
    rewrite (bind_eq _ _ _ _ _ E). cbn [Bool.eqb negb].
    exists h. split; [reflexivity|]. split; [|apply frame_refl].
    apply lseg_app. exists newHead. split; assumption.
  - apply Forall_cons in Hgs as (HG & Hgs).
    rewrite <- app_assoc in Hc, Hnd, Hf0.
    set (R := concat gs ++ rem) in *.
    assert (G <> []) as HGne by (intros ->; simpl in HG; lia).
    assert (length (G ++ R) < fuel0) as HfR by (rewrite length_app in Hf0; lia).
    rewrite (bind_eq _ _ _ _ _
               (findTail_full h newHead G R k K fuel0 HKk Hc HG HfR)).
    cbn [Bool.eqb negb].
    destruct (proj2 (last_is_Some G) HGne) as [y Hy].
    pose proof (last_Some_elem_of _ _ Hy) as Hyin.
    pose proof (last_Some_elem_of _ _ Hpt) as Hptin.
    pose proof Hc as Hc'. apply lseg_app in Hc' as (q & HGs & HR).
    pose proof (lseg_alloc _ _ _ _ _ HGs Hyin) as Hya.
    pose proof (lseg_last_next _ _ _ _ _ HGs Hy) as Hyn.
    pose proof (lseg_alloc _ _ _ _ _ HP Hptin) as Hpta.
    destruct (reverseHeadToTail_spec h newHead G R fuel0 Hc HGne HfR)
      as (h1 & E1 & C1 & F1).
    rewrite Hy in *. msteps. rewrite Hyn.
    rewrite (bind_eq _ _ _ _ _ E1).
    apply NoDup_app in Hnd as (HndP & HdP & HndGR).
    pose proof HndGR as HndGR'.
    apply NoDup_app in HndGR' as (HndG & HdG & HndR).
    assert (length h1 = length h) as Hlen1 by apply (frame_length _ _ _ F1).
    assert (pt ∉ G ++ R) as HptGR by (apply HdP; exact Hptin).
    assert (pt ∉ G) as HptG by (intros Hin; apply HptGR, elem_of_app; left; exact Hin).
    assert (pt ∉ R) as HptR by (intros Hin; apply HptGR, elem_of_app; right; exact Hin).
    rewrite bind_get_value by (rewrite Hlen1; exact Hpta).
    rewrite bind_set_next by (rewrite Hlen1; exact Hpta).
    destruct G as [|g0 G']; [congruence|].
    pose proof HGs as (-> & Hg0a & _).
    pose proof C1 as C1'. apply lseg_app in C1' as (q' & Hrev1 & HR1).
    assert (chain h1 q R) as HR1'.
    { eapply lseg_frame; [exact F1| |exact HR].
      intros l Hl Hin. apply (HdG l Hin Hl). }
    assert (q' = q) as -> by (eapply chain_start; eassumption).
    destruct (IH fuel (upd h1 pt (Some y)) (P ++ rev (g0 :: G')) g0 q firstHead rem)
      as (h' & E & C & F).
    + exact Hgs.
    + exact Hrem.
    + apply lseg_app. exists (Some y). split.
      * eapply lseg_relink; [|exact Hpt|exact HndP].
        eapply lseg_frame; [exact F1| |exact HP].
        intros l Hl Hin. apply (HdP l Hl). apply elem_of_app. left. exact Hin.
      * apply lseg_upd; [|exact Hrev1]. rewrite elem_of_rev_list. exact HptG.
    + rewrite last_app, last_rev_cons. reflexivity.
    + apply lseg_upd; [exact HptR|exact HR1].
    + rewrite <- app_assoc. apply NoDup_app. split; [exact HndP|]. split.
      * intros l Hl Hin. apply (HdP l Hl).
        rewrite elem_of_app in Hin |- *. rewrite elem_of_rev_list in Hin. exact Hin.
      * apply NoDup_app. split; [|split; [|exact HndR]].
        -- apply NoDup_ListNoDup, NoDup_rev, NoDup_ListNoDup, HndG.
        -- intros l Hl. apply HdG. apply elem_of_rev_list. exact Hl.
    + rewrite <- app_assoc, !length_app, length_rev.
      rewrite !length_app in Hf0. unfold R in Hf0.
      rewrite length_app in Hf0. exact Hf0.
    + simpl in Hf. lia.
    + exists h'. split; [exact E|]. split.
      * rewrite <- !app_assoc in C. rewrite <- app_assoc. exact C.
      * eapply frame_trans; [|eapply frame_trans].
        -- eapply frame_weaken; [|exact F1]. intros l Hl.
           rewrite !elem_of_app. tauto.
        -- eapply frame_weaken; [|apply (frame_upd h1 pt (Some y))].
           intros l Hl. apply elem_of_cons in Hl as [->|Hl]; [|inversion Hl].
           apply elem_of_app. left. exact Hptin.
        -- eapply frame_weaken; [|exact F]. intros l Hl.
           rewrite !elem_of_app in *. rewrite elem_of_rev_list in Hl. tauto.
Qed.

Lemma reverseListKAtATime_spec h head groups rem fuel :
  Forall (fun g => length g = K) groups -> length rem < K ->
  chain h head (concat groups ++ rem) ->
  length (concat groups ++ rem) < fuel ->
  exists r h',
    build_linked_list.reverseListKAtATime fuel head k h = (Ok r, h') /\
    chain h' r (concat (map (@rev loc) groups) ++ rem) /\
    frame (concat groups) h h'.
Proof.
  intros Hgs Hrem Hc Hf. unfold build_linked_list.reverseListKAtATime.
  assert (length groups <= length (concat groups)) as Hng.
  { assert (1 <= K) as HK by lia.
    clear -Hgs HK. induction Hgs as [|g gs Hg _ IH]; [reflexivity|].
    simpl. rewrite length_app. lia. }
  assert (length groups < fuel) as Hfg by (rewrite length_app in Hf; lia).
  destruct fuel as [|fuel']; [lia|]. set (fuel := S fuel') in *.
  unfold fuel at 2. cbn [build_linked_list.reverseListKAtATime_loop].
  destruct groups as [|G gs]; cbn [concat map app] in *.
  - destruct (findTail_short h head rem k K fuel HKk Hc Hrem Hf) as (p & E).
    rewrite (bind_eq _ _ _ _ _ E). cbn [Bool.eqb negb].
    exists head, h. split; [reflexivity|]. split; [exact Hc|apply frame_refl].
  - apply Forall_cons in Hgs as (HG & Hgs).
    rewrite <- app_assoc in Hc, Hf.
    set (R := concat gs ++ rem) in *.
    assert (G <> []) as HGne by (intros ->; simpl in HG; lia).
    rewrite (bind_eq _ _ _ _ _
               (findTail_full h head G R k K fuel HKk Hc HG Hf)).
    cbn [Bool.eqb negb].
    destruct (proj2 (last_is_Some G) HGne) as [y Hy].
    pose proof (last_Some_elem_of _ _ Hy) as Hyin.
    pose proof Hc as Hc'. apply lseg_app in Hc' as (q & HGs & HR).
    pose proof (lseg_alloc _ _ _ _ _ HGs Hyin) as Hya.
    pose proof (lseg_last_next _ _ _ _ _ HGs Hy) as Hyn.
    destruct (reverseHeadToTail_spec h head G R fuel Hc HGne Hf)
      as (h1 & E1 & C1 & F1).
    rewrite Hy in *. msteps. rewrite Hyn.
    rewrite (bind_eq _ _ _ _ _ E1).
    pose proof (chain_NoDup _ _ _ Hc) as Hnd.
    pose proof Hnd as Hnd'.
    apply NoDup_app in Hnd' as (HndG & HdG & HndR).
    assert (length h1 = length h) as Hlen1 by apply (frame_length _ _ _ F1).
    destruct G as [|g0 G']; [congruence|].
    pose proof HGs as (-> & Hg0a & _).
    rewrite bind_get_value by (rewrite Hlen1; exact Hg0a).
    pose proof C1 as C1'. apply lseg_app in C1' as (q' & Hrev1 & HR1).
    assert (chain h1 q R) as HR1'.
    { eapply lseg_frame; [exact F1| |exact HR].
      intros l Hl Hin. apply (HdG l Hin Hl). }
    assert (q' = q) as -> by (eapply chain_start; eassumption).
    destruct (reverseListKAtATime_loop_spec fuel gs fuel' h1 (rev (g0 :: G')) g0
                q (Some y) rem Hgs Hrem Hrev1 (last_rev_cons g0 G') HR1)
      as (h' & E & C & F).
    + apply NoDup_app. split; [|split; [|exact HndR]].
      * apply NoDup_ListNoDup, NoDup_rev, NoDup_ListNoDup, HndG.
      * intros l Hl. apply HdG. apply elem_of_rev_list. exact Hl.
    + rewrite !length_app, length_rev. rewrite !length_app in Hf.
      unfold R in Hf. rewrite length_app in Hf. exact Hf.
    + simpl in Hfg. lia.
    + exists (Some y), h'. split; [exact E|]. split.
      * rewrite <- app_assoc. exact C.
      * eapply frame_trans.
        -- eapply frame_weaken; [|exact F1]. intros l Hl.
           rewrite !elem_of_app. tauto.
        -- eapply frame_weaken; [|exact F]. intros l Hl.
           rewrite !elem_of_app in *. rewrite elem_of_rev_list in Hl. tauto.
Qed.

End k_groups_loop.

Lemma lseg_adjacent h p q X a b Y :
  lseg h p (X ++ a :: b :: Y) q -> next_of h a = Some b.
Proof.
  intros H. apply lseg_app in H as (r & _ & H).
  destruct H as (_ & _ & H). destruct H as (H & _). exact H.
Qed.

(** C3, as the code has it: [reverseListKAtATime] reverses each consecutive
    run of exactly [k] nodes (a [k] below 1 acts as 1) and leaves a final
    run of fewer than [k] nodes in its original order; node values are not
    changed.  The node relinked to the following group's new head is the
    group's original head (its new tail), not its original tail.  On
    [1..10] with k = 5 the result is [5,4,3,2,1,10,9,8,7,6]; with k = 3 the
    last element stays in place. *)
Theorem reverseInKGroups_spec :
  (forall h p k groups rem fuel,
      Forall (fun g => length g = Z.to_nat (Z.max 1 k)) groups ->
      length rem < Z.to_nat (Z.max 1 k) ->
      chain h p (concat groups ++ rem) ->
      length (concat groups ++ rem) < fuel ->
      exists r h',
        build_linked_list.reverseListKAtATime fuel p k h = (Ok r, h') /\
        chain h' r (concat (map (@rev loc) groups) ++ rem) /\
        (forall l, val_of h' l = val_of h l) /\
        (forall pre g1 g2 post a b,
            groups = pre ++ g1 :: g2 :: post ->
            g1 !! 0 = Some a -> last g2 = Some b ->
            next_of h' a = Some b) /\
        (forall pre g1 a,
            groups = pre ++ [g1] -> g1 !! 0 = Some a ->
            next_of h' a = rem !! 0)) /\
  values_of kgroups_1_10_by_5 = Some [5; 4; 3; 2; 1; 10; 9; 8; 7; 6]%Z /\
  values_of (run_on [1; 2; 3; 4; 5; 6; 7; 8; 9; 10]%Z
               (fun head => build_linked_list.reverseListKAtATime 11 head 3))
  = Some [3; 2; 1; 6; 5; 4; 9; 8; 7; 10]%Z.
Proof.
  split; [|split; reflexivity].
  intros h p k groups rem fuel Hgs Hrem Hc Hf.
  destruct (reverseListKAtATime_spec k _ eq_refl h p groups rem fuel
              Hgs Hrem Hc Hf) as (r & h' & E & C & F).
  exists r, h'. split; [exact E|]. split; [exact C|].
  split; [apply (frame_value _ _ _ F)|]. split.
  - intros pre g1 g2 post a b -> Ea Eb.
    destruct g1 as [|a' g1']; [discriminate|]. injection Ea as ->.
    apply last_Some in Eb as [g2' ->].
    rewrite map_app in C. cbn [map] in C. rewrite concat_app in C.
    cbn [concat] in C. cbn [rev] in C. rewrite rev_app_distr in C.
    cbn [rev app] in C. rewrite <- !app_assoc in C. cbn [app] in C.
    rewrite (app_assoc (concat (map (@rev loc) pre))) in C.
    eapply lseg_adjacent. exact C.
  - intros pre g1 a -> Ea.
    destruct g1 as [|a' g1']; [discriminate|]. injection Ea as ->.
    rewrite map_app in C. cbn [map] in C. rewrite concat_app in C.
    cbn [concat rev] in C. rewrite app_nil_r in C.
    rewrite <- !app_assoc in C. cbn [app] in C.
    rewrite (app_assoc (concat (map (@rev loc) pre))) in C.
    apply lseg_app in C as (q & _ & C). destruct C as (_ & _ & C).
    exact (chain_head _ _ _ C).
Qed.

Lemma reverseInKGroups_spec_witness :
  Forall (fun g => length g = Z.to_nat (Z.max 1 2)) [[0; 1]] /\
  length [2] < Z.to_nat (Z.max 1 2) /\
  chain heap123 (Some 0) (concat [[0; 1]] ++ [2]) /\
  length (concat [[0; 1]] ++ [2]) < 4 /\
  exists r h',
    build_linked_list.reverseListKAtATime 4 (Some 0) 2 heap123
    = (Ok r, h') /\
    chain h' r (concat (map (@rev loc) [[0; 1]]) ++ [2]) /\
    (forall l, val_of h' l = val_of heap123 l) /\
    (forall pre g1 g2 post a b,
        [[0; 1]] = pre ++ g1 :: g2 :: post ->
        g1 !! 0 = Some a -> last g2 = Some b ->
        next_of h' a = Some b) /\
    (forall pre g1 a,
        [[0; 1]] = pre ++ [g1] -> g1 !! 0 = Some a ->
        next_of h' a = [2] !! 0).
Proof.
  assert (Forall (fun g => length g = Z.to_nat (Z.max 1 2)) [[0; 1]]) as Hgs
      by (repeat constructor).
  assert (length [2] < Z.to_nat (Z.max 1 2)) as Hrem by (simpl; lia).
  assert (chain heap123 (Some 0) (concat [[0; 1]] ++ [2])) as Hc.
  { unfold chain, heap123; simpl. repeat split; lia. }
  assert (length (concat [[0; 1]] ++ [2]) < 4) as Hf by (simpl; lia).
  split; [exact Hgs|]. split; [exact Hrem|].
  split; [exact Hc|]. split; [exact Hf|].
  exact (proj1 reverseInKGroups_spec heap123 (Some 0) 2%Z [[0; 1]] [2] 4
           Hgs Hrem Hc Hf).
Defined.

(** Against C3 as stated: on [1..10] with k = 5 the first group's original
    tail (address 4, holding 5) is the new head of the result and refers to
    the node holding 4, not to the following group's new head (address 9,
    holding 10); the node that refers to address 9 is the first group's
    original head (address 0). *)
Lemma reverseInKGroups_original_tail_not_relinked :
  fst kgroups_1_10_by_5 = Ok (Some 4) /\
  chain (snd kgroups_1_10_by_5) (Some 4) [4; 3; 2; 1; 0; 9; 8; 7; 6; 5] /\
  next_of (snd kgroups_1_10_by_5) 4 = Some 3 /\
  next_of (snd kgroups_1_10_by_5) 4 <> Some 9 /\
  next_of (snd kgroups_1_10_by_5) 0 = Some 9.
Proof.
  repeat split; try reflexivity; try (vm_compute; lia); try discriminate.
Qed.

(** * Further properties of the list functions *)

(** ** utils.py: building and measuring a chain *)

Section build.

Lemma val_of_snoc_eq h n : val_of (h ++ [n]) (length h) = value n.
Proof. unfold val_of. rewrite list_lookup_middle by reflexivity. reflexivity. Qed.

Lemma upd_id h l q : l < length h -> next_of h l = q -> upd h l q = h.
Proof.
  intros Hl Hq. unfold upd, val_of. unfold next_of in Hq.
  destruct (lookup_lt_is_Some_2 h l Hl) as [[v n] E]. rewrite E in *.
  simpl in Hq. subst q. apply list_insert_id. exact E.
Qed.

Lemma convertArrayToList_loop_spec array :
  forall h head t pre,
    lseg h head pre (Some t) -> t < length h -> next_of h t = None ->
    exists h',
      convertArrayToList_loop array head (Some t) h = (Ok head, h') /\
      chain h' head (pre ++ t :: seq (length h) (length array)) /\
      vals h' (seq (length h) (length array)) = array /\
      length h' = length h + length array /\
      (forall l, l < length h -> val_of h' l = val_of h l) /\
      (forall l, l < length h -> l <> t -> next_of h' l = next_of h l).
Proof.
  induction array as [|x array IH]; intros h head t pre Hpre Ht Hn;
    cbn [convertArrayToList_loop].
  - exists h. split; [reflexivity|]. cbn [length seq]. split; [|split; [|split]].
    + apply lseg_app. exists (Some t). split; [exact Hpre|].
      split; [reflexivity|]. split; [exact Ht|]. rewrite Hn. reflexivity.
    + reflexivity.
    + lia.
    + split; reflexivity.
  - rewrite bind_new_node.
    assert (head <> None) as Hhead.
    { destruct pre; simpl in Hpre; [subst head|destruct Hpre as (-> & _)];
        discriminate. }
    rewrite (ptr_eqb_ne head None Hhead).
    set (h1 := h ++ [mkNode x None]).
    assert (length h1 = S (length h)) as Hlen1
        by (unfold h1; rewrite length_app; simpl; lia).
    rewrite bind_set_next by lia.
    assert (t <> length h) as Htne by lia.
    destruct (IH (upd h1 t (Some (length h))) head (length h) (pre ++ [t]))
      as (h' & E & C & V & L & FV & FN).
    + apply lseg_snoc. split; [|split].
      * apply lseg_upd.
        -- intros Hin. pose proof (lseg_alloc _ _ _ _ _ Hpre Hin) as Hta.
           assert (chain h head (pre ++ [t])) as Hc.
           { apply lseg_snoc. repeat split; assumption. }
           apply chain_NoDup, NoDup_app in Hc as (_ & Hd & _).
           apply (Hd t Hin). apply elem_of_cons. left. reflexivity.
        -- apply lseg_snoc_heap. exact Hpre.
      * rewrite length_upd. lia.
      * apply next_of_upd_eq. lia.
    + rewrite length_upd. lia.
    + rewrite next_of_upd_ne by exact Htne. unfold h1.
      apply next_of_snoc_eq.
    + rewrite length_upd, Hlen1 in *. exists h'. split; [exact E|].
      cbn [length seq]. split; [|split; [|split; [|split]]].
      * rewrite <- app_assoc in C. exact C.
      * cbn [vals map]. unfold vals in V. rewrite V. f_equal.
        rewrite FV by lia. rewrite val_of_upd. unfold h1.
        apply val_of_snoc_eq.
      * lia.
      * intros l Hl. rewrite FV by lia. rewrite val_of_upd. unfold h1.
        apply val_of_snoc_lt. exact Hl.
      * intros l Hl Hne. rewrite FN by lia.
        rewrite next_of_upd_ne by (intros ->; contradiction).
        unfold h1. apply next_of_snoc_lt. exact Hl.
Qed.

Lemma take_unchanged h h' :
  length h <= length h' ->
  (forall l, l < length h -> val_of h' l = val_of h l) ->
  (forall l, l < length h -> next_of h' l = next_of h l) ->
  take (length h) h' = h.
Proof.
  intros Hlen FV FN. apply list_eq. intros l.
  destruct (decide (l < length h)) as [Hl|Hl].
  - rewrite lookup_take_lt by exact Hl.
    specialize (FV l Hl). specialize (FN l Hl). unfold val_of, next_of in FV, FN.
    destruct (lookup_lt_is_Some_2 h l Hl) as [[v n] En].
    destruct (lookup_lt_is_Some_2 h' l ltac:(lia)) as [[v' n'] En'].
    rewrite En, En' in *. simpl in *. subst. reflexivity.
  - rewrite lookup_take_ge by lia. symmetry. apply lookup_ge_None. lia.
Qed.

Lemma to_values_chain ls :
  forall h p fuel,
    chain h p ls -> length ls <= fuel -> to_values fuel h p = vals h ls.
Proof.
  induction ls as [|x ls IH]; intros h p fuel Hc Hf.
  - red in Hc. simpl in Hc. subst p. destruct fuel; reflexivity.
  - destruct Hc as (-> & Hx & Hc). destruct fuel as [|fuel]; [simpl in Hf; lia|].
    destruct (lookup_lt_is_Some_2 h x Hx) as [n En].
    unfold next_of in Hc. rewrite En in Hc.
    cbn [to_values vals map]. unfold val_of at 1. rewrite En.
    f_equal. apply IH; [exact Hc|simpl in Hf; lia].
Qed.

End build.

(** X1: [convertArrayToList] builds, behind the nodes already in the store,
    one fresh node per element: the result is the chain of these nodes in
    input order, its value sequence is the input array, and no node that
    existed before is changed. *)
Theorem convertArrayToList_round_trip :
  forall array h,
  exists head h',
    convertArrayToList array h = (Ok head, h') /\
    chain h' head (seq (length h) (length array)) /\
    vals h' (seq (length h) (length array)) = array /\
    to_values (length h') h' head = array /\
    take (length h) h' = h.
Proof.
  intros array h. unfold convertArrayToList. destruct array as [|x array].
  - exists None, h. cbn [convertArrayToList_loop length seq].
    split; [reflexivity|]. split; [reflexivity|]. split; [reflexivity|].
    split; [destruct (length h); reflexivity|]. apply firstn_all.
  - cbn [convertArrayToList_loop]. rewrite bind_new_node.
    change (ptr_eqb None None) with true. cbv iota.
    set (h1 := h ++ [mkNode x None]).
    assert (length h1 = S (length h)) as Hlen1
        by (unfold h1; rewrite length_app; simpl; lia).
    destruct (convertArrayToList_loop_spec array h1 (Some (length h)) (length h) [])
      as (h' & E & C & V & L & FV & FN).
    + reflexivity.
    + lia.
    + unfold h1. apply next_of_snoc_eq.
    + rewrite Hlen1 in *. cbn [app] in C.
      assert (vals h' (seq (length h) (length (x :: array))) = x :: array) as HV.
      { cbn [length seq vals map]. unfold vals in V. rewrite V. f_equal.
        rewrite FV by lia. unfold h1. apply val_of_snoc_eq. }
      exists (Some (length h)), h'. split; [exact E|]. split; [exact C|].
      split; [exact HV|]. split.
      * rewrite <- HV. apply to_values_chain; [exact C|].
        rewrite length_seq. simpl. lia.
      * apply take_unchanged; [lia| |].
        -- intros l Hl. rewrite FV by lia. unfold h1.
           apply val_of_snoc_lt. exact Hl.
        -- intros l Hl. rewrite FN by lia. unfold h1.
           apply next_of_snoc_lt. exact Hl.
Qed.

Lemma countNodes_spec h head ls fuel :
  chain h head ls -> length ls < fuel ->
  countNodes fuel head h = (Ok (Z.of_nat (length ls)), h).
Proof.
  intros Hc Hf. unfold countNodes. rewrite (chain_head _ _ _ Hc).
  rewrite (countNodes_loop_spec h head ls Hc fuel 0 0%Z) by lia.
  do 2 f_equal. lia.
Qed.

(** X2: [countNodes] (and its twin [listLength] of palindrome.py) returns
    the number of nodes of an acyclic chain and leaves the store as it
    was. *)
Theorem countNodes_length :
  forall h head ls fuel,
    chain h head ls -> length ls < fuel ->
    countNodes fuel head h = (Ok (Z.of_nat (length ls)), h) /\
    palindrome.listLength fuel head h = (Ok (Z.of_nat (length ls)), h).
Proof.
  intros h head ls fuel Hc Hf. split.
  - apply countNodes_spec; assumption.
  - apply listLength_spec; assumption.
Qed.

Lemma countNodes_length_witness :
  chain heap123 (Some 0) [0; 1; 2] /\ length [0; 1; 2] < 4 /\
  countNodes 4 (Some 0) heap123 = (Ok (Z.of_nat (length [0; 1; 2])), heap123) /\
  palindrome.listLength 4 (Some 0) heap123
  = (Ok (Z.of_nat (length [0; 1; 2])), heap123).
Proof.
  assert (chain heap123 (Some 0) [0; 1; 2]) as Hc.
  { unfold chain, heap123; simpl. repeat split; lia. }
  assert (length [0; 1; 2] < 4) as Hf by (simpl; lia).
  split; [exact Hc|]. split; [exact Hf|].
  exact (countNodes_length heap123 (Some 0) [0; 1; 2] 4 Hc Hf).
Defined.

(** ** remove_nth_node.py: behaviour outside the range *)

Section remove_nth_edges.

(** Number of times [nth] has advanced after [t] rounds of the loop of
    [removeNthFromEnd2]. *)
Lemma removeNthFromEnd2_loop_any h head ls (n : Z) :
  chain h head ls ->
  forall fuel t,
    t <= length ls -> length ls - t < fuel ->
    removeNthFromEnd2_loop fuel n (ls !! t)
      (before ls (Z.to_nat (Z.of_nat t - Z.max 0 n)))
      (ls !! Z.to_nat (Z.of_nat t - Z.max 0 n)) (Z.of_nat t + 1) h
    = (Ok (before ls (Z.to_nat (Z.of_nat (length ls) - Z.max 0 n)),
           ls !! Z.to_nat (Z.of_nat (length ls) - Z.max 0 n)), h).
Proof.
  intros Hc. induction fuel as [|fuel IH]; intros t Ht Hf; [lia|].
  cbn [removeNthFromEnd2_loop].
  destruct (ls !! t) as [x|] eqn:Ex.
  - destruct (chain_lookup _ _ _ _ _ Hc Ex) as (Hx & Hnx & _).
    pose proof (lookup_lt_Some _ _ _ Ex) as Hlt.
    rewrite ptr_eqb_Some_None. cbn [negb].
    replace (Z.of_nat t + 1 + 1)%Z with (Z.of_nat (S t) + 1)%Z by lia.
    destruct (Z.gtb_spec (Z.of_nat t + 1) n) as [G|G].
    + set (a := Z.to_nat (Z.of_nat t - Z.max 0 n)).
      destruct (lookup_lt_is_Some_2 ls a ltac:(unfold a; lia)) as [y Ey].
      destruct (chain_lookup _ _ _ _ _ Hc Ey) as (Hy & Hny & _).
      rewrite Ey. msteps. cbn [fst snd]. rewrite Hnx, Hny, <- Ey.
      pose proof (IH (S t) ltac:(lia) ltac:(lia)) as IH'.
      replace (Z.to_nat (Z.of_nat (S t) - Z.max 0 n)) with (S a)
        in IH' by (unfold a; lia).
      exact IH'.
    + msteps. cbn [fst snd]. rewrite Hnx.
      replace (Z.to_nat (Z.of_nat t - Z.max 0 n))
        with (Z.to_nat (Z.of_nat (S t) - Z.max 0 n)) by lia.
      apply IH; lia.
  - apply lookup_ge_None in Ex. change (ptr_eqb None None) with true.
    cbn [negb]. assert (t = length ls) as -> by lia. reflexivity.
Qed.

Lemma removeNthFromBegining_loop_raises h head ls (target : Z) :
  chain h head ls ->
  (forall s, s <= length ls -> (Z.of_nat s + 1)%Z <> target) ->
  forall fuel j,
    j <= length ls -> length ls - j + 1 < fuel ->
    removeNthFromBegining_loop fuel target (ls !! j) (before ls j)
      (Z.of_nat j + 1) h
    = (Raise, h).
Proof.
  intros Hc Hne. induction fuel as [|fuel IH]; intros j Hj Hf; [lia|].
  cbn [removeNthFromBegining_loop].
  destruct (Z.eqb_spec (Z.of_nat j + 1) target) as [E|_];
    [exfalso; exact (Hne j Hj E)|].
  cbn [negb]. destruct (ls !! j) as [x|] eqn:Ex.
  - destruct (chain_lookup _ _ _ _ _ Hc Ex) as (Hx & Hnx & _).
    pose proof (lookup_lt_Some _ _ _ Ex) as Hlt.
    msteps. rewrite Hnx, <- Ex.
    change (ls !! j) with (before ls (S j)).
    replace (Z.of_nat j + 1 + 1)%Z with (Z.of_nat (S j) + 1)%Z by lia.
    apply IH; lia.
  - reflexivity.
Qed.

End remove_nth_edges.

(** X3: outside the range [1..length], [removeNthFromEnd2] does not fail:
    with [n] greater than the length of a non-empty chain it removes the
    head (it returns the second node and writes nothing); with [n <= 0] it
    returns the head of the unchanged chain; on the empty chain it raises
    for every [n]. *)
Theorem removeNthFromEnd2_out_of_range :
  forall h head ls n fuel,
    chain h head ls -> length ls < fuel ->
    (ls <> [] -> (Z.of_nat (length ls) < n)%Z ->
     removeNthFromEnd2 fuel head n h = (Ok (ls !! 1), h) /\
     chain h (ls !! 1) (drop 1 ls)) /\
    (ls <> [] -> (n <= 0)%Z ->
     removeNthFromEnd2 fuel head n h = (Ok head, h)) /\
    (ls = [] -> removeNthFromEnd2 fuel head n h = (Raise, h)).
Proof.
  intros h head ls n fuel Hc Hf.
  pose proof (removeNthFromEnd2_loop_any h head ls n Hc fuel 0
                ltac:(lia) ltac:(lia)) as E.
  replace (Z.to_nat (Z.of_nat 0 - Z.max 0 n)) with 0 in E by lia.
  rewrite <- (chain_head _ _ _ Hc) in E.
  change (Z.of_nat 0 + 1)%Z with 1%Z in E. cbn [before] in E.
  unfold removeNthFromEnd2. rewrite (bind_eq _ _ _ _ _ E). clear E.
  split; [|split].
  - intros Hne Hn.
    replace (Z.to_nat (Z.of_nat (length ls) - Z.max 0 n)) with 0 by lia.
    destruct ls as [|x t]; [congruence|]. destruct Hc as (-> & Hx & Hc).
    pose proof (chain_head _ _ _ Hc) as Hh.
    change ((x :: t) !! 1) with (t !! 0). rewrite <- Hh.
    change ((x :: t) !! 0) with (Some x).
    cbn [before truthy negb]. msteps. split; [reflexivity|exact Hc].
  - intros Hne Hn.
    replace (Z.to_nat (Z.of_nat (length ls) - Z.max 0 n)) with (length ls) by lia.
    destruct (length ls) as [|m] eqn:Elen; [destruct ls; simpl in *; congruence|].
    cbn [before]. destruct (lookup_lt_is_Some_2 ls m ltac:(lia)) as [y Ey].
    destruct (chain_lookup _ _ _ _ _ Hc Ey) as (Hy & Hny & _).
    rewrite Ey, (proj2 (lookup_ge_None ls (S m))) by lia.
    cbn [truthy negb]. msteps.
    rewrite upd_id; [reflexivity|exact Hy|].
    rewrite Hny. apply lookup_ge_None. lia.
  - intros ->.
    replace (Z.to_nat (Z.of_nat (length (@nil loc)) - Z.max 0 n)) with 0
      by (simpl; lia).
    reflexivity.
Qed.

Lemma removeNthFromEnd2_out_of_range_witness :
  chain heap123 (Some 0) [0; 1; 2] /\ length [0; 1; 2] < 4 /\
  [0; 1; 2] <> [] /\ (Z.of_nat (length [0; 1; 2]) < 7)%Z /\ (0 <= 0)%Z /\
  (removeNthFromEnd2 4 (Some 0) 7 heap123 = (Ok ([0; 1; 2] !! 1), heap123) /\
   chain heap123 ([0; 1; 2] !! 1) (drop 1 [0; 1; 2])) /\
  removeNthFromEnd2 4 (Some 0) 0 heap123 = (Ok (Some 0), heap123) /\
  removeNthFromEnd2 1 None 3 [] = (Raise, []).
Proof.
  assert (chain heap123 (Some 0) [0; 1; 2]) as Hc.
  { unfold chain, heap123; simpl. repeat split; lia. }
  assert (length [0; 1; 2] < 4) as Hf by (simpl; lia).
  assert ([0; 1; 2] <> []) as Hne by discriminate.
  assert (Z.of_nat (length [0; 1; 2]) < 7)%Z as Hn by (simpl; lia).
  assert (0 <= 0)%Z as Hn0 by lia.
  assert (chain [] None []) as Hc0 by reflexivity.
  assert (length (@nil loc) < 1) as Hf0 by (simpl; lia).
  split; [exact Hc|]. split; [exact Hf|]. split; [exact Hne|].
  split; [exact Hn|]. split; [exact Hn0|]. split; [|split].
  - exact (proj1 (removeNthFromEnd2_out_of_range heap123 (Some 0) [0; 1; 2] 7 4
                    Hc Hf) Hne Hn).
  - exact (proj1 (proj2 (removeNthFromEnd2_out_of_range heap123 (Some 0)
                           [0; 1; 2] 0 4 Hc Hf)) Hne Hn0).
  - exact (proj2 (proj2 (removeNthFromEnd2_out_of_range [] None [] 3 1
                           Hc0 Hf0)) eq_refl).
Defined.

(** X4: [removeNthFronEnd] (count, then remove from the beginning) is
    stricter: with [n] greater than the length, or negative, the walk runs
    off the chain and the call raises, leaving the store unchanged; with
    [n = 0] on a non-empty chain it returns the unchanged chain. *)
Theorem removeNthFronEnd_out_of_range :
  forall h head ls n fuel,
    chain h head ls -> length ls + 1 < fuel ->
    ((Z.of_nat (length ls) < n \/ n < 0)%Z ->
     removeNthFronEnd fuel head n h = (Raise, h)) /\
    (ls <> [] -> removeNthFronEnd fuel head 0 h = (Ok head, h)).
Proof.
  intros h head ls n fuel Hc Hf.
  pose proof (countNodes_loop_spec h head ls Hc fuel 0 0%Z
                ltac:(lia) ltac:(lia)) as EN.
  rewrite <- (chain_head _ _ _ Hc) in EN.
  replace (0 + Z.of_nat (length ls - 0))%Z with (Z.of_nat (length ls)) in EN
    by lia.
  split.
  - intros Hn. unfold removeNthFronEnd, countNodes.
    rewrite (bind_eq _ _ _ _ _ EN). unfold removeNthFromBegining.
    pose proof (removeNthFromBegining_loop_raises h head ls
                  (Z.of_nat (length ls) - n + 1) Hc ltac:(intros s Hs; lia)
                  fuel 0 ltac:(lia) ltac:(lia)) as E.
    rewrite <- (chain_head _ _ _ Hc) in E.
    change (Z.of_nat 0 + 1)%Z with 1%Z in E. cbn [before] in E.
    unfold bind at 1. rewrite E. reflexivity.
  - intros Hne. unfold removeNthFronEnd, countNodes.
    rewrite (bind_eq _ _ _ _ _ EN). unfold removeNthFromBegining.
    assert (length ls <> 0) as Hlen by (destruct ls; simpl; congruence).
    replace (Z.of_nat (length ls) - 0 + 1)%Z
      with (Z.of_nat (length ls) + 1)%Z by lia.
    assert (forall fuel' j, j <= length ls -> length ls - j < fuel' ->
              removeNthFromBegining_loop fuel' (Z.of_nat (length ls) + 1)
                (ls !! j) (before ls j) (Z.of_nat j + 1) h
              = (Ok (before ls (length ls), None), h)) as Hloop.
    { induction fuel' as [|fuel' IH]; intros j Hj Hf'; [lia|].
      cbn [removeNthFromBegining_loop].
      destruct (Z.eqb_spec (Z.of_nat j + 1) (Z.of_nat (length ls) + 1)) as [E|E];
        cbn [negb].
      - assert (j = length ls) as -> by lia.
        rewrite (proj2 (lookup_ge_None ls (length ls))) by lia. reflexivity.
      - destruct (lookup_lt_is_Some_2 ls j ltac:(lia)) as [x Ex].
        destruct (chain_lookup _ _ _ _ _ Hc Ex) as (Hx & Hnx & _).
        rewrite Ex. msteps. rewrite Hnx, <- Ex.
        change (ls !! j) with (before ls (S j)).
        replace (Z.of_nat j + 1 + 1)%Z with (Z.of_nat (S j) + 1)%Z by lia.
        apply IH; lia. }
    pose proof (Hloop fuel 0 ltac:(lia) ltac:(lia)) as E.
    rewrite <- (chain_head _ _ _ Hc) in E.
    change (Z.of_nat 0 + 1)%Z with 1%Z in E. cbn [before] in E.
    rewrite (bind_eq _ _ _ _ _ E).
    destruct (length ls) as [|m] eqn:Elen; [congruence|]. cbn [before].
    destruct (lookup_lt_is_Some_2 ls m ltac:(lia)) as [y Ey].
    destruct (chain_lookup _ _ _ _ _ Hc Ey) as (Hy & Hny & _).
    rewrite Ey. cbn [truthy negb]. msteps.
    rewrite upd_id; [reflexivity|exact Hy|].
    rewrite Hny. apply lookup_ge_None. lia.
Qed.

Lemma removeNthFronEnd_out_of_range_witness :
  chain heap123 (Some 0) [0; 1; 2] /\ length [0; 1; 2] + 1 < 5 /\
  (Z.of_nat (length [0; 1; 2]) < 4 \/ 4 < 0)%Z /\ [0; 1; 2] <> [] /\
  removeNthFronEnd 5 (Some 0) 4 heap123 = (Raise, heap123) /\
  removeNthFronEnd 5 (Some 0) 0 heap123 = (Ok (Some 0), heap123).
Proof.
  assert (chain heap123 (Some 0) [0; 1; 2]) as Hc.
  { unfold chain, heap123; simpl. repeat split; lia. }
  assert (length [0; 1; 2] + 1 < 5) as Hf by (simpl; lia).
  assert (Z.of_nat (length [0; 1; 2]) < 4 \/ 4 < 0)%Z as Hn by (simpl; lia).
  assert ([0; 1; 2] <> []) as Hne by discriminate.
  split; [exact Hc|]. split; [exact Hf|]. split; [exact Hn|].
  split; [exact Hne|]. split.
  - exact (proj1 (removeNthFronEnd_out_of_range heap123 (Some 0) [0; 1; 2] 4 5
                    Hc Hf) Hn).
  - exact (proj2 (removeNthFronEnd_out_of_range heap123 (Some 0) [0; 1; 2] 4 5
                    Hc Hf) Hne).
Defined.

(** X5: inside the range [1..length] the two implementations of "remove the
    n-th node from the end" are interchangeable: they return the same
    reference and leave the same store. *)
Theorem removeNthFromEnd_implementations_agree :
  forall h head ls n fuel,
    chain h head ls -> 1 <= n <= length ls -> length ls < fuel ->
    removeNthFromEnd2 fuel head (Z.of_nat n) h
    = removeNthFronEnd fuel head (Z.of_nat n) h.
Proof.
  intros h head ls n fuel Hc Hn Hf.
  unfold removeNthFromEnd2, removeNthFronEnd, countNodes.
  pose proof (removeNthFromEnd2_loop_spec h head ls n Hc Hn fuel 0
                ltac:(lia) ltac:(lia)) as E.
  change (0 - n) with 0 in E. rewrite <- (chain_head _ _ _ Hc) in E.
  change (Z.of_nat 0 + 1)%Z with 1%Z in E. cbn [before] in E.
  rewrite (bind_eq _ _ _ _ _ E).
  pose proof (countNodes_loop_spec h head ls Hc fuel 0 0%Z
                ltac:(lia) ltac:(lia)) as EN.
  rewrite <- (chain_head _ _ _ Hc) in EN.
  rewrite (bind_eq _ _ _ _ _ EN). unfold removeNthFromBegining.
  replace (0 + Z.of_nat (length ls - 0) - Z.of_nat n + 1)%Z
    with (Z.of_nat (length ls - n) + 1)%Z by lia.
  pose proof (removeNthFromBegining_loop_spec h head ls (length ls - n) Hc
                ltac:(lia) fuel 0 ltac:(lia) ltac:(lia)) as E'.
  rewrite <- (chain_head _ _ _ Hc) in E'.
  change (Z.of_nat 0 + 1)%Z with 1%Z in E'. cbn [before] in E'.
  rewrite (bind_eq _ _ _ _ _ E'). reflexivity.
Qed.

Lemma removeNthFromEnd_implementations_agree_witness :
  chain heap123 (Some 0) [0; 1; 2] /\ 1 <= 2 <= length [0; 1; 2] /\
  length [0; 1; 2] < 4 /\
  removeNthFromEnd2 4 (Some 0) (Z.of_nat 2) heap123
  = removeNthFronEnd 4 (Some 0) (Z.of_nat 2) heap123.
Proof.
  assert (chain heap123 (Some 0) [0; 1; 2]) as Hc.
  { unfold chain, heap123; simpl. repeat split; lia. }
  assert (1 <= 2 <= length [0; 1; 2]) as Hn by (simpl; lia).
  assert (length [0; 1; 2] < 4) as Hf by (simpl; lia).
  split; [exact Hc|]. split; [exact Hn|]. split; [exact Hf|].
  exact (removeNthFromEnd_implementations_agree heap123 (Some 0) [0; 1; 2] 2 4
           Hc Hn Hf).
Defined.

(** ** build_linked_list.py: [findTail], [getTail], [buildList] *)

(** X6: [findTail] returns the [k]-th node of the chain and [True] when the
    chain has at least [k] nodes ([k] below 1 counts as 1), and otherwise
    the head it was given and [False] ([None] and [False] on the empty
    chain); it writes nothing. *)
Theorem findTail_kth_or_short :
  forall h head ls k fuel,
    chain h head ls -> length ls < fuel ->
    (ls <> [] -> Z.to_nat (Z.max 1 k) <= length ls ->
     build_linked_list.findTail fuel head k h
     = (Ok (ls !! (Z.to_nat (Z.max 1 k) - 1), true), h)) /\
    (length ls < Z.to_nat (Z.max 1 k) ->
     build_linked_list.findTail fuel head k h = (Ok (head, false), h)).
Proof.
  intros h head ls k fuel Hc Hf. unfold build_linked_list.findTail.
  destruct ls as [|x t].
  - red in Hc. simpl in Hc. subst head. split; [congruence|reflexivity].
  - pose proof Hc as (-> & _). rewrite ptr_eqb_Some_None.
    pose proof (findTail_loop_spec h (Some x) (x :: t) k _ eq_refl Hc fuel 0
                  ltac:(simpl; lia) ltac:(lia) ltac:(lia)) as E.
    change (Z.of_nat 0 + 1)%Z with 1%Z in E.
    change ((x :: t) !! 0) with (Some x) in E. rewrite E.
    split.
    + intros _ HK.
      destruct (Nat.leb_spec (Z.to_nat (Z.max 1 k)) (length (x :: t))); [|lia].
      reflexivity.
    + intros HK.
      destruct (Nat.leb_spec (Z.to_nat (Z.max 1 k)) (length (x :: t))); [lia|].
      reflexivity.
Qed.

Lemma findTail_kth_or_short_witness :
  chain heap123 (Some 0) [0; 1; 2] /\ length [0; 1; 2] < 4 /\
  [0; 1; 2] <> [] /\ Z.to_nat (Z.max 1 2) <= length [0; 1; 2] /\
  length [0; 1; 2] < Z.to_nat (Z.max 1 5) /\
  build_linked_list.findTail 4 (Some 0) 2 heap123
  = (Ok ([0; 1; 2] !! (Z.to_nat (Z.max 1 2) - 1), true), heap123) /\
  build_linked_list.findTail 4 (Some 0) 5 heap123
  = (Ok (Some 0, false), heap123).
Proof.
  assert (chain heap123 (Some 0) [0; 1; 2]) as Hc.
  { unfold chain, heap123; simpl. repeat split; lia. }
  assert (length [0; 1; 2] < 4) as Hf by (simpl; lia).
  assert ([0; 1; 2] <> []) as Hne by discriminate.
  assert (Z.to_nat (Z.max 1 2) <= length [0; 1; 2]) as H2 by (simpl; lia).
  assert (length [0; 1; 2] < Z.to_nat (Z.max 1 5)) as H5 by (simpl; lia).
  split; [exact Hc|]. split; [exact Hf|]. split; [exact Hne|].
  split; [exact H2|]. split; [exact H5|]. split.
  - exact (proj1 (findTail_kth_or_short heap123 (Some 0) [0; 1; 2] 2 4 Hc Hf)
             Hne H2).
  - exact (proj2 (findTail_kth_or_short heap123 (Some 0) [0; 1; 2] 5 4 Hc Hf)
             H5).
Defined.

Lemma getTail_loop_spec h head ls :
  chain h head ls ->
  forall fuel j,
    j + 2 <= length ls -> length ls - j < fuel ->
    getTail_loop fuel (ls !! j) h = (Ok (ls !! (length ls - 2)), h).
Proof.
  intros Hc. induction fuel as [|fuel IH]; intros j Hj Hf; [lia|].
  cbn [getTail_loop].
  destruct (lookup_lt_is_Some_2 ls j ltac:(lia)) as [x Ex].
  destruct (lookup_lt_is_Some_2 ls (S j) ltac:(lia)) as [y Ey].
  destruct (chain_lookup _ _ _ _ _ Hc Ex) as (Hx & Hnx & _).
  destruct (chain_lookup _ _ _ _ _ Hc Ey) as (Hy & Hny & _).
  rewrite Ex. msteps. rewrite Hnx, Ey. msteps. rewrite Hny.
  destruct (ls !! S (S j)) as [z|] eqn:Ez.
  - rewrite ptr_eqb_Some_None. cbn [negb]. msteps. rewrite Hnx, Ey, <- Ey.
    apply lookup_lt_Some in Ez. apply IH; lia.
  - apply lookup_ge_None in Ez. change (ptr_eqb None None) with true.
    cbn [negb]. unfold ret. rewrite <- Ex. do 3 f_equal. lia.
Qed.

(** X7: despite its name, [getTail] returns the node before the last one;
    on a chain of fewer than two nodes it raises (it reads the [next] of
    [None]).  It writes nothing. *)
Theorem getTail_second_to_last :
  forall h head ls fuel,
    chain h head ls -> length ls < fuel ->
    (2 <= length ls ->
     getTail fuel head h = (Ok (ls !! (length ls - 2)), h) /\
     is_Some (ls !! (length ls - 2))) /\
    (length ls < 2 -> getTail fuel head h = (Raise, h)).
Proof.
  intros h head ls fuel Hc Hf. unfold getTail. split.
  - intros Hlen.
    pose proof (getTail_loop_spec h head ls Hc fuel 0 ltac:(lia) ltac:(lia)) as E.
    rewrite <- (chain_head _ _ _ Hc) in E. rewrite (bind_eq _ _ _ _ _ E).
    destruct (lookup_lt_is_Some_2 ls (length ls - 2) ltac:(lia)) as [x Ex].
    destruct (chain_lookup _ _ _ _ _ Hc Ex) as (Hx & _).
    rewrite Ex. msteps. split; [reflexivity|eexists; reflexivity].
  - intros Hlen. destruct fuel as [|fuel]; [lia|]. cbn [getTail_loop].
    destruct ls as [|x [|y t]]; [| |simpl in Hlen; lia].
    + red in Hc. simpl in Hc. subst head. reflexivity.
    + destruct Hc as (-> & Hx & Hc). red in Hc. simpl in Hc.
      msteps. rewrite Hc. reflexivity.
Qed.

Lemma getTail_second_to_last_witness :
  chain heap123 (Some 0) [0; 1; 2] /\ length [0; 1; 2] < 4 /\
  2 <= length [0; 1; 2] /\
  (getTail 4 (Some 0) heap123 = (Ok ([0; 1; 2] !! (length [0; 1; 2] - 2)), heap123)
   /\ is_Some ([0; 1; 2] !! (length [0; 1; 2] - 2))) /\
  getTail 2 (Some 0) [mkNode 7 None] = (Raise, [mkNode 7 None]).
Proof.
  assert (chain heap123 (Some 0) [0; 1; 2]) as Hc.
  { unfold chain, heap123; simpl. repeat split; lia. }
  assert (length [0; 1; 2] < 4) as Hf by (simpl; lia).
  assert (2 <= length [0; 1; 2]) as H2 by (simpl; lia).
  assert (chain [mkNode 7 None] (Some 0) [0]) as Hc1.
  { unfold chain; simpl. repeat split; lia. }
  assert (length [0] < 2) as Hf1 by (simpl; lia).
  split; [exact Hc|]. split; [exact Hf|]. split; [exact H2|]. split.
  - exact (proj1 (getTail_second_to_last heap123 (Some 0) [0; 1; 2] 4 Hc Hf) H2).
  - exact (proj2 (getTail_second_to_last [mkNode 7 None] (Some 0) [0] 2 Hc1 Hf1)
             Hf1).
Defined.

Lemma buildList_spec array :
  forall h head old,
    chain h head old ->
    exists r h',
      buildList array head h = (Ok r, h') /\
      chain h' r (rev (seq (length h) (length array)) ++ old) /\
      vals h' (rev (seq (length h) (length array))) = rev array /\
      length h' = length h + length array /\
      (forall l, l < length h -> val_of h' l = val_of h l) /\
      (forall l, l < length h -> next_of h' l = next_of h l).
Proof.
  induction array as [|x array IH]; intros h head old Hc; cbn [buildList].
  - exists head, h. split; [reflexivity|]. cbn [length seq rev app].
    split; [exact Hc|]. split; [reflexivity|]. split; [lia|].
    split; reflexivity.
  - rewrite bind_new_node.
    set (a := length h). set (h1 := h ++ [mkNode x None]).
    assert (length h1 = S a) as Hlen1
        by (unfold h1, a; rewrite length_app; simpl; lia).
    assert (forall l, l ∈ old -> l < a) as Hold
        by (intros l Hl; eapply lseg_alloc; eassumption).
    assert (a ∉ old) as Haold by (intros Hin; apply Hold in Hin; lia).
    assert (exists h2,
               (forall k : unit -> M ptr,
                   (if negb (ptr_eqb head None)
                    then _ <- set_next (Some a) head ;; k tt
                    else k tt) h1 = k tt h2) /\
               chain h2 (Some a) (a :: old) /\ length h2 = S a /\
               val_of h2 a = x /\
               (forall l, l < a -> val_of h2 l = val_of h l) /\
               (forall l, l < a -> next_of h2 l = next_of h l))
      as (h2 & Estep & C2 & L2 & Va & FV2 & FN2).
    { destruct head as [p|].
      - exists (upd h1 a (Some p)). split; [|split; [|split; [|split; [|split]]]].
        + intros k. rewrite ptr_eqb_Some_None. cbn [negb].
          rewrite bind_set_next by lia. reflexivity.
        + split; [reflexivity|]. split; [rewrite length_upd; lia|].
          rewrite next_of_upd_eq by lia.
          apply lseg_upd; [exact Haold|]. apply lseg_snoc_heap. exact Hc.
        + rewrite length_upd. exact Hlen1.
        + rewrite val_of_upd. apply val_of_snoc_eq.
        + intros l Hl. rewrite val_of_upd. apply val_of_snoc_lt. exact Hl.
        + intros l Hl. rewrite next_of_upd_ne by lia.
          apply next_of_snoc_lt. exact Hl.
      - exists h1. split; [|split; [|split; [|split; [|split]]]].
        + intros k. reflexivity.
        + red in Hc. destruct old; simpl in Hc; [|destruct Hc; discriminate].
          split; [reflexivity|]. split; [lia|]. unfold h1, a.
          rewrite next_of_snoc_eq. reflexivity.
        + exact Hlen1.
        + apply val_of_snoc_eq.
        + intros l Hl. apply val_of_snoc_lt. exact Hl.
        + intros l Hl. apply next_of_snoc_lt. exact Hl. }
    rewrite (Estep (fun _ => buildList array (Some a))).
    destruct (IH h2 (Some a) (a :: old) C2) as (r & h' & E & C & V & L & FV & FN).
    rewrite L2 in *. exists r, h'. split; [exact E|].
    cbn [length seq rev]. fold a. rewrite <- app_assoc. cbn [app].
    split; [exact C|]. split; [|split; [lia|split]].
    + unfold vals in *. rewrite map_app, V. cbn [map]. f_equal.
      rewrite FV by lia. rewrite Va. reflexivity.
    + intros l Hl. rewrite FV by lia. apply FV2. exact Hl.
    + intros l Hl. rewrite FN by lia. apply FN2. exact Hl.
Qed.

(** X8: [buildList] puts one fresh node per element in front of the chain
    it is given, so the elements come out in reverse input order, followed
    by the old chain, which is left untouched. *)
Theorem buildList_prepends_reversed :
  forall array h head old,
    chain h head old ->
    exists r h',
      buildList array head h = (Ok r, h') /\
      chain h' r (rev (seq (length h) (length array)) ++ old) /\
      vals h' (rev (seq (length h) (length array)) ++ old)
      = rev array ++ vals h old /\
      take (length h) h' = h.
Proof.
  intros array h head old Hc.
  destruct (buildList_spec array h head old Hc)
    as (r & h' & E & C & V & L & FV & FN).
  exists r, h'. split; [exact E|]. split; [exact C|]. split.
  - unfold vals in *. rewrite map_app, V. f_equal.
    apply map_ext_in. intros l Hl. apply FV.
    eapply lseg_alloc; [exact Hc|]. apply list_elem_of_In. exact Hl.
  - apply take_unchanged; [lia|exact FV|exact FN].
Qed.

Lemma buildList_prepends_reversed_witness :
  chain heap123 (Some 0) [0; 1; 2] /\
  exists r h',
    buildList [8; 9]%Z (Some 0) heap123 = (Ok r, h') /\
    chain h' r (rev (seq (length heap123) (length [8; 9]%Z)) ++ [0; 1; 2]) /\
    vals h' (rev (seq (length heap123) (length [8; 9]%Z)) ++ [0; 1; 2])
    = rev [8; 9]%Z ++ vals heap123 [0; 1; 2] /\
    take (length heap123) h' = heap123.
Proof.
  assert (chain heap123 (Some 0) [0; 1; 2]) as Hc.
  { unfold chain, heap123; simpl. repeat split; lia. }
  split; [exact Hc|].
  exact (buildList_prepends_reversed [8; 9]%Z heap123 (Some 0) [0; 1; 2] Hc).
Defined.

(** ** palindrome.py: what [isPalidrome] does to the list *)

Lemma isPalidrome_store h head ls fuel :
  chain h head ls -> length ls < fuel ->
  exists b h',
    palindrome.isPalidrome fuel head h = (Ok b, h') /\
    chain h' head (take (S (length ls - length ls / 2)) ls) /\
    frame (drop (length ls - length ls / 2) ls) h h'.
Proof.
  intros Hc Hf. unfold palindrome.isPalidrome.
  set (n := length ls). set (m := n / 2). set (c := n - m).
  assert (m <= c /\ c <= n /\ (n mod 2 = 1 -> c = S m /\ m < n)
          /\ (n mod 2 <> 1 -> c = m)) as (Hmc & Hcn & Hodd & Heven).
  { unfold c, m. pose proof (Nat.div_mod_eq n 2) as Hdm.
    pose proof (Nat.mod_upper_bound n 2 ltac:(lia)). lia. }
  rewrite (bind_eq _ _ _ _ _ (getMid_spec h head ls fuel Hc Hf)).
  rewrite (bind_eq _ _ _ _ _ (listLength_spec h head ls fuel Hc Hf)).
  fold n m.
  assert ((x <- (if (Z.of_nat n mod 2 =? 1)%Z then get_next (ls !! m)
                 else ret (ls !! m)) ;;
           newList <- palindrome.reverseList fuel x ;;
           palindrome.isPalidrome_loop fuel head newList) h
          = (newList <- palindrome.reverseList fuel (ls !! c) ;;
             palindrome.isPalidrome_loop fuel head newList) h) as ->.
  { change 2%Z with (Z.of_nat 2). rewrite <- Nat2Z.inj_mod.
    destruct (Z.eqb_spec (Z.of_nat (n mod 2)) 1) as [E|E].
    - destruct (Hodd ltac:(lia)) as [-> Hmn].
      destruct (lookup_lt_is_Some_2 ls m Hmn) as [x Ex].
      destruct (chain_lookup _ _ _ _ _ Hc Ex) as (Hx & Hnx & _).
      rewrite Ex. msteps. rewrite Hnx. reflexivity.
    - rewrite (Heven ltac:(lia)). msteps. reflexivity. }
  destruct (palindrome_reverseList_spec h (ls !! c) (drop c ls) fuel
              (chain_drop _ _ _ c Hc) ltac:(rewrite length_drop; lia))
    as (r & h' & Er & Cr & Fr).
  rewrite (bind_eq _ _ _ _ _ Er).
  pose proof (chain_NoDup _ _ _ Hc) as Hnd.
  pose proof (lseg_take h head ls None m ltac:(lia) Hc) as HA.
  eapply lseg_frame in HA; [|exact Fr|].
  2:{ intros l Hl. eapply take_drop_disjoint; [exact Hnd|exact Hmc|exact Hl]. }
  rewrite (isPalidrome_loop_spec _ _ fuel h' head r _ HA Cr).
  2:{ rewrite length_rev, length_drop, length_take. lia. }
  2:{ rewrite length_rev, length_drop. lia. }
  eexists _, h'. split; [reflexivity|]. split; [|exact Fr].
  destruct (ls !! c) as [x|] eqn:Ex.
  - rewrite (take_S_r _ _ _ Ex).
    rewrite (drop_S _ _ _ Ex) in Cr. cbn [rev] in Cr.
    apply lseg_snoc in Cr as (_ & Hx & Hnx).
    apply lseg_snoc. split; [|split; assumption].
    pose proof (lseg_take h head ls None c ltac:(lia) Hc) as HB.
    rewrite Ex in HB. eapply lseg_frame; [exact Fr| |exact HB].
    intros l Hl. eapply take_drop_disjoint; [exact Hnd| |exact Hl]. lia.
  - apply lookup_ge_None in Ex. rewrite take_ge by lia.
    rewrite drop_ge in Fr by lia.
    eapply lseg_frame; [exact Fr| |exact Hc]. intros l _ Hin. inversion Hin.
Qed.

(** X9: [isPalidrome] does not put the list back: after the call the chain
    from [head] ends right after the first node of the reversed half, so of
    [n] nodes only the first [n - n/2 + 1] stay reachable (four or more
    nodes lose their tail), whatever the answer; only the [next] of nodes
    of the second half is written and no value is. *)
Theorem isPalindrome_truncates_list :
  forall h head ls fuel,
    chain h head ls -> length ls < fuel ->
    exists b h',
      palindrome.isPalidrome fuel head h = (Ok b, h') /\
      chain h' head (take (S (length ls - length ls / 2)) ls) /\
      vals h' ls = vals h ls /\
      (forall l, l ∈ take (length ls - length ls / 2) ls ->
                 next_of h' l = next_of h l) /\
      (4 <= length ls -> ~ chain h' head ls).
Proof.
  intros h head ls fuel Hc Hf.
  destruct (isPalidrome_store h head ls fuel Hc Hf) as (b & h' & E & C & F).
  exists b, h'. split; [exact E|]. split; [exact C|].
  split; [apply (vals_frame _ _ _ _ F)|]. split.
  - intros l Hl. apply (frame_next _ _ _ F).
    eapply take_drop_disjoint; [eapply chain_NoDup; exact Hc| |exact Hl]. lia.
  - intros Hlen Hc'. pose proof (chain_unique _ _ _ _ C Hc') as Heq.
    apply (f_equal length) in Heq. rewrite length_take in Heq.
    pose proof (Nat.div_mod_eq (length ls) 2) as Hdm.
    pose proof (Nat.mod_upper_bound (length ls) 2 ltac:(lia)). lia.
Qed.

Lemma isPalindrome_truncates_list_witness :
  chain heap1221 (Some 0) [0; 1; 2; 3] /\ length [0; 1; 2; 3] < 5 /\
  exists b h',
    palindrome.isPalidrome 5 (Some 0) heap1221 = (Ok b, h') /\
    chain h' (Some 0)
      (take (S (length [0; 1; 2; 3] - length [0; 1; 2; 3] / 2)) [0; 1; 2; 3]) /\
    vals h' [0; 1; 2; 3] = vals heap1221 [0; 1; 2; 3] /\
    (forall l, l ∈ take (length [0; 1; 2; 3] - length [0; 1; 2; 3] / 2)
                      [0; 1; 2; 3] ->
               next_of h' l = next_of heap1221 l) /\
    (4 <= length [0; 1; 2; 3] -> ~ chain h' (Some 0) [0; 1; 2; 3]).
Proof.
  assert (chain heap1221 (Some 0) [0; 1; 2; 3]) as Hc.
  { unfold chain, heap1221; simpl. repeat split; lia. }
  assert (length [0; 1; 2; 3] < 5) as Hf by (simpl; lia).
  split; [exact Hc|]. split; [exact Hf|].
  exact (isPalindrome_truncates_list heap1221 (Some 0) [0; 1; 2; 3] 5
           Hc Hf).
Defined.

(** * cp_algos *)

Section numeric.

Local Open Scope Z_scope.


Lemma pow_halves a b :
  0 <= b ->
  a ^ b = (if b mod 2 =? 1 then a ^ (b / 2) * a ^ (b / 2) * a
           else a ^ (b / 2) * a ^ (b / 2)).
Proof.
  intros Hb. pose proof (Z.div_mod b 2 ltac:(lia)) as Hdm.
  pose proof (Z.mod_pos_bound b 2 ltac:(lia)) as Hr.
  assert (0 <= b / 2) as Hq by (apply Z.div_pos; lia).
  rewrite <- Z.pow_add_r by lia.
  destruct (Z.eqb_spec (b mod 2) 1) as [E|E].
  - assert (b = b / 2 + b / 2 + 1) as Hb' by lia.
    revert Hb' Hq. generalize (b / 2). intros k -> Hk.
    rewrite (Z.pow_add_r a (k + k) 1), Z.pow_1_r by lia. reflexivity.
  - f_equal. lia.
Qed.

Lemma half_lt_pow2 b f :
  0 < b < 2 ^ Z.of_nat f ->
  exists f', f = S f' /\ 0 <= b / 2 < 2 ^ Z.of_nat f'.
Proof.
  intros Hb. destruct f as [|f']; [simpl in Hb; lia|].
  exists f'. split; [reflexivity|].
  rewrite Nat2Z.inj_succ, Z.pow_succ_r in Hb by lia.
  split; [apply Z.div_pos; lia|apply Z.div_lt_upper_bound; lia].
Qed.


Lemma land_1_odd b : 0 <= b -> Z.land b 1 = b mod 2.
Proof.
  intros _. change 1 with (Z.ones 1). rewrite Z.land_ones by lia. reflexivity.
Qed.

Lemma mod_2_cases b : (b mod 2 =? 0) = negb (b mod 2 =? 1).
Proof.
  pose proof (Z.mod_pos_bound b 2 ltac:(lia)).
  destruct (Z.eqb_spec (b mod 2) 0), (Z.eqb_spec (b mod 2) 1); simpl; lia.
Qed.


Lemma big_number_mod_loop_spec c f :
  c <> 0 ->
  forall a b res,
    0 <= b < 2 ^ Z.of_nat f ->
    cp_algos.big_number_mod_loop (S f) a b c res
    = Ok (if b =? 0 then res else (res * a ^ b) mod c).
Proof.
  intros Hc. induction f as [f IH] using lt_wf_ind. intros a b res Hb.
  cbn [cp_algos.big_number_mod_loop].
  destruct (Z.gtb_spec b 0) as [Hpos|Hz].
  - destruct (Z.eqb_spec b 0) as [->|_]; [lia|].
    destruct (half_lt_pow2 b f ltac:(lia)) as (f' & -> & Hhalf).
    rewrite Z.shiftr_div_pow2 by lia. change (2 ^ 1) with 2.
    rewrite (IH f' ltac:(lia) _ _ _ Hhalf). f_equal.
    rewrite land_1_odd by lia. rewrite mod_2_cases, Bool.negb_involutive.
    rewrite (pow_halves a b) by lia.
    pose proof (Z.div_mod b 2 ltac:(lia)) as Hdm.
    pose proof (Z.mod_pos_bound b 2 ltac:(lia)) as Hr.
    destruct (Z.eqb_spec (b / 2) 0) as [E0|E0].
    + rewrite E0. rewrite Z.pow_0_r.
      destruct (Z.eqb_spec (b mod 2) 1) as [E1|E1]; [|lia].
      f_equal. ring.
    + rewrite <- Z.pow_mul_l.
      rewrite (Z.mul_mod _ (((a * a) mod c) ^ (b / 2))) by exact Hc.
      rewrite Z.mod_pow_l.
      destruct (Z.eqb_spec (b mod 2) 1) as [E1|E1].
      * rewrite Z.mod_mod by exact Hc. rewrite <- Z.mul_mod by exact Hc.
        f_equal. ring.
      * rewrite <- Z.mul_mod by exact Hc. reflexivity.
  - assert (b = 0) as -> by lia. reflexivity.
Qed.

End numeric.





(** X12: [big_number_mod a b c] returns [a ^ b mod c] for every exponent
    [b >= 0] and modulus [c > 0], and also for [c < 0] when [b > 0]; it
    raises for [b < 0] and (the remainder by zero) for [c = 0]; for [b = 0]
    and [c < 0] it returns 1. *)
Theorem big_number_mod_is_power_mod :
  (forall a b c f,
      (0 <= b < 2 ^ Z.of_nat f)%Z ->
      ((0 < c)%Z ->
       cp_algos.big_number_mod (S f) a b c = Ok (a ^ b mod c)%Z) /\
      ((c < 0)%Z -> (0 < b)%Z ->
       cp_algos.big_number_mod (S f) a b c = Ok (a ^ b mod c)%Z) /\
      ((c < 0)%Z -> b = 0%Z ->
       cp_algos.big_number_mod (S f) a b c = Ok 1%Z) /\
      (c = 0%Z -> cp_algos.big_number_mod (S f) a b c = Raise)) /\
  (forall a b c fuel,
      (b < 0)%Z -> cp_algos.big_number_mod fuel a b c = Raise).
Proof.
  split.
  - intros a b c f Hb. unfold cp_algos.big_number_mod.
    destruct (Z.ltb_spec b 0); [lia|].
    repeat split.
    + intros Hc. destruct (Z.eqb_spec c 1) as [->|Hc1].
      * rewrite Z.mod_1_r. reflexivity.
      * destruct (Z.eqb_spec c 0); [lia|].
        rewrite big_number_mod_loop_spec by (lia || exact Hb). f_equal.
        destruct (Z.eqb_spec b 0) as [->|Hb0].
        -- rewrite Z.pow_0_r, Z.mod_small by lia. reflexivity.
        -- rewrite Z.mul_1_l. apply Z.mod_pow_l.
    + intros Hc Hb0. destruct (Z.eqb_spec c 1); [lia|].
      destruct (Z.eqb_spec c 0); [lia|].
      rewrite big_number_mod_loop_spec by (lia || exact Hb). f_equal.
      destruct (Z.eqb_spec b 0); [lia|].
      rewrite Z.mul_1_l. apply Z.mod_pow_l.
    + intros Hc ->. destruct (Z.eqb_spec c 1); [lia|].
      destruct (Z.eqb_spec c 0); [lia|].
      rewrite big_number_mod_loop_spec by (lia || exact Hb). reflexivity.
    + intros ->. reflexivity.
  - intros a b c fuel Hb. unfold cp_algos.big_number_mod.
    destruct (Z.ltb_spec b 0); [reflexivity|lia].
Qed.

Lemma big_number_mod_is_power_mod_witness :
  (0 <= 10 < 2 ^ Z.of_nat 4)%Z /\ (0 < 13)%Z /\ (-1 < 0)%Z /\
  cp_algos.big_number_mod 5 2 10 13 = Ok (2 ^ 10 mod 13)%Z /\
  cp_algos.big_number_mod 5 2 10 0 = Raise /\
  cp_algos.big_number_mod 0 2 (-1) 13 = Raise.
Proof.
  assert (0 <= 10 < 2 ^ Z.of_nat 4)%Z as Hb by (simpl; lia).
  assert (0 < 13)%Z as Hc by lia.
  assert (-1 < 0)%Z as Hn by lia.
  split; [exact Hb|]. split; [exact Hc|]. split; [exact Hn|]. split; [|split].
  - exact (proj1 (proj1 big_number_mod_is_power_mod 2%Z 10%Z 13%Z 4 Hb) Hc).
  - exact (proj2 (proj2 (proj2 (proj1 big_number_mod_is_power_mod 2%Z 10%Z 0%Z 4
                                  Hb))) eq_refl).
  - exact (proj2 big_number_mod_is_power_mod 2%Z (-1)%Z 13%Z 0 Hn).
Defined.

(** ** detect_cycle.py: the set-based [detectCycle] *)

Section detect_seen.

Lemma detectCycle_loop_acyclic h head ls :
  chain h head ls ->
  forall fuel t (seen : gset nat),
    (forall x, x ∈ seen <-> x ∈ take t ls) ->
    t <= length ls -> length ls - t < fuel ->
    detectCycle_loop fuel seen (ls !! t) h = (Ok None, h).
Proof.
  intros Hc. pose proof (chain_NoDup _ _ _ Hc) as Hnd.
  induction fuel as [|fuel IH]; intros t seen Hseen Ht Hf; [lia|].
  cbn [detectCycle_loop]. destruct (ls !! t) as [l|] eqn:El; [|reflexivity].
  destruct (chain_lookup _ _ _ _ _ Hc El) as (Hl & Hnl & _).
  pose proof (lookup_lt_Some _ _ _ El) as Hlt.
  rewrite bool_decide_eq_false_2.
  - msteps. rewrite Hnl. apply IH; [|lia|lia].
    intros x. rewrite (take_S_r _ _ _ El), elem_of_union, elem_of_singleton,
      elem_of_app, list_elem_of_singleton, Hseen. tauto.
  - rewrite Hseen. intros Hin.
    apply list_elem_of_lookup in Hin as [j Hj].
    apply lookup_take_Some in Hj as [Hj Hjt].
    pose proof (NoDup_lookup _ _ _ _ Hnd Hj El). lia.
Qed.

Lemma detectCycle_loop_cyclic h head ls i :
  cyclic_chain h head ls i ->
  forall fuel t (seen : gset nat),
    (forall x, x ∈ seen <-> x ∈ take t ls) ->
    t < length ls -> length ls - t < fuel ->
    detectCycle_loop fuel seen (ls !! t) h = (Ok (ls !! i), h).
Proof.
  intros (Hnd & Hi & Hs).
  induction fuel as [|fuel IH]; intros t seen Hseen Ht Hf; [lia|].
  cbn [detectCycle_loop].
  destruct (lookup_lt_is_Some_2 ls t Ht) as [l El].
  destruct (lseg_lookup _ _ _ _ _ _ Hs El) as (Hl & Hnl).
  rewrite El. rewrite bool_decide_eq_false_2.
  - msteps. rewrite Hnl.
    assert (forall x, x ∈ ({[l]} ∪ seen : gset nat) <-> x ∈ take (S t) ls)
      as Hseen'.
    { intros x. rewrite (take_S_r _ _ _ El), elem_of_union, elem_of_singleton,
        elem_of_app, list_elem_of_singleton, Hseen. tauto. }
    destruct (ls !! S t) as [l'|] eqn:El'.
    + rewrite <- El'. apply lookup_lt_Some in El'. apply IH; [exact Hseen'|lia|lia].
    + apply lookup_ge_None in El'.
      destruct (lookup_lt_is_Some_2 ls i Hi) as [e Ee]. rewrite Ee.
      destruct fuel as [|fuel]; [lia|]. cbn [detectCycle_loop].
      rewrite bool_decide_eq_true_2; [reflexivity|].
      apply Hseen'. rewrite take_ge by lia.
      apply list_elem_of_lookup. eauto.
  - rewrite Hseen. intros Hin.
    apply list_elem_of_lookup in Hin as [j Hj].
    apply lookup_take_Some in Hj as [Hj Hjt].
    pose proof (NoDup_lookup _ _ _ _ Hnd Hj El). lia.
Qed.

End detect_seen.

(** X13: the set-based [detectCycle] gives the answers of the two-pointer
    [detectCycle2]: [None] on every acyclic chain, and the node at position
    [i] on every chain whose tail refers back to position [i]; it needs one
    step more than the chain has nodes and writes nothing. *)
Theorem detectCycle_agrees_with_detectCycle2 :
  (forall h head ls fuel,
      chain h head ls -> length ls < fuel ->
      detectCycle fuel head h = (Ok None, h) /\
      detectCycle fuel head h = detectCycle2 fuel head h) /\
  (forall h head ls i fuel,
      cyclic_chain h head ls i -> length ls + 1 < fuel ->
      detectCycle fuel head h = (Ok (ls !! i), h) /\
      detectCycle fuel head h = detectCycle2 fuel head h).
Proof.
  assert (forall (ls : list loc) x, x ∈ (∅ : gset nat) <-> x ∈ take 0 ls) as H0.
  { intros ls x. rewrite take_0. split; intros Hin.
    - apply not_elem_of_empty in Hin. contradiction.
    - inversion Hin. }
  split.
  - intros h head ls fuel Hc Hf.
    assert (detectCycle fuel head h = (Ok None, h)) as E.
    { unfold detectCycle. rewrite (chain_head _ _ _ Hc).
      apply (detectCycle_loop_acyclic h head ls Hc); [apply H0|lia|lia]. }
    split; [exact E|]. rewrite E. symmetry.
    apply detectCycle2_acyclic with (ls := ls); assumption.
  - intros h head ls i fuel Hcyc Hf.
    assert (detectCycle fuel head h = (Ok (ls !! i), h)) as E.
    { unfold detectCycle. pose proof Hcyc as (_ & Hi & Hs).
      assert (head = ls !! 0) as ->.
      { destruct ls; simpl in *; [lia|]. destruct Hs as (-> & _). reflexivity. }
      apply (detectCycle_loop_cyclic h (ls !! 0) ls i Hcyc); [apply H0|lia|lia]. }
    split; [exact E|]. rewrite E. symmetry.
    apply detectCycle2_cyclic; [exact Hcyc|lia].
Qed.

Lemma detectCycle_agrees_with_detectCycle2_witness :
  (chain heap123 (Some 0) [0; 1; 2] /\ length [0; 1; 2] < 4 /\
   detectCycle 4 (Some 0) heap123 = (Ok None, heap123) /\
   detectCycle 4 (Some 0) heap123 = detectCycle2 4 (Some 0) heap123) /\
  (cyclic_chain heap_cycle (Some 0) [0; 1; 2; 3] 1 /\
   length [0; 1; 2; 3] + 1 < 6 /\
   detectCycle 6 (Some 0) heap_cycle = (Ok ([0; 1; 2; 3] !! 1), heap_cycle) /\
   detectCycle 6 (Some 0) heap_cycle = detectCycle2 6 (Some 0) heap_cycle).
Proof.
  assert (chain heap123 (Some 0) [0; 1; 2]) as Hc.
  { unfold chain, heap123; simpl. repeat split; lia. }
  assert (length [0; 1; 2] < 4) as Hf by (simpl; lia).
  assert (cyclic_chain heap_cycle (Some 0) [0; 1; 2; 3] 1) as Hcyc.
  { unfold cyclic_chain, heap_cycle; simpl. split; [|repeat split; lia].
    apply NoDup_ListNoDup. repeat constructor; simpl; intuition lia. }
  assert (length [0; 1; 2; 3] + 1 < 6) as Hf' by (simpl; lia).
  split.
  - split; [exact Hc|]. split; [exact Hf|].
    exact (proj1 detectCycle_agrees_with_detectCycle2 heap123 (Some 0) [0; 1; 2]
             4 Hc Hf).
  - split; [exact Hcyc|]. split; [exact Hf'|].
    exact (proj2 detectCycle_agrees_with_detectCycle2 heap_cycle (Some 0)
             [0; 1; 2; 3] 1 6 Hcyc Hf').
Defined.

(** ** rotate_list.py *)

Section rotate.

Lemma removeAndReturnLastNode_loop_spec h head ls :
  chain h head ls ->
  forall fuel j,
    j < length ls -> length ls - j <= fuel ->
    removeAndReturnLastNode_loop fuel (ls !! j) (before ls j) h
    = (Ok (ls !! (length ls - 1), before ls (length ls - 1)), h).
Proof.
  intros Hc. induction fuel as [|fuel IH]; intros j Hj Hf; [lia|].
  cbn [removeAndReturnLastNode_loop].
  destruct (lookup_lt_is_Some_2 ls j Hj) as [x Ex].
  destruct (chain_lookup _ _ _ _ _ Hc Ex) as (Hx & Hnx & _).
  rewrite Ex. msteps. rewrite Hnx.
  destruct (ls !! S j) as [y|] eqn:Ey.
  - rewrite ptr_eqb_Some_None. cbn [negb]. msteps. rewrite Hnx, <- Ey, <- Ex.
    change (ls !! j) with (before ls (S j)).
    apply lookup_lt_Some in Ey. apply IH; lia.
  - apply lookup_ge_None in Ey. change (ptr_eqb None None) with true.
    cbn [negb]. unfold ret. rewrite <- Ex.
    replace (length ls - 1) with j by lia. reflexivity.
Qed.

Lemma removeAndReturnLastNode_spec h head init y fuel :
  chain h head (init ++ [y]) -> length init < fuel ->
  exists h',
    removeAndReturnLastNode fuel head h = (Ok (Some y), h') /\
    (init <> [] -> chain h' head init) /\ next_of h' y = None /\
    y < length h' /\
    (init = [] -> head = Some y /\ h' = h) /\
    frame init h h'.
Proof.
  intros Hc Hf. unfold removeAndReturnLastNode.
  pose proof (removeAndReturnLastNode_loop_spec h head (init ++ [y]) Hc fuel 0
                ltac:(rewrite length_app; simpl; lia)
                ltac:(rewrite length_app; simpl; lia)) as E.
  rewrite <- (chain_head _ _ _ Hc) in E. cbn [before] in E.
  rewrite length_app in E. cbn [length] in E.
  replace (length init + 1 - 1) with (length init) in E by lia.
  rewrite (lookup_app_r init [y]), Nat.sub_diag in E by lia.
  cbn [lookup list_lookup] in E.
  rewrite (bind_eq _ _ _ _ _ E). clear E.
  pose proof Hc as Hc'. apply lseg_snoc in Hc' as (Hinit & Hy & Hny).
  destruct (length init) as [|m] eqn:Elen.
  - destruct init; [|discriminate]. cbn [before truthy negb].
    simpl in Hinit. exists h. split; [reflexivity|]. subst head.
    split; [congruence|]. split; [exact Hny|]. split; [exact Hy|].
    split; [split; reflexivity|apply frame_refl].
  - cbn [before].
    assert (exists p, last init = Some p) as [p Hp].
    { apply last_is_Some. intros ->. discriminate. }
    assert ((init ++ [y]) !! m = Some p) as Ep.
    { rewrite lookup_app_l by lia. rewrite last_lookup, Elen in Hp. exact Hp. }
    pose proof (last_Some_elem_of _ _ Hp) as Hpin.
    pose proof (lseg_alloc _ _ _ _ _ Hinit Hpin) as Hpa.
    pose proof (chain_NoDup _ _ _ Hc) as Hnd.
    apply NoDup_app in Hnd as (Hndi & Hdi & _).
    rewrite Ep. cbn [truthy negb]. msteps.
    exists (upd h p None). split; [reflexivity|].
    split; [intros _; eapply lseg_relink; eassumption|].
    assert (p <> y) as Hpy.
    { intros ->. apply (Hdi y Hpin). apply elem_of_cons. left. reflexivity. }
    split; [rewrite next_of_upd_ne by exact Hpy; exact Hny|].
    split; [rewrite length_upd; exact Hy|].
    split; [intros ->; discriminate|].
    eapply frame_weaken; [|apply frame_upd]. intros l Hl.
    apply elem_of_cons in Hl as [->|Hl]; [exact Hpin|inversion Hl].
Qed.

Lemma rotateOnce_spec h head init y fuel :
  chain h head (init ++ [y]) -> init <> [] -> length init < fuel ->
  exists h',
    rotateOnce fuel head h = (Ok (Some y), h') /\
    chain h' (Some y) (y :: init) /\
    frame (init ++ [y]) h h'.
Proof.
  intros Hc Hne Hf. unfold rotateOnce.
  destruct (removeAndReturnLastNode_spec h head init y fuel Hc Hf)
    as (h1 & E & C & Hny & Hy & _ & F).
  specialize (C Hne).
  rewrite (bind_eq _ _ _ _ _ E). msteps.
  pose proof (chain_NoDup _ _ _ Hc) as Hnd.
  apply NoDup_app in Hnd as (_ & Hdi & _).
  assert (y ∉ init) as Hyi.
  { intros Hin. apply (Hdi y Hin). apply elem_of_cons. left. reflexivity. }
  exists (upd h1 y head). split; [reflexivity|]. split.
  - split; [reflexivity|]. split; [rewrite length_upd; exact Hy|].
    rewrite next_of_upd_eq by exact Hy. apply lseg_upd; assumption.
  - eapply frame_trans.
    + eapply frame_weaken; [|exact F]. intros l Hl. apply elem_of_app.
      left. exact Hl.
    + eapply frame_weaken; [|apply frame_upd]. intros l Hl.
      apply elem_of_cons in Hl as [->|Hl]; [|inversion Hl].
      apply elem_of_app. right. apply elem_of_cons. left. reflexivity.
Qed.

Lemma rotate_right_step (init : list loc) y c :
  c < length (init ++ [y]) ->
  drop (length (init ++ [y]) - c) (y :: init)
  ++ take (length (init ++ [y]) - c) (y :: init)
  = drop (length (init ++ [y]) - S c) (init ++ [y])
    ++ take (length (init ++ [y]) - S c) (init ++ [y]).
Proof.
  rewrite length_app. cbn [length]. intros Hc.
  replace (length init + 1 - c) with (S (length init - c)) by lia.
  replace (length init + 1 - S c) with (length init - c) by lia.
  cbn [drop take].
  rewrite drop_app_le, take_app_le by lia.
  rewrite <- app_assoc. reflexivity.
Qed.

Lemma rotate_for_spec fuel count :
  forall h head ls,
    chain h head ls -> 2 <= length ls -> count < length ls ->
    length ls <= fuel ->
    exists r h',
      rotate_for fuel count head h = (Ok r, h') /\
      chain h' r (drop (length ls - count) ls ++ take (length ls - count) ls) /\
      frame ls h h'.
Proof.
  induction count as [|c IH]; intros h head ls Hc Hlen Hcount Hf;
    cbn [rotate_for].
  - exists head, h. split; [reflexivity|]. split; [|apply frame_refl].
    rewrite Nat.sub_0_r, drop_all, firstn_all. exact Hc.
  - destruct (proj2 (last_is_Some ls) ltac:(intros ->; simpl in Hlen; lia))
      as [y Hy].
    apply last_Some in Hy as [init ->].
    assert (init <> []) as Hne.
    { intros ->. simpl in Hlen. lia. }
    rewrite length_app in Hf. cbn [length] in Hf.
    destruct (rotateOnce_spec h head init y fuel Hc Hne ltac:(lia))
      as (h1 & E1 & C1 & F1).
    rewrite (bind_eq _ _ _ _ _ E1).
    assert (length (y :: init) = length (init ++ [y])) as Hl
        by (rewrite length_app; simpl; lia).
    destruct (IH h1 (Some y) (y :: init) C1 ltac:(lia) ltac:(lia)
                ltac:(simpl; lia)) as (r & h' & E & C & F).
    exists r, h'. split; [exact E|]. split.
    + rewrite Hl in C. rewrite <- rotate_right_step by lia. exact C.
    + eapply frame_trans; [exact F1|].
      eapply frame_weaken; [|exact F]. intros l Hin.
      rewrite elem_of_app. rewrite !elem_of_cons in *.
      rewrite elem_of_nil. tauto.
Qed.

End rotate.

Lemma rotate_spec h head ls k fuel :
  chain h head ls -> ls <> [] -> length ls < fuel ->
  exists r h',
    rotate fuel head k h = (Ok r, h') /\
    chain h' r
      (drop (length ls - Z.to_nat (k mod Z.of_nat (length ls))) ls
       ++ take (length ls - Z.to_nat (k mod Z.of_nat (length ls))) ls) /\
    (forall l, val_of h' l = val_of h l) /\
    ((k mod Z.of_nat (length ls) = 0)%Z -> chain h' r ls).
Proof.
  intros Hc Hne Hf. unfold rotate.
  pose proof (countNodes_spec h head ls fuel Hc Hf) as EN.
  rewrite (bind_eq _ _ _ _ _ EN).
  set (n := length ls) in *.
  assert (0 < n) as Hn by (unfold n; destruct ls; simpl; [congruence|lia]).
  pose proof (Z.mod_pos_bound k (Z.of_nat n) ltac:(lia)) as Hr.
  destruct (Z.eqb_spec (Z.of_nat n) 0) as [E0|_]; [lia|].
  destruct (Z.eqb_spec (Z.of_nat n) 1) as [E1|E1]; cbn [orb].
  - exists head, h. split; [reflexivity|].
    assert (k mod Z.of_nat n = 0)%Z as -> by (rewrite E1; apply Z.mod_1_r).
    change (Z.to_nat 0) with 0.
    rewrite Nat.sub_0_r. unfold n. rewrite drop_all, firstn_all.
    split; [exact Hc|]. split; [reflexivity|]. intros _. exact Hc.
  - destruct (rotate_for_spec fuel (Z.to_nat (k mod Z.of_nat n)) h head ls Hc
                ltac:(fold n; lia) ltac:(fold n; lia) ltac:(fold n; lia))
      as (r & h' & E & C & F).
    exists r, h'. split; [exact E|]. split; [exact C|].
    split; [apply (frame_value _ _ _ F)|].
    intros Hz. fold n in C. rewrite Hz in C. change (Z.to_nat 0) with 0 in C.
    rewrite Nat.sub_0_r in C. unfold n in C.
    rewrite drop_all, firstn_all in C. exact C.
Qed.

(** X14: [rotate head k] on a non-empty chain of [n] nodes moves the last
    [k mod n] nodes to the front, both parts keeping their order, for every
    integer [k]; values are not changed, and a multiple of [n] gives the
    chain back.  On the empty chain it returns [None]. *)
Theorem rotate_moves_last_k :
  (forall h head ls k fuel,
      chain h head ls -> ls <> [] -> length ls < fuel ->
      exists r h',
        rotate fuel head k h = (Ok r, h') /\
        chain h' r
          (drop (length ls - Z.to_nat (k mod Z.of_nat (length ls))) ls
           ++ take (length ls - Z.to_nat (k mod Z.of_nat (length ls))) ls) /\
        (forall l, val_of h' l = val_of h l) /\
        ((k mod Z.of_nat (length ls) = 0)%Z -> chain h' r ls)) /\
  (forall h k fuel, rotate (S fuel) None k h = (Ok None, h)) /\
  values_of (run_on [1; 2; 3; 4; 5]%Z (fun head => rotate 6 head 2))
  = Some [4; 5; 1; 2; 3]%Z.
Proof.
  split; [|split; [reflexivity|reflexivity]].
  intros h head ls k fuel Hc Hne Hf.
  exact (rotate_spec h head ls k fuel Hc Hne Hf).
Qed.

Lemma rotate_moves_last_k_witness :
  chain heap123 (Some 0) [0; 1; 2] /\ [0; 1; 2] <> [] /\ length [0; 1; 2] < 4 /\
  exists r h',
    rotate 4 (Some 0) 5 heap123 = (Ok r, h') /\
    chain h' r
      (drop (length [0; 1; 2] - Z.to_nat (5 mod Z.of_nat (length [0; 1; 2])))
         [0; 1; 2]
       ++ take (length [0; 1; 2] - Z.to_nat (5 mod Z.of_nat (length [0; 1; 2])))
            [0; 1; 2]) /\
    (forall l, val_of h' l = val_of heap123 l) /\
    ((5 mod Z.of_nat (length [0; 1; 2]) = 0)%Z -> chain h' r [0; 1; 2]).
Proof.
  assert (chain heap123 (Some 0) [0; 1; 2]) as Hc.
  { unfold chain, heap123; simpl. repeat split; lia. }
  assert ([0; 1; 2] <> []) as Hne by discriminate.
  assert (length [0; 1; 2] < 4) as Hf by (simpl; lia).
  split; [exact Hc|]. split; [exact Hne|]. split; [exact Hf|].
  exact (proj1 rotate_moves_last_k heap123 (Some 0) [0; 1; 2] 5%Z 4 Hc Hne Hf).
Defined.

(** X15: [rotateOnce] must not be called on a single node: the node ends as
    its own successor (a cycle of one node); on an empty chain it raises.
    [rotate] never does so, it returns chains of fewer than two nodes
    untouched. *)
Theorem rotateOnce_single_node_cycles :
  (forall h y fuel,
      chain h (Some y) [y] -> 0 < fuel ->
      rotateOnce fuel (Some y) h = (Ok (Some y), upd h y (Some y)) /\
      cyclic_chain (upd h y (Some y)) (Some y) [y] 0 /\
      forall k, rotate (S fuel) (Some y) k h = (Ok (Some y), h)) /\
  (forall h fuel, rotateOnce (S fuel) None h = (Raise, h)).
Proof.
  split; [|reflexivity].
  intros h y fuel Hc Hf. pose proof Hc as (_ & Hy & Hn). simpl in Hn.
  destruct (removeAndReturnLastNode_spec h (Some y) [] y fuel Hc Hf)
    as (h1 & E & _ & _ & _ & Hsame & _).
  destruct (Hsame eq_refl) as [_ ->].
  split; [|split].
  - unfold rotateOnce. rewrite (bind_eq _ _ _ _ _ E). msteps. reflexivity.
  - split; [apply NoDup_singleton|]. split; [simpl; lia|].
    split; [reflexivity|]. split; [rewrite length_upd; exact Hy|].
    simpl. apply next_of_upd_eq. exact Hy.
  - intros k. unfold rotate.
    pose proof (countNodes_spec h (Some y) [y] (S fuel) Hc ltac:(simpl; lia))
      as EN.
    rewrite (bind_eq _ _ _ _ _ EN). reflexivity.
Qed.

Lemma rotateOnce_single_node_cycles_witness :
  chain [mkNode 7 None] (Some 0) [0] /\ 0 < 1 /\
  rotateOnce 1 (Some 0) [mkNode 7 None]
  = (Ok (Some 0), upd [mkNode 7 None] 0 (Some 0)) /\
  cyclic_chain (upd [mkNode 7 None] 0 (Some 0)) (Some 0) [0] 0 /\
  forall k, rotate 2 (Some 0) k [mkNode 7 None] = (Ok (Some 0), [mkNode 7 None]).
Proof.
  assert (chain [mkNode 7 None] (Some 0) [0]) as Hc.
  { unfold chain; simpl. repeat split; lia. }
  assert (0 < 1) as Hf by lia.
  split; [exact Hc|]. split; [exact Hf|].
  exact (proj1 rotateOnce_single_node_cycles [mkNode 7 None] 0 1 Hc Hf).
Defined.

(** ** rearrange_last_n.py *)

Section rearrange.

Lemma rearrangeLastN_loop_spec h head ls (n : Z) :
  chain h head ls ->
  forall fuel t,
    t <= length ls -> length ls - t < fuel ->
    rearrangeLastN_loop fuel n (ls !! t)
      (ls !! Z.to_nat (Z.of_nat t - Z.max 0 n))
      (before ls (Z.to_nat (Z.of_nat t - Z.max 0 n)))
      (before ls t) (Z.of_nat t + 1) h
    = (Ok (ls !! Z.to_nat (Z.of_nat (length ls) - Z.max 0 n),
           before ls (Z.to_nat (Z.of_nat (length ls) - Z.max 0 n)),
           before ls (length ls)), h).
Proof.
  intros Hc. induction fuel as [|fuel IH]; intros t Ht Hf; [lia|].
  cbn [rearrangeLastN_loop].
  destruct (ls !! t) as [x|] eqn:Ex.
  - destruct (chain_lookup _ _ _ _ _ Hc Ex) as (Hx & Hnx & _).
    pose proof (lookup_lt_Some _ _ _ Ex) as Hlt.
    rewrite ptr_eqb_Some_None. cbn [negb].
    replace (Z.of_nat t + 1 + 1)%Z with (Z.of_nat (S t) + 1)%Z by lia.
    pose proof (IH (S t) ltac:(lia) ltac:(lia)) as IH'.
    cbn [before] in IH'. rewrite Ex in IH'.
    destruct (Z.gtb_spec (Z.of_nat t + 1) n) as [G|G].
    + set (a := Z.to_nat (Z.of_nat t - Z.max 0 n)) in *.
      destruct (lookup_lt_is_Some_2 ls a ltac:(unfold a; lia)) as [y Ey].
      destruct (chain_lookup _ _ _ _ _ Hc Ey) as (Hy & Hny & _).
      rewrite Ey. msteps. cbn [fst snd]. rewrite Hnx, Hny.
      replace (Z.to_nat (Z.of_nat (S t) - Z.max 0 n)) with (S a)
        in IH' by (unfold a; lia).
      cbn [before] in IH'. rewrite Ey in IH'. exact IH'.
    + msteps. cbn [fst snd]. rewrite Hnx.
      replace (Z.to_nat (Z.of_nat (S t) - Z.max 0 n))
        with (Z.to_nat (Z.of_nat t - Z.max 0 n)) in IH' by lia.
      exact IH'.
  - apply lookup_ge_None in Ex. change (ptr_eqb None None) with true.
    cbn [negb]. assert (t = length ls) as -> by lia. reflexivity.
Qed.

Lemma rearrangeLastN_run h l ls n fuel :
  chain h l ls -> length ls < fuel ->
  rearrangeLastN_loop fuel n l l None None 1%Z h
  = (Ok (ls !! Z.to_nat (Z.of_nat (length ls) - Z.max 0 n),
         before ls (Z.to_nat (Z.of_nat (length ls) - Z.max 0 n)),
         before ls (length ls)), h).
Proof.
  intros Hc Hf.
  pose proof (rearrangeLastN_loop_spec h l ls n Hc fuel 0 ltac:(lia) ltac:(lia))
    as E.
  replace (Z.to_nat (Z.of_nat 0 - Z.max 0 n)) with 0 in E by lia.
  rewrite <- (chain_head _ _ _ Hc) in E.
  change (Z.of_nat 0 + 1)%Z with 1%Z in E. cbn [before] in E. exact E.
Qed.

End rearrange.

(** X16: [rearrangeLastN l n] with [1 <= n < length] moves the last [n]
    nodes to the front, both parts keeping their order (the result of
    [rotate l n]); with [n = 0], with [n] at least the length, or on the
    empty chain it returns [l] and writes nothing. *)
Theorem rearrangeLastN_moves_last_n :
  forall h l ls n fuel,
    chain h l ls -> length ls < fuel ->
    (1 <= n < length ls ->
     exists r h' r' h'',
       rearrangeLastN fuel l (Z.of_nat n) h = (Ok r, h') /\
       chain h' r (drop (length ls - n) ls ++ take (length ls - n) ls) /\
       (forall x, val_of h' x = val_of h x) /\
       rotate fuel l (Z.of_nat n) h = (Ok r', h'') /\
       chain h'' r' (drop (length ls - n) ls ++ take (length ls - n) ls)) /\
    (forall z, (z = 0 \/ Z.of_nat (length ls) <= z)%Z ->
               rearrangeLastN fuel l z h = (Ok l, h)).
Proof.
  intros h l ls n fuel Hc Hf. split.
  - intros Hn. unfold rearrangeLastN.
    destruct (Z.eqb_spec (Z.of_nat n) 0); [lia|].
    rewrite (bind_eq _ _ _ _ _ (rearrangeLastN_run h l ls (Z.of_nat n) fuel Hc Hf)).
    replace (Z.to_nat (Z.of_nat (length ls) - Z.max 0 (Z.of_nat n)))
      with (length ls - n) by lia.
    set (m := length ls - n).
    destruct m as [|m'] eqn:Em; [lia|]. cbn [before].
    destruct (length ls) as [|N'] eqn:EN; [lia|]. cbn [before].
    destruct (lookup_lt_is_Some_2 ls m' ltac:(lia)) as [p Ep].
    destruct (lookup_lt_is_Some_2 ls (S m') ltac:(lia)) as [x Ex].
    destruct (lookup_lt_is_Some_2 ls N' ltac:(lia)) as [tl Etl].
    destruct (chain_lookup _ _ _ _ _ Hc Ep) as (Hp & _).
    destruct (chain_lookup _ _ _ _ _ Hc Etl) as (Htl & _).
    pose proof (chain_NoDup _ _ _ Hc) as Hnd.
    rewrite Ep, Ex, Etl. cbn [truthy negb]. msteps.
    assert (last (take (S m') ls) = Some p) as Hlp.
    { rewrite (take_S_r _ _ _ Ep). apply last_snoc. }
    assert (last (drop (S m') ls) = Some tl) as Hlt.
    { rewrite last_lookup, length_drop, lookup_drop, EN.
      replace (S m' + Init.Nat.pred (S N' - S m')) with N' by lia. exact Etl. }
    pose proof (lseg_take h l ls None (S m') ltac:(lia) Hc) as Htake.
    rewrite Ex in Htake.
    pose proof (chain_drop h l ls (S m') Hc) as Hdrop. rewrite Ex in Hdrop.
    assert (NoDup (take (S m') ls) /\ NoDup (drop (S m') ls)) as (Hndt & Hndd).
    { rewrite <- (take_drop (S m') ls) in Hnd.
      apply NoDup_app in Hnd as (? & _ & ?). split; assumption. }
    assert (p ∉ drop (S m') ls) as Hpd.
    { eapply take_drop_disjoint; [exact Hnd|reflexivity|].
      apply last_Some_elem_of. exact Hlp. }
    assert (tl ∉ take (S m') ls) as Htt.
    { intros Hin. eapply take_drop_disjoint; [exact Hnd|reflexivity|exact Hin|].
      apply last_Some_elem_of. exact Hlt. }
    assert (ls <> []) as Hne by (intros ->; discriminate).
    destruct (rotate_spec h l ls (Z.of_nat n) fuel Hc Hne
                ltac:(rewrite EN; exact Hf)) as (r' & h'' & Er & Cr & _).
    rewrite EN in Cr.
    rewrite Z.mod_small, Nat2Z.id in Cr by lia. fold m in Cr. rewrite Em in Cr.
    exists (Some x), (upd (upd h p None) tl l), r', h''.
    split; [reflexivity|]. split; [|split; [|split; [exact Er|exact Cr]]].
    + apply lseg_app. exists l. split.
      * eapply lseg_relink; [|exact Hlt|exact Hndd].
        apply lseg_upd; [exact Hpd|exact Hdrop].
      * apply lseg_upd; [exact Htt|].
        eapply lseg_relink; [exact Htake|exact Hlp|exact Hndt].
    + intros y. rewrite !val_of_upd. reflexivity.
  - intros z Hz. unfold rearrangeLastN.
    destruct (Z.eqb_spec z 0) as [->|Hz0]; [reflexivity|].
    rewrite (bind_eq _ _ _ _ _ (rearrangeLastN_run h l ls z fuel Hc Hf)).
    replace (Z.to_nat (Z.of_nat (length ls) - Z.max 0 z)) with 0 by lia.
    reflexivity.
Qed.

Lemma rearrangeLastN_moves_last_n_witness :
  chain heap123 (Some 0) [0; 1; 2] /\ length [0; 1; 2] < 4 /\
  1 <= 2 < length [0; 1; 2] /\ (0 = 0 \/ Z.of_nat (length [0; 1; 2]) <= 0)%Z /\
  (exists r h' r' h'',
      rearrangeLastN 4 (Some 0) (Z.of_nat 2) heap123 = (Ok r, h') /\
      chain h' r (drop (length [0; 1; 2] - 2) [0; 1; 2]
                  ++ take (length [0; 1; 2] - 2) [0; 1; 2]) /\
      (forall x, val_of h' x = val_of heap123 x) /\
      rotate 4 (Some 0) (Z.of_nat 2) heap123 = (Ok r', h'') /\
      chain h'' r' (drop (length [0; 1; 2] - 2) [0; 1; 2]
                    ++ take (length [0; 1; 2] - 2) [0; 1; 2])) /\
  rearrangeLastN 4 (Some 0) 0 heap123 = (Ok (Some 0), heap123).
Proof.
  assert (chain heap123 (Some 0) [0; 1; 2]) as Hc.
  { unfold chain, heap123; simpl. repeat split; lia. }
  assert (length [0; 1; 2] < 4) as Hf by (simpl; lia).
  assert (1 <= 2 < length [0; 1; 2]) as Hn by (simpl; lia).
  assert (0 = 0 \/ Z.of_nat (length [0; 1; 2]) <= 0)%Z as Hz by (left; reflexivity).
  split; [exact Hc|]. split; [exact Hf|]. split; [exact Hn|].
  split; [exact Hz|]. split.
  - exact (proj1 (rearrangeLastN_moves_last_n heap123 (Some 0) [0; 1; 2] 2 4
                    Hc Hf) Hn).
  - exact (proj2 (rearrangeLastN_moves_last_n heap123 (Some 0) [0; 1; 2] 2 4
                    Hc Hf) 0%Z Hz).
Defined.

(** X17: a negative [n] is not rejected by [rearrangeLastN]: on a non-empty
    chain it returns [None] and links the tail to the head, so the nodes
    are left as a cycle through the old head. *)
Theorem rearrangeLastN_negative_closes_cycle :
  forall h l ls n fuel,
    chain h l ls -> ls <> [] -> length ls < fuel -> (n < 0)%Z ->
    exists tl h',
      last ls = Some tl /\
      rearrangeLastN fuel l n h = (Ok None, h') /\
      h' = upd h tl l /\
      cyclic_chain h' l ls 0.
Proof.
  intros h l ls n fuel Hc Hne Hf Hn. unfold rearrangeLastN.
  destruct (Z.eqb_spec n 0); [lia|].
  rewrite (bind_eq _ _ _ _ _ (rearrangeLastN_run h l ls n fuel Hc Hf)).
  replace (Z.to_nat (Z.of_nat (length ls) - Z.max 0 n)) with (length ls) by lia.
  destruct (proj2 (last_is_Some ls) Hne) as [tl Htl].
  pose proof Htl as Htl'. rewrite last_lookup in Htl'.
  destruct (length ls) as [|N'] eqn:EN; [destruct ls; simpl in *; congruence|].
  cbn [before Init.Nat.pred] in *.
  destruct (chain_lookup _ _ _ _ _ Hc Htl') as (Hta & Hnt & _).
  rewrite (proj2 (lookup_ge_None ls (S N'))) in * by lia.
  rewrite Htl'. cbn [truthy negb]. msteps.
  rewrite (upd_id h tl None Hta Hnt).
  exists tl, (upd h tl l). split; [exact Htl|]. split; [reflexivity|].
  split; [reflexivity|].
  split; [eapply chain_NoDup; exact Hc|]. split; [lia|].
  rewrite <- (chain_head _ _ _ Hc).
  eapply lseg_relink; [exact Hc|exact Htl|eapply chain_NoDup; exact Hc].
Qed.

Lemma rearrangeLastN_negative_closes_cycle_witness :
  chain heap123 (Some 0) [0; 1; 2] /\ [0; 1; 2] <> [] /\
  length [0; 1; 2] < 4 /\ (-1 < 0)%Z /\
  exists tl h',
    last [0; 1; 2] = Some tl /\
    rearrangeLastN 4 (Some 0) (-1) heap123 = (Ok None, h') /\
    h' = upd heap123 tl (Some 0) /\
    cyclic_chain h' (Some 0) [0; 1; 2] 0.
Proof.
  assert (chain heap123 (Some 0) [0; 1; 2]) as Hc.
  { unfold chain, heap123; simpl. repeat split; lia. }
  assert ([0; 1; 2] <> []) as Hne by discriminate.
  assert (length [0; 1; 2] < 4) as Hf by (simpl; lia).
  assert (-1 < 0)%Z as Hn by lia.
  split; [exact Hc|]. split; [exact Hne|]. split; [exact Hf|]. split; [exact Hn|].
  exact (rearrangeLastN_negative_closes_cycle heap123 (Some 0) [0; 1; 2] (-1) 4
           Hc Hne Hf Hn).
Defined.

(** ** remove_duplicates.py: [removeDuplicates] *)

Section remove_all_duplicates.

Variable v : loc -> Z.

Lemma singles_drop_run c run rest :
  Forall (fun l => v l = c) run ->
  singles v (Some c) (run ++ rest) = singles v (Some c) rest.
Proof.
  induction 1 as [|y run Hy _ IH]; [reflexivity|].
  cbn [app singles]. rewrite Hy, Z.eqb_refl. cbn [orb]. exact IH.
Qed.

Lemma singles_run prev x run rest :
  Forall (fun l => v l = v x) run -> run <> [] ->
  singles v prev (x :: run ++ rest) = singles v (Some (v x)) rest.
Proof.
  intros Hrun Hne. destruct run as [|y run]; [congruence|].
  cbn [app singles]. pose proof Hrun as Hrun'.
  apply Forall_cons in Hrun' as [Hy Hrun'].
  rewrite Hy, Z.eqb_refl, Bool.orb_true_r. cbn [orb].
  apply (singles_drop_run (v x) run rest Hrun').
Qed.

Lemma singles_single prev x rest :
  match prev with Some c => c <> v x | None => True end ->
  match rest with [] => True | z :: _ => v z <> v x end ->
  singles v prev (x :: rest) = x :: singles v (Some (v x)) rest.
Proof.
  intros Hp Hr. cbn [singles].
  assert (match prev with Some c => (c =? v x)%Z | None => false end = false)
    as ->.
  { destruct prev as [c|]; [|reflexivity]. apply Z.eqb_neq. exact Hp. }
  assert (match rest with y :: _ => (v y =? v x)%Z | [] => false end = false)
    as ->.
  { destruct rest as [|z ?]; [reflexivity|]. apply Z.eqb_neq. exact Hr. }
  reflexivity.
Qed.

Lemma singles_subset prev ls l : l ∈ singles v prev ls -> l ∈ ls.
Proof.
  revert prev. induction ls as [|x t IH]; intros prev Hl; cbn [singles] in Hl.
  - exact Hl.
  - destruct (_ || _).
    + apply elem_of_cons. right. eapply IH. exact Hl.
    + apply elem_of_cons in Hl as [->|Hl]; apply elem_of_cons;
        [left; reflexivity|right; eapply IH; exact Hl].
Qed.

Lemma removeDuplicates_run_spec c rest :
  forall fuel h y,
    (forall l, val_of h l = v l) -> v y = c ->
    chain h (Some y) (y :: rest) -> length rest < fuel ->
    exists run rest',
      rest = run ++ rest' /\
      Forall (fun l => v l = c) run /\
      match rest' with [] => True | z :: _ => v z <> c end /\
      removeDuplicates_run fuel (Some y) h = (Ok (last (y :: run)), h).
Proof.
  induction rest as [|z t IH]; intros fuel h y Hv Hyc (_ & Hy & Hc) Hf;
    (destruct fuel as [|fuel]; [simpl in Hf; lia|]);
    cbn [removeDuplicates_run].
  - red in Hc. simpl in Hc. exists [], []. msteps. rewrite Hc. cbn [truthy].
    msteps. repeat split. constructor.
  - pose proof Hc as (Hnz & Hz & Hc'). msteps. rewrite Hnz. cbn [truthy].
    msteps. rewrite Hnz. msteps. rewrite !Hv, Hyc.
    destruct (Z.eqb_spec c (v z)) as [E|E].
    + msteps. rewrite Hnz. rewrite Hnz in Hc.
      destruct (IH fuel h z Hv (eq_sym E) Hc ltac:(simpl in Hf; lia))
        as (run & rest' & -> & Hrun & Hrest & Er).
      exists (z :: run), rest'. split; [reflexivity|].
      split; [constructor; [symmetry|]; assumption|]. split; [exact Hrest|].
      rewrite Er. rewrite last_cons_cons. reflexivity.
    + exists [], (z :: t). msteps. repeat split; [constructor|congruence].
Qed.

Lemma removeDuplicates_loop_spec fuel0 :
  forall fuel todo h pA A pr cur prev,
    (forall l, val_of h l = v l) ->
    lseg h pA A cur -> last A = Some pr -> chain h cur todo ->
    NoDup (A ++ todo) ->
    match prev, todo with Some c, x :: _ => c <> v x | _, _ => True end ->
    length todo < fuel0 -> length todo < fuel ->
    exists h',
      removeDuplicates_loop fuel0 fuel (Some pr) cur h = (Ok tt, h') /\
      chain h' pA (A ++ singles v prev todo) /\
      frame (A ++ todo) h h'.
Proof.
  induction fuel as [|fuel IH];
    intros todo h pA A pr cur prev Hv HA Hpr Hc Hnd Hprev Hf0 Hf; [lia|].
  cbn [removeDuplicates_loop]. destruct todo as [|x t].
  - red in Hc. simpl in Hc. subst cur. change (ptr_eqb None None) with true.
    cbn [negb singles]. exists h. split; [reflexivity|].
    rewrite app_nil_r. split; [exact HA|apply frame_refl].
  - pose proof Hc as (-> & Hx & Hc'). rewrite ptr_eqb_Some_None. cbn [negb].
    destruct (removeDuplicates_run_spec (v x) t fuel0 h x Hv eq_refl Hc
                ltac:(simpl in Hf0; lia))
      as (run & rest & -> & Hrun & Hrest & Er).
    rewrite (bind_eq _ _ _ _ _ Er).
    pose proof (last_Some_elem_of _ _ Hpr) as Hprin.
    pose proof (lseg_alloc _ _ _ _ _ HA Hprin) as Hpra.
    pose proof (lseg_last_next _ _ _ _ _ HA Hpr) as Hprn.
    apply NoDup_app in Hnd as (HndA & HdA & Hndt).
    pose proof Hndt as Hndt'. apply NoDup_cons in Hndt' as (Hxt & _).
    msteps. rewrite Hprn.
    destruct run as [|r0 run].
    + cbn [last app] in *. rewrite ptr_eqb_refl. msteps. rewrite Hprn. msteps.
      destruct (IH rest h pA (A ++ [x]) x (next_of h x) (Some (v x)))
        as (h' & E & C & F).
      * exact Hv.
      * apply lseg_snoc. repeat split; try assumption.
      * apply last_snoc.
      * exact Hc'.
      * rewrite <- app_assoc. apply NoDup_app. repeat split; assumption.
      * destruct rest; [exact I|congruence].
      * simpl in Hf0. lia.
      * simpl in Hf. lia.
      * exists h'. split; [exact E|].
        rewrite (singles_single prev x rest Hprev Hrest).
        rewrite <- app_assoc in C, F. split; assumption.
    + assert (exists e, last (x :: r0 :: run) = Some e) as [e He].
      { apply last_is_Some. discriminate. }
      rewrite He. rewrite last_cons_cons in He.
      pose proof (last_Some_elem_of _ _ He) as Hein.
      assert (x <> e) as Hxe.
      { intros ->. apply Hxt. apply elem_of_app. left. exact Hein. }
      rewrite ptr_eqb_ne by congruence.
      apply lseg_app in Hc' as (q & Hrunseg & Hrestc).
      pose proof (lseg_last_next _ _ _ _ _ Hrunseg He) as Hq.
      pose proof (lseg_alloc _ _ _ _ _ Hrunseg Hein) as Hea.
      assert (pr <> e) as Hpre.
      { intros ->. apply (HdA e Hprin). apply elem_of_cons. right.
        apply elem_of_app. left. exact Hein. }
      assert (pr ∉ rest) as Hprrest.
      { intros Hin. apply (HdA pr Hprin). apply elem_of_cons. right.
        apply elem_of_app. right. exact Hin. }
      msteps. rewrite Hq. rewrite next_of_upd_ne by exact Hpre. rewrite Hq.
      destruct (IH rest (upd h pr q) pA A pr q (Some (v x)))
        as (h' & E & C & F).
      * intros l. rewrite val_of_upd. apply Hv.
      * eapply lseg_relink; eassumption.
      * exact Hpr.
      * apply lseg_upd; assumption.
      * apply NoDup_app. split; [exact HndA|]. split.
        -- intros l Hl Hin. apply (HdA l Hl). apply elem_of_cons. right.
           apply elem_of_app. right. exact Hin.
        -- apply NoDup_cons in Hndt as (_ & Hndt).
           apply NoDup_app in Hndt as (_ & _ & Hndt). exact Hndt.
      * destruct rest; [exact I|congruence].
      * simpl in Hf0. rewrite length_app in Hf0. lia.
      * simpl in Hf. rewrite length_app in Hf. lia.
      * exists h'. split; [exact E|].
        rewrite (singles_run prev x (r0 :: run) rest Hrun ltac:(discriminate)).
        split; [exact C|].
        eapply frame_trans.
        -- eapply frame_weaken; [|apply (frame_upd h pr q)]. intros l Hl.
           apply elem_of_cons in Hl as [->|Hl]; [|inversion Hl].
           apply elem_of_app. left. exact Hprin.
        -- eapply frame_weaken; [|exact F]. intros l Hl.
           rewrite !elem_of_app in *. rewrite !elem_of_cons.
           rewrite elem_of_app. tauto.
Qed.

End remove_all_duplicates.

Lemma singles_ext v v' prev ls :
  (forall l, l ∈ ls -> v l = v' l) -> singles v prev ls = singles v' prev ls.
Proof.
  revert prev. induction ls as [|x t IH]; intros prev Hv; [reflexivity|].
  cbn [singles]. rewrite <- (Hv x) by (apply elem_of_cons; left; reflexivity).
  assert (forall l, l ∈ t -> v l = v' l) as Hv'
      by (intros l Hl; apply Hv, elem_of_cons; right; exact Hl).
  rewrite (IH _ Hv').
  destruct t as [|y t']; [reflexivity|].
  rewrite <- (Hv' y) by (apply elem_of_cons; left; reflexivity). reflexivity.
Qed.

(** X18: [removeDuplicates] keeps exactly the nodes whose value differs
    from the values of both neighbours, in their order: every run of two or
    more equal values disappears entirely (where [removeDuplicates2] keeps
    its first node).  Values are not changed and the nodes of the input
    store keep their place. *)
Theorem removeDuplicates_keeps_singles :
  forall h head ls fuel,
    chain h head ls -> length ls < fuel ->
    exists r h',
      removeDuplicates fuel head h = (Ok r, h') /\
      chain h' r (singles (val_of h) None ls) /\
      vals h' ls = vals h ls /\
      sublist (singles (val_of h) None ls) (dedup_runs (val_of h) ls).
Proof.
  assert (forall v c prev ls,
             match prev with Some p => p = c | None => False end ->
             sublist (singles v prev ls) (dedup_from v c ls)) as Hsub1.
  { intros v c prev ls. revert c prev.
    induction ls as [|x t IH]; intros c prev Hp; [constructor|].
    cbn [singles dedup_from]. destruct prev as [p|]; [subst p|contradiction].
    rewrite (Z.eqb_sym c (v x)).
    destruct (Z.eqb_spec (v x) c) as [E|E]; cbn [orb].
    - rewrite <- E. apply IH. reflexivity.
    - destruct (match t with [] => false | y :: _ => (v y =? v x)%Z end).
      + apply sublist_cons. apply IH. reflexivity.
      + apply sublist_skip. apply IH. reflexivity. }
  intros h head ls fuel Hc Hf. unfold removeDuplicates. destruct ls as [|x t].
  - red in Hc. simpl in Hc. subst head. cbn [truthy negb singles].
    exists None, h. split; [reflexivity|]. split; [reflexivity|].
    split; [reflexivity|constructor].
  - pose proof Hc as (-> & Hx & _). cbn [truthy negb].
    rewrite bind_new_node.
    set (a := length h). set (h1 := h ++ [mkNode 0 None]).
    assert (length h1 = S a) as Hlen1
        by (unfold h1, a; rewrite length_app; simpl; lia).
    rewrite bind_set_next by lia.
    set (h2 := upd h1 a (Some x)).
    assert (forall l, l ∈ x :: t -> l < a) as Hls
        by (intros l Hl; eapply lseg_alloc; eassumption).
    assert (a ∉ x :: t) as Hat by (intros Hin; apply Hls in Hin; lia).
    assert (chain h2 (Some x) (x :: t)) as Hc2.
    { apply lseg_upd; [exact Hat|]. apply lseg_snoc_heap. exact Hc. }
    assert (forall l, l < a -> val_of h2 l = val_of h l) as Hval2.
    { intros l Hl. unfold h2. rewrite val_of_upd. apply val_of_snoc_lt. exact Hl. }
    destruct (removeDuplicates_loop_spec (val_of h2) fuel fuel (x :: t) h2
                (Some a) [a] a (Some x) None) as (h' & E & C & F).
    + reflexivity.
    + split; [reflexivity|]. split; [unfold h2; rewrite length_upd; lia|].
      apply next_of_upd_eq. lia.
    + reflexivity.
    + exact Hc2.
    + apply NoDup_cons. split; [exact Hat|eapply chain_NoDup; exact Hc].
    + exact I.
    + exact Hf.
    + exact Hf.
    + rewrite (bind_eq _ _ _ _ _ E).
      assert (a < length h') as Ha'
          by (rewrite (frame_length _ _ _ F); unfold h2; rewrite length_upd; lia).
      msteps.
      rewrite (singles_ext (val_of h2) (val_of h)) in C
        by (intros l Hl; apply Hval2, Hls, Hl).
      exists (next_of h' a), h'. split; [reflexivity|].
      split; [destruct C as (_ & _ & C); exact C|]. split.
      * unfold vals. apply map_ext_in. intros l Hl.
        rewrite (frame_value _ _ _ F). apply Hval2, Hls, list_elem_of_In, Hl.
      * cbn [singles dedup_runs].
        destruct (match t with [] => false | y :: _ => (val_of h y =? val_of h x)%Z
                  end); cbn [orb].
        -- apply sublist_cons. apply Hsub1. reflexivity.
        -- apply sublist_skip. apply Hsub1. reflexivity.
Qed.

Lemma removeDuplicates_keeps_singles_witness :
  chain heap112 (Some 0) [0; 1; 2] /\ length [0; 1; 2] < 4 /\
  exists r h',
    removeDuplicates 4 (Some 0) heap112 = (Ok r, h') /\
    chain h' r (singles (val_of heap112) None [0; 1; 2]) /\
    vals h' [0; 1; 2] = vals heap112 [0; 1; 2] /\
    sublist (singles (val_of heap112) None [0; 1; 2])
      (dedup_runs (val_of heap112) [0; 1; 2]).
Proof.
  assert (chain heap112 (Some 0) [0; 1; 2]) as Hc.
  { unfold chain, heap112; simpl. repeat split; lia. }
  assert (length [0; 1; 2] < 4) as Hf by (simpl; lia).
  split; [exact Hc|]. split; [exact Hf|].
  exact (removeDuplicates_keeps_singles heap112 (Some 0) [0; 1; 2] 4 Hc Hf).
Defined.

(** ** partition_list.py: [partition] *)

Lemma frame_upd_in ls h l q : l ∈ ls -> frame ls h (upd h l q).
Proof.
  intros Hl. eapply frame_weaken; [|apply frame_upd].
  intros l' Hl'. apply elem_of_cons in Hl' as [->|Hl']; [exact Hl|inversion Hl'].
Qed.

Ltac elem_norm :=
  repeat first
    [ rewrite elem_of_app | rewrite elem_of_cons | rewrite elem_of_nil ].

Section partition_in_place.

Variable pivot : Z.
Variable v : loc -> Z.

Let lt_pivot (l : loc) : bool := (v l <? pivot)%Z.
Let ge_pivot (l : loc) : bool := (pivot <=? v l)%Z.

Lemma partition_loop_spec todo :
  forall fuel h head cur L R a nl,
    (forall l, val_of h l = v l) ->
    lseg h head L cur -> chain h cur todo ->
    chain h (Some a) (a :: R) -> last (a :: R) = Some nl ->
    NoDup (L ++ (a :: R) ++ todo) ->
    length todo < fuel ->
    exists h' head',
      partition_loop fuel pivot head cur (last L) (Some nl) h
      = (Ok (head', last (L ++ List.filter lt_pivot todo)), h') /\
      chain h' head' (L ++ List.filter lt_pivot todo) /\
      chain h' (Some a) (a :: R ++ List.filter ge_pivot todo) /\
      frame (L ++ (a :: R) ++ todo) h h'.
Proof.
  induction todo as [|x t IH];
    intros fuel h head cur L R a nl Hv HL Ht HR Hnl Hnd Hf;
    (destruct fuel as [|fuel]; [simpl in Hf; lia|]);
    cbn [partition_loop].
  - red in Ht; simpl in Ht; subst cur.
    change (ptr_eqb None None) with true. cbn [negb List.filter].
    rewrite !app_nil_r. exists h, head. split; [reflexivity|].
    split; [exact HL|]. split; [exact HR|apply frame_refl].
  - pose proof Ht as (-> & Hx & Ht').
    pose proof (last_Some_elem_of _ _ Hnl) as Hnlin.
    pose proof (lseg_alloc _ _ _ _ _ HR Hnlin) as Hnla.
    pose proof Hnd as Hnd0.
    apply NoDup_app in Hnd as (HndL & HdL & Hnd).
    apply NoDup_app in Hnd as (HndR & HdR & Hndt).
    apply NoDup_cons in Hndt as (Hxt & Hndt).
    assert (x ∉ L) as HxL.
    { intros Hin. apply (HdL x Hin). apply elem_of_app. right.
      apply elem_of_cons. left. reflexivity. }
    assert (x ∉ a :: R) as HxR.
    { intros Hin. apply (HdR x Hin). apply elem_of_cons. left. reflexivity. }
    assert (forall y, y ∈ L -> (y ∉ a :: R) /\ y <> x /\ (y ∉ t)) as HL'.
    { intros y Hy. split; [|split].
      - intros Hin. apply (HdL y Hy). apply elem_of_app. left. exact Hin.
      - intros ->. contradiction.
      - intros Hin. apply (HdL y Hy). apply elem_of_app. right.
        apply elem_of_cons. right. exact Hin. }
    assert (forall y, y ∈ a :: R -> y <> x /\ (y ∉ t)) as HR'.
    { intros y Hy. split.
      - intros ->. contradiction.
      - intros Hin. apply (HdR y Hy). apply elem_of_cons. right. exact Hin. }
    destruct (HR' nl Hnlin) as (Hnlx & Hnlt).
    rewrite ptr_eqb_Some_None. cbn [negb]. msteps. rewrite Hv.
    assert (ge_pivot x = negb (lt_pivot x)) as Hge
        by apply (Z.leb_antisym (v x) pivot).
    rewrite Z.geb_leb. change (pivot <=? v x)%Z with (ge_pivot x).
    cbn [List.filter]. rewrite Hge.
    destruct (lt_pivot x) eqn:Elt; cbn [negb].
    + msteps.
      destruct (IH fuel h head (next_of h x) (L ++ [x]) R a nl)
        as (h' & head' & E & CL & CR & F).
      * exact Hv.
      * apply lseg_snoc. repeat split; assumption.
      * exact Ht'.
      * exact HR.
      * exact Hnl.
      * rewrite <- app_assoc. cbn [app].
        apply NoDup_app. split; [exact HndL|]. split.
        -- intros y Hy Hin. apply elem_of_cons in Hin as [->|Hin];
             [contradiction|].
           change (a :: R ++ t) with ((a :: R) ++ t) in Hin.
           apply elem_of_app in Hin as [Hin|Hin];
             [apply (proj1 (HL' y Hy)); exact Hin
             |apply (proj2 (proj2 (HL' y Hy))); exact Hin].
        -- change (a :: R ++ t) with ((a :: R) ++ t). apply NoDup_cons. split.
           ++ intros Hin. apply elem_of_app in Hin as [Hin|Hin]; contradiction.
           ++ apply NoDup_app. split; [exact HndR|]. split; [|exact Hndt].
              intros y Hy. apply (HR' y Hy).
      * simpl in Hf. lia.
      * rewrite last_snoc in E. rewrite <- app_assoc in E, CL. cbn [app] in E, CL.
        exists h', head'. split; [exact E|]. split; [exact CL|].
        split; [exact CR|].
        eapply frame_weaken; [|exact F]. intros l. elem_norm. tauto.
    + set (q := next_of h x).
      (* the store after the node has been moved behind [n] *)
      assert (exists h3 head3,
                 (forall k : ptr * ptr -> M (ptr * ptr),
                     (hc <- (if truthy (last L) then
                               nn <- get_next (Some x) ;;
                               set_next (last L) nn ;;
                               cur' <- get_next (Some x) ;;
                               ret (head, cur')
                             else
                               head' <- get_next head ;;
                               ret (head', head')) ;;
                      set_next (Some x) None ;;
                      set_next (Some nl) (Some x) ;;
                      k hc) h = k (head3, q) h3) /\
                 (forall l, val_of h3 l = v l) /\
                 lseg h3 head3 L q /\ chain h3 q t /\
                 chain h3 (Some a) (a :: R ++ [x]) /\
                 frame (L ++ (a :: R) ++ [x]) h h3) as (h3 & head3 & E3 & Hv3 & HL3 & Ht3 & HR3 & F3).
      { assert (forall hh, length hh = length h ->
                   (forall l, l ∈ a :: R -> next_of hh l = next_of h l) ->
                   chain (upd (upd hh x None) nl (Some x)) (Some a)
                     (a :: R ++ [x])) as HRgen.
        { intros hh Hlen Hag.
          change (a :: R ++ [x]) with ((a :: R) ++ [x]).
          apply lseg_snoc. split; [|split].
          - eapply lseg_relink; [|exact Hnl|exact HndR].
            apply lseg_upd; [exact HxR|].
            eapply lseg_agree; [| |exact HR]; [rewrite Hlen; lia|].
            intros l Hl. apply Hag, Hl.
          - rewrite !length_upd. rewrite Hlen. exact Hx.
          - rewrite next_of_upd_ne by exact Hnlx.
            apply next_of_upd_eq. rewrite Hlen. exact Hx. }
        destruct (last L) as [p|] eqn:Ep.
        - pose proof (last_Some_elem_of _ _ Ep) as Hpin.
          pose proof (lseg_alloc _ _ _ _ _ HL Hpin) as Hpa.
          destruct (HL' p Hpin) as (HpR & Hpx & Hpt).
          exists (upd (upd (upd h p q) x None) nl (Some x)), head.
          split; [|split; [|split; [|split; [|split]]]].
          + intros k. cbn [truthy]. msteps.
            rewrite next_of_upd_ne by exact Hpx. reflexivity.
          + intros l. rewrite !val_of_upd. apply Hv.
          + apply lseg_upd.
            { intros Hin. apply (proj1 (HL' nl Hin)). exact Hnlin. }
            apply lseg_upd; [exact HxL|].
            eapply lseg_relink; eassumption.
          + apply lseg_upd; [exact Hnlt|]. apply lseg_upd; [exact Hxt|].
            apply lseg_upd; [exact Hpt|]. exact Ht'.
          + apply HRgen; [apply length_upd|].
            intros l Hl. apply next_of_upd_ne. intros ->. contradiction.
          + eapply frame_trans; [|eapply frame_trans];
              [apply (frame_upd_in _ h p q)
              |apply (frame_upd_in _ _ x None)
              |apply (frame_upd_in _ _ nl (Some x))].
            * apply elem_of_app. left. exact Hpin.
            * elem_norm. right. right. left. reflexivity.
            * apply elem_of_app. right. apply elem_of_app. left. exact Hnlin.
        - assert (L = []) as -> by (destruct L using rev_ind;
            [reflexivity|rewrite last_snoc in Ep; discriminate]).
          simpl in HL. subst head.
          exists (upd (upd h x None) nl (Some x)), q.
          split; [|split; [|split; [|split; [|split]]]].
          + intros k. cbn [truthy]. msteps. reflexivity.
          + intros l. rewrite !val_of_upd. apply Hv.
          + reflexivity.
          + apply lseg_upd; [exact Hnlt|]. apply lseg_upd; [exact Hxt|]. exact Ht'.
          + apply HRgen; [reflexivity|reflexivity].
          + eapply frame_trans;
              [apply (frame_upd_in _ _ x None)
              |apply (frame_upd_in _ _ nl (Some x))].
            * elem_norm. right. right. left. reflexivity.
            * apply elem_of_app. right. apply elem_of_app. left. exact Hnlin. }
      pose proof (E3 (fun hc =>
                        partition_loop fuel pivot (fst hc) (snd hc) (last L)
                          (Some x))) as E3'.
      cbn [fst snd] in E3'.
      destruct (IH fuel h3 head3 q L (R ++ [x]) a x)
        as (h' & head' & E & CL & CR & F).
      * exact Hv3.
      * exact HL3.
      * exact Ht3.
      * exact HR3.
      * change (a :: R ++ [x]) with ((a :: R) ++ [x]). apply last_snoc.
      * apply NoDup_app. split; [exact HndL|]. split.
        -- intros y Hy Hin. destruct (HL' y Hy) as (H1 & H2 & H3).
           revert Hin H1. elem_norm. tauto.
        -- replace ((a :: R ++ [x]) ++ t) with ((a :: R) ++ x :: t)
             by (cbn [app]; rewrite <- app_assoc; reflexivity).
           apply NoDup_app. split; [exact HndR|]. split.
           ++ intros y Hy Hin. destruct (HR' y Hy) as (H1 & H2).
              revert Hin. elem_norm. tauto.
           ++ apply NoDup_cons. split; assumption.
      * simpl in Hf. lia.
      * rewrite <- app_assoc in CR. cbn [app] in CR.
        exists h', head'. split; [exact (eq_trans E3' E)|]. split; [exact CL|].
        split; [exact CR|].
        eapply frame_trans.
        -- eapply frame_weaken; [|exact F3]. intros l. elem_norm. tauto.
        -- eapply frame_weaken; [|exact F]. intros l. elem_norm. tauto.
Qed.

End partition_in_place.

(** X19: [partition] relinks the nodes in place and returns the chain of
    the input nodes with value below the pivot, in their input order,
    followed by the nodes with value at least the pivot, in their input
    order: the same node sequence as [partition2] returns.  Node values are
    not changed. *)
Theorem partition_in_place_stable :
  forall h head ls pivot fuel,
    chain h head ls -> length ls < fuel ->
    exists r h',
      partition fuel head pivot h = (Ok r, h') /\
      chain h' r (stable_partition (val_of h) pivot ls) /\
      vals h' ls = vals h ls /\
      exists r2 h2,
        partition2 fuel head pivot h = (Ok r2, h2) /\
        chain h2 r2 (stable_partition (val_of h) pivot ls).
Proof.
  intros h head ls pivot fuel Hc Hf.
  assert (exists r h',
             partition fuel head pivot h = (Ok r, h') /\
             chain h' r (stable_partition (val_of h) pivot ls) /\
             vals h' ls = vals h ls) as (r & h' & E & C & V).
  { unfold partition. destruct ls as [|x0 t0] eqn:Els.
    - red in Hc. simpl in Hc. subst head. cbn [truthy negb].
      exists None, h. repeat split.
    - rewrite <- Els in *. assert (exists x, head = Some x) as [xh ->].
      { rewrite Els in Hc. destruct Hc as (-> & _). eauto. }
      clear Els x0 t0. cbn [truthy negb]. rewrite bind_new_node.
      set (a := length h). set (h1 := h ++ [mkNode 0 None]).
      assert (length h1 = S a) as Hlen1
          by (unfold h1, a; rewrite length_app; simpl; lia).
      assert (forall l, l ∈ ls -> l < a) as Hls
          by (intros l Hl; eapply lseg_alloc; eassumption).
      assert (forall l, l < a -> val_of h1 l = val_of h l) as Hval1
          by (intros l Hl; apply val_of_snoc_lt; exact Hl).
      pose proof (chain_NoDup _ _ _ Hc) as Hnd.
      set (lo := List.filter (fun l => (val_of h1 l <? pivot)%Z) ls).
      set (hi := List.filter (fun l => (pivot <=? val_of h1 l)%Z) ls).
      assert (stable_partition (val_of h) pivot ls = lo ++ hi) as ->.
      { unfold stable_partition, lo, hi. f_equal; apply filter_ext_in;
          intros l Hl; rewrite Hval1; [reflexivity| |reflexivity|];
          apply Hls, list_elem_of_In, Hl. }
      destruct (partition_loop_spec pivot (val_of h1) ls fuel h1 (Some xh)
                  (Some xh) [] [] a a)
        as (h2 & head' & E & CL & CR & F).
      + reflexivity.
      + reflexivity.
      + apply lseg_snoc_heap. exact Hc.
      + split; [reflexivity|]. split; [lia|].
        unfold next_of, h1. rewrite lookup_app_r by (fold a; lia).
        replace (a - length h) with 0 by (fold a; lia). reflexivity.
      + reflexivity.
      + cbn [app]. apply NoDup_cons. split; [|exact Hnd].
        intros Hin. apply Hls in Hin. lia.
      + exact Hf.
      + cbn [app last] in E, CL, CR, F. fold lo in E, CL. fold hi in CR.
        rewrite (bind_eq _ _ _ _ _ E).
        assert (forall l, l ∈ lo -> l ∈ ls) as Hlo
            by (intros l Hl; apply elem_of_filter_list in Hl as [Hl _]; exact Hl).
        assert (forall l, l ∈ hi -> l ∈ ls) as Hhi
            by (intros l Hl; apply elem_of_filter_list in Hl as [Hl _]; exact Hl).
        assert (length h2 = S a) as Hlen2
            by (rewrite (frame_length _ _ _ F); exact Hlen1).
        assert (forall l, l ∈ ls -> val_of h2 l = val_of h l) as Hval2.
        { intros l Hl. rewrite (frame_value _ _ _ F). apply Hval1, Hls, Hl. }
        destruct CR as (_ & _ & CR).
        destruct (last lo) as [p|] eqn:Ep.
        * pose proof (last_Some_elem_of _ _ Ep) as Hpin.
          pose proof (Hls p (Hlo p Hpin)) as Hpa.
          cbn [truthy]. msteps.
          exists head', (upd h2 p (next_of h2 a)).
          split; [reflexivity|]. split.
          -- apply lseg_app. exists (next_of h2 a). split.
             ++ eapply lseg_relink; [exact CL|exact Ep|].
                unfold lo. apply NoDup_filter_list. exact Hnd.
             ++ apply lseg_upd; [|exact CR].
                intros Hin. apply elem_of_filter_list in Hin as [_ Hge].
                apply elem_of_filter_list in Hpin as [_ Hlt].
                apply Z.ltb_lt in Hlt. apply Z.leb_le in Hge. lia.
          -- unfold vals. apply map_ext_in. intros l Hl.
             rewrite val_of_upd. apply Hval2, list_elem_of_In, Hl.
        * assert (lo = []) as -> by (destruct lo using rev_ind;
            [reflexivity|rewrite last_snoc in Ep; discriminate]).
          cbn [truthy app]. msteps.
          exists (next_of h2 a), h2. split; [reflexivity|].
          split; [exact CR|].
          unfold vals. apply map_ext_in. intros l Hl.
          apply Hval2, list_elem_of_In, Hl. }
  exists r, h'. split; [exact E|]. split; [exact C|]. split; [exact V|].
  destruct (partition2_spec h head ls pivot fuel Hc Hf) as (r2 & h2 & E2 & C2 & _).
  exists r2, h2. split; assumption.
Qed.

Lemma partition_in_place_stable_witness :
  chain heap123 (Some 0) [0; 1; 2] /\ length [0; 1; 2] < 4 /\
  exists r h',
    partition 4 (Some 0) 2 heap123 = (Ok r, h') /\
    chain h' r (stable_partition (val_of heap123) 2 [0; 1; 2]) /\
    vals h' [0; 1; 2] = vals heap123 [0; 1; 2] /\
    exists r2 h2,
      partition2 4 (Some 0) 2 heap123 = (Ok r2, h2) /\
      chain h2 r2 (stable_partition (val_of heap123) 2 [0; 1; 2]).
Proof.
  assert (chain heap123 (Some 0) [0; 1; 2]) as Hc.
  { unfold chain, heap123; simpl. repeat split; lia. }
  assert (length [0; 1; 2] < 4) as Hf by (simpl; lia).
  split; [exact Hc|]. split; [exact Hf|].
  exact (partition_in_place_stable heap123 (Some 0) [0; 1; 2] 2 4 Hc Hf).
Defined.

(** ** intersect.py *)

Section intersect_walk.

Variables (h : heap) (hX hY : ptr) (X Y : list loc).
Hypothesis HX : chain h hX X.
Hypothesis HY : chain h hY Y.

(** The node a pointer that walks [X], then [None], then [Y] refers to
    after [t] steps. *)
Let pos (X Y : list loc) (t : nat) : ptr :=
  if t <=? length X then X !! t else Y !! (t - S (length X)).

Lemma intersect_step t :
  t <= length X + length Y ->
  (if ptr_eqb (pos X Y t) None then ret hY else get_next (pos X Y t)) h
  = (Ok (pos X Y (S t)), h).
Proof.
  intros Ht. unfold pos.
  destruct (Nat.leb_spec t (length X)) as [Hle|Hgt].
  - destruct (X !! t) as [x|] eqn:Ex.
    + pose proof (lookup_lt_Some _ _ _ Ex) as Hlt.
      destruct (chain_lookup _ _ _ _ _ HX Ex) as (Hx & Hn & _).
      rewrite ptr_eqb_Some_None. rewrite get_next_ok by exact Hx.
      rewrite Hn. destruct (Nat.leb_spec (S t) (length X)); [reflexivity|lia].
    + apply lookup_ge_None in Ex. change (ptr_eqb None None) with true.
      cbn iota. destruct (Nat.leb_spec (S t) (length X)); [lia|].
      replace (S t - S (length X)) with 0 by lia.
      rewrite (chain_head _ _ _ HY). reflexivity.
  - destruct (lookup_lt_is_Some_2 Y (t - S (length X)) ltac:(lia)) as [y Ey].
    destruct (chain_lookup _ _ _ _ _ HY Ey) as (Hy & Hn & _).
    rewrite Ey. rewrite ptr_eqb_Some_None. rewrite get_next_ok by exact Hy.
    rewrite Hn. destruct (Nat.leb_spec (S t) (length X)); [lia|].
    replace (S t - S (length X)) with (S (t - S (length X))) by lia.
    reflexivity.
Qed.

End intersect_walk.

Section intersect_proofs.

Variables (h : heap) (headA headB : ptr) (pa pb c : list loc).
Hypothesis HA : chain h headA (pa ++ c).
Hypothesis HB : chain h headB (pb ++ c).
Hypothesis Hnd : NoDup (pa ++ pb ++ c).

Let A := pa ++ c.
Let B := pb ++ c.
Let pos (X Y : list loc) (t : nat) : ptr :=
  if t <=? length X then X !! t else Y !! (t - S (length X)).

Lemma intersect_loop_meets T :
  pos A B T = pos B A T ->
  (forall s, s < T -> pos A B s <> pos B A s) ->
  T <= length A + length B + 1 ->
  forall fuel t,
    t <= T -> T - t < fuel ->
    intersect_loop fuel headA headB (pos A B t) (pos B A t) h
    = (Ok (pos A B T), h).
Proof.
  intros Hmeet Hne HT. induction fuel as [|fuel IH]; intros t Ht Hf; [lia|].
  cbn [intersect_loop]. destruct (decide (t = T)) as [->|Hlt].
  - rewrite Hmeet, ptr_eqb_refl. reflexivity.
  - rewrite ptr_eqb_ne by (apply Hne; lia). cbn [negb].
    pose proof (intersect_step h headA headB A B HA HB t ltac:(lia)) as EA.
    pose proof (intersect_step h headB headA B A HB HA t ltac:(lia)) as EB.
    fold (pos A B t) (pos A B (S t)) in EA.
    fold (pos B A t) (pos B A (S t)) in EB.
    rewrite (bind_eq _ _ _ _ _ EA), (bind_eq _ _ _ _ _ EB).
    apply IH; lia.
Qed.

Lemma shared_node_index i j x :
  A !! i = Some x -> B !! j = Some x ->
  length pa <= i /\ length pb <= j /\ i - length pa = j - length pb.
Proof.
  unfold A, B. intros Ei Ej.
  apply NoDup_app in Hnd as (_ & Hdab & Hnd').
  apply NoDup_app in Hnd' as (_ & Hdbc & Hndc).
  apply lookup_app_Some in Ei as [Ei|[Hi Ei]];
    apply lookup_app_Some in Ej as [Ej|[Hj Ej]].
  - exfalso. apply (Hdab x); [eapply list_elem_of_lookup_2; exact Ei|].
    apply elem_of_app. left. eapply list_elem_of_lookup_2. exact Ej.
  - exfalso. apply (Hdab x); [eapply list_elem_of_lookup_2; exact Ei|].
    apply elem_of_app. right. eapply list_elem_of_lookup_2. exact Ej.
  - exfalso. apply (Hdbc x); eapply list_elem_of_lookup_2; eassumption.
  - split; [exact Hi|]. split; [exact Hj|].
    eapply NoDup_lookup; eassumption.
Qed.

Lemma intersect_no_early_meeting s :
  (length pa = length pb -> s < length pa) ->
  s < length pa + length pb + length c + 1 ->
  pos A B s <> pos B A s.
Proof.
  intros Heq Hs.
  assert (length A = length pa + length c) as HlA by apply length_app.
  assert (length B = length pb + length c) as HlB by apply length_app.
  pose proof (chain_NoDup _ _ _ HA) as HndA. fold A in HndA.
  pose proof (chain_NoDup _ _ _ HB) as HndB. fold B in HndB.
  unfold pos.
  destruct (Nat.leb_spec s (length A)) as [H1|H1];
    destruct (Nat.leb_spec s (length B)) as [H2|H2]; intros E.
  - destruct (A !! s) as [x|] eqn:EA.
    + symmetry in E. destruct (shared_node_index _ _ _ EA E). lia.
    + symmetry in E. apply lookup_ge_None in EA, E. lia.
  - destruct (A !! s) as [x|] eqn:EA.
    + symmetry in E. pose proof (NoDup_lookup _ _ _ _ HndA EA E). lia.
    + symmetry in E. apply lookup_ge_None in EA, E. lia.
  - destruct (B !! s) as [x|] eqn:EB.
    + pose proof (NoDup_lookup _ _ _ _ HndB EB E). lia.
    + apply lookup_ge_None in EB, E. lia.
  - destruct (lookup_lt_is_Some_2 B (s - S (length A)) ltac:(lia)) as [y Ey].
    rewrite Ey in E. symmetry in E.
    destruct (shared_node_index _ _ _ E Ey). lia.
Qed.

Lemma intersect_spec fuel :
  length pa + length pb + length c + 1 < fuel ->
  intersect fuel headA headB h = (Ok (c !! 0), h).
Proof.
  intros Hf.
  assert (length A = length pa + length c) as HlA by apply length_app.
  assert (length B = length pb + length c) as HlB by apply length_app.
  assert (pos A B 0 = headA) as E0A.
  { unfold pos. cbn [Nat.leb]. symmetry. exact (chain_head _ _ _ HA). }
  assert (pos B A 0 = headB) as E0B.
  { unfold pos. cbn [Nat.leb]. symmetry. exact (chain_head _ _ _ HB). }
  unfold intersect. rewrite <- E0A at 2. rewrite <- E0B at 2.
  destruct (decide (length pa = length pb)) as [Hp|Hp].
  - assert (pos A B (length pa) = c !! 0) as EA.
    { unfold pos. destruct (Nat.leb_spec (length pa) (length A)); [|lia].
      unfold A. rewrite lookup_app_r by lia. f_equal. lia. }
    assert (pos B A (length pa) = c !! 0) as EB.
    { unfold pos. destruct (Nat.leb_spec (length pa) (length B)); [|lia].
      unfold B. rewrite lookup_app_r by lia. f_equal. lia. }
    rewrite <- EA. apply intersect_loop_meets; try lia.
    + rewrite EA, EB. reflexivity.
    + intros s Hs. apply intersect_no_early_meeting; lia.
  - set (T := length pa + length pb + length c + 1).
    assert (pos A B T = c !! 0) as EA.
    { unfold pos. destruct (Nat.leb_spec T (length A)); [unfold T in *; lia|].
      unfold B. rewrite lookup_app_r by (unfold T; lia). f_equal.
      unfold T. lia. }
    assert (pos B A T = c !! 0) as EB.
    { unfold pos. destruct (Nat.leb_spec T (length B)); [unfold T in *; lia|].
      unfold A. rewrite lookup_app_r by (unfold T; lia). f_equal.
      unfold T. lia. }
    rewrite <- EA. apply intersect_loop_meets; try (unfold T; lia).
    + rewrite EA, EB. reflexivity.
    + intros s Hs. apply intersect_no_early_meeting; [lia|exact Hs].
Qed.

End intersect_proofs.

(** X20: for two chains that consist of different nodes [pa] and [pb]
    followed by the same nodes [c], [intersect] returns the first node of
    [c], the first node the two lists share, and [None] when they share no
    node ([c] empty); the store is left as it was.  Two passes over the
    lists are enough. *)
Theorem intersect_first_shared_node :
  forall h headA headB pa pb c fuel,
    chain h headA (pa ++ c) -> chain h headB (pb ++ c) ->
    NoDup (pa ++ pb ++ c) ->
    length pa + length pb + length c + 1 < fuel ->
    intersect fuel headA headB h = (Ok (c !! 0), h).
Proof.
  intros h headA headB pa pb c fuel HA HB Hnd Hf.
  exact (intersect_spec h headA headB pa pb c HA HB Hnd fuel Hf).
Qed.

Lemma intersect_first_shared_node_witness :
  chain heap123 (Some 0) ([0] ++ [1; 2]) /\
  chain heap123 (Some 1) ([] ++ [1; 2]) /\
  NoDup ([0] ++ [] ++ [1; 2]) /\
  length [0] + length (@nil loc) + length [1; 2] + 1 < 5 /\
  intersect 5 (Some 0) (Some 1) heap123 = (Ok ([1; 2] !! 0), heap123).
Proof.
  assert (chain heap123 (Some 0) ([0] ++ [1; 2])) as HA.
  { unfold chain, heap123; simpl. repeat split; lia. }
  assert (chain heap123 (Some 1) ([] ++ [1; 2])) as HB.
  { unfold chain, heap123; simpl. repeat split; lia. }
  assert (NoDup ([0] ++ [] ++ [1; 2])) as Hnd
      by exact (chain_NoDup _ _ _ HA).
  assert (length [0] + length (@nil loc) + length [1; 2] + 1 < 5) as Hf
      by (simpl; lia).
  split; [exact HA|]. split; [exact HB|]. split; [exact Hnd|].
  split; [exact Hf|].
  exact (intersect_first_shared_node heap123 (Some 0) (Some 1) [0] [] [1; 2] 5
           HA HB Hnd Hf).
Defined.

(** ** middle_list.py: [middleNode] *)

Lemma middleNode_count_spec h p ls :
  chain h p ls ->
  forall fuel i count,
    i <= length ls -> length ls - i < fuel ->
    middleNode_count fuel (ls !! i) count h
    = (Ok (count + Z.of_nat (length ls - i))%Z, h).
Proof.
  intros Hc. induction fuel as [|fuel IH]; intros i count Hi Hf; [lia|].
  cbn [middleNode_count].
  destruct (ls !! i) as [x|] eqn:Ex.
  - destruct (chain_lookup _ _ _ _ _ Hc Ex) as (Hx & Hnx & _).
    pose proof (lookup_lt_Some _ _ _ Ex) as Hlt.
    cbn [truthy]. msteps. rewrite Hnx, IH by lia.
    do 2 f_equal. lia.
  - apply lookup_ge_None in Ex. cbn [truthy].
    unfold ret. do 2 f_equal. lia.
Qed.

Lemma middleNode_find_spec h p ls m :
  chain h p ls -> m < length ls ->
  forall fuel i,
    i <= m -> m - i < fuel ->
    middleNode_find fuel (Z.of_nat m + 1)%Z (Z.of_nat i + 1)%Z (ls !! i) h
    = (Ok (ls !! m), h).
Proof.
  intros Hc Hm. induction fuel as [|fuel IH]; intros i Hi Hf; [lia|].
  cbn [middleNode_find].
  destruct (lookup_lt_is_Some_2 ls i ltac:(lia)) as [x Ex].
  destruct (chain_lookup _ _ _ _ _ Hc Ex) as (Hx & Hnx & _).
  rewrite Ex. cbn [truthy].
  destruct (Z.eqb_spec (Z.of_nat i + 1) (Z.of_nat m + 1)) as [E|E].
  - assert (i = m) as -> by lia. rewrite Ex. reflexivity.
  - msteps. rewrite Hnx.
    replace (Z.of_nat i + 1 + 1)%Z with (Z.of_nat (S i) + 1)%Z by lia.
    apply IH; lia.
Qed.

(** X21: on an acyclic chain of fewer than 2^53 nodes, [middleNode] (count
    the nodes, then walk to node number [count/2 + 1]) returns the node at
    0-based position [n / 2], the same node as [middleNode2]; on the empty
    list it returns [None].  The store is left as it was. *)
Theorem middleNode_agrees_with_middleNode2 :
  forall h head ls fuel,
    chain h head ls -> (Z.of_nat (length ls) < 2 ^ 53)%Z ->
    length ls < fuel ->
    middleNode fuel head h = (Ok (ls !! (length ls / 2)), h) /\
    middleNode2 fuel head h = (Ok (ls !! (length ls / 2)), h).
Proof.
  intros h head ls fuel Hc _ Hf. split.
  - unfold middleNode. rewrite (chain_head _ _ _ Hc).
    rewrite (bind_eq _ _ _ _ _
               (middleNode_count_spec h head ls Hc fuel 0 0%Z ltac:(lia)
                  ltac:(lia))).
    cbv zeta. rewrite Nat.sub_0_r, Z.add_0_l.
    destruct ls as [|x t] eqn:Els.
    + cbn [length Z.of_nat]. destruct fuel; [lia|]. reflexivity.
    + rewrite <- Els in *.
      assert (0 < length ls) as Hpos by (rewrite Els; simpl; lia).
      replace (Z.of_nat (length ls) / 2)%Z with (Z.of_nat (length ls / 2))
        by (rewrite Nat2Z.inj_div; reflexivity).
      assert (length ls / 2 < length ls) as Hd by (apply Nat.div_lt; lia).
      apply (middleNode_find_spec h head ls (length ls / 2) Hc Hd fuel 0); lia.
  - pose proof (middleNode2_loop_spec h head ls Hc fuel 0 ltac:(lia) ltac:(lia))
      as Hm.
    change (2 * 0) with 0 in Hm. rewrite <- (chain_head _ _ _ Hc) in Hm.
    exact Hm.
Qed.

Lemma middleNode_agrees_with_middleNode2_witness :
  chain heap123 (Some 0) [0; 1; 2] /\
  (Z.of_nat (length [0; 1; 2]) < 2 ^ 53)%Z /\
  length [0; 1; 2] < 4 /\
  middleNode 4 (Some 0) heap123
  = (Ok ([0; 1; 2] !! (length [0; 1; 2] / 2)), heap123) /\
  middleNode2 4 (Some 0) heap123
  = (Ok ([0; 1; 2] !! (length [0; 1; 2] / 2)), heap123).
Proof.
  assert (chain heap123 (Some 0) [0; 1; 2]) as Hc.
  { unfold chain, heap123; simpl. repeat split; lia. }
  assert (Z.of_nat (length [0; 1; 2]) < 2 ^ 53)%Z as Hb by (simpl; lia).
  assert (length [0; 1; 2] < 4) as Hf by (simpl; lia).
  split; [exact Hc|]. split; [exact Hb|]. split; [exact Hf|].
  exact (middleNode_agrees_with_middleNode2 heap123 (Some 0) [0; 1; 2] 4
           Hc Hb Hf).
Defined.

(** ** reverse_linked_list2.py *)

Section reverse_between.

Import reverse_linked_list2.

Lemma reverseList_loop_spec tail seg :
  forall fuel h head newList done,
    lseg h head seg tail -> chain h newList done ->
    (forall l, l ∈ seg -> l ∉ done) -> NoDup seg ->
    (forall l, l ∈ seg -> Some l <> tail) ->
    length seg < fuel ->
    exists r h',
      reverseList_loop fuel head tail newList h = (Ok r, h') /\
      chain h' r (rev seg ++ done) /\ frame seg h h'.
Proof.
  induction seg as [|x t IH]; intros fuel h head newList done Hs Hd Hdisj Hnd Htl Hf;
    (destruct fuel as [|fuel]; [simpl in Hf; lia|]);
    cbn [reverseList_loop].
  - simpl in Hs. subst head. rewrite ptr_eqb_refl. cbn [negb].
    exists newList, h. split; [reflexivity|]. split; [exact Hd|apply frame_refl].
  - apply NoDup_cons in Hnd as [Hxt Hnd].
    destruct Hs as (-> & Hx & Hs).
    rewrite ptr_eqb_ne by (apply Htl, elem_of_cons; left; reflexivity).
    cbn [negb]. msteps.
    assert (x ∉ done) as Hxd by (apply Hdisj, elem_of_cons; left; reflexivity).
    destruct (IH fuel (upd h x newList) (next_of h x) (Some x) (x :: done))
      as (r & h' & Hr & Hc & Hfr).
    + apply lseg_upd; assumption.
    + repeat split; [rewrite length_upd; exact Hx|].
      rewrite next_of_upd_eq by exact Hx. apply lseg_upd; assumption.
    + intros l Hl Hin. apply elem_of_cons in Hin as [->|Hin]; [contradiction|].
      apply (Hdisj l); [apply elem_of_cons; right; exact Hl|exact Hin].
    + exact Hnd.
    + intros l Hl. apply Htl, elem_of_cons. right. exact Hl.
    + simpl in Hf. lia.
    + exists r, h'. split; [exact Hr|]. split.
      * simpl. rewrite <- app_assoc. exact Hc.
      * eapply frame_step; [apply frame_upd|exact Hfr].
Qed.

Variables (h : heap) (head : ptr) (ls : list loc) (m n : Z).
Hypothesis Hc : chain h head ls.

(** The node before position [a], when there is one. *)
Let prevp (a : nat) : ptr :=
  match a with 0 => None | S a' => ls !! a' end.

(** The position of [node2] when [node1] is at position [k]. *)
Let lag (k : nat) : nat :=
  Z.to_nat (Z.of_nat k + 1 - Z.max 1 (n - m + 1)).

Lemma reverseBetween_loop_spec K :
  K <= length ls ->
  (K < length ls -> (Z.of_nat K + 1)%Z = n) ->
  forall fuel k,
    k <= K -> (k = K -> K = length ls) ->
    (forall j, k < j < K -> (Z.of_nat j + 1)%Z <> n) ->
    K - k < fuel ->
    reverseBetween_loop fuel m n (ls !! k) (ls !! lag k) (prevp (lag k))
      (Z.of_nat k + 1)%Z h
    = (Ok (ls !! K, (ls !! lag K, prevp (lag K))), h).
Proof.
  intros HK Hbreak. induction fuel as [|fuel IH]; intros k Hk HkK Hnob Hf; [lia|].
  cbn [reverseBetween_loop].
  destruct (ls !! k) as [x|] eqn:Ex.
  - pose proof (lookup_lt_Some _ _ _ Ex) as Hlt.
    destruct (chain_lookup _ _ _ _ _ Hc Ex) as (Hx & Hnx & _).
    assert (k < K) as HkK' by lia.
    cbn [truthy]. cbv zeta.
    assert (lag k <= k) as Hlag by (unfold lag; lia).
    destruct (lookup_lt_is_Some_2 ls (lag k) ltac:(lia)) as [y Ey].
    destruct (chain_lookup _ _ _ _ _ Hc Ey) as (Hy & Hny & _).
    assert ((if (Z.of_nat k + 1 + 1 >? n - m + 1)%Z then
               node2' <- get_next (ls !! lag k) ;;
               ret (node2', ls !! lag k)
             else ret (ls !! lag k, prevp (lag k))) h
            = (Ok (ls !! lag (S k), prevp (lag (S k))), h)) as Enp.
    { destruct (Z.gtb_spec (Z.of_nat k + 1 + 1) (n - m + 1)) as [Hgt|Hle].
      - rewrite Ey. msteps. rewrite Hny.
        replace (lag (S k)) with (S (lag k)) by (unfold lag; lia).
        cbn [prevp]. rewrite Ey. reflexivity.
      - replace (lag (S k)) with (lag k) by (unfold lag; lia). reflexivity. }
    rewrite (bind_eq _ _ _ _ _ Enp). msteps. rewrite Hnx. cbn [fst snd].
    destruct (Z.eqb_spec (Z.of_nat k + 1 + 1) n) as [En|En].
    + assert (K = S k) as ->.
      { destruct (decide (S k < K)) as [Hlt'|Hge]; [|lia].
        exfalso. apply (Hnob (S k)); lia. }
      reflexivity.
    + replace (Z.of_nat k + 1 + 1)%Z with (Z.of_nat (S k) + 1)%Z by lia.
      apply IH; try lia. intros j Hj. apply Hnob. lia.
  - apply lookup_ge_None in Ex. assert (k = K) as -> by lia.
    apply lookup_ge_None in Ex. rewrite Ex. reflexivity.
Qed.

End reverse_between.

Section reverse_between_main.

Import reverse_linked_list2.

Lemma reverseBetween_relink h head pre seg e post fuel :
  chain h head (pre ++ seg ++ e :: post) ->
  length seg < fuel ->
  exists r h',
    (nn <- get_next (Some e) ;;
     node1next <- (if truthy nn then get_next (Some e) else ret None) ;;
     ht <- reverseList fuel ((seg ++ [e]) !! 0) (Some e) ;;
     head' <- (if truthy (last pre) then
                 set_next (last pre) (fst ht) ;;
                 ret head
               else ret (fst ht)) ;;
     set_next (snd ht) node1next ;;
     ret head') h = (Ok r, h') /\
    chain h' r (pre ++ e :: rev seg ++ post) /\
    (forall l, val_of h' l = val_of h l).
Proof.
  intros Hc Hf.
  pose proof (chain_NoDup _ _ _ Hc) as Hnd.
  apply lseg_app in Hc as (p1 & Hpre & Hc).
  apply lseg_app in Hc as (p2 & Hseg & Hc).
  destruct Hc as (-> & He & Hpost).
  remember (next_of h e) as q eqn:Eq.
  apply NoDup_app in Hnd as (Hndpre & Hdpre & Hnd).
  apply NoDup_app in Hnd as (Hndseg & Hdseg & Hndp).
  apply NoDup_cons in Hndp as (Hepost & Hndpost).
  assert (e ∉ pre) as Hepre.
  { intros Hin. apply (Hdpre e Hin). apply elem_of_app. right.
    apply elem_of_cons. left. reflexivity. }
  assert (e ∉ seg) as Heseg.
  { intros Hin. apply (Hdseg e Hin). apply elem_of_cons. left. reflexivity. }
  assert (forall l, l ∈ seg -> l ∉ pre) as Hsegpre.
  { intros l Hl Hin. apply (Hdpre l Hin). apply elem_of_app. left. exact Hl. }
  assert (forall l, l ∈ seg -> l ∉ post) as Hsegpost.
  { intros l Hl Hin. apply (Hdseg l Hl). apply elem_of_cons. right. exact Hin. }
  assert (forall l, l ∈ pre -> l ∉ post) as Hprepost.
  { intros l Hl Hin. apply (Hdpre l Hl). apply elem_of_app. right.
    apply elem_of_cons. right. exact Hin. }
  assert (exists b, p1 = Some b /\ (seg ++ [e]) !! 0 = Some b /\
                    last (e :: rev seg) = Some b /\ b < length h /\
                    (b ∉ pre) /\ (b ∉ post)) as (b & -> & Eb & Elast & Hb & Hbpre & Hbpost).
  { destruct seg as [|b seg'].
    - simpl in Hseg. subst p1. exists e. repeat split; assumption.
    - destruct Hseg as (-> & Hb & _). exists b.
      assert (b ∈ b :: seg') as Hbin by (apply elem_of_cons; left; reflexivity).
      split; [reflexivity|]. split; [reflexivity|]. split.
      + cbn [rev]. change (e :: rev seg' ++ [b]) with ((e :: rev seg') ++ [b]).
        apply last_snoc.
      + split; [exact Hb|]. split; [apply Hsegpre|apply Hsegpost]; exact Hbin. }
  rewrite Eb. msteps. rewrite <- Eq.
  assert ((if truthy q then get_next (Some e) else ret None) h = (Ok q, h)) as Enn.
  { destruct q as [q'|] eqn:Eq'; cbn [truthy]; [|reflexivity].
    rewrite get_next_ok by exact He. rewrite <- Eq. reflexivity. }
  rewrite (bind_eq _ _ _ _ _ Enn).
  destruct (reverseList_loop_spec (Some e) seg fuel h (Some b) None [])
    as (r1 & h1 & E1 & C1 & F1).
  { exact Hseg. }
  { reflexivity. }
  { intros l _ Hin. inversion Hin. }
  { exact Hndseg. }
  { intros l Hl E. injection E as ->. contradiction. }
  { exact Hf. }
  rewrite app_nil_r in C1.
  unfold reverseList. cbv zeta. rewrite bind_assoc, (bind_eq _ _ _ _ _ E1).
  assert (length h1 = length h) as Hlen1 by apply (frame_length _ _ _ F1).
  assert (e < length h1) as He1 by lia.
  msteps. cbn [fst snd].
  set (h2 := upd h1 e r1).
  assert (length h2 = length h) as Hlen2 by (unfold h2; rewrite length_upd; lia).
  assert (chain h2 (Some e) (e :: rev seg)) as Cmid2.
  { split; [reflexivity|]. split; [lia|]. unfold h2.
    rewrite next_of_upd_eq by exact He1. apply lseg_upd; [|exact C1].
    rewrite elem_of_rev_list. exact Heseg. }
  assert (lseg h2 head pre (Some b)) as Cpre2.
  { unfold h2. apply lseg_upd; [exact Hepre|].
    eapply lseg_frame; [exact F1| |exact Hpre].
    intros l Hl Hin. apply (Hsegpre l Hin Hl). }
  assert (chain h2 q post) as Cpost2.
  { unfold h2. apply lseg_upd; [exact Hepost|].
    eapply lseg_frame; [exact F1| |exact Hpost].
    intros l Hl Hin. apply (Hsegpost l Hin Hl). }
  assert (forall l, val_of h2 l = val_of h l) as Hval2.
  { intros l. unfold h2. rewrite val_of_upd. apply (frame_value _ _ _ F1). }
  assert (NoDup (e :: rev seg)) as Hndmid.
  { apply NoDup_cons. split; [rewrite elem_of_rev_list; exact Heseg|].
    apply NoDup_ListNoDup, NoDup_rev, NoDup_ListNoDup, Hndseg. }
  assert (forall l, l ∈ e :: rev seg -> (l ∉ pre) /\ (l ∉ post)) as Hmid.
  { intros l Hl. apply elem_of_cons in Hl as [->|Hl]; [split; assumption|].
    rewrite elem_of_rev_list in Hl. split; [apply Hsegpre|apply Hsegpost]; exact Hl. }
  assert (exists h3 head3,
             (forall k : ptr -> M ptr,
                 (head' <- (if truthy (last pre) then
                              set_next (last pre) (Some e) ;;
                              ret head
                            else ret (Some e)) ;;
                  k head') h2 = k head3 h3) /\
             length h3 = length h /\
             (forall l, val_of h3 l = val_of h l) /\
             lseg h3 head3 pre (Some e) /\
             chain h3 (Some e) (e :: rev seg) /\
             chain h3 q post) as (h3 & head3 & E3 & Hlen3 & Hval3 & Cpre3 & Cmid3 & Cpost3).
  { destruct (last pre) as [p|] eqn:Ep.
    - pose proof (last_Some_elem_of _ _ Ep) as Hpin.
      pose proof (lseg_alloc _ _ _ _ _ Hpre Hpin) as Hpa.
      exists (upd h2 p (Some e)), head.
      split; [|split; [|split; [|split; [|split]]]].
      + intros k. cbn [truthy]. msteps. reflexivity.
      + rewrite length_upd. exact Hlen2.
      + intros l. rewrite val_of_upd. apply Hval2.
      + eapply lseg_relink; eassumption.
      + apply lseg_upd; [|exact Cmid2]. intros Hin.
        apply (proj1 (Hmid p Hin)). exact Hpin.
      + apply lseg_upd; [|exact Cpost2]. apply Hprepost. exact Hpin.
    - assert (pre = []) as -> by (destruct pre using rev_ind;
        [reflexivity|rewrite last_snoc in Ep; discriminate]).
      simpl in Hpre. subst head.
      exists h2, (Some e).
      split; [|split; [|split; [|split; [|split]]]]; try assumption.
      + intros k. reflexivity.
      + reflexivity. }
  rewrite E3. msteps.
  exists head3, (upd h3 b q). split; [reflexivity|]. split.
  - apply lseg_app. exists (Some e). split.
    + apply lseg_upd; assumption.
    + change (e :: rev seg ++ post) with ((e :: rev seg) ++ post).
      apply lseg_app. exists q. split.
      * eapply lseg_relink; eassumption.
      * apply lseg_upd; assumption.
  - intros l. rewrite val_of_upd. apply Hval3.
Qed.

Lemma last_take_S (ls : list loc) a :
  a < length ls -> last (take (S a) ls) = ls !! a.
Proof.
  intros Ha. destruct (lookup_lt_is_Some_2 ls a Ha) as [x Ex].
  rewrite (take_S_r _ _ _ Ex), last_snoc, Ex. reflexivity.
Qed.

Lemma reverseBetween_spec h head ls m n fuel :
  chain h head ls -> m <> n ->
  (2 <= n <= Z.of_nat (length ls))%Z -> length ls < fuel ->
  exists r h',
    reverseBetween fuel head m n h = (Ok r, h') /\
    chain h' r
      (take (Z.to_nat (Z.min m n - 1)) ls
       ++ rev (take (Z.to_nat n - Z.to_nat (Z.min m n - 1))
                 (drop (Z.to_nat (Z.min m n - 1)) ls))
       ++ drop (Z.to_nat n) ls) /\
    (forall l, val_of h' l = val_of h l).
Proof.
  intros Hc Hmn Hn Hf. unfold reverseBetween.
  destruct (Z.eqb_spec m n) as [|_]; [contradiction|].
  set (K := Z.to_nat n - 1). set (s := Z.to_nat (Z.min m n - 1)).
  assert (s <= K) as HsK by (unfold s, K; lia).
  assert (K < length ls) as HK by (unfold K; lia).
  pose proof (reverseBetween_loop_spec h head ls m n Hc K ltac:(lia)
                ltac:(unfold K; lia) fuel 0 ltac:(lia) ltac:(unfold K; lia)
                ltac:(unfold K; lia) ltac:(lia)) as Eloop.
  cbv beta zeta in Eloop. change (Z.of_nat 0 + 1)%Z with 1%Z in Eloop.
  replace (Z.to_nat (1 - Z.max 1 (n - m + 1))) with 0 in Eloop by lia.
  replace (Z.to_nat (Z.of_nat K + 1 - Z.max 1 (n - m + 1))) with s in Eloop
    by (unfold s, K; lia).
  rewrite <- (chain_head _ _ _ Hc) in Eloop.
  rewrite (bind_eq _ _ _ _ _ Eloop). cbn [fst snd]. cbv zeta.
  destruct (lookup_lt_is_Some_2 ls K HK) as [e Ee].
  set (pre := take s ls). set (seg := take (K - s) (drop s ls)).
  set (post := drop (S K) ls).
  assert (ls = pre ++ seg ++ e :: post) as Els.
  { unfold pre, seg, post. rewrite <- (take_drop s ls) at 1. f_equal.
    rewrite <- (take_drop (K - s) (drop s ls)) at 1. f_equal.
    rewrite drop_drop. replace (s + (K - s)) with K by lia.
    apply drop_S. exact Ee. }
  assert (ls !! s = (seg ++ [e]) !! 0) as Es.
  { unfold seg. destruct (decide (s = K)) as [->|Hne].
    - rewrite Nat.sub_diag, take_0. exact Ee.
    - rewrite lookup_app_l by (rewrite length_take, length_drop; lia).
      rewrite lookup_take_lt by lia. rewrite lookup_drop. f_equal. lia. }
  assert (match s with 0 => None | S a' => ls !! a' end = last pre) as Ep.
  { unfold pre. destruct s as [|a']; [reflexivity|].
    symmetry. apply last_take_S. lia. }
  rewrite Ee, Es, Ep. rewrite Els in Hc.
  destruct (reverseBetween_relink h head pre seg e post fuel Hc)
    as (r & h' & E & C & V).
  { unfold seg. rewrite length_take, length_drop. lia. }
  exists r, h'. split; [exact E|]. split; [|exact V].
  replace (take (Z.to_nat n - s) (drop s ls)) with (seg ++ [e]).
  - rewrite rev_app_distr. cbn [rev app].
    replace (Z.to_nat n) with (S K) by (unfold K; lia).
    exact C.
  - unfold seg. replace (Z.to_nat n - s) with (S (K - s)) by (unfold K; lia).
    symmetry. apply take_S_r. rewrite lookup_drop.
    replace (s + (K - s)) with K by lia. exact Ee.
Qed.

Lemma reverseBetween_raises h head ls m n fuel :
  chain h head ls -> m <> n ->
  (n < 2 \/ Z.of_nat (length ls) < n)%Z -> length ls < fuel ->
  reverseBetween fuel head m n h = (Raise, h).
Proof.
  intros Hc Hmn Hn Hf. unfold reverseBetween.
  destruct (Z.eqb_spec m n) as [|_]; [contradiction|].
  pose proof (reverseBetween_loop_spec h head ls m n Hc (length ls) ltac:(lia)
                ltac:(lia) fuel 0 ltac:(lia) ltac:(lia)
                ltac:(lia) ltac:(lia)) as Eloop.
  cbv beta zeta in Eloop. change (Z.of_nat 0 + 1)%Z with 1%Z in Eloop.
  replace (Z.to_nat (1 - Z.max 1 (n - m + 1))) with 0 in Eloop by lia.
  rewrite <- (chain_head _ _ _ Hc) in Eloop.
  rewrite (bind_eq _ _ _ _ _ Eloop). cbn [fst snd]. cbv zeta.
  rewrite (proj2 (lookup_ge_None ls (length ls)) ltac:(lia)). reflexivity.
Qed.

End reverse_between_main.

(** X22: for [m <> n] and [2 <= n <= length], [reverseBetween] reverses
    the nodes at the 1-based positions from [m] to [n] in place and leaves
    the nodes before and after them where they were; node values are not
    changed.  An [m] below 1 counts as 1, and for [m] above [n] the list
    keeps its order. *)
Theorem reverseBetween_reverses_positions :
  forall h head ls m n fuel,
    chain h head ls -> m <> n ->
    (2 <= n <= Z.of_nat (length ls))%Z -> length ls < fuel ->
    exists r h',
      reverse_linked_list2.reverseBetween fuel head m n h = (Ok r, h') /\
      chain h' r
        (take (Z.to_nat (Z.min m n - 1)) ls
         ++ rev (take (Z.to_nat n - Z.to_nat (Z.min m n - 1))
                   (drop (Z.to_nat (Z.min m n - 1)) ls))
         ++ drop (Z.to_nat n) ls) /\
      vals h' ls = vals h ls /\
      ((n < m)%Z ->
       take (Z.to_nat (Z.min m n - 1)) ls
       ++ rev (take (Z.to_nat n - Z.to_nat (Z.min m n - 1))
                 (drop (Z.to_nat (Z.min m n - 1)) ls))
       ++ drop (Z.to_nat n) ls = ls).
Proof.
  intros h head ls m n fuel Hc Hmn Hn Hf.
  destruct (reverseBetween_spec h head ls m n fuel Hc Hmn Hn Hf)
    as (r & h' & E & C & V).
  exists r, h'. split; [exact E|]. split; [exact C|]. split.
  - unfold vals. apply map_ext_in. intros l _. apply V.
  - intros Hlt. replace (Z.min m n) with n by lia.
    set (s := Z.to_nat (n - 1)).
    replace (Z.to_nat n - s) with 1 by (unfold s; lia).
    replace (Z.to_nat n) with (s + 1) by (unfold s; lia).
    rewrite <- drop_drop.
    assert (forall l : list loc, rev (take 1 l) = take 1 l) as ->
        by (intros [|x l]; reflexivity).
    rewrite (take_drop 1 (drop s ls)). apply take_drop.
Qed.

Lemma reverseBetween_reverses_positions_witness :
  chain heap123 (Some 0) [0; 1; 2] /\ 1%Z <> 2%Z /\
  (2 <= 2 <= Z.of_nat (length [0; 1; 2]))%Z /\ length [0; 1; 2] < 4 /\
  exists r h',
    reverse_linked_list2.reverseBetween 4 (Some 0) 1 2 heap123 = (Ok r, h') /\
    chain h' r
      (take (Z.to_nat (Z.min 1 2 - 1)) [0; 1; 2]
       ++ rev (take (Z.to_nat 2 - Z.to_nat (Z.min 1 2 - 1))
                 (drop (Z.to_nat (Z.min 1 2 - 1)) [0; 1; 2]))
       ++ drop (Z.to_nat 2) [0; 1; 2]) /\
    vals h' [0; 1; 2] = vals heap123 [0; 1; 2] /\
    ((2 < 1)%Z ->
     take (Z.to_nat (Z.min 1 2 - 1)) [0; 1; 2]
     ++ rev (take (Z.to_nat 2 - Z.to_nat (Z.min 1 2 - 1))
               (drop (Z.to_nat (Z.min 1 2 - 1)) [0; 1; 2]))
     ++ drop (Z.to_nat 2) [0; 1; 2] = [0; 1; 2]).
Proof.
  assert (chain heap123 (Some 0) [0; 1; 2]) as Hc.
  { unfold chain, heap123; simpl. repeat split; lia. }
  assert (1%Z <> 2%Z) as Hmn by lia.
  assert (2 <= 2 <= Z.of_nat (length [0; 1; 2]))%Z as Hn by (simpl; lia).
  assert (length [0; 1; 2] < 4) as Hf by (simpl; lia).
  split; [exact Hc|]. split; [exact Hmn|]. split; [exact Hn|].
  split; [exact Hf|].
  exact (reverseBetween_reverses_positions heap123 (Some 0) [0; 1; 2] 1 2 4
           Hc Hmn Hn Hf).
Defined.

(** X23: for [m <> n], [reverseBetween] raises (it reads [node1.next] with
    [node1] being [None]) when [n] is below 2 or beyond the length of the
    list, the empty list included; the store has not been written to. *)
Theorem reverseBetween_out_of_range_raises :
  forall h head ls m n fuel,
    chain h head ls -> m <> n ->
    (n < 2 \/ Z.of_nat (length ls) < n)%Z -> length ls < fuel ->
    reverse_linked_list2.reverseBetween fuel head m n h = (Raise, h).
Proof.
  intros h head ls m n fuel Hc Hmn Hn Hf.
  exact (reverseBetween_raises h head ls m n fuel Hc Hmn Hn Hf).
Qed.

Lemma reverseBetween_out_of_range_raises_witness :
  chain heap123 (Some 0) [0; 1; 2] /\ 1%Z <> 4%Z /\
  (4 < 2 \/ Z.of_nat (length [0; 1; 2]) < 4)%Z /\ length [0; 1; 2] < 4 /\
  reverse_linked_list2.reverseBetween 4 (Some 0) 1 4 heap123
  = (Raise, heap123).
Proof.
  assert (chain heap123 (Some 0) [0; 1; 2]) as Hc.
  { unfold chain, heap123; simpl. repeat split; lia. }
  assert (1%Z <> 4%Z) as Hmn by lia.
  assert (4 < 2 \/ Z.of_nat (length [0; 1; 2]) < 4)%Z as Hn by (simpl; lia).
  assert (length [0; 1; 2] < 4) as Hf by (simpl; lia).
  split; [exact Hc|]. split; [exact Hmn|]. split; [exact Hn|].
  split; [exact Hf|].
  exact (reverseBetween_out_of_range_raises heap123 (Some 0) [0; 1; 2] 1 4 4
           Hc Hmn Hn Hf).
Defined.

(** ** linked_list.py *)

Section linked_list_proofs.

Import linked_list.

Lemma elem_of_take_list (ls : list loc) i x : x ∈ take i ls -> x ∈ ls.
Proof.
  intros Hx. rewrite <- (take_drop i ls). apply elem_of_app. left. exact Hx.
Qed.

Lemma elem_of_drop_list (ls : list loc) i x : x ∈ drop i ls -> x ∈ ls.
Proof.
  intros Hx. rewrite <- (take_drop i ls). apply elem_of_app. right. exact Hx.
Qed.

Lemma lseg_take_lookup h p ls i :
  i <= length ls -> chain h p ls -> lseg h p (take i ls) (ls !! i).
Proof.
  intros Hi Hc. pose proof (lseg_take h p ls None i Hi Hc) as H.
  destruct (ls !! i); exact H.
Qed.

Lemma last_take_before (ls : list loc) i :
  i <= length ls -> last (take i ls) = before ls i.
Proof.
  intros Hi. destruct i as [|a]; [reflexivity|]. cbn [before].
  destruct (lookup_lt_is_Some_2 ls a ltac:(lia)) as [x Ex].
  rewrite (take_S_r _ _ _ Ex), last_snoc, Ex. reflexivity.
Qed.

Section walks.

Variables (h : heap) (p : ptr) (ls : list loc).
Hypothesis Hc : chain h p ls.

Lemma get_loop_spec i :
  i <= length ls ->
  forall fuel c,
    c <= i -> i - c < fuel ->
    get_loop fuel (Z.of_nat i) (ls !! c) (Z.of_nat c) h = (Ok (ls !! i), h).
Proof.
  intros Hi. induction fuel as [|fuel IH]; intros c Hci Hf; [lia|].
  cbn [get_loop]. destruct (Z.eqb_spec (Z.of_nat i) (Z.of_nat c)) as [E|E].
  - assert (c = i) as -> by lia. reflexivity.
  - cbn [negb]. destruct (lookup_lt_is_Some_2 ls c ltac:(lia)) as [x Ex].
    destruct (chain_lookup _ _ _ _ _ Hc Ex) as (Hx & Hnx & _).
    rewrite Ex. msteps. rewrite Hnx.
    replace (Z.of_nat c + 1)%Z with (Z.of_nat (S c)) by lia.
    apply IH; lia.
Qed.

Lemma get_loop_raises index :
  (forall j, j <= length ls -> Z.of_nat j <> index) ->
  forall fuel c,
    c <= length ls -> length ls - c < fuel ->
    get_loop fuel index (ls !! c) (Z.of_nat c) h = (Raise, h).
Proof.
  intros Hno. induction fuel as [|fuel IH]; intros c Hcl Hf; [lia|].
  cbn [get_loop]. destruct (Z.eqb_spec index (Z.of_nat c)) as [E|E].
  - exfalso. apply (Hno c Hcl). symmetry. exact E.
  - cbn [negb]. destruct (ls !! c) as [x|] eqn:Ex.
    + pose proof (lookup_lt_Some _ _ _ Ex) as Hlt.
      destruct (chain_lookup _ _ _ _ _ Hc Ex) as (Hx & Hnx & _).
      msteps. rewrite Hnx.
      replace (Z.of_nat c + 1)%Z with (Z.of_nat (S c)) by lia.
      apply IH; lia.
    + reflexivity.
Qed.

Lemma walk_loop_spec i :
  i <= length ls ->
  forall fuel c,
    c <= i -> i - c < fuel ->
    walk_loop fuel (Z.of_nat i) (before ls c) (ls !! c) (Z.of_nat c) h
    = (Ok (before ls i, ls !! i), h).
Proof.
  intros Hi. induction fuel as [|fuel IH]; intros c Hci Hf; [lia|].
  cbn [walk_loop]. destruct (Z.eqb_spec (Z.of_nat c) (Z.of_nat i)) as [E|E].
  - assert (c = i) as -> by lia. reflexivity.
  - cbn [negb]. destruct (lookup_lt_is_Some_2 ls c ltac:(lia)) as [x Ex].
    destruct (chain_lookup _ _ _ _ _ Hc Ex) as (Hx & Hnx & _).
    rewrite Ex. msteps. rewrite Hnx. rewrite <- Ex.
    change (ls !! c) with (before ls (S c)).
    replace (Z.of_nat c + 1)%Z with (Z.of_nat (S c)) by lia.
    apply IH; lia.
Qed.

Lemma walk_loop_raises index :
  (forall j, j <= length ls -> Z.of_nat j <> index) ->
  forall fuel c prev,
    c <= length ls -> length ls - c < fuel ->
    walk_loop fuel index prev (ls !! c) (Z.of_nat c) h = (Raise, h).
Proof.
  intros Hno. induction fuel as [|fuel IH]; intros c prev Hcl Hf; [lia|].
  cbn [walk_loop]. destruct (Z.eqb_spec (Z.of_nat c) index) as [E|E].
  - exfalso. apply (Hno c Hcl). exact E.
  - cbn [negb]. destruct (ls !! c) as [x|] eqn:Ex.
    + pose proof (lookup_lt_Some _ _ _ Ex) as Hlt.
      destruct (chain_lookup _ _ _ _ _ Hc Ex) as (Hx & Hnx & _).
      msteps. rewrite Hnx.
      replace (Z.of_nat c + 1)%Z with (Z.of_nat (S c)) by lia.
      apply IH; lia.
    + reflexivity.
Qed.

End walks.

Lemma addAtTail_loop_spec h todo :
  forall fuel p prev,
    chain h p todo -> length todo < fuel ->
    addAtTail_loop fuel p prev h
    = (Ok (match last todo with Some l => Some l | None => prev end), h).
Proof.
  induction todo as [|x t IH]; intros fuel p prev Hc Hf;
    (destruct fuel as [|fuel]; [simpl in Hf; lia|]); cbn [addAtTail_loop].
  - red in Hc. simpl in Hc. subst p. reflexivity.
  - destruct Hc as (-> & Hx & Hc). cbn [truthy]. msteps.
    rewrite (IH fuel _ (Some x) Hc) by (simpl in Hf; lia).
    destruct t as [|y t']; [reflexivity|].
    rewrite last_cons_cons. destruct (last (y :: t')) eqn:El; [reflexivity|].
    apply last_None in El. discriminate.
Qed.

Lemma get_spec h self ls fuel index :
  rep h self ls -> length ls < fuel ->
  get fuel self index h
  = (if (Z.of_nat (length ls) <=? index)%Z || bool_decide (ls = [])
     then Ok (-1)%Z
     else if (index <? 0)%Z then Raise
          else match ls !! Z.to_nat index with
               | Some l => Ok (val_of h l)
               | None => Ok (-1)%Z
               end, h).
Proof.
  intros (Hc & Hlen) Hf. unfold get. rewrite Hlen.
  replace (index + 1 >? Z.of_nat (length ls))%Z
    with (Z.of_nat (length ls) <=? index)%Z
    by (destruct (Z.leb_spec (Z.of_nat (length ls)) index),
          (Z.gtb_spec (index + 1) (Z.of_nat (length ls))); lia || reflexivity).
  replace (Z.of_nat (length ls) =? 0)%Z with (bool_decide (ls = [])).
  2:{ destruct ls; [reflexivity|]. symmetry.
      rewrite bool_decide_eq_false_2 by discriminate.
      apply Z.eqb_neq. simpl. lia. }
  destruct ((Z.of_nat (length ls) <=? index)%Z || bool_decide (ls = []))
    eqn:Eg; [reflexivity|].
  apply Bool.orb_false_iff in Eg as [Eg _]. apply Z.leb_gt in Eg.
  rewrite (chain_head _ _ _ Hc).
  destruct (Z.ltb_spec index 0) as [Hneg|Hpos].
  - pose proof (get_loop_raises h _ ls Hc index ltac:(lia) fuel 0 ltac:(lia)
                  ltac:(lia)) as Er.
    change (Z.of_nat 0) with 0%Z in Er.
    unfold bind. rewrite Er. reflexivity.
  - pose proof (get_loop_spec h _ ls Hc (Z.to_nat index) ltac:(lia) fuel 0
                  ltac:(lia) ltac:(lia)) as Eg'.
    change (Z.of_nat 0) with 0%Z in Eg'.
    replace (Z.of_nat (Z.to_nat index)) with index in Eg' by lia.
    rewrite (bind_eq _ _ _ _ _ Eg').
    destruct (lookup_lt_is_Some_2 ls (Z.to_nat index) ltac:(lia)) as [x Ex].
    destruct (chain_lookup _ _ _ _ _ Hc Ex) as (Hx & _).
    rewrite Ex. rewrite get_value_ok by exact Hx. reflexivity.
Qed.

Lemma addAtHead_spec h self ls val :
  rep h self ls ->
  exists self' h',
    addAtHead self val h = (Ok self', h') /\
    rep h' self' (length h :: ls) /\
    val_of h' (length h) = val /\
    (forall l, l < length h -> val_of h' l = val_of h l).
Proof.
  intros (Hc & Hlen). unfold addAtHead. rewrite bind_new_node.
  set (a := length h). set (h1 := h ++ [mkNode val None]).
  assert (length h1 = S a) as Hlen1
      by (unfold h1, a; rewrite length_app; simpl; lia).
  assert (forall l, l ∈ ls -> l < a) as Hls
      by (intros l Hl; eapply lseg_alloc; eassumption).
  assert (a ∉ ls) as Hals by (intros Hin; apply Hls in Hin; lia).
  destruct (Z.eqb_spec (self_length self) 0) as [E0|E0].
  - assert (ls = []) as -> by (destruct ls; [reflexivity|simpl in Hlen; lia]).
    red in Hc. simpl in Hc.
    exists (mkMyLinkedList (Some a) (self_length self + 1)), h1.
    split; [reflexivity|]. split; [|split].
    + split; [|cbn; lia]. cbn. split; [reflexivity|]. split; [lia|].
      unfold h1. apply next_of_snoc_eq.
    + unfold h1. apply val_of_snoc_eq.
    + intros l Hl. apply val_of_snoc_lt. exact Hl.
  - msteps.
    exists (mkMyLinkedList (Some a) (self_length self + 1)),
      (upd h1 a (self_head self)).
    split; [reflexivity|]. split; [|split].
    + split; [|cbn; lia]. cbn. split; [reflexivity|].
      split; [rewrite length_upd; lia|].
      rewrite next_of_upd_eq by lia. apply lseg_upd; [exact Hals|].
      apply lseg_snoc_heap. exact Hc.
    + rewrite val_of_upd. unfold h1. apply val_of_snoc_eq.
    + intros l Hl. rewrite val_of_upd. apply val_of_snoc_lt. exact Hl.
Qed.

Lemma addAtTail_spec h self ls val fuel :
  rep h self ls -> length ls < fuel ->
  exists self' h',
    addAtTail fuel self val h = (Ok self', h') /\
    rep h' self' (ls ++ [length h]) /\
    val_of h' (length h) = val /\
    (forall l, l < length h -> val_of h' l = val_of h l).
Proof.
  intros (Hc & Hlen) Hf. unfold addAtTail. rewrite bind_new_node.
  set (a := length h). set (h1 := h ++ [mkNode val None]).
  assert (length h1 = S a) as Hlen1
      by (unfold h1, a; rewrite length_app; simpl; lia).
  assert (forall l, l ∈ ls -> l < a) as Hls
      by (intros l Hl; eapply lseg_alloc; eassumption).
  assert (a ∉ ls) as Hals by (intros Hin; apply Hls in Hin; lia).
  assert (chain h1 (self_head self) ls) as Hc1 by (apply lseg_snoc_heap, Hc).
  destruct (Z.eqb_spec (self_length self) 0) as [E0|E0].
  - assert (ls = []) as -> by (destruct ls; [reflexivity|simpl in Hlen; lia]).
    exists (mkMyLinkedList (Some a) (self_length self + 1)), h1.
    split; [reflexivity|]. split; [|split].
    + split; [|cbn; lia]. cbn. split; [reflexivity|]. split; [lia|].
      unfold h1. apply next_of_snoc_eq.
    + unfold h1. apply val_of_snoc_eq.
    + intros l Hl. apply val_of_snoc_lt. exact Hl.
  - rewrite (bind_eq _ _ _ _ _
               (addAtTail_loop_spec h1 ls fuel _ None Hc1 Hf)).
    destruct (last ls) as [t|] eqn:Et.
    2:{ apply last_None in Et. subst ls. simpl in Hlen. lia. }
    pose proof (last_Some_elem_of _ _ Et) as Htin.
    pose proof (Hls t Htin) as Hta.
    msteps.
    exists (mkMyLinkedList (self_head self) (self_length self + 1)),
      (upd h1 t (Some a)).
    split; [reflexivity|]. split; [|split].
    + split; [|cbn; rewrite length_app; simpl; lia]. cbn.
      apply lseg_snoc. split; [|split].
      * eapply lseg_relink; [exact Hc1|exact Et|].
        eapply chain_NoDup. exact Hc.
      * rewrite length_upd. lia.
      * rewrite next_of_upd_ne by lia. unfold h1. apply next_of_snoc_eq.
    + rewrite val_of_upd. unfold h1. apply val_of_snoc_eq.
    + intros l Hl. rewrite val_of_upd. apply val_of_snoc_lt. exact Hl.
Qed.

Lemma addAtIndex_spec h self ls index val fuel :
  rep h self ls -> length ls < fuel ->
  (0 <= index <= Z.of_nat (length ls))%Z ->
  exists self' h',
    addAtIndex fuel self index val h = (Ok self', h') /\
    rep h' self'
      (take (Z.to_nat index) ls ++ length h :: drop (Z.to_nat index) ls) /\
    val_of h' (length h) = val /\
    (forall l, l < length h -> val_of h' l = val_of h l).
Proof.
  intros Hrep Hf Hi. pose proof Hrep as (Hc & Hlen). unfold addAtIndex.
  destruct (Z.eqb_spec index (self_length self)) as [E1|E1].
  { replace (Z.to_nat index) with (length ls) by lia.
    rewrite take_ge, drop_ge by lia.
    apply addAtTail_spec; assumption. }
  destruct (Z.eqb_spec index 0) as [E2|E2].
  { subst index. cbn [Z.to_nat take drop app].
    apply addAtHead_spec; assumption. }
  destruct (Z.ltb_spec index (self_length self)) as [E3|E3]; [|lia].
  set (i := Z.to_nat index).
  assert (0 < i < length ls) as Hi' by (unfold i; lia).
  rewrite bind_new_node.
  set (a := length h). set (h1 := h ++ [mkNode val None]).
  assert (length h1 = S a) as Hlen1
      by (unfold h1, a; rewrite length_app; simpl; lia).
  assert (forall l, l ∈ ls -> l < a) as Hls
      by (intros l Hl; eapply lseg_alloc; eassumption).
  assert (a ∉ ls) as Hals by (intros Hin; apply Hls in Hin; lia).
  assert (chain h1 (self_head self) ls) as Hc1 by (apply lseg_snoc_heap, Hc).
  pose proof (walk_loop_spec h1 _ ls Hc1 i ltac:(lia) fuel 0 ltac:(lia)
                ltac:(lia)) as Ew.
  cbn [before] in Ew. rewrite <- (chain_head _ _ _ Hc1) in Ew.
  change (Z.of_nat 0) with 0%Z in Ew.
  replace (Z.of_nat i) with index in Ew by (unfold i; lia).
  rewrite (bind_eq _ _ _ _ _ Ew). cbn [fst snd].
  pose proof (last_take_before ls i ltac:(lia)) as Elast.
  destruct (before ls i) as [p|] eqn:Ep.
  2:{ destruct i as [|i']; [lia|]. cbn [before] in Ep.
      apply lookup_ge_None in Ep. lia. }
  pose proof (last_Some_elem_of _ _ Elast) as Hpin.
  assert (p ∈ ls) as Hpls by (eapply elem_of_take_list; exact Hpin).
  pose proof (Hls p Hpls) as Hpa.
  pose proof (chain_NoDup _ _ _ Hc) as Hnd.
  msteps.
  exists (mkMyLinkedList (self_head self) (self_length self + 1)),
    (upd (upd h1 p (Some a)) a (ls !! i)).
  split; [reflexivity|]. split; [|split].
  - split.
    + cbn. apply lseg_app. exists (Some a). split.
      * apply lseg_upd.
        { intros Hin. apply Hals. eapply elem_of_take_list. exact Hin. }
        eapply lseg_relink; [|exact Elast|].
        -- apply lseg_take_lookup; [lia|exact Hc1].
        -- rewrite <- (take_drop i ls) in Hnd.
           apply NoDup_app in Hnd as (Hnd & _). exact Hnd.
      * split; [reflexivity|]. split; [rewrite !length_upd; lia|].
        rewrite next_of_upd_eq by (rewrite length_upd; lia).
        apply lseg_upd.
        { intros Hin. apply Hals. eapply elem_of_drop_list. exact Hin. }
        apply lseg_upd.
        { apply (take_drop_disjoint ls i i p Hnd ltac:(lia) Hpin). }
        exact (chain_drop _ _ _ _ Hc1).
    + cbn. rewrite length_app. cbn [length].
      rewrite length_take, length_drop. lia.
  - rewrite !val_of_upd. unfold h1. apply val_of_snoc_eq.
  - intros l Hl. rewrite !val_of_upd. apply val_of_snoc_lt. exact Hl.
Qed.

Lemma deleteAtIndex_spec h self ls index fuel :
  rep h self ls -> length ls < fuel ->
  (0 <= index < Z.of_nat (length ls))%Z ->
  exists self' h',
    deleteAtIndex fuel self index h = (Ok self', h') /\
    rep h' self' (take (Z.to_nat index) ls ++ drop (S (Z.to_nat index)) ls) /\
    length h' = length h /\
    (forall l, val_of h' l = val_of h l).
Proof.
  intros Hrep Hf Hi. pose proof Hrep as (Hc & Hlen). unfold deleteAtIndex.
  destruct (Z.leb_spec (index + 1) (self_length self)) as [_|E]; [|lia].
  set (i := Z.to_nat index).
  assert (i < length ls) as Hi' by (unfold i; lia).
  pose proof (walk_loop_spec h _ ls Hc i ltac:(lia) fuel 0 ltac:(lia)
                ltac:(lia)) as Ew.
  cbn [before] in Ew. rewrite <- (chain_head _ _ _ Hc) in Ew.
  change (Z.of_nat 0) with 0%Z in Ew.
  replace (Z.of_nat i) with index in Ew by (unfold i; lia).
  rewrite (bind_eq _ _ _ _ _ Ew). cbn [fst snd].
  destruct (lookup_lt_is_Some_2 ls i Hi') as [x Ex].
  destruct (chain_lookup _ _ _ _ _ Hc Ex) as (Hx & Hnx & _).
  pose proof (chain_NoDup _ _ _ Hc) as Hnd.
  assert (length (take i ls ++ drop (S i) ls) = length ls - 1) as Hlen'.
  { rewrite length_app, length_take, length_drop. lia. }
  destruct i as [|i'] eqn:Ei.
  - cbn [before truthy negb].
    assert (self_head self = Some x) as Eh
        by (rewrite (chain_head _ _ _ Hc); exact Ex).
    rewrite Eh. msteps. rewrite Hnx.
    exists (mkMyLinkedList (ls !! 1) (self_length self - 1)), h.
    split; [reflexivity|]. split; [|split; reflexivity].
    split; [|cbn [self_length]; lia].
    cbn [self_head take app]. exact (chain_drop _ _ _ _ Hc).
  - cbn [before].
    destruct (lookup_lt_is_Some_2 ls i' ltac:(lia)) as [p Ep].
    destruct (chain_lookup _ _ _ _ _ Hc Ep) as (Hp & _).
    pose proof (last_take_before ls (S i') ltac:(lia)) as Elast.
    cbn [before] in Elast. rewrite Ep in Elast.
    pose proof (last_Some_elem_of _ _ Elast) as Hpin.
    rewrite Ep, Ex. cbn [truthy negb]. msteps. rewrite Hnx.
    exists (mkMyLinkedList (self_head self) (self_length self - 1)),
      (upd h p (ls !! S (S i'))).
    split; [reflexivity|]. split; [|split].
    + split; [|cbn [self_length]; lia].
      cbn [self_head]. apply lseg_app. exists (ls !! S (S i')). split.
      * eapply lseg_relink; [|exact Elast|].
        -- apply lseg_take_lookup; [lia|exact Hc].
        -- rewrite <- (take_drop (S i') ls) in Hnd.
           apply NoDup_app in Hnd as (Hnd & _). exact Hnd.
      * apply lseg_upd.
        { apply (take_drop_disjoint ls (S i') (S (S i')) p Hnd ltac:(lia) Hpin). }
        exact (chain_drop _ _ _ _ Hc).
    + apply length_upd.
    + intros l. apply val_of_upd.
Qed.

End linked_list_proofs.

(** X24: on a list object that represents the nodes [ls], [get] returns
    the value of the node at [index] for [0 <= index < length], and [-1]
    for an index at or beyond the length and on the empty list.  A negative
    index on a non-empty list is not answered with [-1]: the loop runs off
    the end of the list and the call raises.  The store is left as it was. *)
Theorem MyLinkedList_get_spec :
  forall h self ls fuel index,
    linked_list.rep h self ls -> length ls < fuel ->
    (forall l, (0 <= index)%Z -> ls !! Z.to_nat index = Some l ->
               linked_list.get fuel self index h = (Ok (val_of h l), h)) /\
    ((Z.of_nat (length ls) <= index)%Z ->
     linked_list.get fuel self index h = (Ok (-1)%Z, h)) /\
    (ls = [] -> linked_list.get fuel self index h = (Ok (-1)%Z, h)) /\
    ((index < 0)%Z -> ls <> [] ->
     linked_list.get fuel self index h = (Raise, h)).
Proof.
  intros h self ls fuel index Hrep Hf.
  rewrite (get_spec h self ls fuel index Hrep Hf).
  split; [|split; [|split]].
  - intros l Hpos El. pose proof (lookup_lt_Some _ _ _ El) as Hlt.
    destruct (Z.leb_spec (Z.of_nat (length ls)) index); [lia|].
    rewrite bool_decide_eq_false_2 by (intros ->; simpl in Hlt; lia).
    cbn [orb]. destruct (Z.ltb_spec index 0); [lia|]. rewrite El. reflexivity.
  - intros Hge. destruct (Z.leb_spec (Z.of_nat (length ls)) index); [|lia].
    reflexivity.
  - intros ->. rewrite bool_decide_eq_true_2 by reflexivity.
    rewrite Bool.orb_true_r. reflexivity.
  - intros Hneg Hne. destruct (Z.leb_spec (Z.of_nat (length ls)) index); [lia|].
    rewrite bool_decide_eq_false_2 by exact Hne. cbn [orb].
    destruct (Z.ltb_spec index 0); [reflexivity|lia].
Qed.

Lemma MyLinkedList_get_spec_witness :
  linked_list.rep heap123 (linked_list.mkMyLinkedList (Some 0) 3) [0; 1; 2] /\
  length [0; 1; 2] < 4 /\
  linked_list.get 4 (linked_list.mkMyLinkedList (Some 0) 3) 1 heap123
  = (Ok 2%Z, heap123) /\
  linked_list.get 4 (linked_list.mkMyLinkedList (Some 0) 3) 3 heap123
  = (Ok (-1)%Z, heap123) /\
  linked_list.get 4 (linked_list.mkMyLinkedList (Some 0) 3) (-1) heap123
  = (Raise, heap123).
Proof.
  assert (linked_list.rep heap123 (linked_list.mkMyLinkedList (Some 0) 3)
            [0; 1; 2]) as Hrep.
  { split; [|reflexivity]. unfold chain, heap123; simpl. repeat split; lia. }
  assert (length [0; 1; 2] < 4) as Hf by (simpl; lia).
  split; [exact Hrep|]. split; [exact Hf|]. split; [|split].
  - exact (proj1 (MyLinkedList_get_spec heap123 _ [0; 1; 2] 4 1 Hrep Hf) 1
             ltac:(lia) eq_refl).
  - apply (proj1 (proj2 (MyLinkedList_get_spec heap123 _ [0; 1; 2] 4 3 Hrep Hf))).
    simpl. lia.
  - apply (proj2 (proj2 (proj2
             (MyLinkedList_get_spec heap123 _ [0; 1; 2] 4 (-1) Hrep Hf))));
      [lia|discriminate].
Defined.

(** X25: on a list object that represents the nodes [ls], [addAtIndex]
    with [0 <= index <= length] puts one new node holding [val] in front of
    the node at [index] (at the end for [index = length], through
    [addAtTail]; at the head for [index = 0], through [addAtHead]) and adds
    one to the length; the other nodes keep their order and values.  For an
    index beyond the length nothing changes.  For a negative index the call
    raises after the new node has been allocated. *)
Theorem MyLinkedList_addAtIndex_spec :
  forall h self ls fuel index val,
    linked_list.rep h self ls -> length ls < fuel ->
    ((0 <= index <= Z.of_nat (length ls))%Z ->
     exists self' h' ls',
       linked_list.addAtIndex fuel self index val h = (Ok self', h') /\
       linked_list.rep h' self' ls' /\
       ls' = take (Z.to_nat index) ls ++ length h :: drop (Z.to_nat index) ls /\
       vals h' ls'
       = take (Z.to_nat index) (vals h ls)
         ++ val :: drop (Z.to_nat index) (vals h ls) /\
       linked_list.self_length self' = (linked_list.self_length self + 1)%Z) /\
    ((Z.of_nat (length ls) < index)%Z ->
     linked_list.addAtIndex fuel self index val h = (Ok self, h)) /\
    ((index < 0)%Z ->
     linked_list.addAtIndex fuel self index val h
     = (Raise, h ++ [mkNode val None])).
Proof.
  intros h self ls fuel index val Hrep Hf. split; [|split].
  - intros Hi.
    destruct (addAtIndex_spec h self ls index val fuel Hrep Hf Hi)
      as (self' & h' & E & Hrep' & Hv & Hold).
    exists self', h', (take (Z.to_nat index) ls ++ length h :: drop (Z.to_nat index) ls).
    split; [exact E|]. split; [exact Hrep'|]. split; [reflexivity|].
    destruct Hrep as (Hc & Hlen). split.
    + assert (forall xs, (forall l, l ∈ xs -> l ∈ ls) ->
                         vals h' xs = vals h xs) as Hvals.
      { intros xs Hxs. unfold vals. apply map_ext_in. intros l Hl.
        apply Hold. eapply lseg_alloc; [exact Hc|].
        apply Hxs, list_elem_of_In, Hl. }
      unfold vals at 1. rewrite map_app. cbn [map]. rewrite Hv.
      change (map (val_of h')) with (vals h').
      rewrite (Hvals (take _ ls)) by (intros l; apply elem_of_take_list).
      rewrite (Hvals (drop _ ls)) by (intros l; apply elem_of_drop_list).
      unfold vals. rewrite firstn_map, skipn_map. reflexivity.
    + destruct Hrep' as (_ & Hlen'). rewrite Hlen', Hlen.
      rewrite length_app. cbn [length]. rewrite length_take, length_drop. lia.
  - intros Hi. destruct Hrep as (Hc & Hlen). unfold linked_list.addAtIndex.
    destruct (Z.eqb_spec index (linked_list.self_length self)); [lia|].
    destruct (Z.eqb_spec index 0); [lia|].
    destruct (Z.ltb_spec index (linked_list.self_length self)); [lia|].
    reflexivity.
  - intros Hi. destruct Hrep as (Hc & Hlen). unfold linked_list.addAtIndex.
    destruct (Z.eqb_spec index (linked_list.self_length self)); [lia|].
    destruct (Z.eqb_spec index 0); [lia|].
    destruct (Z.ltb_spec index (linked_list.self_length self)); [|lia].
    rewrite bind_new_node.
    assert (chain (h ++ [mkNode val None]) (linked_list.self_head self) ls)
      as Hc1 by (apply lseg_snoc_heap, Hc).
    pose proof (walk_loop_raises (h ++ [mkNode val None]) _ ls Hc1 index
                  ltac:(lia) fuel 0 None ltac:(lia) ltac:(lia)) as Er.
    rewrite <- (chain_head _ _ _ Hc1) in Er.
    change (Z.of_nat 0) with 0%Z in Er.
    unfold bind at 1. rewrite Er. reflexivity.
Qed.

Lemma MyLinkedList_addAtIndex_spec_witness :
  linked_list.rep heap123 (linked_list.mkMyLinkedList (Some 0) 3) [0; 1; 2] /\
  length [0; 1; 2] < 4 /\
  (exists self' h' ls',
      linked_list.addAtIndex 4 (linked_list.mkMyLinkedList (Some 0) 3) 1 7
        heap123 = (Ok self', h') /\
      linked_list.rep h' self' ls' /\
      ls' = take (Z.to_nat 1) [0; 1; 2]
            ++ length heap123 :: drop (Z.to_nat 1) [0; 1; 2] /\
      vals h' ls'
      = take (Z.to_nat 1) (vals heap123 [0; 1; 2])
        ++ 7%Z :: drop (Z.to_nat 1) (vals heap123 [0; 1; 2]) /\
      linked_list.self_length self' = (3 + 1)%Z) /\
  linked_list.addAtIndex 4 (linked_list.mkMyLinkedList (Some 0) 3) 5 7 heap123
  = (Ok (linked_list.mkMyLinkedList (Some 0) 3), heap123) /\
  linked_list.addAtIndex 4 (linked_list.mkMyLinkedList (Some 0) 3) (-1) 7
    heap123 = (Raise, heap123 ++ [mkNode 7 None]).
Proof.
  assert (linked_list.rep heap123 (linked_list.mkMyLinkedList (Some 0) 3)
            [0; 1; 2]) as Hrep.
  { split; [|reflexivity]. unfold chain, heap123; simpl. repeat split; lia. }
  assert (length [0; 1; 2] < 4) as Hf by (simpl; lia).
  split; [exact Hrep|]. split; [exact Hf|]. split; [|split].
  - apply (proj1 (MyLinkedList_addAtIndex_spec heap123 _ [0; 1; 2] 4 1 7
                    Hrep Hf)).
    simpl. lia.
  - apply (proj1 (proj2 (MyLinkedList_addAtIndex_spec heap123 _ [0; 1; 2] 4 5 7
                           Hrep Hf))).
    simpl. lia.
  - apply (proj2 (proj2 (MyLinkedList_addAtIndex_spec heap123 _ [0; 1; 2] 4
                           (-1) 7 Hrep Hf))).
    lia.
Defined.

(** X26: on a list object that represents the nodes [ls],
    [deleteAtIndex] with [0 <= index < length] unlinks the node at [index]
    and takes one off the length; the other nodes keep their order and
    values.  For an index at or beyond the length nothing changes.  For a
    negative index the call raises and the store is left as it was. *)
Theorem MyLinkedList_deleteAtIndex_spec :
  forall h self ls fuel index,
    linked_list.rep h self ls -> length ls < fuel ->
    ((0 <= index < Z.of_nat (length ls))%Z ->
     exists self' h',
       linked_list.deleteAtIndex fuel self index h = (Ok self', h') /\
       linked_list.rep h' self' (delete (Z.to_nat index) ls) /\
       vals h' (delete (Z.to_nat index) ls)
       = delete (Z.to_nat index) (vals h ls) /\
       linked_list.self_length self' = (linked_list.self_length self - 1)%Z) /\
    ((Z.of_nat (length ls) <= index)%Z ->
     linked_list.deleteAtIndex fuel self index h = (Ok self, h)) /\
    ((index < 0)%Z ->
     linked_list.deleteAtIndex fuel self index h = (Raise, h)).
Proof.
  intros h self ls fuel index Hrep Hf. split; [|split].
  - intros Hi.
    destruct (deleteAtIndex_spec h self ls index fuel Hrep Hf Hi)
      as (self' & h' & E & Hrep' & Hlen' & Hv).
    exists self', h'. rewrite !delete_take_drop.
    split; [exact E|]. split; [exact Hrep'|]. split.
    + unfold vals. rewrite map_app, firstn_map, skipn_map.
      f_equal; apply map_ext; exact Hv.
    + destruct Hrep as (_ & Hlen), Hrep' as (_ & Hl'). rewrite Hl', Hlen.
      rewrite length_app, length_take, length_drop. lia.
  - intros Hi. destruct Hrep as (Hc & Hlen). unfold linked_list.deleteAtIndex.
    destruct (Z.leb_spec (index + 1) (linked_list.self_length self)); [lia|].
    reflexivity.
  - intros Hi. destruct Hrep as (Hc & Hlen). unfold linked_list.deleteAtIndex.
    destruct (Z.leb_spec (index + 1) (linked_list.self_length self)); [|lia].
    pose proof (walk_loop_raises h _ ls Hc index ltac:(lia) fuel 0 None
                  ltac:(lia) ltac:(lia)) as Er.
    rewrite <- (chain_head _ _ _ Hc) in Er.
    change (Z.of_nat 0) with 0%Z in Er.
    unfold bind. rewrite Er. reflexivity.
Qed.

Lemma MyLinkedList_deleteAtIndex_spec_witness :
  linked_list.rep heap123 (linked_list.mkMyLinkedList (Some 0) 3) [0; 1; 2] /\
  length [0; 1; 2] < 4 /\
  (exists self' h',
      linked_list.deleteAtIndex 4 (linked_list.mkMyLinkedList (Some 0) 3) 1
        heap123 = (Ok self', h') /\
      linked_list.rep h' self' (delete (Z.to_nat 1) [0; 1; 2]) /\
      vals h' (delete (Z.to_nat 1) [0; 1; 2])
      = delete (Z.to_nat 1) (vals heap123 [0; 1; 2]) /\
      linked_list.self_length self' = (3 - 1)%Z) /\
  linked_list.deleteAtIndex 4 (linked_list.mkMyLinkedList (Some 0) 3) 3 heap123
  = (Ok (linked_list.mkMyLinkedList (Some 0) 3), heap123) /\
  linked_list.deleteAtIndex 4 (linked_list.mkMyLinkedList (Some 0) 3) (-1)
    heap123 = (Raise, heap123).
Proof.
  assert (linked_list.rep heap123 (linked_list.mkMyLinkedList (Some 0) 3)
            [0; 1; 2]) as Hrep.
  { split; [|reflexivity]. unfold chain, heap123; simpl. repeat split; lia. }
  assert (length [0; 1; 2] < 4) as Hf by (simpl; lia).
  split; [exact Hrep|]. split; [exact Hf|]. split; [|split].
  - apply (proj1 (MyLinkedList_deleteAtIndex_spec heap123 _ [0; 1; 2] 4 1
                    Hrep Hf)).
    simpl. lia.
  - apply (proj1 (proj2 (MyLinkedList_deleteAtIndex_spec heap123 _ [0; 1; 2] 4 3
                           Hrep Hf))).
    simpl. lia.
  - apply (proj2 (proj2 (MyLinkedList_deleteAtIndex_spec heap123 _ [0; 1; 2] 4
                           (-1) Hrep Hf))).
    lia.
Defined.

(** X27: after [addAtIndex(index, val)] with [0 <= index <= length],
    [get(index)] returns [val], and [deleteAtIndex(index)] then gives back
    the list of before: the same nodes in the same order, with their values
    and the same length. *)
Theorem MyLinkedList_add_get_delete :
  forall h self ls fuel index val,
    linked_list.rep h self ls ->
    (0 <= index <= Z.of_nat (length ls))%Z -> length ls + 1 < fuel ->
    exists s1 h1,
      linked_list.addAtIndex fuel self index val h = (Ok s1, h1) /\
      linked_list.get fuel s1 index h1 = (Ok val, h1) /\
      exists s2 h2,
        linked_list.deleteAtIndex fuel s1 index h1 = (Ok s2, h2) /\
        linked_list.rep h2 s2 ls /\
        vals h2 ls = vals h ls /\
        linked_list.self_length s2 = linked_list.self_length self.
Proof.
  intros h self ls fuel index val Hrep Hi Hf.
  destruct (addAtIndex_spec h self ls index val fuel Hrep ltac:(lia) Hi)
    as (s1 & h1 & E1 & Hrep1 & Hv & Hold).
  set (i := Z.to_nat index) in *.
  set (ls1 := take i ls ++ length h :: drop i ls) in *.
  assert (length ls1 = S (length ls)) as Hlen1.
  { unfold ls1. rewrite length_app. cbn [length].
    rewrite length_take, length_drop. unfold i. lia. }
  assert (ls1 !! i = Some (length h)) as Ei.
  { unfold ls1. rewrite lookup_app_r by (rewrite length_take; unfold i; lia).
    rewrite length_take. replace (i - i `min` length ls) with 0 by (unfold i; lia).
    reflexivity. }
  exists s1, h1. split; [exact E1|]. split.
  - rewrite (get_spec h1 s1 ls1 fuel index Hrep1) by lia.
    destruct (Z.leb_spec (Z.of_nat (length ls1)) index); [lia|].
    rewrite bool_decide_eq_false_2 by (intros E; rewrite E in Hlen1; simpl in Hlen1; lia).
    cbn [orb]. destruct (Z.ltb_spec index 0); [lia|].
    fold i. rewrite Ei, Hv. reflexivity.
  - destruct (deleteAtIndex_spec h1 s1 ls1 index fuel Hrep1 ltac:(lia) ltac:(lia))
      as (s2 & h2 & E2 & Hrep2 & Hlen2 & Hv2).
    fold i in Hrep2.
    assert (take i ls1 ++ drop (S i) ls1 = ls) as Els.
    { unfold ls1.
      rewrite take_app_le by (rewrite length_take; unfold i; lia).
      rewrite take_take. replace (i `min` i) with i by lia.
      rewrite drop_app_ge by (rewrite length_take; unfold i; lia).
      rewrite length_take.
      replace (S i - i `min` length ls) with 1 by (unfold i; lia).
      cbn [drop]. rewrite drop_0. apply take_drop. }
    rewrite Els in Hrep2.
    exists s2, h2. split; [exact E2|]. split; [exact Hrep2|]. split.
    + destruct Hrep as (Hc & _). unfold vals. apply map_ext_in. intros l Hl.
      rewrite Hv2. apply Hold. eapply lseg_alloc; [exact Hc|].
      apply list_elem_of_In, Hl.
    + destruct Hrep as (_ & ->), Hrep2 as (_ & ->). reflexivity.
Qed.

Lemma MyLinkedList_add_get_delete_witness :
  linked_list.rep heap123 (linked_list.mkMyLinkedList (Some 0) 3) [0; 1; 2] /\
  (0 <= 1 <= Z.of_nat (length [0; 1; 2]))%Z /\ length [0; 1; 2] + 1 < 5 /\
  exists s1 h1,
    linked_list.addAtIndex 5 (linked_list.mkMyLinkedList (Some 0) 3) 1 7 heap123
    = (Ok s1, h1) /\
    linked_list.get 5 s1 1 h1 = (Ok 7%Z, h1) /\
    exists s2 h2,
      linked_list.deleteAtIndex 5 s1 1 h1 = (Ok s2, h2) /\
      linked_list.rep h2 s2 [0; 1; 2] /\
      vals h2 [0; 1; 2] = vals heap123 [0; 1; 2] /\
      linked_list.self_length s2 = 3%Z.
Proof.
  assert (linked_list.rep heap123 (linked_list.mkMyLinkedList (Some 0) 3)
            [0; 1; 2]) as Hrep.
  { split; [|reflexivity]. unfold chain, heap123; simpl. repeat split; lia. }
  assert (0 <= 1 <= Z.of_nat (length [0; 1; 2]))%Z as Hi by (simpl; lia).
  assert (length [0; 1; 2] + 1 < 5) as Hf by (simpl; lia).
  split; [exact Hrep|]. split; [exact Hi|]. split; [exact Hf|].
  exact (MyLinkedList_add_get_delete heap123 _ [0; 1; 2] 5 1 7 Hrep Hi Hf).
Defined.

(** ** reorder_list.py *)

Section reorder.

Lemma reorderList_middle_spec h head ls mid :
  chain h head ls ->
  2 * mid + 1 <= length ls <= 2 * mid + 2 ->
  forall fuel j,
    j <= mid -> mid - j < fuel ->
    reorderList_middle fuel (ls !! j) (ls !! (2 * j)) h = (Ok (ls !! mid), h).
Proof.
  intros Hc Hmid. induction fuel as [|fuel IH]; intros j Hj Hf; [lia|].
  cbn [reorderList_middle].
  destruct (lookup_lt_is_Some_2 ls (2 * j) ltac:(lia)) as [t Et].
  destruct (chain_lookup _ _ _ _ _ Hc Et) as (Ht & Hnt & _).
  destruct (lookup_lt_is_Some_2 ls j ltac:(lia)) as [x Ex].
  destruct (chain_lookup _ _ _ _ _ Hc Ex) as (Hx & Hnx & _).
  rewrite Et. msteps. rewrite Hnt.
  destruct (ls !! S (2 * j)) as [t'|] eqn:Et'.
  - destruct (chain_lookup _ _ _ _ _ Hc Et') as (Ht' & Hnt' & _).
    pose proof (lookup_lt_Some _ _ _ Et') as Hlt'.
    cbn [truthy]. msteps. rewrite Hnt. msteps. rewrite Hnt'.
    destruct (ls !! S (S (2 * j))) as [t''|] eqn:Et''.
    + pose proof (lookup_lt_Some _ _ _ Et'') as Hlt''.
      cbn [truthy]. rewrite Ex. msteps. rewrite Hnx, Hnt. msteps. rewrite Hnt'.
      rewrite <- Et''. replace (S (S (2 * j))) with (2 * S j) by lia.
      apply IH; lia.
    + apply lookup_ge_None in Et''. cbn [truthy].
      assert (j = mid) as -> by lia. reflexivity.
  - apply lookup_ge_None in Et'. cbn [truthy].
    assert (j = mid) as -> by lia. reflexivity.
Qed.

Lemma reorderList_reverse_spec m b0 todo :
  forall fuel h X done,
    m < length h -> b0 < length h -> next_of h m = X ->
    lseg h X done (Some b0) -> chain h (next_of h b0) todo ->
    m <> b0 -> (m ∉ done) -> (m ∉ todo) -> (b0 ∉ done) -> (b0 ∉ todo) ->
    NoDup todo -> (forall x, x ∈ todo -> x ∉ done) ->
    length todo < fuel ->
    exists h',
      reorderList_reverse fuel (Some m) (Some b0) h = (Ok tt, h') /\
      chain h' (Some m) (m :: rev todo ++ done ++ [b0]) /\
      frame (m :: b0 :: todo) h h'.
Proof.
  induction todo as [|c todo' IH];
    intros fuel h X done Hm Hb0 HX Hdone Htodo Hmb Hmd Hmt Hbd Hbt Hnd Hdisj Hf;
    (destruct fuel as [|fuel]; [simpl in Hf; lia|]);
    cbn [reorderList_reverse].
  - red in Htodo. simpl in Htodo. msteps. rewrite Htodo. cbn [truthy].
    exists h. split; [reflexivity|]. split; [|apply frame_refl].
    cbn [rev app]. split; [reflexivity|]. split; [exact Hm|].
    rewrite HX. apply lseg_snoc. repeat split; assumption.
  - destruct Htodo as (Enb & Hcl & Htodo').
    apply NoDup_cons in Hnd as (Hct & Hnd').
    assert (m <> c) as Hmc
        by (intros ->; apply Hmt, elem_of_cons; left; reflexivity).
    assert (b0 <> c) as Hbc
        by (intros ->; apply Hbt, elem_of_cons; left; reflexivity).
    assert (c ∉ done) as Hcd
        by (apply Hdisj, elem_of_cons; left; reflexivity).
    assert (m ∉ todo') as Hmt'
        by (intros Hin; apply Hmt, elem_of_cons; right; exact Hin).
    assert (b0 ∉ todo') as Hbt'
        by (intros Hin; apply Hbt, elem_of_cons; right; exact Hin).
    msteps. rewrite Enb. cbn [truthy]. msteps. rewrite Enb. msteps.
    rewrite next_of_upd_ne by congruence. rewrite HX.
    set (h3 := upd (upd (upd h b0 (next_of h c)) c X) m (Some c)).
    destruct (IH fuel h3 (Some c) (c :: done)) as (h' & E & C & F).
    + unfold h3. rewrite !length_upd. exact Hm.
    + unfold h3. rewrite !length_upd. exact Hb0.
    + unfold h3. apply next_of_upd_eq. rewrite !length_upd. exact Hm.
    + split; [reflexivity|]. split; [unfold h3; rewrite !length_upd; exact Hcl|].
      unfold h3. rewrite next_of_upd_ne by exact Hmc.
      rewrite next_of_upd_eq by (rewrite length_upd; exact Hcl).
      apply lseg_upd; [exact Hmd|]. apply lseg_upd; [exact Hcd|].
      apply lseg_upd; [exact Hbd|]. exact Hdone.
    + unfold h3. rewrite next_of_upd_ne by exact Hmb.
      rewrite next_of_upd_ne by congruence.
      rewrite next_of_upd_eq by exact Hb0.
      apply lseg_upd; [exact Hmt'|]. apply lseg_upd; [exact Hct|].
      apply lseg_upd; [exact Hbt'|]. exact Htodo'.
    + exact Hmb.
    + intros Hin. apply elem_of_cons in Hin as [->|Hin]; contradiction.
    + exact Hmt'.
    + intros Hin. apply elem_of_cons in Hin as [->|Hin]; contradiction.
    + exact Hbt'.
    + exact Hnd'.
    + intros x Hx Hin. apply elem_of_cons in Hin as [->|Hin]; [contradiction|].
      apply (Hdisj x); [apply elem_of_cons; right; exact Hx|exact Hin].
    + simpl in Hf. lia.
    + exists h'. split; [exact E|]. split.
      * cbn [rev]. rewrite <- app_assoc. exact C.
      * eapply frame_trans; [|eapply frame_weaken; [|exact F]].
        -- unfold h3. eapply frame_trans; [|eapply frame_trans];
             [apply (frame_upd_in _ h b0 (next_of h c))
             |apply (frame_upd_in _ _ c X)
             |apply (frame_upd_in _ _ m (Some c))]; elem_norm; auto.
        -- intros l. elem_norm. tauto.
Qed.

Lemma interleave_nil_l R : interleave [] R = R.
Proof. destruct R; reflexivity. Qed.

Lemma interleave_single m R : interleave [m] R = m :: R.
Proof.
  destruct R as [|y R]; [reflexivity|]. cbn [interleave].
  destruct R; reflexivity.
Qed.

Lemma reorderList_merge_spec m Arem :
  forall Rrem fuel h p1,
    m < length h ->
    lseg h p1 Arem (Some m) -> chain h (next_of h m) Rrem ->
    NoDup (Arem ++ m :: Rrem) -> length Arem <= length Rrem ->
    length Arem < fuel ->
    exists h',
      reorderList_merge fuel (Some m) p1 (next_of h m) h = (Ok tt, h') /\
      chain h' p1 (interleave (Arem ++ [m]) Rrem) /\
      frame (m :: Arem ++ Rrem) h h'.
Proof.
  induction Arem as [|a A' IH]; intros Rrem fuel h p1 Hm HA HR Hnd Hlen Hf;
    (destruct fuel as [|fuel]; [simpl in Hf; lia|]);
    cbn [reorderList_merge].
  - simpl in HA. subst p1. rewrite ptr_eqb_refl. cbn [negb].
    exists h. split; [reflexivity|]. split; [|apply frame_refl].
    cbn [app]. rewrite interleave_single. split; [reflexivity|].
    split; [exact Hm|exact HR].
  - destruct Rrem as [|r R']; [simpl in Hlen; lia|].
    destruct HA as (-> & Ha & HA'). pose proof HR as (Enm & Hr & HR').
    pose proof Hnd as Hnd0.
    apply NoDup_cons in Hnd as (HaN & Hnd).
    apply NoDup_app in Hnd as (HndA & HdA & Hnd).
    apply NoDup_cons in Hnd as (HmN & Hnd).
    apply NoDup_cons in Hnd as (HrN & HndR).
    assert (a <> m) as Ham.
    { intros ->. apply HaN. apply elem_of_app. right.
      apply elem_of_cons. left. reflexivity. }
    assert (a <> r) as Har.
    { intros ->. apply HaN. apply elem_of_app. right.
      apply elem_of_cons. right. apply elem_of_cons. left. reflexivity. }
    assert (m <> r) as Hmr.
    { intros ->. apply HmN. apply elem_of_cons. left. reflexivity. }
    assert (a ∉ A') as HaA.
    { intros Hin. apply HaN. apply elem_of_app. left. exact Hin. }
    assert (a ∉ R') as HaR.
    { intros Hin. apply HaN. apply elem_of_app. right.
      apply elem_of_cons. right. apply elem_of_cons. right. exact Hin. }
    assert (m ∉ A') as HmA.
    { intros Hin. apply (HdA m Hin). apply elem_of_cons. left. reflexivity. }
    assert (m ∉ R') as HmR.
    { intros Hin. apply HmN. apply elem_of_cons. right. exact Hin. }
    assert (r ∉ A') as HrA.
    { intros Hin. apply (HdA r Hin). apply elem_of_cons. right.
      apply elem_of_cons. left. reflexivity. }
    rewrite ptr_eqb_ne by congruence. cbn [negb].
    rewrite Enm. msteps.
    set (an := next_of h a). set (rn := next_of h r).
    assert (next_of (upd h m rn) a = an) as Ean
        by (apply next_of_upd_ne; congruence).
    rewrite Ean.
    set (h3 := upd (upd (upd h m rn) r an) a (Some r)).
    assert (next_of h3 m = rn) as Em3.
    { unfold h3. rewrite next_of_upd_ne by congruence.
      rewrite next_of_upd_ne by congruence. apply next_of_upd_eq. exact Hm. }
    assert (next_of h3 r = an) as Er3.
    { unfold h3. rewrite next_of_upd_ne by congruence.
      apply next_of_upd_eq. rewrite length_upd. exact Hr. }
    rewrite Er3.
    destruct (IH R' fuel h3 an) as (h' & E & C & F).
    + unfold h3. rewrite !length_upd. exact Hm.
    + unfold h3. apply lseg_upd; [exact HaA|]. apply lseg_upd; [exact HrA|].
      apply lseg_upd; [exact HmA|]. exact HA'.
    + rewrite Em3. unfold h3. apply lseg_upd; [exact HaR|].
      apply lseg_upd; [exact HrN|]. apply lseg_upd; [exact HmR|]. exact HR'.
    + apply NoDup_app. split; [exact HndA|]. split.
      * intros x Hx Hin. apply (HdA x Hx).
        apply elem_of_cons in Hin as [->|Hin];
          [apply elem_of_cons; left; reflexivity|].
        apply elem_of_cons. right. apply elem_of_cons. right. exact Hin.
      * apply NoDup_cons. split; assumption.
    + simpl in Hlen. lia.
    + simpl in Hf. lia.
    + exists h'. split; [exact E|]. split.
      * cbn [app interleave].
        assert (a ∉ m :: A' ++ R') as HaF by (elem_norm; tauto).
        assert (r ∉ m :: A' ++ R') as HrF.
        { elem_norm. intros [->|[Hin|Hin]]; [congruence|contradiction|contradiction]. }
        split; [reflexivity|].
        split; [rewrite (frame_length _ _ _ F); unfold h3; rewrite !length_upd; exact Ha|].
        rewrite (frame_next _ _ _ F a HaF). unfold h3 at 1.
        rewrite next_of_upd_eq by (rewrite !length_upd; exact Ha).
        split; [reflexivity|].
        split; [rewrite (frame_length _ _ _ F); unfold h3; rewrite !length_upd; exact Hr|].
        rewrite (frame_next _ _ _ F r HrF). unfold h3 at 1.
        rewrite next_of_upd_ne by congruence.
        rewrite next_of_upd_eq by (rewrite length_upd; exact Hr).
        exact C.
      * eapply frame_trans; [|eapply frame_weaken; [|exact F]].
        -- unfold h3. eapply frame_trans; [|eapply frame_trans];
             [apply (frame_upd_in _ h m rn)
             |apply (frame_upd_in _ _ r an)
             |apply (frame_upd_in _ _ a (Some r))]; elem_norm; auto.
        -- intros l. elem_norm. tauto.
Qed.

Lemma interleave_lookup_even :
  forall i a b,
    i < length a -> i <= length b -> interleave a b !! (2 * i) = a !! i.
Proof.
  induction i as [|i IH]; intros a b Ha Hb.
  - destruct a as [|x a]; [simpl in Ha; lia|]. destruct b; reflexivity.
  - destruct a as [|x a]; [simpl in Ha; lia|].
    destruct b as [|y b]; [simpl in Hb; lia|].
    replace (2 * S i) with (S (S (2 * i))) by lia. cbn [interleave].
    cbn [lookup list_lookup]. apply IH; simpl in *; lia.
Qed.

Lemma interleave_lookup_odd :
  forall i a b,
    i < length a -> i < length b -> interleave a b !! (2 * i + 1) = b !! i.
Proof.
  induction i as [|i IH]; intros a b Ha Hb.
  - destruct a as [|x a]; [simpl in Ha; lia|].
    destruct b; [simpl in Hb; lia|reflexivity].
  - destruct a as [|x a]; [simpl in Ha; lia|].
    destruct b as [|y b]; [simpl in Hb; lia|].
    replace (2 * S i + 1) with (S (S (2 * i + 1))) by lia. cbn [interleave].
    cbn [lookup list_lookup]. apply IH; simpl in *; lia.
Qed.

Lemma reorderList_spec h head ls mid fuel :
  chain h head ls ->
  2 * mid + 1 <= length ls <= 2 * mid + 2 \/ (ls = [] /\ mid = 0) ->
  length ls < fuel ->
  exists h',
    reorderList fuel head h = (Ok head, h') /\
    chain h' head (interleave (take (S mid) ls) (rev (drop (S mid) ls))) /\
    (forall l, val_of h' l = val_of h l).
Proof.
  intros Hc Hmid Hf. unfold reorderList.
  destruct ls as [|x0 [|x1 t]] eqn:Els.
  - red in Hc. simpl in Hc. subst head. cbn [truthy negb]. msteps.
    exists h. repeat split.
  - assert (mid = 0) as -> by (simpl in Hmid; lia).
    destruct Hc as (-> & Hx0 & Hn). red in Hn. simpl in Hn.
    cbn [truthy negb]. msteps. rewrite Hn. cbn [truthy negb].
    exists h. split; [reflexivity|]. split; [|reflexivity].
    cbn. repeat split; assumption.
  - rewrite <- Els in *.
    assert (2 <= length ls) as Hn2 by (rewrite Els; simpl; lia).
    destruct Hmid as [Hmid|[E _]]; [|rewrite E in Hn2; simpl in Hn2; lia].
    assert (head = Some x0 /\ x0 < length h /\ next_of h x0 = Some x1)
      as (-> & Hx0 & Hnx0).
    { rewrite Els in Hc. destruct Hc as (-> & Hx0 & -> & _).
      repeat split; assumption. }
    clear Els. cbn [truthy negb]. msteps. rewrite Hnx0. cbn [truthy negb].
    pose proof (reorderList_middle_spec h (Some x0) ls mid Hc Hmid fuel 0
                  ltac:(lia) ltac:(lia)) as E1.
    change (2 * 0) with 0 in E1. rewrite <- (chain_head _ _ _ Hc) in E1.
    rewrite (bind_eq _ _ _ _ _ E1).
    destruct (lookup_lt_is_Some_2 ls mid ltac:(lia)) as [m Em].
    destruct (lookup_lt_is_Some_2 ls (S mid) ltac:(lia)) as [b0 Eb].
    destruct (chain_lookup _ _ _ _ _ Hc Em) as (Hm & Hnm & _).
    destruct (chain_lookup _ _ _ _ _ Hc Eb) as (Hb0 & Hnb & _).
    rewrite Em. msteps. rewrite Hnm, Eb.
    set (A' := take mid ls). set (B' := drop (S (S mid)) ls).
    assert (ls = A' ++ m :: b0 :: B') as Els.
    { unfold A', B'. rewrite <- (take_drop mid ls) at 1. f_equal.
      rewrite (drop_S _ _ _ Em). f_equal. apply drop_S. exact Eb. }
    pose proof (chain_NoDup _ _ _ Hc) as Hnd. rewrite Els in Hnd.
    pose proof Hnd as Hnd0.
    apply NoDup_app in Hnd as (HndA & HdA & Hnd).
    apply NoDup_cons in Hnd as (HmN & Hnd).
    apply NoDup_cons in Hnd as (HbN & HndB).
    pose proof Hc as Hc0. rewrite Els in Hc0.
    apply lseg_app in Hc0 as (pm & HA & Hc0).
    destruct Hc0 as (-> & _ & Hc0). destruct Hc0 as (_ & _ & HB).
    destruct (reorderList_reverse_spec m b0 B' fuel h (Some b0) [])
      as (h2 & E2 & C2 & F2); try assumption.
    { rewrite Hnm. exact Eb. }
    { reflexivity. }
    { intros ->. apply HmN. apply elem_of_cons. left. reflexivity. }
    { apply not_elem_of_nil. }
    { intros Hin. apply HmN. apply elem_of_cons. right. exact Hin. }
    { apply not_elem_of_nil. }
    { intros x _. apply not_elem_of_nil. }
    { unfold B'. rewrite length_drop. lia. }
    rewrite (bind_eq _ _ _ _ _ E2).
    cbn [app] in C2.
    change (rev B' ++ [b0]) with (rev (b0 :: B')) in C2.
    assert (lseg h2 (Some x0) A' (Some m)) as HA2.
    { eapply lseg_frame; [exact F2| |exact HA].
      intros l Hl Hin. apply (HdA l Hl). exact Hin. }
    assert (chain h2 (Some x0) (A' ++ m :: rev (b0 :: B'))) as Hc2.
    { apply lseg_app. exists (Some m). split; [exact HA2|exact C2]. }
    assert (length (A' ++ m :: rev (b0 :: B')) = length ls) as Hlen2.
    { transitivity (length (A' ++ m :: b0 :: B'));
        [|rewrite <- Els; reflexivity].
      rewrite !length_app. cbn [length].
      rewrite length_rev. cbn [length]. reflexivity. }
    rewrite (bind_eq _ _ _ _ _
               (printList_spec _ fuel h2 (Some x0) Hc2 ltac:(lia))).
    destruct C2 as (_ & Hm2 & C2).
    msteps.
    destruct (reorderList_merge_spec m A' (rev (b0 :: B')) fuel h2 (Some x0)
                Hm2 HA2 C2) as (h3 & E3 & C3 & F3).
    { eapply chain_NoDup. exact Hc2. }
    { unfold A', B'. rewrite length_take, length_rev. cbn [length].
      rewrite length_drop. lia. }
    { unfold A'. rewrite length_take. lia. }
    rewrite (bind_eq _ _ _ _ _ E3). msteps.
    exists h3. split; [reflexivity|]. split.
    + replace (take (S mid) ls) with (A' ++ [m])
        by (symmetry; apply take_S_r; exact Em).
      replace (drop (S mid) ls) with (b0 :: B')
        by (symmetry; apply drop_S; exact Eb).
      exact C3.
    + intros l. rewrite (frame_value _ _ _ F3). apply (frame_value _ _ _ F2).
Qed.

End reorder.

Lemma rev_lookup (l : list loc) i :
  i < length l -> rev l !! i = l !! (length l - S i).
Proof.
  intros Hi. rewrite rev_alt. change (rev_append l []) with (reverse l).
  apply reverse_lookup. exact Hi.
Qed.

(** X28: [reorderList] relinks an acyclic chain [L0, L1, ..., Ln-1] in
    place into [L0, Ln-1, L1, Ln-2, ...]: the first half (the longer one for
    an odd length) interleaved with the reversed second half.  It returns
    the head it was given, and node values are not changed. *)
Theorem reorderList_interleaves :
  forall h head ls fuel,
    chain h head ls -> length ls < fuel ->
    exists h' out,
      reorderList fuel head h = (Ok head, h') /\
      chain h' head out /\
      out = interleave (take (S ((length ls - 1) / 2)) ls)
              (rev (drop (S ((length ls - 1) / 2)) ls)) /\
      vals h' ls = vals h ls /\
      (forall i, 2 * i < length ls -> out !! (2 * i) = ls !! i) /\
      (forall i, 2 * i + 1 < length ls ->
                 out !! (2 * i + 1) = ls !! (length ls - 1 - i)).
Proof.
  intros h head ls fuel Hc Hf.
  set (mid := (length ls - 1) / 2).
  assert (2 * mid <= length ls - 1 <= 2 * mid + 1) as Hmid.
  { unfold mid. pose proof (Nat.div_mod_eq (length ls - 1) 2) as Hd.
    pose proof (Nat.mod_upper_bound (length ls - 1) 2 ltac:(lia)). lia. }
  destruct (reorderList_spec h head ls mid fuel Hc) as (h' & E & C & V).
  { destruct ls as [|x t]; [right; split; reflexivity|left].
    simpl in Hmid |- *. lia. }
  { exact Hf. }
  exists h', (interleave (take (S mid) ls) (rev (drop (S mid) ls))).
  split; [exact E|]. split; [exact C|]. split; [reflexivity|].
  split; [unfold vals; apply map_ext; exact V|]. split.
  - intros i Hi.
    rewrite interleave_lookup_even
      by (rewrite ?length_rev, ?length_take, ?length_drop; lia).
    apply lookup_take_lt. lia.
  - intros i Hi.
    rewrite interleave_lookup_odd
      by (rewrite ?length_rev, ?length_take, ?length_drop; lia).
    rewrite rev_lookup by (rewrite length_drop; lia).
    rewrite lookup_drop, length_drop. f_equal. lia.
Qed.

Lemma reorderList_interleaves_witness :
  chain heap123 (Some 0) [0; 1; 2] /\ length [0; 1; 2] < 4 /\
  exists h' out,
    reorderList 4 (Some 0) heap123 = (Ok (Some 0), h') /\
    chain h' (Some 0) out /\
    out = interleave (take (S ((length [0; 1; 2] - 1) / 2)) [0; 1; 2])
            (rev (drop (S ((length [0; 1; 2] - 1) / 2)) [0; 1; 2])) /\
    vals h' [0; 1; 2] = vals heap123 [0; 1; 2] /\
    (forall i, 2 * i < length [0; 1; 2] -> out !! (2 * i) = [0; 1; 2] !! i) /\
    (forall i, 2 * i + 1 < length [0; 1; 2] ->
               out !! (2 * i + 1) = [0; 1; 2] !! (length [0; 1; 2] - 1 - i)).
Proof.
  assert (chain heap123 (Some 0) [0; 1; 2]) as Hc.
  { unfold chain, heap123; simpl. repeat split; lia. }
  assert (length [0; 1; 2] < 4) as Hf by (simpl; lia).
  split; [exact Hc|]. split; [exact Hf|].
  exact (reorderList_interleaves heap123 (Some 0) [0; 1; 2] 4 Hc Hf).
Defined.
